(** * LANHub: relay, key envelopes, message merge and chunked transfers

    A shallow embedding of the parts of LANHub that its specification makes
    promises about:

    - the in-memory relay of [src/app/api/ws/route.ts] (module [Relay]);
    - the key-envelope functions of [src/lib/crypto] (module [Crypto]);
    - the local-storage helpers of [src/lib/local-storage.ts] (module
      [Storage]);
    - the client logic of [src/contexts/AppContext.tsx]: message merge,
      sending, dismissal of transfers and the receive loop (module [Client]).

    JavaScript numbers that the code uses as counters, indices, sequence
    numbers and timestamps are integers and are modelled by [Z]; [Map]s keyed
    by strings or numbers are [gmap]s; arrays and JSON lists are [list]s. *)

From Stdlib Require Import ZArith Lia.
From stdpp Require Import base option list gmap sets strings sorting.

Local Open Scope Z_scope.

(** ** JavaScript idioms used by the sources *)

(** Truthiness of an optional string field: [undefined] and the empty string
    are falsy. *)
Definition truthy (o : option string) : bool :=
  match o with
  | Some s => bool_decide (s ≠ EmptyString)
  | None => false
  end.

(** [a || d] on an optional number: [undefined] and [0] select [d]. *)
Definition num_or (o : option Z) (d : Z) : Z :=
  match o with
  | Some v => if bool_decide (v = 0) then d else v
  | None => d
  end.

(** [a ?? d] on an optional number. *)
Definition num_nullish (o : option Z) (d : Z) : Z := default d o.

(** [Array.from(new Set(l))]: a [Set] keeps the first insertion of every
    value, in insertion order. *)
Definition set_add (acc : list string) (x : string) : list string :=
  if bool_decide (x ∈ acc) then acc else acc ++ [x].

Definition array_from_set (l : list string) : list string :=
  foldl set_add [] l.

(** [arr.includes(x)]. *)
Definition includes (l : list string) (x : string) : bool := bool_decide (x ∈ l).

(** [arr.filter(u => u !== x)]. *)
Definition without (x : string) (l : list string) : list string :=
  filter (λ u, u ≠ x) l.

(** [if (!arr.includes(x)) arr.push(x)]. *)
Definition push_if_absent (l : list string) (x : string) : list string :=
  if includes l x then l else l ++ [x].

(** Raw bytes ([Uint8Array]). *)
Definition bytes := list Byte.byte.

(** ** Shared data model ([src/types/index.ts]) *)

Inductive UserStatus := online | away | offline.

Record User := mkUser {
  user_id : string;
  username : string;
  displayName : string;
  isAdmin : bool;
  status : UserStatus;
  lastSeen : Z;
  (* the ECDH public key travels with the user record; the relay never looks
     inside it, so it is kept as its JSON text *)
  publicKeyJwk : option string;
}.

Inductive DeviceType := desktop | mobile | tablet | other.

Record Device := mkDevice {
  device_id : string;
  device_name : string;
  device_type : DeviceType;
  ipAddress : string;
  device_userId : option string;
  isOnline : bool;
  device_lastSeen : Z;
}.

Inductive MessageType := m_text | m_file | m_system.

Record Message := mkMessage {
  msg_id : string;
  senderId : string;
  senderName : string;
  content : string;
  timestamp : Z;
  msg_roomId : option string;
  msg_type : MessageType;
  seq : option Z;
  enc : option bool;
  msg_nonce : option string;
  alg : option string;
}.

Record ChatRoom := mkRoom {
  room_id : string;
  room_name : string;
  participants : list string;
  createdBy : string;
  createdAt : Z;
  isPublic : bool;
  admins : option (list string);
}.

Inductive TransferStatus :=
  st_pending | st_transferring | st_completed | st_failed | st_cancelled.

Record FileTransfer := mkFileTransfer {
  ft_id : string;
  ft_fileName : string;
  ft_fileSize : Z;
  ft_senderId : string;
  ft_senderName : string;
  receiverId : option string;
  ft_recipients : option (list string);
  progress : Z;
  ft_status : TransferStatus;
  ft_timestamp : Z;
  (* the object URL of the assembled Blob, identified with the bytes it
     resolves to *)
  downloadUrl : option bytes;
  ft_totalChunks : option Z;
}.

#[global] Instance UserStatus_eq_dec : EqDecision UserStatus.
Proof. solve_decision. Defined.
#[global] Instance MessageType_eq_dec : EqDecision MessageType.
Proof. solve_decision. Defined.
#[global] Instance TransferStatus_eq_dec : EqDecision TransferStatus.
Proof. solve_decision. Defined.

(** ** The relay ([src/app/api/ws/route.ts]) *)

Module Relay.

(** One stored chunk: base64 ciphertext and nonce. *)
Record Chunk := mkChunk { data : string; chunk_nonce : string }.

(** An entry of the [fileTransfers] table. *)
Record Transfer := mkTransfer {
  id : string;
  t_senderId : string;
  t_senderName : string;
  fileName : string;
  fileSize : Z;
  totalChunks : Z;
  recipients : option (list string);
  t_createdAt : Z;
  completed : bool;
  chunks : gmap Z Chunk;
}.

Record Envelope := mkEnvelope {
  epk : string; saltB64 : string; nonceB64 : string; ctB64 : string }.

Record KeyUpdate := mkKeyUpdate {
  fromUserId : option string;
  envelope : Envelope;
  ku_timestamp : Z;
}.

(** The module-level variables of the route. *)
Record State := mkState {
  messageHistory : list Message;
  messageSeq : Z;
  onlineUsers : gmap string User;
  deviceRegistry : gmap string Device;
  keyUpdates : gmap string (list KeyUpdate);
  rooms : gmap string ChatRoom;
  fileTransfers : gmap string Transfer;
}.

(** The state of a freshly started relay. *)
Definition init : State :=
  {| messageHistory := []; messageSeq := 0; onlineUsers := ∅;
     deviceRegistry := ∅; keyUpdates := ∅; rooms := ∅; fileTransfers := ∅ |}.

(** *** Request payloads *)

Record CreateRoomPayload := mkCreateRoom {
  cr_id : option string;
  cr_name : option string;
  cr_createdBy : option string;
  cr_isPublic : bool;
  cr_participants : option (list string);
  cr_admins : option (list string);
}.

Record UpdateRoomPayload := mkUpdateRoom {
  ur_roomId : string;
  byUserId : string;
  addParticipant : option string;
  removeParticipant : option string;
  addAdmin : option string;
  removeAdmin : option string;
  transferOwnerTo : option string;
}.

(** The requests the client issues carry one mutation each: [kickMember]
    sends [removeParticipant], [setRoomAdmin] sends [addAdmin] or
    [removeAdmin], [transferRoomOwner] sends [transferOwnerTo]. *)
Inductive RoomOp :=
| op_addParticipant (u : string)
| op_removeParticipant (u : string)
| op_addAdmin (u : string)
| op_removeAdmin (u : string)
| op_transferOwnerTo (u : string).

Definition single (roomId actor : string) (op : RoomOp) : UpdateRoomPayload :=
  match op with
  | op_addParticipant u => mkUpdateRoom roomId actor (Some u) None None None None
  | op_removeParticipant u => mkUpdateRoom roomId actor None (Some u) None None None
  | op_addAdmin u => mkUpdateRoom roomId actor None None (Some u) None None
  | op_removeAdmin u => mkUpdateRoom roomId actor None None None (Some u) None
  | op_transferOwnerTo u => mkUpdateRoom roomId actor None None None None (Some u)
  end.

Record KeyUpdatePayload := mkKeyUpdatePayload {
  targetUserId : option string;
  ku_fromUserId : option string;
  ku_envelope : option Envelope;
}.

Record InitTransferPayload := mkInitTransfer {
  it_id : string;
  it_senderId : string;
  it_senderName : string;
  it_fileName : string;
  it_fileSize : Z;
  it_totalChunks : Z;
  it_recipients : option (list string);
}.

Record UploadChunkPayload := mkUploadChunk {
  transferId : string;
  index : Z;
  uc_totalChunks : option Z;
  uc_data : string;
  uc_nonce : string;
}.

Inductive Request :=
| register_user (payload : User)
| unregister_user (userId : string)
| heartbeat (userId : string) (lastSeq : option Z)
| create_room (payload : CreateRoomPayload)
| update_room (payload : UpdateRoomPayload)
| delete_room (roomId byUser : string)
| send_message (payload : Message)
| register_device (payload : Device)
| key_update (payload : KeyUpdatePayload)
| init_file_transfer (payload : InitTransferPayload)
| upload_chunk (payload : UploadChunkPayload)
| list_file_transfers (userId : string)
| download_file_chunk (userId transfer : string) (idx : Z)
| get_state
| unknown_type.

(** *** Responses *)

Record Announcement := mkAnnouncement {
  an_id : string;
  an_senderId : string;
  an_senderName : string;
  an_fileName : string;
  an_fileSize : Z;
  an_totalChunks : Z;
  an_recipients : option (list string);
  an_createdAt : Z;
  an_completed : bool;
}.

Record Listing := mkListing {
  li_id : string;
  li_senderId : string;
  li_senderName : string;
  li_fileName : string;
  li_fileSize : Z;
  li_totalChunks : Z;
  li_completed : bool;
  availableChunks : list Z;
}.

Record HeartbeatBody := mkHeartbeatBody {
  hb_onlineUsers : list User;
  newMessages : list Message;
  hb_lastSeq : Z;
  hb_keyUpdates : list KeyUpdate;
  fileAnnouncements : list Announcement;
  hb_devices : list Device;
  hb_rooms : list ChatRoom;
}.

Inductive Body :=
| registered (users : list User) (messages : list Message)
| success
| heartbeat_body (b : HeartbeatBody)
| room_list (rs : list ChatRoom)
| room_updated (room : ChatRoom) (rs : list ChatRoom)
| message_stored (message : Message)
| device_list (devices : list Device)
| chunk_received (received : Z)
| transfer_list (transfers : list Listing)
| chunk_body (idx : Z) (data nonce : string)
| state_body (users : list User) (messages : list Message) (lastSeq : Z)
    (devices : list Device) (rs : list ChatRoom).

Inductive Response :=
| ok (body : Body)
| error (status : Z) (msg : string).

(** [Array.from(m.values())].  A [Map] lists its values in insertion order;
    the list here comes in the order of the finite map, and nothing below
    depends on the order of such a list. *)
Definition values {K} `{Countable K} {V} (m : gmap K V) : list V :=
  (map_to_list m).*2.

(** *** Field updates *)

Definition set_participants (r : ChatRoom) (ps : list string) : ChatRoom :=
  mkRoom (room_id r) (room_name r) ps (createdBy r) (createdAt r) (isPublic r) (admins r).
Definition set_admins (r : ChatRoom) (a : option (list string)) : ChatRoom :=
  mkRoom (room_id r) (room_name r) (participants r) (createdBy r) (createdAt r) (isPublic r) a.
Definition set_createdBy (r : ChatRoom) (o : string) : ChatRoom :=
  mkRoom (room_id r) (room_name r) (participants r) o (createdAt r) (isPublic r) (admins r).

Definition set_messages (s : State) (h : list Message) (n : Z) : State :=
  mkState h n (onlineUsers s) (deviceRegistry s) (keyUpdates s) (rooms s) (fileTransfers s).
Definition set_onlineUsers (s : State) (u : gmap string User) : State :=
  mkState (messageHistory s) (messageSeq s) u (deviceRegistry s) (keyUpdates s) (rooms s)
    (fileTransfers s).
Definition set_deviceRegistry (s : State) (d : gmap string Device) : State :=
  mkState (messageHistory s) (messageSeq s) (onlineUsers s) d (keyUpdates s) (rooms s)
    (fileTransfers s).
Definition set_keyUpdates (s : State) (k : gmap string (list KeyUpdate)) : State :=
  mkState (messageHistory s) (messageSeq s) (onlineUsers s) (deviceRegistry s) k (rooms s)
    (fileTransfers s).
Definition set_rooms (s : State) (r : gmap string ChatRoom) : State :=
  mkState (messageHistory s) (messageSeq s) (onlineUsers s) (deviceRegistry s) (keyUpdates s) r
    (fileTransfers s).
Definition set_fileTransfers (s : State) (f : gmap string Transfer) : State :=
  mkState (messageHistory s) (messageSeq s) (onlineUsers s) (deviceRegistry s) (keyUpdates s)
    (rooms s) f.

(** *** register_user, unregister_user *)

Definition handle_register_user (now : Z) (payload : User) (s : State) : Response * State :=
  let u := mkUser (user_id payload) (username payload) (displayName payload)
             (isAdmin payload) online now (publicKeyJwk payload) in
  let s' := set_onlineUsers s (<[user_id payload := u]> (onlineUsers s)) in
  (ok (registered (values (onlineUsers s')) (messageHistory s')), s').

Definition handle_unregister_user (userId : string) (s : State) : Response * State :=
  (ok success, set_onlineUsers s (delete userId (onlineUsers s))).

(** *** heartbeat *)

Definition touch_user (now : Z) (u : User) : User :=
  mkUser (user_id u) (username u) (displayName u) (isAdmin u) (status u) now (publicKeyJwk u).

Definition touch_device (now : Z) (userId : string) (d : Device) : Device :=
  if bool_decide (device_userId d = Some userId)
  then mkDevice (device_id d) (device_name d) (device_type d) (ipAddress d)
         (device_userId d) true now
  else d.

(** [Array.isArray(t.recipients) ? t.recipients.includes(userId) : true]. *)
Definition may_receive (userId : string) (t : Transfer) : bool :=
  match recipients t with
  | Some rs => includes rs userId
  | None => true
  end.

Definition announce (t : Transfer) : Announcement :=
  mkAnnouncement (id t) (t_senderId t) (t_senderName t) (fileName t) (fileSize t)
    (totalChunks t) (recipients t) (t_createdAt t) (completed t).

(** [messageHistory.filter(m => (m.seq ?? 0) > lastSeq)]. *)
Definition messages_since (lastSeq : Z) (h : list Message) : list Message :=
  filter (λ m, lastSeq < num_nullish (seq m) 0) h.

Definition handle_heartbeat (now : Z) (userId : string) (cursor : option Z) (s : State)
  : Response * State :=
  let users' :=
    match onlineUsers s !! userId with
    | Some user => <[userId := touch_user now user]> (onlineUsers s)
    | None => onlineUsers s
    end in
  let devices' := touch_device now userId <$> deviceRegistry s in
  let lastSeq := num_or cursor 0 in
  let newMessages := messages_since lastSeq (messageHistory s) in
  let announcements :=
    announce <$> filter (may_receive userId) (values (fileTransfers s)) in
  let queued := default [] (keyUpdates s !! userId) in
  let s' := set_keyUpdates (set_deviceRegistry (set_onlineUsers s users') devices')
              (<[userId := []]> (keyUpdates s)) in
  (ok (heartbeat_body
         (mkHeartbeatBody (values users') newMessages (messageSeq s) queued announcements
            (values devices') (values (rooms s)))),
   s').

(** *** create_room *)

Definition handle_create_room (now : Z) (payload : CreateRoomPayload) (s : State)
  : Response * State :=
  match cr_id payload, cr_name payload, cr_createdBy payload with
  | Some rid, Some name, Some creator =>
      if negb (truthy (Some rid)) || negb (truthy (Some name)) || negb (truthy (Some creator))
      then (error 400 "Invalid create_room payload", s)
      else if bool_decide (is_Some (rooms s !! rid))
      then (error 400 "Room already exists", s)
      else
        let room :=
          mkRoom rid name
            (array_from_set (default [] (cr_participants payload) ++ [creator]))
            creator now (cr_isPublic payload)
            (Some (default [] (cr_admins payload))) in
        let rooms' := <[rid := room]> (rooms s) in
        (ok (room_list (values rooms')), set_rooms s rooms')
  | _, _, _ => (error 400 "Invalid create_room payload", s)
  end.

(** *** update_room *)

(** [if (payload.field) { ... }]: the mutation runs when the field is a
    non-empty string. *)
Definition when_set (o : option string) (f : string → ChatRoom → ChatRoom) (r : ChatRoom)
  : ChatRoom :=
  match o with
  | Some u => if truthy (Some u) then f u r else r
  | None => r
  end.

Definition do_addParticipant (u : string) (r : ChatRoom) : ChatRoom :=
  set_participants r (array_from_set (participants r ++ [u])).

Definition do_removeParticipant (u : string) (r : ChatRoom) : ChatRoom :=
  let r1 := set_participants r (without u (participants r)) in
  (* also drop admin if removed *)
  let r2 := set_admins r1 (without u <$> admins r1) in
  (* prevent removing owner from participants *)
  set_participants r2 (push_if_absent (participants r2) (createdBy r2)).

Definition do_addAdmin (target : string) (r : ChatRoom) : ChatRoom :=
  if bool_decide (target ≠ createdBy r) then
    let r1 := set_admins r (Some (array_from_set (default [] (admins r) ++ [target]))) in
    set_participants r1 (push_if_absent (participants r1) target)
  else r.

Definition do_removeAdmin (u : string) (r : ChatRoom) : ChatRoom :=
  set_admins r (Some (without u (default [] (admins r)))).

Definition do_transferOwnerTo (actor target : string) (r : ChatRoom) : ChatRoom :=
  if includes (participants r) target then
    let r1 := set_createdBy r target in
    (* ensure previous owner remains participant/admin as needed *)
    set_admins r1 (Some (array_from_set (default [] (admins r1) ++ [actor])))
  else r.

(** The block of mutations, in the order of the source. *)
Definition mutate (payload : UpdateRoomPayload) (r : ChatRoom) : ChatRoom :=
  let r := when_set (addParticipant payload) do_addParticipant r in
  let r := when_set (removeParticipant payload) do_removeParticipant r in
  let r := when_set (addAdmin payload) do_addAdmin r in
  let r := when_set (removeAdmin payload) do_removeAdmin r in
  when_set (transferOwnerTo payload) (do_transferOwnerTo (byUserId payload)) r.

Definition is_room_admin (actor : string) (r : ChatRoom) : bool :=
  let isOwner := bool_decide (createdBy r = actor) in
  isOwner || match admins r with Some a => includes a actor | None => false end.

(** [r] is the object stored under [payload.roomId]; it is mutated in place
    and then stored again under [r.id]. *)
Definition handle_update_room (payload : UpdateRoomPayload) (s : State) : Response * State :=
  match rooms s !! ur_roomId payload with
  | None => (error 404 "Room not found", s)
  | Some r =>
      if negb (is_room_admin (byUserId payload) r) then (error 403 "Forbidden", s)
      else
        let r' := mutate payload r in
        let rooms' := <[room_id r' := r']> (<[ur_roomId payload := r']> (rooms s)) in
        (ok (room_updated r' (values rooms')), set_rooms s rooms')
  end.

(** *** delete_room *)

Definition handle_delete_room (roomId byUser : string) (s : State) : Response * State :=
  match rooms s !! roomId with
  | None => (ok success, s)
  | Some r =>
      if negb (bool_decide (createdBy r = byUser)) then (error 403 "Forbidden", s)
      else
        let rooms' := delete roomId (rooms s) in
        (ok (room_list (values rooms')), set_rooms s rooms')
  end.

(** *** send_message *)

(** [{ ...payload, timestamp: Date.now(), seq: ++messageSeq }]. *)
Definition stamp (now n : Z) (payload : Message) : Message :=
  mkMessage (msg_id payload) (senderId payload) (senderName payload) (content payload)
    now (msg_roomId payload) (msg_type payload) (Some n) (enc payload) (msg_nonce payload)
    (alg payload).

(** [h.slice(-200)] when [h.length > 200]. *)
Definition trim (h : list Message) : list Message :=
  if bool_decide (200 < length h)%nat then drop (length h - 200)%nat h else h.

Definition handle_send_message (now : Z) (payload : Message) (s : State) : Response * State :=
  let n := messageSeq s + 1 in
  let message := stamp now n payload in
  (ok (message_stored message), set_messages s (trim (messageHistory s ++ [message])) n).

(** *** register_device, key_update *)

Definition handle_register_device (now : Z) (payload : Device) (s : State) : Response * State :=
  let d := mkDevice (device_id payload) (device_name payload) (device_type payload)
             (ipAddress payload) (device_userId payload) true now in
  let devices' := <[device_id payload := d]> (deviceRegistry s) in
  (ok (device_list (values devices')), set_deviceRegistry s devices').

Definition handle_key_update (now : Z) (payload : KeyUpdatePayload) (s : State)
  : Response * State :=
  match targetUserId payload, ku_envelope payload with
  | Some target, Some env =>
      if negb (truthy (Some target)) then (error 400 "Invalid key_update payload", s)
      else
        let queue := default [] (keyUpdates s !! target) in
        let entry := mkKeyUpdate (ku_fromUserId payload) env now in
        (ok success, set_keyUpdates s (<[target := queue ++ [entry]]> (keyUpdates s)))
  | _, _ => (error 400 "Invalid key_update payload", s)
  end.

(** *** init_file_transfer, upload_chunk *)

Definition handle_init_file_transfer (now : Z) (payload : InitTransferPayload) (s : State)
  : Response * State :=
  let t := mkTransfer (it_id payload) (it_senderId payload) (it_senderName payload)
             (it_fileName payload) (it_fileSize payload) (it_totalChunks payload)
             (it_recipients payload) now false ∅ in
  (ok success, set_fileTransfers s (<[it_id payload := t]> (fileTransfers s))).

(** The three statements run on the transfer object [t]:
    [t.totalChunks = payload.totalChunks || t.totalChunks],
    [t.chunks.set(payload.index, ...)] and
    [if (t.chunks.size >= t.totalChunks) t.completed = true]. *)
Definition store_chunk (payload : UploadChunkPayload) (t : Transfer) : Transfer :=
  let total := num_or (uc_totalChunks payload) (totalChunks t) in
  let chunks' := <[index payload := mkChunk (uc_data payload) (uc_nonce payload)]> (chunks t) in
  let completed' :=
    if bool_decide (total ≤ Z.of_nat (size chunks')) then true else completed t in
  mkTransfer (id t) (t_senderId t) (t_senderName t) (fileName t) (fileSize t) total
    (recipients t) (t_createdAt t) completed' chunks'.

Definition handle_upload_chunk (payload : UploadChunkPayload) (s : State) : Response * State :=
  match fileTransfers s !! transferId payload with
  | None => (error 400 "Unknown transfer", s)
  | Some t =>
      (ok (chunk_received (index payload)),
       set_fileTransfers s (<[transferId payload := store_chunk payload t]> (fileTransfers s)))
  end.

(** *** list_file_transfers, download_file_chunk *)

(** [Array.from(t.chunks.keys()).sort((a,b)=>a-b)]. *)
Definition sorted_keys (m : gmap Z Chunk) : list Z :=
  merge_sort Z.le (elements (dom m)).

Definition listing (t : Transfer) : Listing :=
  mkListing (id t) (t_senderId t) (t_senderName t) (fileName t) (fileSize t)
    (totalChunks t) (completed t) (sorted_keys (chunks t)).

Definition handle_list_file_transfers (userId : string) (s : State) : Response * State :=
  let list :=
    listing <$> filter (may_receive userId)
                  (filter (λ t, t_senderId t ≠ userId) (values (fileTransfers s))) in
  (ok (transfer_list list), s).

Definition handle_download_file_chunk (userId transfer : string) (idx : Z) (s : State)
  : Response * State :=
  match fileTransfers s !! transfer with
  | None => (error 404 "Not found", s)
  | Some t =>
      (* access control (best-effort; encryption still protects) *)
      if negb (may_receive userId t) then (error 403 "Forbidden", s)
      else
        match chunks t !! idx with
        | None => (error 404 "Chunk not ready", s)
        | Some chunk => (ok (chunk_body idx (data chunk) (chunk_nonce chunk)), s)
        end
  end.

(** *** get_state *)

Definition handle_get_state (s : State) : Response * State :=
  (ok (state_body (values (onlineUsers s)) (messageHistory s) (messageSeq s)
         (values (deviceRegistry s)) (values (rooms s))),
   s).

(** *** The [switch (type)] of [POST] *)

Definition POST (now : Z) (req : Request) (s : State) : Response * State :=
  match req with
  | register_user payload => handle_register_user now payload s
  | unregister_user userId => handle_unregister_user userId s
  | heartbeat userId lastSeq => handle_heartbeat now userId lastSeq s
  | create_room payload => handle_create_room now payload s
  | update_room payload => handle_update_room payload s
  | delete_room roomId byUser => handle_delete_room roomId byUser s
  | send_message payload => handle_send_message now payload s
  | register_device payload => handle_register_device now payload s
  | key_update payload => handle_key_update now payload s
  | init_file_transfer payload => handle_init_file_transfer now payload s
  | upload_chunk payload => handle_upload_chunk payload s
  | list_file_transfers userId => handle_list_file_transfers userId s
  | download_file_chunk userId transfer idx => handle_download_file_chunk userId transfer idx s
  | get_state => handle_get_state s
  | unknown_type => (error 400 "Unknown type", s)
  end.

(** *** The periodic cleanup of stale users and devices *)

Definition cleanup (now : Z) (s : State) : State :=
  let timeout := 35000 in
  let users' := filter (λ kv, ¬ timeout < now - lastSeen kv.2) (onlineUsers s) in
  let devices' := filter (λ kv, ¬ timeout < now - device_lastSeen kv.2) (deviceRegistry s) in
  set_deviceRegistry (set_onlineUsers s users') devices'.

(** *** Runs of the relay *)

(** What happens to the relay: a request is handled or the cleanup timer
    fires, each at some clock value. *)
Inductive Event :=
| request (now : Z) (req : Request)
| timer (now : Z).

Definition step (s : State) (e : Event) : State :=
  match e with
  | request now req => (POST now req s).2
  | timer now => cleanup now s
  end.

Definition run (events : list Event) (s : State) : State := foldl step s events.

End Relay.

(** ** Key envelopes ([src/lib/crypto]) *)

Module Crypto.

(** The WebCrypto operations the library calls, with the parameters it
    fixes (P-256, HKDF with SHA-256, AES-GCM with 256-bit keys).  A thrown
    exception is [None]. *)
Class SubtleCrypto := {
  JWK : Type;
  CryptoKey : Type;
  (** [hasSubtle()]: a secure context with [crypto.subtle]. *)
  hasSubtle : bool;
  (** [pub] and [priv] are the two halves of one generated ECDH key pair. *)
  ecdh_pair : JWK → JWK → Prop;
  (** [importKey] of both JWKs followed by [deriveBits(ECDH, 256)]. *)
  ecdh_deriveBits : JWK → JWK → option bytes;
  (** [importKey(raw, HKDF)] followed by [deriveKey] with salt and info. *)
  hkdf_deriveKey : bytes → bytes → bytes → option CryptoKey;
  (** [encrypt] and [decrypt] with [{ name: AES-GCM, iv }]. *)
  aesgcm_encrypt : CryptoKey → bytes → bytes → option bytes;
  aesgcm_decrypt : CryptoKey → bytes → bytes → option bytes;
  (** [exportKey(raw, key)] and [importKey(raw, ..., AES-GCM, true, ...)]. *)
  exportKey_raw : CryptoKey → option bytes;
  importKey_raw : bytes → option CryptoKey;
  (** [btoa] and [atob] on binary strings, [TextEncoder.encode]. *)
  btoa : bytes → string;
  atob : string → option bytes;
  utf8Encode : string → bytes;
}.

(** What the development relies on from those operations. *)
Class SubtleCryptoLaws `{SubtleCrypto} : Prop := {
  (** Both sides of a key agreement obtain the same bits. *)
  ecdh_agreement pubA privA pubB privB :
    ecdh_pair pubA privA → ecdh_pair pubB privB →
    ∃ z, ecdh_deriveBits privA pubB = Some z ∧ ecdh_deriveBits privB pubA = Some z;
  (** Key derivation from agreed bits succeeds. *)
  hkdf_total shared salt info : is_Some (hkdf_deriveKey shared salt info);
  (** Decryption under the same key and nonce inverts encryption. *)
  aesgcm_inverse k iv m :
    ∃ c, aesgcm_encrypt k iv m = Some c ∧ aesgcm_decrypt k iv c = Some m;
  (** Raw key material that was exported can be imported again, and the
      imported key holds the same material. *)
  raw_import raw k :
    exportKey_raw k = Some raw →
    ∃ k', importKey_raw raw = Some k' ∧ exportKey_raw k' = Some raw;
  (** [atob] decodes what [btoa] encodes. *)
  atob_btoa b : atob (btoa b) = Some b;
}.

Section functions.
Context `{SubtleCrypto}.

(** [if (!hasSubtle()) throw ...]. *)
Definition require_subtle : option unit :=
  if hasSubtle then Some () else None.

Definition bytesToBase64 (b : bytes) : string := btoa b.
Definition base64ToBytes (b64 : string) : option bytes := atob b64.

Definition exportAesRaw (key : CryptoKey) : option bytes :=
  require_subtle ;; exportKey_raw key.

Definition importAesRaw (raw : bytes) : option CryptoKey :=
  require_subtle ;; importKey_raw raw.

(** [randomBytes(12)] is the argument [nonce]. *)
Definition aesEncryptBytes (nonce : bytes) (key : CryptoKey) (data : bytes)
  : option (string * string) :=
  require_subtle ;;
  ct ← aesgcm_encrypt key nonce data;
  Some (bytesToBase64 nonce, bytesToBase64 ct).

Definition aesDecryptBytes (key : CryptoKey) (ctB64 nonceB64 : string) : option bytes :=
  require_subtle ;;
  nonce ← base64ToBytes nonceB64;
  ct ← base64ToBytes ctB64;
  aesgcm_decrypt key nonce ct.

(** A generated key pair, public half first. *)
Record KeyPair := mkKeyPair { publicJwk : JWK; privateJwk : JWK }.

(** [generated] is the pair that [crypto.subtle.generateKey] returns. *)
Definition generateECDH (generated : KeyPair) : option KeyPair :=
  require_subtle ;; Some generated.

Definition deriveSharedBits (privateJwk otherPublicJwk : JWK) : option bytes :=
  require_subtle ;; ecdh_deriveBits privateJwk otherPublicJwk.

Definition infoLabel : string := "lanhub-roomkey-v1".

Definition deriveAesFromShared (shared salt : bytes) : option CryptoKey :=
  require_subtle ;; hkdf_deriveKey shared salt (utf8Encode infoLabel).

Record Envelope := mkEnvelope {
  epk : JWK; saltB64 : string; nonceB64 : string; ctB64 : string }.

(** The random choices of one call of [packRoomKeyForRecipient]: the
    ephemeral key pair, the 16-byte salt and the 12-byte nonce. *)
Record Entropy := mkEntropy {
  ephemeral : KeyPair; salt16 : bytes; nonce12 : bytes }.

Definition packRoomKeyForRecipient (rnd : Entropy) (roomKey : CryptoKey)
    (recipientPublicJwk : JWK) : option Envelope :=
  ephem ← generateECDH (ephemeral rnd);
  shared ← deriveSharedBits (privateJwk ephem) recipientPublicJwk;
  let salt := salt16 rnd in
  aes ← deriveAesFromShared shared salt;
  rawRoomKey ← exportAesRaw roomKey;
  '(nonceB64, ctB64) ← aesEncryptBytes (nonce12 rnd) aes rawRoomKey;
  Some (mkEnvelope (publicJwk ephem) (bytesToBase64 salt) nonceB64 ctB64).

Definition unpackRoomKeyFromSender (privateJwk epk : JWK)
    (saltB64 nonceB64 ctB64 : string) : option CryptoKey :=
  shared ← deriveSharedBits privateJwk epk;
  salt ← base64ToBytes saltB64;
  aes ← deriveAesFromShared shared salt;
  raw ← aesDecryptBytes aes ctB64 nonceB64;
  importAesRaw raw.

End functions.

End Crypto.

(** ** Local storage ([src/lib/local-storage.ts]) *)

Module Storage.

(** The [localStorage] entries the client logic below reads and writes; a
    missing entry reads as the empty list. *)
Record LocalStorage := mkLocalStorage {
  ls_messages : list Message;
  ls_fileTransfers : list FileTransfer;
  ls_dismissed : list string;
}.

Definition empty : LocalStorage := mkLocalStorage [] [] [].

(** A [Partial<FileTransfer>]: [None] is a field that the object does not
    carry. *)
Record Updates := mkUpdates {
  u_id : option string;
  u_fileName : option string;
  u_fileSize : option Z;
  u_senderId : option string;
  u_senderName : option string;
  u_receiverId : option string;
  u_recipients : option (list string);
  u_progress : option Z;
  u_status : option TransferStatus;
  u_timestamp : option Z;
  u_downloadUrl : option bytes;
  u_totalChunks : option Z;
}.

Definition getMessages (ls : LocalStorage) : list Message := ls_messages ls.

Definition addMessage (message : Message) (ls : LocalStorage) : LocalStorage :=
  let messages := getMessages ls in
  if bool_decide (Exists (λ m, msg_id m = msg_id message) messages) then ls
  else mkLocalStorage (messages ++ [message]) (ls_fileTransfers ls) (ls_dismissed ls).

Definition getFileTransfers (ls : LocalStorage) : list FileTransfer := ls_fileTransfers ls.

Definition setFileTransfers (ls : LocalStorage) (ts : list FileTransfer) : LocalStorage :=
  mkLocalStorage (ls_messages ls) ts (ls_dismissed ls).

(** [transfers.findIndex(t => t.id === id)], [None] for [-1]. *)
Fixpoint findIndex (id : string) (ts : list FileTransfer) : option nat :=
  match ts with
  | [] => None
  | t :: ts' => if bool_decide (ft_id t = id) then Some 0%nat else S <$> findIndex id ts'
  end.

(** [{ ...a, ...b }] for two transfer records: a field that [b] does not
    carry keeps the value of [a]. *)
Definition spread (a b : FileTransfer) : FileTransfer :=
  mkFileTransfer (ft_id b) (ft_fileName b) (ft_fileSize b) (ft_senderId b) (ft_senderName b)
    (from_option Some (receiverId a) (receiverId b))
    (from_option Some (ft_recipients a) (ft_recipients b))
    (progress b) (ft_status b) (ft_timestamp b)
    (from_option Some (downloadUrl a) (downloadUrl b))
    (from_option Some (ft_totalChunks a) (ft_totalChunks b)).

(** [{ ...a, ...updates }]: every field that [updates] carries replaces the
    field of [a], the id among them. *)
Definition patch (a : FileTransfer) (u : Updates) : FileTransfer :=
  mkFileTransfer (default (ft_id a) (u_id u)) (default (ft_fileName a) (u_fileName u))
    (default (ft_fileSize a) (u_fileSize u)) (default (ft_senderId a) (u_senderId u))
    (default (ft_senderName a) (u_senderName u))
    (from_option Some (receiverId a) (u_receiverId u))
    (from_option Some (ft_recipients a) (u_recipients u))
    (default (progress a) (u_progress u)) (default (ft_status a) (u_status u))
    (default (ft_timestamp a) (u_timestamp u))
    (from_option Some (downloadUrl a) (u_downloadUrl u))
    (from_option Some (ft_totalChunks a) (u_totalChunks u)).

Definition addFileTransfer (transfer : FileTransfer) (ls : LocalStorage) : LocalStorage :=
  let transfers := getFileTransfers ls in
  match findIndex (ft_id transfer) transfers with
  | None => setFileTransfers ls (transfers ++ [transfer])
  | Some idx => setFileTransfers ls (alter (λ t, spread t transfer) idx transfers)
  end.

Definition updateFileTransfer (transferId : string) (updates : Updates) (ls : LocalStorage)
  : LocalStorage :=
  let transfers := getFileTransfers ls in
  match findIndex transferId transfers with
  | Some index => setFileTransfers ls (alter (λ t, patch t updates) index transfers)
  | None => ls
  end.

Definition removeFileTransfer (transferId : string) (ls : LocalStorage) : LocalStorage :=
  setFileTransfers ls (filter (λ t, ft_id t ≠ transferId) (getFileTransfers ls)).

Definition getDismissedTransfers (ls : LocalStorage) : list string := ls_dismissed ls.

Definition addDismissedTransfer (id : string) (ls : LocalStorage) : LocalStorage :=
  let list := getDismissedTransfers ls in
  mkLocalStorage (ls_messages ls) (ls_fileTransfers ls)
    (if includes list id then list else list ++ [id]).

End Storage.

(** ** The client ([src/contexts/AppContext.tsx]) *)

Module Client.

(** *** mergeMessages *)

(** A [Map<string, Message>]: entries in insertion order; [set] on a key
    that is present replaces the value and keeps the entry's position. *)
Fixpoint map_set (m : list (string * Message)) (k : string) (v : Message)
  : list (string * Message) :=
  match m with
  | [] => [(k, v)]
  | (k', v') :: m' => if bool_decide (k = k') then (k, v) :: m' else (k', v') :: map_set m' k v
  end.

(** The comparator handed to [arr.sort]. *)
Definition compare_messages (a b : Message) : Z :=
  let sa := num_nullish (seq a) 0 in
  let sb := num_nullish (seq b) 0 in
  if bool_decide (sa ≠ sb) then sa - sb else timestamp a - timestamp b.

(** [Array.prototype.sort] is stable; with a comparator that is a total
    preorder its result is the stable sorted arrangement of the array,
    whichever algorithm the engine runs.  That arrangement is computed here
    by insertion from the right. *)
Fixpoint sort_insert (cmp : Message → Message → Z) (x : Message) (l : list Message)
  : list Message :=
  match l with
  | [] => [x]
  | y :: l' => if bool_decide (cmp x y ≤ 0) then x :: y :: l' else y :: sort_insert cmp x l'
  end.

Definition array_sort (cmp : Message → Message → Z) (l : list Message) : list Message :=
  foldr (sort_insert cmp) [] l.

Definition mergeMessages (prev incoming : list Message) : list Message :=
  let map := foldl (λ map m, map_set map (msg_id m) m) [] prev in
  let map := foldl (λ map m, map_set map (msg_id m) m) map incoming in
  let arr := map.*2 in
  array_sort compare_messages arr.

(** *** Receiver buffers *)

(** The reassembly buffer [buffers: (Uint8Array | null)[]].  The code only
    writes [buffers[i] = v] and tests [buffers[i]] for truthiness, so the
    array is the finite map from the indices written to the chunks
    stored there: a slot that is [null], a hole left when a write past the
    end extends the array, and an index that was never written all read as
    falsy, and a stored [Uint8Array] is truthy even when empty. *)
Abbreviation Buffers := (gmap Z bytes).

(** [new Array(n).fill(null)]. *)
Definition null_array : Buffers := ∅.

(** [arr[i] = v]. *)
Definition array_set (arr : Buffers) (i : Z) (v : bytes) : Buffers := <[i := v]> arr.

(** [arr[i]], [None] when falsy. *)
Definition array_get (arr : Buffers) (i : Z) : option bytes := arr !! i.

Record Meta := mkMeta {
  meta_id : string; meta_fileName : string; meta_fileSize : Z;
  meta_senderId : string; meta_senderName : string }.

(** An entry of [receiversRef.current]. *)
Record Receiver := mkReceiver {
  total : Z;
  buffers : Buffers;
  downloaded : gset Z;
  meta : Meta;
}.

(** The loop [for (i = 0; i < rec.total; i++) { b = buffers[i]; if (!b)
    break; parts.push(b) }], with [fuel] bounding the iterations left. *)
Fixpoint collect_parts (fuel : nat) (i : Z) (rec : Receiver) : list bytes :=
  match fuel with
  | O => []
  | S fuel' =>
      if bool_decide (i < total rec) then
        match array_get (buffers rec) i with
        | Some b => b :: collect_parts fuel' (i + 1) rec
        | None => []
        end
      else []
  end.

(** [new Blob(parts)]: the concatenation of the parts. *)
Definition assemble (rec : Receiver) : bytes :=
  concat (collect_parts (Z.to_nat (total rec)) 0 rec).

(** *** Client state and its operations *)

Section operations.
Context `{Crypto.SubtleCrypto}.
(** [Math.floor((size / total) * 100)], a floating-point computation
    whose value only feeds the progress display. *)
Variable percent : nat → Z → Z.

(** The React state, the refs and the local storage of [AppProvider],
    and the requests issued so far through [fetch] (oldest first). *)
Record State := mkState {
  currentUser : option User;
  chatRooms : list ChatRoom;
  roomKey : option Crypto.CryptoKey;
  messages : list Message;
  fileTransfers : list FileTransfer;
  receivers : gmap string Receiver;
  storage : Storage.LocalStorage;
  sent : list Relay.Request;
}.

Definition set_messages (st : State) (ms : list Message) : State :=
  mkState (currentUser st) (chatRooms st) (roomKey st) ms (fileTransfers st)
    (receivers st) (storage st) (sent st).
Definition set_fileTransfers (st : State) (ts : list FileTransfer) : State :=
  mkState (currentUser st) (chatRooms st) (roomKey st) (messages st) ts
    (receivers st) (storage st) (sent st).
Definition set_receivers (st : State) (rs : gmap string Receiver) : State :=
  mkState (currentUser st) (chatRooms st) (roomKey st) (messages st) (fileTransfers st)
    rs (storage st) (sent st).
Definition set_storage (st : State) (ls : Storage.LocalStorage) : State :=
  mkState (currentUser st) (chatRooms st) (roomKey st) (messages st) (fileTransfers st)
    (receivers st) ls (sent st).
Definition set_sent (st : State) (log : list Relay.Request) : State :=
  mkState (currentUser st) (chatRooms st) (roomKey st) (messages st) (fileTransfers st)
    (receivers st) (storage st) log.

(** The relay as seen through [fetch]: the answer to the last request of
    a log of requests; [None] when the call fails. *)
Definition Network := list Relay.Request → option Relay.Response.

Definition fetch (net : Network) (req : Relay.Request) (st : State)
  : option Relay.Response * State :=
  let log := sent st ++ [req] in
  (net log, set_sent st log).

(** [storage.op(...); setFileTransfers(storage.getFileTransfers())]. *)
Definition store_transfers (f : Storage.LocalStorage → Storage.LocalStorage) (st : State)
  : State :=
  let st := set_storage st (f (storage st)) in
  set_fileTransfers st (Storage.getFileTransfers (storage st)).

(** **** sendMessage *)

Definition aesEncryptString (nonce : bytes) (key : Crypto.CryptoKey) (text : string)
  : option (string * string) :=
  Crypto.aesEncryptBytes nonce key (Crypto.utf8Encode text).

(** [id] is the generated message id, [now] the clock and [nonce] the
    random nonce of the encryption. *)
Definition sendMessage (id : string) (now : Z) (nonce : bytes)
    (content : string) (roomId : option string) (st : State) : State :=
  match currentUser st with
  | None => st
  | Some user =>
      (* Global (roomId undefined): only admin can send *)
      if negb (truthy roomId) && negb (isAdmin user) then st
      else
        (* Room: allow if public or participant *)
        let allowed :=
          if truthy roomId then
            match List.find (λ r, bool_decide (Some (room_id r) = roomId)) (chatRooms st) with
            | None => false
            | Some room => isPublic room || includes (participants room) (user_id user)
            end
          else true in
        if negb allowed then st
        else
          let plain :=
            mkMessage id (user_id user) (displayName user) content now roomId m_text
              None None None None in
          let toSend :=
            match roomKey st with
            | Some key =>
                match aesEncryptString nonce key content with
                | Some (nonceB64, ctB64) =>
                    mkMessage id (user_id user) (displayName user) ctB64 now roomId m_text
                      None (Some true) (Some nonceB64) (Some "aes-256-gcm"%string)
                | None => plain
                end
            | None => plain
            end in
          (* Save locally (store plaintext for local UX) *)
          let localMessage :=
            mkMessage (msg_id toSend) (senderId toSend) (senderName toSend) content
              (timestamp toSend) (msg_roomId toSend) (msg_type toSend) (seq toSend)
              (enc toSend) (msg_nonce toSend) (alg toSend) in
          let st := set_storage st (Storage.addMessage localMessage (storage st)) in
          let st := set_messages st (mergeMessages (messages st) [localMessage]) in
          (* Send to server *)
          set_sent st (sent st ++ [Relay.send_message toSend])
  end.

(** **** removeFileTransfer *)

Definition removeFileTransfer (transferId : string) (st : State) : State :=
  let t := List.find (λ x, bool_decide (ft_id x = transferId)) (fileTransfers st) in
  (* Drop receiver buffers to avoid re-adding in this session *)
  let st := set_receivers st (delete transferId (receivers st)) in
  (* Mark dismissed if current user is receiver:
     [t?.receiverId === currentUser?.id] *)
  let st :=
    if bool_decide ((t ≫= receiverId) = (user_id <$> currentUser st))
    then set_storage st (Storage.addDismissedTransfer transferId (storage st))
    else st in
  store_transfers (Storage.removeFileTransfer transferId) st.

(** **** The receive loop [tick] *)

(** [new Array(n)] throws a [RangeError] unless [n] is an array length. *)
Definition array_length_ok (n : Z) : bool := bool_decide (0 ≤ n < 2 ^ 32).

Definition new_receiver (t : Relay.Listing) : Receiver :=
  mkReceiver (Relay.li_totalChunks t)
    null_array ∅
    (mkMeta (Relay.li_id t) (Relay.li_fileName t) (Relay.li_fileSize t)
       (Relay.li_senderId t) (Relay.li_senderName t)).

(** The part of the loop body after a chunk was decrypted: record it,
    update the progress and assemble the file when
    [rec.downloaded.size === rec.total]. *)
Definition record_chunk (tid : string) (index : Z) (decrypted : bytes) (st : State) : State :=
  match receivers st !! tid with
  | None => st
  | Some rec =>
      let rec' :=
        mkReceiver (total rec) (array_set (buffers rec) index decrypted)
          ({[index]} ∪ downloaded rec) (meta rec) in
      let st := set_receivers st (<[tid := rec']> (receivers st)) in
      let prog := percent (size (downloaded rec')) (total rec') in
      let st :=
        store_transfers
          (Storage.updateFileTransfer tid
             (Storage.mkUpdates None None None None None None None (Some prog)
                (Some (if bool_decide (100 ≤ prog) then st_completed else st_transferring))
                None None None)) st in
      (* If complete, assemble Blob and set downloadUrl *)
      if bool_decide (Z.of_nat (size (downloaded rec')) = total rec') then
        store_transfers
          (Storage.updateFileTransfer tid
             (Storage.mkUpdates None None None None None None None (Some 100)
                (Some st_completed) None (Some (assemble rec')) None)) st
      else st
  end.

(** One iteration of [for (const index of need)]: download, decrypt,
    record.  Every failure skips to the next index. *)
Definition fetch_chunk (net : Network) (user : User) (tid : string) (st : State) (index : Z)
  : State :=
  let '(res, st) := fetch net (Relay.download_file_chunk (user_id user) tid index) st in
  match res with
  | Some (Relay.ok (Relay.chunk_body _ data nonce)) =>
      let decrypted :=
        if bool_decide (nonce ≠ EmptyString) then
          (* wait until we have a key to decrypt *)
          key ← roomKey st; Crypto.aesDecryptBytes key data nonce
        else
          (* insecure testing fallback (plaintext base64) *)
          Crypto.base64ToBytes data in
      match decrypted with
      | Some b => record_chunk tid index b st
      | None => st
      end
  | _ => st
  end.

(** One iteration of [for (const t of data.transfers)]; [None] when the
    iteration throws, which ends the whole [try] block. *)
Definition process_transfer (now : Z) (net : Network) (user : User)
    (dismissed : list string) (t : Relay.Listing) (st : State) : option State :=
  if includes dismissed (Relay.li_id t) then Some st
  else if bool_decide (Relay.li_senderId t = user_id user) then
    (* Skip adding a local receiver record for our own transfers *)
    Some st
  else
    st ← (if bool_decide (is_Some (receivers st !! Relay.li_id t)) then Some st
          else if negb (array_length_ok (Relay.li_totalChunks t)) then None
          else
            let st :=
              set_receivers st (<[Relay.li_id t := new_receiver t]> (receivers st)) in
            (* create local record *)
            let transfer :=
              mkFileTransfer (Relay.li_id t) (Relay.li_fileName t) (Relay.li_fileSize t)
                (Relay.li_senderId t) (Relay.li_senderName t) (Some (user_id user)) None
                0 st_transferring now None (Some (Relay.li_totalChunks t)) in
            Some (store_transfers (Storage.addFileTransfer transfer) st));
    (* Attempt to fetch up to 5 available chunks not yet downloaded *)
    rec ← receivers st !! Relay.li_id t;
    let need :=
      take 5 (filter (λ idx, idx ∉ downloaded rec) (Relay.availableChunks t)) in
    Some (foldl (fetch_chunk net user (Relay.li_id t)) st need).

Fixpoint process_transfers (now : Z) (net : Network) (user : User)
    (dismissed : list string) (ts : list Relay.Listing) (st : State) : State :=
  match ts with
  | [] => st
  | t :: ts' =>
      match process_transfer now net user dismissed t st with
      | Some st' => process_transfers now net user dismissed ts' st'
      | None => st
      end
  end.

Definition tick (now : Z) (net : Network) (st : State) : State :=
  match currentUser st with
  | None => st
  | Some user =>
      let '(res, st) := fetch net (Relay.list_file_transfers (user_id user)) st in
      match res with
      | Some (Relay.ok (Relay.transfer_list transfers)) =>
          let dismissed := Storage.getDismissedTransfers (storage st) in
          process_transfers now net user dismissed transfers st
      | _ => st
      end
  end.

(** Successive ticks, each with its clock value and the relay's answers. *)
Fixpoint ticks (rounds : list (Z * Network)) (st : State) : State :=
  match rounds with
  | [] => st
  | (now, net) :: rest => ticks rest (tick now net st)
  end.

End operations.

End Client.

(** * Sending files ([sendFiles] of [src/contexts/AppContext.tsx]) *)

Module Sender.

(** A [File]: its name, its MIME type and its bytes. *)
Record File := mkFile {
  file_name : string;
  file_type : string;
  file_bytes : bytes;
}.

(** [file.size]. *)
Definition file_size (f : File) : Z := Z.of_nat (length (file_bytes f)).

(** [file.slice(start, end)] for offsets that are not negative, as
    [sendFiles] passes them: the bytes from [start] up to, not including,
    [end]; an offset past the end of the file counts as the end. *)
Definition slice (f : File) (start end_ : Z) : bytes :=
  take (Z.to_nat (end_ - start)) (drop (Z.to_nat start) (file_bytes f)).

(** 64 KiB to stay well under body limits *)
Definition chunkSize : Z := 64 * 1024.

(** [Math.ceil(a / b)]; the quotient of a size by [chunkSize], a power of
    two, is exact in floating point. *)
Definition ceil_div (a b : Z) : Z := - ((- a) `div` b).

(** [Math.max(1, Math.ceil(file.size / chunkSize))]. *)
Definition totalChunks (f : File) : Z := Z.max 1 (ceil_div (file_size f) chunkSize).

(** What is drawn while one file is sent: the generated transfer id, the
    clock value of the local record, the nonce [randomBytes(12)] of the
    encryption of every chunk, and the id, clock value and nonce of the chat
    message that announces the file. *)
Record Draw := mkDraw {
  d_id : string;
  d_now : Z;
  d_nonce : Z → bytes;
  d_msg_id : string;
  d_msg_now : Z;
  d_msg_nonce : bytes;
}.

(** [recipients]: the participants of a private room found in the stored
    rooms, [undefined] otherwise. *)
Definition recipients_of (roomId : option string) (storedRooms : list ChatRoom)
  : option (list string) :=
  if truthy roomId then
    match List.find (λ r, bool_decide (Some (room_id r) = roomId)) storedRooms with
    | Some room => if isPublic room then None else Some (participants room)
    | None => None
    end
  else None.

(** [res.ok]: a status in the range 200-299. *)
Definition response_ok (r : Relay.Response) : bool :=
  match r with
  | Relay.ok _ => true
  | Relay.error _ _ => false
  end.

Section sendFiles.
Context `{Crypto.SubtleCrypto}.
(** [Math.floor(((i + 1) / totalChunks) * 100)], the progress display. *)
Variable percent : nat → Z → Z.
(** [JSON.stringify({ transferId, fileName, mime })]. *)
Variable stringify : string → string → string → string.

(** A computation on the client state that returns a value or throws. *)
Definition M (A : Type) : Type := Client.State → option A * Client.State.

#[local] Instance M_ret : MRet M := λ A a st, (Some a, st).

#[local] Instance M_bind : MBind M := λ A B k m st,
  match m st with
  | (Some a, st') => k a st'
  | (None, st') => (None, st')
  end.

(** A step that cannot throw. *)
Definition modify (f : Client.State → Client.State) : M unit := λ st, (Some (), f st).

(** The result of a computation that has no effect on the state. *)
Definition lift {A} (o : option A) : M A := λ st, (o, st).

(** [await fetch('/api/ws', ...)]; it throws when the relay is out of
    reach. *)
Definition request (net : Client.Network) (req : Relay.Request) : M Relay.Response :=
  Client.fetch net req.

(** [storage.updateFileTransfer(id, u); setFileTransfers(...)]. *)
Definition update (id : string) (u : Storage.Updates) : M unit :=
  modify (Client.store_transfers (Storage.updateFileTransfer id u)).

(** The ciphertext and the nonce sent for a chunk: encrypted under the room
    key, or, without one, the insecure testing fallback. *)
Definition seal (key : option Crypto.CryptoKey) (nonce : bytes) (arrayBuf : bytes)
  : option (string * string) :=
  match key with
  | Some k =>
      enc ← Crypto.aesEncryptBytes nonce k arrayBuf;
      Some (enc.2, enc.1)
  | None => Some (Crypto.bytesToBase64 arrayBuf, EmptyString)
  end.

(** Upload chunks sequentially: the loop
    [for (let i = 0; i < totalChunks; i++)] from index [i] on, with [fuel]
    bounding the iterations left; it returns [failed]. *)
Fixpoint upload_chunks (net : Client.Network) (key : option Crypto.CryptoKey)
    (file : File) (d : Draw) (fuel : nat) (i : Z) : M bool :=
  match fuel with
  | O => mret false
  | S fuel' =>
      if bool_decide (i < totalChunks file) then
        let start := i * chunkSize in
        let end_ := Z.min (file_size file) (start + chunkSize) in
        let arrayBuf := slice file start end_ in
        enc ← lift (seal key (d_nonce d i) arrayBuf);
        upRes ← request net
          (Relay.upload_chunk
             (Relay.mkUploadChunk (d_id d) i (Some (totalChunks file)) enc.1 enc.2));
        if negb (response_ok upRes) then
          update (d_id d)
            (Storage.mkUpdates None None None None None None None None (Some st_failed)
               None None None);;
          mret true
        else
          let prog := percent (Z.to_nat (i + 1)) (totalChunks file) in
          update (d_id d)
            (Storage.mkUpdates None None None None None None None (Some prog)
               (Some st_transferring) None None None);;
          upload_chunks net key file d fuel' (i + 1)
      else mret false
  end.

(** One iteration of [for (const file of Array.from(files))].  The source
    does not await the [sendMessage] call that ends the iteration; it is run
    to its end here. *)
Definition send_file (net : Client.Network) (user : User) (key : option Crypto.CryptoKey)
    (roomId : option string) (recipients : option (list string)) (file : File) (d : Draw)
  : M unit :=
  let id := d_id d in
  (* Record locally *)
  let tx :=
    mkFileTransfer id (file_name file) (file_size file) (user_id user) (displayName user)
      None recipients 0 st_pending (d_now d) None (Some (totalChunks file)) in
  modify (Client.store_transfers (Storage.addFileTransfer tx));;
  (* Init on server *)
  initRes ← request net
    (Relay.init_file_transfer
       (Relay.mkInitTransfer id (user_id user) (displayName user) (file_name file)
          (file_size file) (totalChunks file) recipients));
  if negb (response_ok initRes) then
    update id
      (Storage.mkUpdates None None None None None None None None (Some st_failed)
         None None None)
  else
    failed ← upload_chunks net key file d (Z.to_nat (totalChunks file)) 0;
    if (failed : bool) then mret ()
    else
      update id
        (Storage.mkUpdates None None None None None None None (Some 100)
           (Some st_completed) None None None);;
      (* Post a chat message referencing the file *)
      modify (Client.sendMessage (d_msg_id d) (d_msg_now d) (d_msg_nonce d)
                (stringify id (file_name file) (file_type file)) roomId).

Fixpoint send_each (net : Client.Network) (user : User) (key : option Crypto.CryptoKey)
    (roomId : option string) (recipients : option (list string))
    (files : list (File * Draw)) : M unit :=
  match files with
  | [] => mret ()
  | (file, d) :: rest =>
      send_file net user key roomId recipients file d;;
      send_each net user key roomId recipients rest
  end.

(** [sendFiles(files, roomId)], [storedRooms] being the chat rooms in the
    local storage.  It returns the empty list of ids when nobody is logged
    in, and [undefined] ([None]) otherwise, since the function ends without
    a [return]. *)
Definition sendFiles (net : Client.Network) (files : list (File * Draw))
    (roomId : option string) (storedRooms : list ChatRoom) : M (option (list string)) :=
  λ st,
    match Client.currentUser st with
    | None => (Some (Some []), st)
    | Some user =>
        (* Determine recipients based on room *)
        let recipients := recipients_of roomId storedRooms in
        (send_each net user (Client.roomKey st) roomId recipients files;;
         mret None) st
    end.

End sendFiles.

End Sender.

(** * The rest of the local storage ([src/lib/local-storage.ts]) *)

Module Store.

Inductive ActivityType :=
| a_login | a_logout | a_file_sent | a_file_received | a_message | a_device_connected.

Record ActivityLog := mkActivityLog {
  log_id : string;
  log_type : ActivityType;
  log_userId : string;
  log_userName : string;
  log_description : string;
  log_timestamp : Z;
}.

(** The [localStorage] entries that [Storage.LocalStorage] leaves out; a
    missing entry reads as [null] or as the empty list. *)
Record Entries := mkEntries {
  CURRENT_USER : option User;
  USERS : list User;
  DEVICES : list Device;
  ACTIVITY_LOGS : list ActivityLog;
  CHAT_ROOMS : list ChatRoom;
}.

Definition empty : Entries := mkEntries None [] [] [] [].

(** A [Partial<User>]. *)
Record UserUpdates := mkUserUpdates {
  uu_id : option string;
  uu_username : option string;
  uu_displayName : option string;
  uu_isAdmin : option bool;
  uu_status : option UserStatus;
  uu_lastSeen : option Z;
  uu_publicKeyJwk : option string;
}.

(** A user object used as the [updates] argument. *)
Definition all_of (u : User) : UserUpdates :=
  mkUserUpdates (Some (user_id u)) (Some (username u)) (Some (displayName u))
    (Some (isAdmin u)) (Some (status u)) (Some (lastSeen u)) (publicKeyJwk u).

(** [{ ...u, ...updates }]. *)
Definition patch_user (u : User) (updates : UserUpdates) : User :=
  mkUser (default (user_id u) (uu_id updates)) (default (username u) (uu_username updates))
    (default (displayName u) (uu_displayName updates))
    (default (isAdmin u) (uu_isAdmin updates)) (default (status u) (uu_status updates))
    (default (lastSeen u) (uu_lastSeen updates))
    (from_option Some (publicKeyJwk u) (uu_publicKeyJwk updates)).

(** *** User operations *)

Definition setCurrentUser (user : option User) (e : Entries) : Entries :=
  mkEntries user (USERS e) (DEVICES e) (ACTIVITY_LOGS e) (CHAT_ROOMS e).

Definition getCurrentUser (e : Entries) : option User := CURRENT_USER e.

Definition getUsers (e : Entries) : list User := USERS e.

Definition setUsers (e : Entries) (users : list User) : Entries :=
  mkEntries (CURRENT_USER e) users (DEVICES e) (ACTIVITY_LOGS e) (CHAT_ROOMS e).

Definition addUser (user : User) (e : Entries) : Entries :=
  setUsers e (getUsers e ++ [user]).

(** [users.findIndex(u => u.id === userId)], [None] for [-1]. *)
Fixpoint findUser (userId : string) (users : list User) : option nat :=
  match users with
  | [] => None
  | u :: users' =>
      if bool_decide (user_id u = userId) then Some 0%nat else S <$> findUser userId users'
  end.

Definition updateUser (userId : string) (updates : UserUpdates) (e : Entries) : Entries :=
  let users := getUsers e in
  match findUser userId users with
  | Some index =>
      let e := setUsers e (alter (λ u, patch_user u updates) index users) in
      (* Update current user if it's the same *)
      match getCurrentUser e with
      | Some currentUser =>
          if bool_decide (user_id currentUser = userId)
          then setCurrentUser (Some (patch_user currentUser updates)) e
          else e
      | None => e
      end
  | None => e
  end.

(** *** Activity logs *)

Definition getActivityLogs (e : Entries) : list ActivityLog := ACTIVITY_LOGS e.

Definition addActivityLog (log : ActivityLog) (e : Entries) : Entries :=
  let logs := getActivityLogs e ++ [log] in
  (* Keep only last 100 logs *)
  let logs := if bool_decide (100 < length logs)%nat then tail logs else logs in
  mkEntries (CURRENT_USER e) (USERS e) (DEVICES e) logs (CHAT_ROOMS e).

(** *** Chat rooms *)

Definition getChatRooms (e : Entries) : list ChatRoom := CHAT_ROOMS e.

Definition setChatRooms (e : Entries) (rooms : list ChatRoom) : Entries :=
  mkEntries (CURRENT_USER e) (USERS e) (DEVICES e) (ACTIVITY_LOGS e) rooms.

Definition addChatRoom (room : ChatRoom) (e : Entries) : Entries :=
  setChatRooms e (getChatRooms e ++ [room]).

(** [rooms.findIndex(r => r.id === roomId)], [None] for [-1]. *)
Fixpoint findRoom (roomId : string) (rooms : list ChatRoom) : option nat :=
  match rooms with
  | [] => None
  | r :: rooms' =>
      if bool_decide (room_id r = roomId) then Some 0%nat else S <$> findRoom roomId rooms'
  end.

(** [updateChatRoom(roomId, { participants })], the one use the client makes
    of it. *)
Definition updateChatRoom (roomId : string) (participants : list string) (e : Entries)
  : Entries :=
  let rooms := getChatRooms e in
  match findRoom roomId rooms with
  | Some idx => setChatRooms e (alter (λ r, Relay.set_participants r participants) idx rooms)
  | None => e
  end.

End Store.

(** * Accounts, synchronisation and key distribution
      ([src/contexts/AppContext.tsx]) *)

Module App.

(** What a response body carries under the names that the client reads;
    [None] when the body has no such field. *)
Definition onlineUsers_of (b : Relay.Body) : option (list User) :=
  match b with
  | Relay.registered us _ => Some us
  | Relay.heartbeat_body hb => Some (Relay.hb_onlineUsers hb)
  | Relay.state_body us _ _ _ _ => Some us
  | _ => None
  end.

Definition messages_of (b : Relay.Body) : option (list Message) :=
  match b with
  | Relay.registered _ ms => Some ms
  | Relay.state_body _ ms _ _ _ => Some ms
  | _ => None
  end.

Definition lastSeq_of (b : Relay.Body) : option Z :=
  match b with
  | Relay.heartbeat_body hb => Some (Relay.hb_lastSeq hb)
  | Relay.state_body _ _ n _ _ => Some n
  | _ => None
  end.

Definition keyUpdates_of (b : Relay.Body) : option (list Relay.KeyUpdate) :=
  match b with
  | Relay.heartbeat_body hb => Some (Relay.hb_keyUpdates hb)
  | _ => None
  end.

Definition devices_of (b : Relay.Body) : option (list Device) :=
  match b with
  | Relay.heartbeat_body hb => Some (Relay.hb_devices hb)
  | Relay.device_list ds => Some ds
  | Relay.state_body _ _ _ ds _ => Some ds
  | _ => None
  end.

Definition rooms_of (b : Relay.Body) : option (list ChatRoom) :=
  match b with
  | Relay.heartbeat_body hb => Some (Relay.hb_rooms hb)
  | Relay.room_list rs => Some rs
  | Relay.room_updated _ rs => Some rs
  | Relay.state_body _ _ _ _ rs => Some rs
  | _ => None
  end.

Definition newMessages_of (b : Relay.Body) : option (list Message) :=
  match b with
  | Relay.heartbeat_body hb => Some (Relay.newMessages hb)
  | _ => None
  end.

(** [{ ...msg, content }]. *)
Definition with_content (msg : Message) (c : string) : Message :=
  mkMessage (msg_id msg) (senderId msg) (senderName msg) c (timestamp msg)
    (msg_roomId msg) (msg_type msg) (seq msg) (enc msg) (msg_nonce msg) (alg msg).

Section app.
Context `{Crypto.SubtleCrypto}.
(** [JSON.stringify] of a JWK on its way to the relay, and [JSON.parse] of
    what comes back; [None] for what is no JWK. *)
Variable jwk_json : Crypto.JWK → string.
Variable json_jwk : string → option Crypto.JWK.
(** [crypto.subtle.exportKey("jwk", key)]. *)
Variable exportKey_jwk : Crypto.CryptoKey → option Crypto.JWK.
(** [new TextDecoder().decode(bytes)]. *)
Variable utf8Decode : bytes → string.
(** [n.toString()] for a clock value. *)
Variable toString : Z → string.

(** The state of [AppProvider] beside [Client.State], with the
    [localStorage] entries beside [Storage.LocalStorage]. *)
Record State := mkState {
  client : Client.State;
  users : list User;
  devices : list Device;
  activityLogs : list Store.ActivityLog;
  lastSeq : Z;
  userKeyPair : option Crypto.KeyPair;
  (** [distributedToRef.current] *)
  distributedTo : gset string;
  entries : Store.Entries;
  (** the entry [lanhub_room_key_jwk] *)
  savedRoomKey : option Crypto.JWK;
}.

Definition set_client (st : State) (c : Client.State) : State :=
  mkState c (users st) (devices st) (activityLogs st) (lastSeq st) (userKeyPair st)
    (distributedTo st) (entries st) (savedRoomKey st).
Definition set_users (st : State) (us : list User) : State :=
  mkState (client st) us (devices st) (activityLogs st) (lastSeq st) (userKeyPair st)
    (distributedTo st) (entries st) (savedRoomKey st).
Definition set_devices (st : State) (ds : list Device) : State :=
  mkState (client st) (users st) ds (activityLogs st) (lastSeq st) (userKeyPair st)
    (distributedTo st) (entries st) (savedRoomKey st).
Definition set_activityLogs (st : State) (logs : list Store.ActivityLog) : State :=
  mkState (client st) (users st) (devices st) logs (lastSeq st) (userKeyPair st)
    (distributedTo st) (entries st) (savedRoomKey st).
Definition set_lastSeq (st : State) (n : Z) : State :=
  mkState (client st) (users st) (devices st) (activityLogs st) n (userKeyPair st)
    (distributedTo st) (entries st) (savedRoomKey st).
Definition set_distributedTo (st : State) (d : gset string) : State :=
  mkState (client st) (users st) (devices st) (activityLogs st) (lastSeq st) (userKeyPair st)
    d (entries st) (savedRoomKey st).
Definition set_entries (st : State) (e : Store.Entries) : State :=
  mkState (client st) (users st) (devices st) (activityLogs st) (lastSeq st) (userKeyPair st)
    (distributedTo st) e (savedRoomKey st).
Definition set_savedRoomKey (st : State) (k : option Crypto.JWK) : State :=
  mkState (client st) (users st) (devices st) (activityLogs st) (lastSeq st) (userKeyPair st)
    (distributedTo st) (entries st) k.

Definition set_currentUser (st : State) (u : option User) : State :=
  let c := client st in
  set_client st
    (Client.mkState u (Client.chatRooms c) (Client.roomKey c) (Client.messages c)
       (Client.fileTransfers c) (Client.receivers c) (Client.storage c) (Client.sent c)).
Definition set_chatRooms (st : State) (rs : list ChatRoom) : State :=
  let c := client st in
  set_client st
    (Client.mkState (Client.currentUser c) rs (Client.roomKey c) (Client.messages c)
       (Client.fileTransfers c) (Client.receivers c) (Client.storage c) (Client.sent c)).
Definition set_roomKey (st : State) (k : option Crypto.CryptoKey) : State :=
  let c := client st in
  set_client st
    (Client.mkState (Client.currentUser c) (Client.chatRooms c) k (Client.messages c)
       (Client.fileTransfers c) (Client.receivers c) (Client.storage c) (Client.sent c)).
Definition set_messages (st : State) (ms : list Message) : State :=
  set_client st (Client.set_messages (client st) ms).

(** The values of the React state that a function closes over: those of
    the render in which the function was created. *)
Record Render := mkRender {
  r_currentUser : option User;
  r_users : list User;
  r_messages : list Message;
  r_lastSeq : Z;
  r_roomKey : option Crypto.CryptoKey;
  r_userKeyPair : option Crypto.KeyPair;
}.

(** The render of the current state. *)
Definition render (st : State) : Render :=
  mkRender (Client.currentUser (client st)) (users st) (Client.messages (client st))
    (lastSeq st) (Client.roomKey (client st)) (userKeyPair st).

Definition fetch (net : Client.Network) (req : Relay.Request) (st : State)
  : option Relay.Response * State :=
  let '(res, c) := Client.fetch net req (client st) in
  (res, set_client st c).

(** [setChatRooms(rooms); localStorage.setItem('lanhub_chat_rooms', ...)]. *)
Definition adopt_rooms (rs : list ChatRoom) (st : State) : State :=
  let st := set_chatRooms st rs in
  (* persist for reload *)
  set_entries st (Store.setChatRooms (entries st) rs).

(** *** syncWithServer *)

Definition exportAesJwk (key : Crypto.CryptoKey) : option Crypto.JWK :=
  Crypto.require_subtle ;; exportKey_jwk key.

Definition aesDecryptString (key : Crypto.CryptoKey) (ctB64 nonceB64 : string)
  : option string :=
  bytes ← Crypto.aesDecryptBytes key ctB64 nonceB64;
  Some (utf8Decode bytes).

(** One iteration of [for (const upd of data.keyUpdates)]: a failure is
    logged and the update skipped. *)
Definition receive_key (kp : Crypto.KeyPair) (st : State) (upd : Relay.KeyUpdate) : State :=
  let env := Relay.envelope upd in
  match json_jwk (Relay.epk env) with
  | Some epk =>
      if truthy (Some (Relay.saltB64 env)) && truthy (Some (Relay.nonceB64 env))
         && truthy (Some (Relay.ctB64 env)) then
        match Crypto.unpackRoomKeyFromSender (Crypto.privateJwk kp) epk
                (Relay.saltB64 env) (Relay.nonceB64 env) (Relay.ctB64 env) with
        | Some newKey =>
            let st := set_roomKey st (Some newKey) in
            match exportAesJwk newKey with
            | Some jwk => set_savedRoomKey st (Some jwk)
            | None => st
            end
        | None => st
        end
      else st
  | None => st
  end.

(** One iteration of [for (const msg of uniqueNewMessages)]: what is
    pushed to [out]. *)
Definition readable (roomKey : option Crypto.CryptoKey) (msg : Message) : Message :=
  match enc msg, msg_nonce msg, roomKey with
  | Some true, Some nonce, Some key =>
      if bool_decide (nonce ≠ EmptyString) then
        match aesDecryptString key (content msg) nonce with
        | Some plain => with_content msg plain
        | None => with_content msg "[Encrypted message]"
        end
      else msg
  | _, _, _ => msg
  end.

(** Add new messages - but filter out duplicates *)
Definition ingest (r : Render) (newMessages : list Message) (st : State) : State :=
  let existingIds := msg_id <$> r_messages r in
  let uniqueNewMessages := filter (λ msg, msg_id msg ∉ existingIds) newMessages in
  let out := readable (r_roomKey r) <$> uniqueNewMessages in
  (* Save and append (dedup) *)
  let c := client st in
  let c := Client.set_storage c
             (foldl (λ ls m, Storage.addMessage m ls) (Client.storage c) out) in
  set_client st (Client.set_messages c (Client.mergeMessages (Client.messages c) out)).

Definition syncWithServer (r : Render) (net : Client.Network) (st : State) : State :=
  match r_currentUser r with
  | None => st
  | Some currentUser =>
      let '(res, st) :=
        fetch net (Relay.heartbeat (user_id currentUser) (Some (r_lastSeq r))) st in
      match res with
      | Some (Relay.ok data) =>
          (* Update online users from server *)
          let st := match onlineUsers_of data with
                    | Some us => set_users st us
                    | None => st
                    end in
          (* Update lastSeq if provided *)
          let st := match lastSeq_of data with
                    | Some n => set_lastSeq st n
                    | None => st
                    end in
          (* Handle pending key updates (admin distributed room key) *)
          let st := match keyUpdates_of data, r_userKeyPair r with
                    | Some upds, Some kp => foldl (receive_key kp) st upds
                    | _, _ => st
                    end in
          (* Update devices snapshot if provided *)
          let st := match devices_of data with
                    | Some ds => set_devices st ds
                    | None => st
                    end in
          (* Update rooms snapshot if provided *)
          let st := match rooms_of data with
                    | Some rs => adopt_rooms rs st
                    | None => st
                    end in
          match newMessages_of data with
          | Some (msg :: more) => ingest r (msg :: more) st
          | _ => st
          end
      | _ => st
      end
  end.

(** *** Accounts *)

(** Register user on server (include ECDH public key for E2E) *)
Definition registerUserOnServer (r : Render) (net : Client.Network) (user : User) (st : State)
  : State :=
  let payload :=
    mkUser (user_id user) (username user) (displayName user) (isAdmin user) (status user)
      (lastSeen user) (jwk_json ∘ Crypto.publicJwk <$> r_userKeyPair r) in
  let '(res, st) := fetch net (Relay.register_user payload) st in
  match res with
  | Some (Relay.ok data) =>
      let st := set_users st (default [] (onlineUsers_of data)) in
      match messages_of data with
      | Some ms => set_messages st ms
      | None => st
      end
  | _ => st
  end.

Definition unregisterUserFromServer (net : Client.Network) (userId : string) (st : State)
  : State :=
  (fetch net (Relay.unregister_user userId) st).2.

(** [storage.addActivityLog(log); setActivityLogs(storage.getActivityLogs())]. *)
Definition record_activity (log : Store.ActivityLog) (st : State) : State :=
  let st := set_entries st (Store.addActivityLog log (entries st)) in
  set_activityLogs st (Store.getActivityLogs (entries st)).

(** [login(username, password)]; [seen], [logId] and [logged] are the three
    readings of the clock.  The registration with the relay is started by
    the call and not awaited; its answer is taken to arrive before anything
    else happens. *)
Definition login (r : Render) (net : Client.Network) (seen logId logged : Z)
    (name password : string) (st : State) : bool * State :=
  let localUsers := Store.getUsers (entries st) in
  match List.find (λ u, bool_decide (username u = name)) localUsers with
  | Some user =>
      let updatedUser :=
        mkUser (user_id user) (username user) (displayName user) (isAdmin user) online seen
          (publicKeyJwk user) in
      let st := set_entries st
                  (Store.updateUser (user_id user) (Store.all_of updatedUser) (entries st)) in
      let st := set_entries st (Store.setCurrentUser (Some updatedUser) (entries st)) in
      let st := set_currentUser st (Some updatedUser) in
      (* Register with server *)
      let st := registerUserOnServer r net updatedUser st in
      (* Add activity log *)
      let log :=
        Store.mkActivityLog (toString logId) Store.a_login (user_id user) (displayName user)
          (displayName user +:+ " logged in") logged in
      (true, record_activity log st)
  | None => (false, st)
  end.

(** [register(username, password, displayName)]; [id] is the generated
    user id. *)
Definition register (r : Render) (net : Client.Network) (id : string)
    (seen logId logged : Z) (name password display : string) (st : State) : bool * State :=
  let localUsers := Store.getUsers (entries st) in
  match List.find (λ u, bool_decide (username u = name)) localUsers with
  | Some _ => (false, st)
  | None =>
      let newUser := mkUser id name display false (* never admin by default *) online seen
                       None in
      let st := set_entries st (Store.addUser newUser (entries st)) in
      let st := set_entries st (Store.setCurrentUser (Some newUser) (entries st)) in
      let st := set_currentUser st (Some newUser) in
      (* Register with server *)
      let st := registerUserOnServer r net newUser st in
      (* Add activity log *)
      let log :=
        Store.mkActivityLog (toString logId) Store.a_login (user_id newUser)
          (displayName newUser) (displayName newUser +:+ " registered and logged in")
          logged in
      (true, record_activity log st)
  end.

Definition logout (r : Render) (net : Client.Network) (seen logId logged : Z) (st : State)
  : State :=
  let st :=
    match r_currentUser r with
    | Some currentUser =>
        let st := set_entries st
                    (Store.updateUser (user_id currentUser)
                       (Store.mkUserUpdates None None None None (Some offline) (Some seen)
                          None)
                       (entries st)) in
        (* Unregister from server *)
        let st := unregisterUserFromServer net (user_id currentUser) st in
        (* Add activity log *)
        let log :=
          Store.mkActivityLog (toString logId) Store.a_logout (user_id currentUser)
            (displayName currentUser) (displayName currentUser +:+ " logged out") logged in
        record_activity log st
    | None => st
    end in
  let st := set_entries st (Store.setCurrentUser None (entries st)) in
  set_currentUser st None.

(** *** Rooms *)

(** [if (res.ok && Array.isArray(data.rooms)) { setChatRooms(data.rooms);
    localStorage.setItem('lanhub_chat_rooms', ...) }]: whether the answer
    carried a list of rooms, and the state with that list adopted. *)
Definition adopt_listed (res : option Relay.Response) (st : State) : bool * State :=
  match res with
  | Some (Relay.ok data) =>
      match rooms_of data with
      | Some rs => (true, adopt_rooms rs st)
      | None => (false, st)
      end
  | _ => (false, st)
  end.

(** [createChatRoom(name, isPublic)]; [idNow] and [created] are the two
    readings of the clock. *)
Definition createChatRoom (r : Render) (net : Client.Network) (idNow created : Z)
    (name : string) (public : bool) (st : State) : State :=
  match r_currentUser r with
  | None => st
  | Some currentUser =>
      let room :=
        mkRoom (toString idNow) name [user_id currentUser] (user_id currentUser) created
          public (Some []) in
      (* Persist locally immediately for UX *)
      let st := set_entries st (Store.addChatRoom room (entries st)) in
      let st := set_chatRooms st (Store.getChatRooms (entries st)) in
      (* Inform server so others can see public rooms *)
      let '(res, st) :=
        fetch net
          (Relay.create_room
             (Relay.mkCreateRoom (Some (room_id room)) (Some (room_name room))
                (Some (createdBy room)) (isPublic room) (Some (participants room))
                (admins room))) st in
      (adopt_listed res st).2
  end.

(** The payload of an invite code.  The fields carry values of the types
    that [generateInviteCode] writes; [None] is a missing field. *)
Record Invite := mkInvite {
  inv_v : option Z;
  inv_roomId : option string;
  inv_name : option string;
  inv_isPublic : option bool;
  inv_inviterId : option string;
  inv_ts : option Z;
}.

(** [b64url(JSON.stringify(payload))], and
    [JSON.parse(b64urlDecode(code))]: [None] when the parser throws or what
    it returns is no object. *)
Variable invite_code : Invite → string.
Variable read_code : string → option Invite.

(** [generateInviteCode(roomId)]; [ts] is the clock. *)
Definition generateInviteCode (r : Render) (ts : Z) (roomId : string) (st : State)
  : option string :=
  match r_currentUser r with
  | None => None
  | Some currentUser =>
      match List.find (λ r, bool_decide (room_id r = roomId))
              (Store.getChatRooms (entries st)) with
      | None => None
      | Some room =>
          if isPublic room then None
          (* Ensure current user is participant *)
          else if negb (includes (participants room) (user_id currentUser)) then None
          else
            Some (invite_code
                    (mkInvite (Some 1) (Some (room_id room)) (Some (room_name room))
                       (Some false) (Some (user_id currentUser)) (Some ts)))
      end
  end.

(** [l.filter(Boolean)] on strings that may be missing. *)
Definition filter_Boolean (l : list (option string)) : list string :=
  omap (λ o, if truthy o then o else None) l.

(** [joinRoomWithCode(code)]; [now] is the clock. *)
Definition joinRoomWithCode (r : Render) (now : Z) (code : string) (st : State)
  : bool * State :=
  match r_currentUser r with
  | None => (false, st)
  | Some currentUser =>
      match read_code code with
      | None => (false, st)
      | Some payload =>
          if negb (bool_decide (inv_v payload = Some 1)) || negb (truthy (inv_roomId payload))
             || negb (truthy (inv_name payload))
          then (false, st)
          else
            let roomId := default EmptyString (inv_roomId payload) in
            let st :=
              match List.find (λ r, bool_decide (room_id r = roomId))
                      (Store.getChatRooms (entries st)) with
              | Some existing =>
                  let members :=
                    array_from_set
                      (filter_Boolean
                         ((Some <$> participants existing)
                          ++ [Some (user_id currentUser); inv_inviterId payload])) in
                  set_entries st (Store.updateChatRoom (room_id existing) members (entries st))
              | None =>
                  let room :=
                    mkRoom roomId (default EmptyString (inv_name payload))
                      (array_from_set
                         (filter_Boolean [Some (user_id currentUser); inv_inviterId payload]))
                      (if truthy (inv_inviterId payload)
                       then default EmptyString (inv_inviterId payload)
                       else user_id currentUser)
                      (num_or (inv_ts payload) now) false None in
                  set_entries st (Store.addChatRoom room (entries st))
              end in
            (true, set_chatRooms st (Store.getChatRooms (entries st)))
      end
  end.

(** *** distributeRoomKeyIfAdmin *)

(** One iteration of [for (const u of users)]; [rnd] is what
    [packRoomKeyForRecipient] draws for [u]. *)
Definition send_key (net : Client.Network) (currentUser : User) (roomKey : Crypto.CryptoKey)
    (rnd : string → Crypto.Entropy) (st : State) (u : User) : State :=
  if bool_decide (user_id u = user_id currentUser) then st
  else if bool_decide (user_id u ∈ distributedTo st) then st
  else
    match publicKeyJwk u with
    | None => st
    | Some text =>
        match json_jwk text ≫= Crypto.packRoomKeyForRecipient (rnd (user_id u)) roomKey with
        | Some env =>
            let envelope :=
              Relay.mkEnvelope (jwk_json (Crypto.epk env)) (Crypto.saltB64 env)
                (Crypto.nonceB64 env) (Crypto.ctB64 env) in
            let '(res, st) :=
              fetch net
                (Relay.key_update
                   (Relay.mkKeyUpdatePayload (Some (user_id u)) (Some (user_id currentUser))
                      (Some envelope))) st in
            match res with
            | Some _ =>
                (* mark as distributed (best-effort) *)
                set_distributedTo st ({[user_id u]} ∪ distributedTo st)
            | None => st
            end
        | None => st
        end
    end.

(** Distribute room key to online users (admin only) *)
Definition distributeRoomKeyIfAdmin (r : Render) (net : Client.Network)
    (rnd : string → Crypto.Entropy) (st : State) : State :=
  match r_currentUser r, r_roomKey r with
  | Some currentUser, Some roomKey =>
      if negb (isAdmin currentUser) then st
      else
        match exportAesJwk roomKey with
        | None => st
        | Some _ => foldl (send_key net currentUser roomKey rnd) st (r_users r)
        end
  | _, _ => st
  end.

(** *** Admin operations *)

Definition kickMember (r : Render) (net : Client.Network) (roomId userId : string)
    (st : State) : bool * State :=
  match r_currentUser r with
  | None => (false, st)
  | Some currentUser =>
      let '(res, st) :=
        fetch net
          (Relay.update_room
             (Relay.single roomId (user_id currentUser) (Relay.op_removeParticipant userId)))
          st in
      adopt_listed res st
  end.

Definition setRoomAdmin (r : Render) (net : Client.Network) (roomId userId : string)
    (make : bool) (st : State) : bool * State :=
  match r_currentUser r with
  | None => (false, st)
  | Some currentUser =>
      let '(res, st) :=
        fetch net
          (Relay.update_room
             (Relay.single roomId (user_id currentUser)
                (if make then Relay.op_addAdmin userId else Relay.op_removeAdmin userId)))
          st in
      adopt_listed res st
  end.

Definition transferRoomOwner (r : Render) (net : Client.Network) (roomId newOwnerId : string)
    (st : State) : bool * State :=
  match r_currentUser r with
  | None => (false, st)
  | Some currentUser =>
      let '(res, st) :=
        fetch net
          (Relay.update_room
             (Relay.single roomId (user_id currentUser) (Relay.op_transferOwnerTo newOwnerId)))
          st in
      adopt_listed res st
  end.

Definition deleteChatRoom (r : Render) (net : Client.Network) (roomId : string) (st : State)
  : bool * State :=
  match r_currentUser r with
  | None => (false, st)
  | Some currentUser =>
      let '(res, st) := fetch net (Relay.delete_room roomId (user_id currentUser)) st in
      adopt_listed res st
  end.

End app.

End App.
(** * Specification predicates *)

(** The stored messages carry the last [length h] sequence numbers issued,
    oldest first, and there are [min 200 messageSeq] of them. *)
Definition history_inv (s : Relay.State) : Prop :=
  let h := Relay.messageHistory s in
  0 ≤ Relay.messageSeq s ∧
  Z.of_nat (length h) = Z.min 200 (Relay.messageSeq s) ∧
  ∀ (i : nat) m, h !! i = Some m →
    seq m = Some (Relay.messageSeq s - Z.of_nat (length h) + 1 + Z.of_nat i).


(** The owner of the room is one of its participants. *)
Definition owner_inv (r : ChatRoom) : Prop := createdBy r ∈ participants r.

(** If [u] is a room admin then [u] is a participant. *)
Definition admin_inv (u : string) (r : ChatRoom) : Prop :=
  u ∈ default [] (admins r) → u ∈ participants r.

(** The membership invariant of a room: the owner is a participant and so is
    every room admin. *)
Definition room_inv (r : ChatRoom) : Prop :=
  owner_inv r ∧ ∀ u, admin_inv u r.

(** The room table is keyed by the rooms' ids and every room's owner is a
    participant. *)
Definition rooms_ok (s : Relay.State) : Prop :=
  ∀ rid r, Relay.rooms s !! rid = Some r → room_id r = rid ∧ owner_inv r.

(** A sequence of [update_room] requests, each with its clock value and its
    payload, whatever room it names, whoever acts and whichever fields it
    carries. *)
Definition update_requests (ps : list (Z * Relay.UpdateRoomPayload)) : list Relay.Event :=
  (λ '(now, p), Relay.request now (Relay.update_room p)) <$> ps.

(** The payload removes the acting user from the participants and transfers
    the ownership, both in one request. *)
Definition leaves_and_transfers (p : Relay.UpdateRoomPayload) : Prop :=
  Relay.removeParticipant p = Some (Relay.byUserId p) ∧
  truthy (Relay.transferOwnerTo p) = true.

(** ** A room scenario

    Alice creates the room [lobby] with Bob as a participant; then Bob is
    made admin, adds Dave and tries to remove Alice in one request, receives
    the ownership and removes Alice while making Dave an admin. *)
Definition lobby_payload : Relay.CreateRoomPayload :=
  Relay.mkCreateRoom (Some "lobby"%string) (Some "Lobby"%string) (Some "alice"%string)
    false (Some ["bob"%string]) None.

Definition lobby_room : ChatRoom :=
  mkRoom "lobby" "Lobby" ["bob"; "alice"]%string "alice" 0 false (Some []).

Definition lobby_updates : list (Z * Relay.UpdateRoomPayload) :=
  [ (1, Relay.single "lobby" "alice" (Relay.op_addAdmin "bob"));
    (2, Relay.mkUpdateRoom "lobby" "bob" (Some "dave"%string) (Some "alice"%string)
          None None None);
    (3, Relay.single "lobby" "alice" (Relay.op_transferOwnerTo "bob"));
    (4, Relay.mkUpdateRoom "lobby" "bob" None (Some "alice"%string) (Some "dave"%string)
          None None) ].

(** Alice creates the room [den] with Bob and Carol as participants and
    Carol as admin; Carol then leaves the room and hands the ownership to
    Bob in one request. *)
Definition den_payload : Relay.CreateRoomPayload :=
  Relay.mkCreateRoom (Some "den"%string) (Some "Den"%string) (Some "alice"%string)
    false (Some ["bob"; "carol"]%string) (Some ["carol"%string]).

Definition den_room : ChatRoom :=
  mkRoom "den" "Den" ["bob"; "carol"; "alice"]%string "alice" 0 false
    (Some ["carol"%string]).

Definition carol_leaves : Relay.UpdateRoomPayload :=
  Relay.mkUpdateRoom "den" "carol" None (Some "carol"%string) None None (Some "bob"%string).

Definition den_after : ChatRoom :=
  mkRoom "den" "Den" ["bob"; "alice"]%string "bob" 0 false (Some ["carol"%string]).

(** ** Message order *)

(** The sequence number a message is ordered by: its own, or 0 when it has
    none (a locally originated message the relay has not numbered). *)
Definition seq_of (m : Message) : Z := num_nullish (seq m) 0.

(** Ascending sequence number, ties broken by ascending timestamp. *)
Definition msg_le (a b : Message) : Prop :=
  seq_of a < seq_of b ∨ (seq_of a = seq_of b ∧ timestamp a ≤ timestamp b).

(** The insertion-ordered map: keys stay distinct, and every entry pairs an
    id with a message that carries that id. *)
Definition keyed (m : list (string * Message)) : Prop :=
  NoDup m.*1 ∧ ∀ k v, (k, v) ∈ m → msg_id v = k.


(** ** A small instance of the WebCrypto operations

    Diffie-Hellman in the multiplicative group modulo 23 with generator 5
    stands for ECDH, concatenation for key derivation, and a cipher that
    prefixes the plaintext with key and nonce (and checks them when
    decrypting) for AES-GCM.  It shows that the laws assumed of the
    operations can be met, and gives the scenarios below something to run
    on. *)
Definition toy_bits (z : Z) : bytes := replicate (Z.to_nat z) Byte.x01.

#[global] Instance byte_eq_dec : EqDecision Byte.byte := Byte.byte_eq_dec.

Definition toy_decrypt (k iv c : bytes) : option bytes :=
  let tag := k ++ iv in
  if bool_decide (take (length tag) c = tag) then Some (drop (length tag) c) else None.

Definition toy_crypto : Crypto.SubtleCrypto := {|
  Crypto.JWK := Z;
  Crypto.CryptoKey := bytes;
  Crypto.hasSubtle := true;
  Crypto.ecdh_pair pub priv := 0 ≤ priv ∧ pub = 5 ^ priv mod 23;
  Crypto.ecdh_deriveBits priv pub :=
    if bool_decide (0 ≤ priv) then Some (toy_bits (pub ^ priv mod 23)) else None;
  Crypto.hkdf_deriveKey shared salt info := Some (shared ++ salt ++ info);
  Crypto.aesgcm_encrypt k iv m := Some ((k ++ iv) ++ m);
  Crypto.aesgcm_decrypt := toy_decrypt;
  Crypto.exportKey_raw k := Some k;
  Crypto.importKey_raw raw := Some raw;
  Crypto.btoa := String.string_of_list_byte;
  Crypto.atob s := Some (String.list_byte_of_string s);
  Crypto.utf8Encode := String.list_byte_of_string;
|}.

(** Alice's identity key pair, an ephemeral pair, a salt, a nonce and a room
    key for the instance above. *)
Definition toy_priv : Z := 6.
Definition toy_pub : Z := 8.
Definition toy_entropy : @Crypto.Entropy toy_crypto :=
  @Crypto.mkEntropy toy_crypto (@Crypto.mkKeyPair toy_crypto 19 15)
    [Byte.x0a; Byte.x0b] [Byte.x0c].
Definition toy_room_key : bytes := [Byte.x01; Byte.x02; Byte.x03].

(** ** Client scenarios *)

(** The artifact the local transfer list offers for download under an id. *)
Definition stored_transfer (tid : string) (ls : Storage.LocalStorage) : option FileTransfer :=
  List.find (λ t, bool_decide (ft_id t = tid)) (Storage.ls_fileTransfers ls).

Definition artifact (tid : string) (ls : Storage.LocalStorage) : option bytes :=
  stored_transfer tid ls ≫= downloadUrl.

(** Bob, who is not an administrator, freshly logged in. *)
Definition bob : User := mkUser "bob" "bob" "Bob" false online 0 None.

Definition bob_state : @Client.State toy_crypto :=
  @Client.mkState toy_crypto (Some bob) [] None [] [] ∅ Storage.empty [].

(** The progress display computed on integers. *)
Definition toy_percent (d : nat) (n : Z) : Z := (Z.of_nat d * 100) `div` n.

(** A relay in a fixed state, answering the last request of the log. *)
Definition relay_net (s : Relay.State) : @Client.Network :=
  λ log, match last log with
         | Some req => Some (Relay.POST 0 req s).1
         | None => None
         end.

(** A transfer id that was dismissed and is absent from the local transfer
    list, from its stored copy and from the receiver buffers. *)
Definition gone `{Crypto.SubtleCrypto} (T : string) (st : Client.State) : Prop :=
  T ∈ Storage.ls_dismissed (Client.storage st) ∧
  (T ∉ ft_id <$> Client.fileTransfers st) ∧
  (T ∉ ft_id <$> Storage.ls_fileTransfers (Client.storage st)) ∧
  Client.receivers st !! T = None.

(** Alice shares the one-chunk file [f1], unencrypted; Bob's receive loop
    runs once against the relay and fetches it. *)
Definition relay_f1 : Relay.State :=
  Relay.run
    [ Relay.request 0
        (Relay.init_file_transfer
           (Relay.mkInitTransfer "f1" "alice" "Alice" "notes.txt" 2 1 None));
      Relay.request 0
        (Relay.upload_chunk (Relay.mkUploadChunk "f1" 0 (Some 1) "hi" EmptyString)) ]
    Relay.init.

Definition bob_received : @Client.State toy_crypto :=
  @Client.tick toy_crypto toy_percent 1 (relay_net relay_f1) bob_state.

(** The entry of Bob's transfer list after that tick. *)
Definition f1_received : FileTransfer :=
  mkFileTransfer "f1" "notes.txt" 2 "alice" "Alice" (Some "bob"%string) None 100
    st_completed 1 (Some [Byte.x68; Byte.x69]) (Some 1).

(** Relative to the receiver entry [rec0] of transfer [tid]: the current
    entry has the same chunk count, still records every index that [rec0]
    had downloaded, and holds in the slots of those indices what [rec0]
    held. *)
Definition kept `{Crypto.SubtleCrypto} (tid : string) (rec0 : Client.Receiver)
    (st : Client.State) : Prop :=
  ∃ rec, Client.receivers st !! tid = Some rec ∧
    Client.total rec = Client.total rec0 ∧
    Client.downloaded rec0 ⊆ Client.downloaded rec ∧
    ∀ i, i ∈ Client.downloaded rec0 →
      Client.array_get (Client.buffers rec) i = Client.array_get (Client.buffers rec0) i.

(** No request of [reqs] downloads a chunk of [tid] whose index is in [D]. *)
Definition no_refetch (tid : string) (D : gset Z) (reqs : list Relay.Request) : Prop :=
  ∀ uid i, Relay.download_file_chunk uid tid i ∈ reqs → i ∉ D.

(** The state extends the request log [log0] without such a request, keeps
    the downloaded slots of [rec0] and, when [rec0] had downloaded at least
    as many indices as the transfer has chunks, still offers the artifact
    [art0]. *)
Definition idle `{Crypto.SubtleCrypto} (tid : string) (rec0 : Client.Receiver)
    (log0 : list Relay.Request) (art0 : option bytes) (st : Client.State) : Prop :=
  kept tid rec0 st ∧
  (∃ extra, Client.sent st = log0 ++ extra ∧
            no_refetch tid (Client.downloaded rec0) extra) ∧
  (Client.total rec0 ≤ Z.of_nat (size (Client.downloaded rec0)) →
   artifact tid (Client.storage st) = art0).

(** Bob's receiver entry for [f1] after that tick. *)
Definition f1_receiver : Client.Receiver :=
  Client.mkReceiver 1 (Client.array_set Client.null_array 0 [Byte.x68; Byte.x69])
    ({[0]} ∪ ∅) (Client.mkMeta "f1" "notes.txt" 2 "alice" "Alice").

(** ** Chunk uploads and receipts *)

(** The sender's [upload_chunk] requests for a transfer of [N] chunks: one
    per element of [cs], an index with its ciphertext and nonce. *)
Definition uploads (tid : string) (N : Z) (cs : list (Z * string * string))
  : list Relay.Event :=
  (λ '(i, d, n),
     Relay.request 0 (Relay.upload_chunk (Relay.mkUploadChunk tid i (Some N) d n))) <$> cs.

(** The receive loop records the decrypted chunks [cs] of transfer [tid],
    in order. *)
Definition receipts `{Crypto.SubtleCrypto} (percent : nat → Z → Z) (tid : string)
    (cs : list (Z * bytes)) (st : Client.State) : Client.State :=
  foldl (λ st c, Client.record_chunk percent tid c.1 c.2 st) st cs.

(** The distinct indices among those received. *)
Definition distinct (idxs : list Z) : gset Z := list_to_set idxs.

(** Every index of [[0, N)] is among [idxs]. *)
Definition covers (N : Z) (idxs : list Z) : Prop := ∀ i, 0 ≤ i < N → i ∈ idxs.

(** Every index of [idxs] lies in [[0, N)]. *)
Definition in_range (N : Z) (idxs : list Z) : Prop := ∀ i, i ∈ idxs → 0 ≤ i < N.

(** Alice announces the two-chunk file [f2]; Bob's receive loop runs once
    and creates the receiver entry and the local record. *)
Definition f2_payload : Relay.InitTransferPayload :=
  Relay.mkInitTransfer "f2" "alice" "Alice" "photo.png" 4 2 None.

Definition relay_f2 : Relay.State :=
  Relay.run [Relay.request 0 (Relay.init_file_transfer f2_payload)] Relay.init.

Definition bob_announced : @Client.State toy_crypto :=
  @Client.tick toy_crypto toy_percent 1 (relay_net relay_f2) bob_state.

Definition f2_receiver : Client.Receiver :=
  Client.mkReceiver 2 Client.null_array ∅ (Client.mkMeta "f2" "photo.png" 4 "alice" "Alice").

Definition f2_announced : FileTransfer :=
  mkFileTransfer "f2" "photo.png" 4 "alice" "Alice" (Some "bob"%string) None 0
    st_transferring 1 None (Some 2).

(** The same announcement followed by two chunks with the indices 5 and 7,
    outside [[0, 2)]. *)
Definition relay_f2_stray : Relay.State :=
  Relay.run
    (Relay.request 0 (Relay.init_file_transfer f2_payload)
       :: uploads "f2" 2 [(5, "hi"%string, EmptyString); (7, "ho"%string, EmptyString)])
    Relay.init.

(** ** Message scenarios *)

Definition note (id : string) (body : string) (ts : Z) (n : option Z) : Message :=
  mkMessage id "alice" "Alice" body ts None m_text n None None None.

(** The relay after [n] messages were sent to it. *)
Definition relay_after (n : nat) : Relay.State :=
  Relay.run
    ((λ i : nat, Relay.request (Z.of_nat i)
                   (Relay.send_message (note "m" "hello" 0 None))) <$> List.seq 0 n)
    Relay.init.

(** Alice, an administrator, logged in on the small instance. *)
Definition alice_state : @Client.State toy_crypto :=
  @Client.mkState toy_crypto
    (Some (mkUser "alice" "alice" "Alice" true online 0 None)) [] None [] [] ∅
    Storage.empty [].

(** * Further specification predicates *)

(** ** The relay's transfer table *)

(** The event re-announces transfer [tid] or uploads to its index [idx]. *)
Definition touches_chunk (tid : string) (idx : Z) (e : Relay.Event) : Prop :=
  match e with
  | Relay.request _ (Relay.init_file_transfer p) => Relay.it_id p = tid
  | Relay.request _ (Relay.upload_chunk p) =>
      Relay.transferId p = tid ∧ Relay.index p = idx
  | _ => False
  end.

(** The event re-announces transfer [tid]. *)
Definition reannounces (tid : string) (e : Relay.Event) : Prop :=
  match e with
  | Relay.request _ (Relay.init_file_transfer p) => Relay.it_id p = tid
  | _ => False
  end.

(** ** The relay's key-update queues *)

(** The event enqueues an envelope for [target] or is a heartbeat of
    [target]. *)
Definition touches_queue (target : string) (e : Relay.Event) : Prop :=
  match e with
  | Relay.request _ (Relay.key_update p) => Relay.targetUserId p = Some target
  | Relay.request _ (Relay.heartbeat u _) => u = target
  | _ => False
  end.

(** The envelopes a heartbeat response carries, [[]] for any other response. *)
Definition delivered (r : Relay.Response) : list Relay.KeyUpdate :=
  match r with
  | Relay.ok (Relay.heartbeat_body b) => Relay.hb_keyUpdates b
  | _ => []
  end.

(** ** Privilege on a room *)

(** The event is an [update_room] on room [rid] by its owner or one of its
    admins, or a [delete_room] of [rid] by its owner, [r] being the room. *)
Definition privileged_on (rid : string) (r : ChatRoom) (e : Relay.Event) : Prop :=
  match e with
  | Relay.request _ (Relay.update_room p) =>
      Relay.ur_roomId p = rid ∧ Relay.is_room_admin (Relay.byUserId p) r = true
  | Relay.request _ (Relay.delete_room rid' actor) => rid' = rid ∧ createdBy r = actor
  | _ => False
  end.

(** A room as the relay keeps it: stored under its id, its owner among the
    participants, no participant listed twice. *)
Definition room_wf (rid : string) (r : ChatRoom) : Prop :=
  room_id r = rid ∧ createdBy r ∈ participants r ∧ NoDup (participants r).

(** Every transfer is stored under its own id. *)
Definition transfers_keyed (s : Relay.State) : Prop :=
  ∀ k t, Relay.fileTransfers s !! k = Some t → Relay.id t = k.

(** The transfer announcements of a heartbeat response. *)
Definition announced (r : Relay.Response) : list Relay.Announcement :=
  match r with
  | Relay.ok (Relay.heartbeat_body b) => Relay.fileAnnouncements b
  | _ => []
  end.

(** The entries of a [list_file_transfers] response. *)
Definition listed (r : Relay.Response) : list Relay.Listing :=
  match r with
  | Relay.ok (Relay.transfer_list ls) => ls
  | _ => []
  end.

(** ** Versions of a message *)

(** The last message of [l] that carries the id [i]. *)
Definition latest (l : list Message) (i : string) : option Message :=
  last (filter (λ x, msg_id x = i) l).

(** ** Who may send where *)

(** [user] may write to the channel [roomId] given the rooms known locally:
    the global channel (no room id) is open to administrators, a room to
    everybody when it is public and to its participants otherwise; the room
    looked at is the first known room with that id. *)
Definition can_send (user : User) (roomId : option string) (rooms : list ChatRoom) : Prop :=
  (truthy roomId = false ∧ isAdmin user = true) ∨
  (truthy roomId = true ∧
   ∃ room, List.find (λ r, bool_decide (Some (room_id r) = roomId)) rooms = Some room ∧
           (isPublic room = true ∨ user_id user ∈ participants room)).

(** The message a client keeps of one it sends: the wire record with the
    text the user typed as content. *)
Definition local_copy (wire : Message) (text : string) : Message :=
  mkMessage (msg_id wire) (senderId wire) (senderName wire) text (timestamp wire)
    (msg_roomId wire) (msg_type wire) (seq wire) (enc wire) (msg_nonce wire) (alg wire).

(** ** Further scenarios *)

(** The transfers [f2] and [f1] as the relay holds them in [relay_f2] and
    [relay_f1]. *)
Definition f2_transfer : Relay.Transfer :=
  Relay.mkTransfer "f2" "alice" "Alice" "photo.png" 4 2 None 0 false ∅.

Definition f1_transfer : Relay.Transfer :=
  Relay.mkTransfer "f1" "alice" "Alice" "notes.txt" 2 1 None 0 true
    {[ 0 := Relay.mkChunk "hi" EmptyString ]}.

Definition f2_first_chunk : Relay.UploadChunkPayload :=
  Relay.mkUploadChunk "f2" 0 (Some 2) "hi" EmptyString.

(** Alice announces the file [f3] for Carol only. *)
Definition f3_announcement : list Relay.Event :=
  [ Relay.request 0
      (Relay.init_file_transfer
         (Relay.mkInitTransfer "f3" "alice" "Alice" "plan.pdf" 2 1 (Some ["carol"%string]))) ].

Definition f3_transfer : Relay.Transfer :=
  Relay.mkTransfer "f3" "alice" "Alice" "plan.pdf" 2 1 (Some ["carol"%string]) 0 false ∅.

(** A key envelope as the relay passes it on. *)
Definition sealed : Relay.Envelope := Relay.mkEnvelope "epk" "salt" "nonce" "ct".

(** Mallory, who is neither owner nor admin of the lobby, tries to join it,
    to take it over and to delete it; somebody else creates the lobby anew. *)
Definition mallory_tries : list Relay.Event :=
  [ Relay.request 1
      (Relay.update_room (Relay.single "lobby" "mallory" (Relay.op_addParticipant "mallory")));
    Relay.request 2
      (Relay.update_room (Relay.single "lobby" "mallory" (Relay.op_transferOwnerTo "mallory")));
    Relay.request 3 (Relay.delete_room "lobby" "mallory");
    Relay.request 4
      (Relay.create_room
         (Relay.mkCreateRoom (Some "lobby"%string) (Some "Mine"%string)
            (Some "mallory"%string) true None None)) ].

(** Three messages sent to the relay. *)
Definition three_notes : list Relay.Event :=
  (λ i : nat, Relay.request (Z.of_nat i) (Relay.send_message (note "m" "hello" 0 None)))
    <$> List.seq 0 3.

(** Bob knows the private room [vault], which he is no participant of. *)
Definition bob_outside : @Client.State toy_crypto :=
  @Client.mkState toy_crypto (Some bob)
    [mkRoom "vault" "Vault" ["alice"%string] "alice" 0 false None] None [] [] ∅
    Storage.empty [].

(** Alice, an administrator, holding the room key. *)
Definition alice_keyed : @Client.State toy_crypto :=
  @Client.mkState toy_crypto
    (Some (mkUser "alice" "alice" "Alice" true online 0 None)) [] (Some toy_room_key)
    [] [] ∅ Storage.empty [].
(** * Files in transit *)

(** What the receive loop obtains from a stored chunk: without a nonce the
    chunk is plain base64; with one it is decrypted under the room key,
    which must be there. *)
Definition opens_to `{Crypto.SubtleCrypto} (key : option Crypto.CryptoKey)
    (c : Relay.Chunk) (part : bytes) : Prop :=
  (Relay.chunk_nonce c = EmptyString ∧ Crypto.base64ToBytes (Relay.data c) = Some part) ∨
  (Relay.chunk_nonce c ≠ EmptyString ∧
   ∃ k, key = Some k ∧
        Crypto.aesDecryptBytes k (Relay.data c) (Relay.chunk_nonce c) = Some part).

(** The relay holds the chunks [0 .. N-1] of transfer [t], and no others,
    and chunk [j] opens under [key] to [parts j]. *)
Definition holds_parts `{Crypto.SubtleCrypto} (key : option Crypto.CryptoKey)
    (t : Relay.Transfer) (parts : Z → bytes) : Prop :=
  ∀ j, if bool_decide (0 ≤ j < Relay.totalChunks t)
       then ∃ c, Relay.chunks t !! j = Some c ∧ opens_to key c (parts j)
       else Relay.chunks t !! j = None.

(** The poll rounds of a receiver against a relay that stays in state [R],
    one per clock value. *)
Definition polls (R : Relay.State) (clock : list Z) : list (Z * Client.Network) :=
  (λ now, (now, relay_net R)) <$> clock.

(** The entry of the local transfer list for [tid] offers [whole] for
    download and shows the transfer as completed. *)
Definition received (tid : string) (whole : bytes) (ls : Storage.LocalStorage) : Prop :=
  ∃ ft, stored_transfer tid ls = Some ft ∧
    downloadUrl ft = Some whole ∧ ft_status ft = st_completed ∧ progress ft = 100.

(** Nothing that concerns transfer [tid] differs between two states of a
    client: its receiver entry, its entry in the stored transfer list, the
    logged-in user, the room key and the dismissed ids. *)
Definition frame `{Crypto.SubtleCrypto} (tid : string) (st st' : Client.State) : Prop :=
  Client.receivers st' !! tid = Client.receivers st !! tid ∧
  stored_transfer tid (Client.storage st') = stored_transfer tid (Client.storage st) ∧
  Client.currentUser st' = Client.currentUser st ∧
  Client.roomKey st' = Client.roomKey st ∧
  Storage.ls_dismissed (Client.storage st') = Storage.ls_dismissed (Client.storage st).

(** The client is logged in as [user], holds [key] and has not dismissed
    [tid]. *)
Definition ready `{Crypto.SubtleCrypto} (user : User) (key : option Crypto.CryptoKey)
    (tid : string) (st : Client.State) : Prop :=
  Client.currentUser st = Some user ∧
  Client.roomKey st = key ∧
  tid ∉ Storage.ls_dismissed (Client.storage st).

(** The receiver of transfer [tid] of [N] chunks has downloaded and buffered
    exactly the chunks [0 .. m-1], the transfer list has an entry for the
    transfer and, once all [N] chunks are there, that entry offers the
    assembled file. *)
Definition buffered `{Crypto.SubtleCrypto} (tid : string) (N : Z) (parts : Z → bytes)
    (m : Z) (st : Client.State) : Prop :=
  ∃ rec, Client.receivers st !! tid = Some rec ∧
    Client.total rec = N ∧
    Client.downloaded rec = list_to_set (seqZ 0 m) ∧
    (∀ j, 0 ≤ j < m → Client.array_get (Client.buffers rec) j = Some (parts j)) ∧
    is_Some (stored_transfer tid (Client.storage st)) ∧
    (m = N → received tid (concat (parts <$> seqZ 0 N)) (Client.storage st)).

(** How far the reception has come: nothing is known of the transfer yet,
    or the first [m] chunks are buffered. *)
Definition arrived `{Crypto.SubtleCrypto} (tid : string) (N : Z) (parts : Z → bytes)
    (m : Z) (st : Client.State) : Prop :=
  (m = 0 ∧ Client.receivers st !! tid = None) ∨ buffered tid N parts m st.

(** ** A sender and a live relay *)

(** A relay that starts in state [s] and receives, at the time [now], the
    requests that a client logs after the first [skip] ones: the answer to
    the last request of a log. *)
Definition live_net (now : Z) (s : Relay.State) (skip : nat) : Client.Network :=
  λ log,
    match reverse (drop skip log) with
    | req :: earlier =>
        Some (Relay.POST now req (Relay.run (Relay.request now <$> reverse earlier) s)).1
    | [] => None
    end.

(** The state of that relay after the requests of the log. *)
Definition served (now : Z) (s : Relay.State) (skip : nat) (log : list Relay.Request)
  : Relay.State :=
  Relay.run (Relay.request now <$> drop skip log) s.

(** The bytes of chunk [j] of a file. *)
Definition chunk_of (file : Sender.File) (j : Z) : bytes :=
  Sender.slice file (j * Sender.chunkSize)
    (Z.min (Sender.file_size file) (j * Sender.chunkSize + Sender.chunkSize)).

(** The relay [s'] is the relay [s] with the transfer of [file] announced by
    [user] for [recipients], holding the sealed chunks [0 .. i-1] and marked
    as completed once all chunks are there. *)
Definition uploaded `{Crypto.SubtleCrypto} (key : option Crypto.CryptoKey)
    (file : Sender.File) (d : Sender.Draw) (user : User) (recipients : option (list string))
    (i : Z) (s s' : Relay.State) : Prop :=
  ∃ t, Relay.fileTransfers s' = <[Sender.d_id d := t]> (Relay.fileTransfers s) ∧
    Relay.id t = Sender.d_id d ∧
    Relay.t_senderId t = user_id user ∧
    Relay.recipients t = recipients ∧
    Relay.totalChunks t = Sender.totalChunks file ∧
    (i = Sender.totalChunks file → Relay.completed t = true) ∧
    ∀ j, Relay.chunks t !! j =
         if bool_decide (0 ≤ j < i)
         then (λ e, Relay.mkChunk e.1 e.2)
                <$> Sender.seal key (Sender.d_nonce d j) (chunk_of file j)
         else None.

(** The entry of the local transfer list for [tid] shows the transfer as
    completed. *)
Definition shown_completed (tid : string) (ls : Storage.LocalStorage) : Prop :=
  ∃ ft, stored_transfer tid ls = Some ft ∧ ft_status ft = st_completed ∧ progress ft = 100.

(** Every transfer of the relay has a chunk count that is an array length. *)
Definition chunk_counts_ok (s : Relay.State) : Prop :=
  map_Forall (λ _ t, Client.array_length_ok (Relay.totalChunks t) = true)
    (Relay.fileTransfers s).

(** ** A file on its way *)

(** Alice, an administrator, and Bob, both holding the room key; a file of
    two bytes; what is drawn while it is sent. *)
Definition alice : User := mkUser "alice" "alice" "Alice" true online 0 None.

Definition alice_sending : @Client.State toy_crypto :=
  @Client.mkState toy_crypto (Some alice) [] (Some toy_room_key) [] [] ∅ Storage.empty [].

Definition bob_keyed : @Client.State toy_crypto :=
  @Client.mkState toy_crypto (Some bob) [] (Some toy_room_key) [] [] ∅ Storage.empty [].

Definition notes_file : Sender.File :=
  Sender.mkFile "notes.txt" "text/plain" [Byte.x68; Byte.x69].

Definition notes_draw : Sender.Draw :=
  Sender.mkDraw "f9" 1 (λ _, [Byte.x0c]) "m9" 2 [Byte.x0d].

Definition toy_stringify (transferId fileName mime : string) : string :=
  transferId +:+ "/" +:+ fileName +:+ "/" +:+ mime.

(** The events that lead to the relay state [relay_f1]. *)
Definition f1_events : list Relay.Event :=
  [ Relay.request 0
      (Relay.init_file_transfer
         (Relay.mkInitTransfer "f1" "alice" "Alice" "notes.txt" 2 1 None));
    Relay.request 0
      (Relay.upload_chunk (Relay.mkUploadChunk "f1" 0 (Some 1) "hi" EmptyString)) ].

(** ** Polls that make no progress *)

(** Every chunk that the relay serves carries a nonce: it is encrypted. *)
Definition serves_encrypted (net : Client.Network) : Prop :=
  ∀ log idx data nonce,
    net log = Some (Relay.ok (Relay.chunk_body idx data nonce)) → nonce ≠ EmptyString.

(** The chunk indices a client has recorded as downloaded for a transfer,
    none if it has no receiver entry for it. *)
Definition recorded `{Crypto.SubtleCrypto} (tid : string) (st : Client.State) : gset Z :=
  default ∅ (Client.downloaded <$> Client.receivers st !! tid).

(** A relay that lists [ls] to whoever asks and has nothing else to say. *)
Definition listing_net (ls : list Relay.Listing) : Client.Network :=
  λ log,
    match last log with
    | Some (Relay.list_file_transfers _) => Some (Relay.ok (Relay.transfer_list ls))
    | _ => None
    end.

(** Two announcements: one with a chunk count of [-1], one in order. *)
Definition broken_listing : Relay.Listing :=
  Relay.mkListing "f7" "alice" "Alice" "broken.bin" 10 (-1) false [].

Definition sound_listing : Relay.Listing :=
  Relay.mkListing "f8" "alice" "Alice" "sound.bin" 2 1 true [0].

(** A relay that serves one encrypted chunk of the transfer [f8]. *)
Definition sealed_net : Client.Network :=
  λ log,
    match last log with
    | Some (Relay.list_file_transfers _) =>
        Some (Relay.ok (Relay.transfer_list [sound_listing]))
    | Some (Relay.download_file_chunk _ _ idx) =>
        Some (Relay.ok (Relay.chunk_body idx "secret" "nonce"))
    | _ => None
    end.
(** * What the local storage keeps *)

(** Entries of the activity log added one after the other. *)
Definition logged (new : list Store.ActivityLog) (e : Store.Entries) : Store.Entries :=
  foldl (λ e log, Store.addActivityLog log e) e new.

(** Messages handed to [addMessage] one after the other. *)
Definition saved (ms : list Message) (ls : Storage.LocalStorage) : Storage.LocalStorage :=
  foldl (λ ls m, Storage.addMessage m ls) ls ms.

(** The first message of [l] that carries the id [i]. *)
Definition earliest (l : list Message) (i : string) : option Message :=
  head (filter (λ x, msg_id x = i) l).

(** A call of one of the three functions that write the transfer list. *)
Inductive TransferOp :=
| op_add (t : FileTransfer)
| op_update (id : string) (u : Storage.Updates)
| op_remove (id : string).

Definition apply_op (ls : Storage.LocalStorage) (op : TransferOp) : Storage.LocalStorage :=
  match op with
  | op_add t => Storage.addFileTransfer t ls
  | op_update id u => Storage.updateFileTransfer id u ls
  | op_remove id => Storage.removeFileTransfer id ls
  end.

(** The call does not rename an entry: an update carries no id, or the id
    of the entry it is for.  Such are the updates of the client, which carry
    progress, status and download URL. *)
Definition keeps_id (op : TransferOp) : Prop :=
  match op with
  | op_update id u => Storage.u_id u = None ∨ Storage.u_id u = Some id
  | _ => True
  end.

(** Whether the id [i] is listed after the calls [ops], [before] telling
    whether it was listed before them: the last [add] or [remove] of the id
    decides. *)
Definition listed_after (ops : list TransferOp) (i : string) (before : bool) : bool :=
  foldl (λ b op,
           match op with
           | op_add t => if bool_decide (ft_id t = i) then true else b
           | op_update _ _ => b
           | op_remove id => if bool_decide (id = i) then false else b
           end) before ops.

(** A login, a logout and a file of Alice in the activity log. *)
Definition log_entry (n : Z) : Store.ActivityLog :=
  Store.mkActivityLog "1" Store.a_login "alice" "Alice" "Alice logged in" n.

(** Two versions of one message. *)
Definition two_versions : list Message :=
  [note "m" "first" 1 None; note "m" "second" 2 (Some 1)].

(** A transfer is listed, updated and removed, another one is listed. *)
Definition list_edits : list TransferOp :=
  [ op_add f1_received;
    op_update "f1"
      (Storage.mkUpdates None None None None None None None (Some 50) None None None None);
    op_remove "f1";
    op_add f2_announced ].

(** An update that gives the entry of [f1] the id of another entry. *)
Definition renaming : Storage.Updates :=
  Storage.mkUpdates (Some "f2"%string) None None None None None None None None None None None.

(** ** Encodings *)

(** What the development relies on from the encodings on the way of a key
    envelope: a JWK survives [JSON.stringify] and [JSON.parse], only the
    empty byte string has an empty base64 text, and a ciphertext made with
    a nonce is not empty. *)
Definition encodings_ok `{Crypto.SubtleCrypto} (jwk_json : Crypto.JWK → string)
    (json_jwk : string → option Crypto.JWK) : Prop :=
  (∀ k, json_jwk (jwk_json k) = Some k) ∧
  (∀ b, Crypto.btoa b = EmptyString → b = []) ∧
  (∀ k iv m c, iv ≠ [] → Crypto.aesgcm_encrypt k iv m = Some c → c ≠ []).

(** ** A small instance of the encodings *)

(** A number as text: a sign and as many strokes as its magnitude. *)
Fixpoint strokes (n : nat) : string :=
  match n with
  | O => EmptyString
  | S n' => "a" +:+ strokes n'
  end.

Definition toy_jwk_json (k : Z) : string :=
  if bool_decide (k < 0) then "-" +:+ strokes (Z.to_nat (- k))
  else "+" +:+ strokes (Z.to_nat k).

Definition toy_json_jwk (text : string) : option Z :=
  match text with
  | String c rest =>
      Some (if bool_decide (String c EmptyString = "-"%string) then - Z.of_nat (String.length rest)
            else Z.of_nat (String.length rest))
  | EmptyString => None
  end.

Definition toy_exportKey_jwk (k : bytes) : option Z := Some (Z.of_nat (length k)).

Definition toy_utf8Decode (b : bytes) : string := String.string_of_list_byte b.

Definition toy_toString (n : Z) : string := toy_jwk_json n.

(** Bob's application state: logged in, holding the room key. *)
Definition bob_app : @App.State toy_crypto :=
  @App.mkState toy_crypto bob_keyed [] [] [] 0 None ∅ Store.empty None.

(** Bob as the relay lists him, with the public half of his key pair; Alice's
    application state, an administrator holding the room key who knows Bob
    to be online; Bob's application state, holding his key pair and no room
    key. *)
Definition bob_online : User :=
  mkUser "bob" "bob" "Bob" false online 0 (Some (toy_jwk_json toy_pub)).

Definition alice_app : @App.State toy_crypto :=
  @App.mkState toy_crypto alice_sending [alice; bob_online] [] [] 0 None ∅ Store.empty None.

Definition bob_waiting : @App.State toy_crypto :=
  @App.mkState toy_crypto bob_state [] [] [] 0
    (Some (@Crypto.mkKeyPair toy_crypto toy_pub toy_priv)) ∅ Store.empty None.

(** ** Accounts *)

(** A call of one of the three account functions, with the render it was
    created in, the relay as it answers, the clock readings and what is
    drawn. *)
Inductive AccountCall `{Crypto.SubtleCrypto} :=
| call_login (r : App.Render) (net : Client.Network) (seen logId logged : Z)
    (name password : string)
| call_register (r : App.Render) (net : Client.Network) (id : string)
    (seen logId logged : Z) (name password display : string)
| call_logout (r : App.Render) (net : Client.Network) (seen logId logged : Z).

Definition account_step `{Crypto.SubtleCrypto} (jwk_json : Crypto.JWK → string)
    (toString : Z → string) (st : App.State) (c : AccountCall) : App.State :=
  match c with
  | call_login r net seen logId logged name password =>
      (App.login jwk_json toString r net seen logId logged name password st).2
  | call_register r net id seen logId logged name password display =>
      (App.register jwk_json toString r net id seen logId logged name password display st).2
  | call_logout r net seen logId logged =>
      App.logout toString r net seen logId logged st
  end.

(** No stored user is an administrator, nor is the user the storage has as
    current, nor the user logged in. *)
Definition no_admin `{Crypto.SubtleCrypto} (st : App.State) : Prop :=
  Forall (λ u, isAdmin u = false) (Store.getUsers (App.entries st)) ∧
  (∀ u, Store.getCurrentUser (App.entries st) = Some u → isAdmin u = false) ∧
  (∀ u, Client.currentUser (App.client st) = Some u → isAdmin u = false).

(** A browser that was never used. *)
Definition fresh_app : @App.State toy_crypto :=
  @App.mkState toy_crypto
    (@Client.mkState toy_crypto None [] None [] [] ∅ Storage.empty [])
    [] [] [] 0 None ∅ Store.empty None.

(** Carol registers, logs out and logs in again, with another password,
    while the relay is out of reach. *)
Definition carol_calls : list (@AccountCall toy_crypto) :=
  [ call_register (App.render fresh_app) (λ _, None) "u1" 1 2 3 "carol" "secret" "Carol";
    call_logout (App.render fresh_app) (λ _, None) 4 5 6;
    call_login (App.render fresh_app) (λ _, None) 7 8 9 "carol" "guess" ].

(** ** Rooms as the clients see them *)

(** The room that a client takes for the id [rid]: the first with that id
    among the rooms it knows. *)
Definition room_known (rid : string) (rooms : list ChatRoom) : option ChatRoom :=
  List.find (λ r, bool_decide (Some (room_id r) = Some rid)) rooms.

(** ** Scenarios *)

(** Alice opens the private room [vault] for herself and Bob. *)
Definition vault_created : list Relay.Event :=
  [ Relay.request 1
      (Relay.create_room
         (Relay.mkCreateRoom (Some "vault"%string) (Some "Vault"%string)
            (Some "alice"%string) false (Some ["alice"%string; "bob"%string]) None)) ].

Definition vault : ChatRoom :=
  mkRoom "vault" "Vault" ["alice"%string; "bob"%string] "alice" 1 false (Some []).

(** ** Invitations *)

(** What the code for an invitation to the private room [rid], named
    [name], carries when [inviter] makes it at the time [ts]. *)
Definition invitation (rid name inviter : string) (ts : Z) : App.Invite :=
  App.mkInvite (Some 1) (Some rid) (Some name) (Some false) (Some inviter) (Some ts).

(** A small instance of the codes: the code is the room id, and whoever
    reads it takes it for Alice's invitation to the room [Vault]. *)
Definition toy_invite_code (p : App.Invite) : string :=
  default EmptyString (App.inv_roomId p).

Definition toy_read_code (code : string) : option App.Invite :=
  Some (invitation code "Vault" "alice" 5).

(** Alice knows the room [vault]. *)
Definition alice_in_vault : @App.State toy_crypto :=
  @App.mkState toy_crypto alice_sending [alice; bob_online] [] [] 0 None ∅
    (Store.mkEntries None [] [] [] [vault]) None.
(** * Properties *)

(** ** Helper facts on the JavaScript idioms *)

Lemma elem_of_foldl_set_add acc l x :
  x ∈ foldl set_add acc l ↔ x ∈ acc ∨ x ∈ l.
Proof.
  revert acc. induction l as [|y l IH]; intros acc; simpl.
  - set_solver.
  - rewrite IH. unfold set_add. case_bool_decide; set_solver.
Qed.

Lemma elem_of_array_from_set l x : x ∈ array_from_set l ↔ x ∈ l.
Proof. unfold array_from_set. rewrite elem_of_foldl_set_add. set_solver. Qed.

Lemma elem_of_without x l u : u ∈ without x l ↔ u ∈ l ∧ u ≠ x.
Proof. unfold without. rewrite list_elem_of_filter. tauto. Qed.

Lemma elem_of_push_if_absent l x u : u ∈ push_if_absent l x ↔ u ∈ l ∨ u = x.
Proof.
  unfold push_if_absent, includes. case_bool_decide; set_solver.
Qed.

Lemma includes_true l x : includes l x = true ↔ x ∈ l.
Proof. unfold includes. apply bool_decide_eq_true. Qed.

Lemma num_or_zero v : num_or (Some v) 0 = v.
Proof. unfold num_or. case_bool_decide; congruence. Qed.

(** ** The relay's message history *)

Lemma trim_spec h : Relay.trim h = drop (length h - 200)%nat h.
Proof.
  unfold Relay.trim. case_bool_decide as Hlen; [done|].
  replace (length h - 200)%nat with 0%nat by lia. done.
Qed.

Lemma history_inv_init : history_inv Relay.init.
Proof.
  unfold history_inv; simpl. split_and!; [lia | lia |].
  intros i m Hi. by rewrite lookup_nil in Hi.
Qed.

Lemma history_inv_send now payload s :
  history_inv s → history_inv (Relay.handle_send_message now payload s).2.
Proof.
  intros (Hseq & Hlen & Hidx). unfold history_inv; simpl.
  rewrite trim_spec, length_drop, !length_app; simpl.
  set (h := Relay.messageHistory s) in *. set (n := Relay.messageSeq s) in *.
  split_and!; [lia | lia |].
  intros i m. rewrite lookup_drop.
  intros Hm. apply lookup_app_Some in Hm as [Hm | [Hge Hm]].
  - apply Hidx in Hm as ->. f_equal. lia.
  - apply list_lookup_singleton_Some in Hm as [Hz <-]. simpl. f_equal. lia.
Qed.

(** Only [send_message] touches the history and the counter. *)
Lemma step_history s e :
  (∃ now payload, e = Relay.request now (Relay.send_message payload)) ∨
  (Relay.messageHistory (Relay.step s e) = Relay.messageHistory s ∧
   Relay.messageSeq (Relay.step s e) = Relay.messageSeq s).
Proof.
  destruct e as [now req|now]; [|by right].
  destruct req; simpl; try (by right); try (left; by eauto).
  - right. unfold Relay.handle_create_room.
    repeat case_match; done.
  - right. unfold Relay.handle_update_room. repeat case_match; done.
  - right. unfold Relay.handle_delete_room. repeat case_match; done.
  - right. unfold Relay.handle_key_update. repeat case_match; done.
  - right. unfold Relay.handle_upload_chunk. repeat case_match; done.
  - right. unfold Relay.handle_download_file_chunk. repeat case_match; done.
Qed.

Lemma history_inv_step s e : history_inv s → history_inv (Relay.step s e).
Proof.
  intros Hinv. destruct (step_history s e) as [(now & payload & ->) | [Hh Hn]].
  - by apply history_inv_send.
  - unfold history_inv in *. by rewrite Hh, Hn.
Qed.

Lemma history_inv_run events s : history_inv s → history_inv (Relay.run events s).
Proof.
  revert s. induction events as [|e events IH]; intros s Hinv; [done|].
  apply IH. by apply history_inv_step.
Qed.

Lemma run_app ev1 ev2 s : Relay.run (ev1 ++ ev2) s = Relay.run ev2 (Relay.run ev1 s).
Proof. unfold Relay.run. apply foldl_app. Qed.

(** The counter never decreases. *)
Lemma messageSeq_step s e : Relay.messageSeq s ≤ Relay.messageSeq (Relay.step s e).
Proof.
  destruct (step_history s e) as [(now & payload & ->) | [_ ->]]; simpl; lia.
Qed.

Lemma messageSeq_run events s : Relay.messageSeq s ≤ Relay.messageSeq (Relay.run events s).
Proof.
  revert s. induction events as [|e events IH]; intros s; simpl; [done|].
  etrans; [apply (messageSeq_step s e)|apply IH].
Qed.

(** In a state that satisfies the invariant every stored message carries a
    sequence number from the last 200 issued. *)
Lemma history_inv_seq s m :
  history_inv s → m ∈ Relay.messageHistory s →
  ∃ n, seq m = Some n ∧ Relay.messageSeq s - 200 < n ≤ Relay.messageSeq s ∧ 0 < n.
Proof.
  intros (Hseq & Hlen & Hidx) [i Hi]%list_elem_of_lookup.
  pose proof (lookup_lt_Some _ _ _ Hi) as Hlt.
  apply Hidx in Hi. eexists; split; [done|]. lia.
Qed.

(** ** Claims on the relay's message history *)

(** C6.  A heartbeat that carries the cursor [lastSeq] is answered, in every
    state the relay can reach, with exactly the stored messages whose
    sequence number is strictly greater than [lastSeq], in stored order; no
    returned message has a sequence number at or below the cursor. *)
Theorem heartbeat_returns_messages_after_cursor events now userId (lastSeq : Z) :
  let s := Relay.run events Relay.init in
  ∃ b, (Relay.POST now (Relay.heartbeat userId (Some lastSeq)) s).1
       = Relay.ok (Relay.heartbeat_body b) ∧
    Relay.newMessages b
      = filter (λ m, lastSeq < num_nullish (seq m) 0) (Relay.messageHistory s) ∧
    (∀ m, m ∈ Relay.newMessages b ↔
          m ∈ Relay.messageHistory s ∧ ∃ n, seq m = Some n ∧ lastSeq < n) ∧
    (∀ m n, m ∈ Relay.newMessages b → seq m = Some n → ¬ n ≤ lastSeq).
Proof.
  intros s. eexists. split; [reflexivity|]. cbn [Relay.newMessages].
  unfold Relay.messages_since. rewrite num_or_zero.
  assert (Hinv : history_inv s) by apply history_inv_run, history_inv_init.
  split_and!; [done | |].
  - intros m. rewrite list_elem_of_filter. split.
    + intros [Hlt Hin]. split; [done|].
      destruct (history_inv_seq s m Hinv Hin) as (n & Hn & _).
      exists n. rewrite Hn in Hlt. by simpl in Hlt.
    + intros [Hin (n & Hn & Hlt)]. split; [|done]. by rewrite Hn.
  - intros m n [Hlt _]%list_elem_of_filter Hn. rewrite Hn in Hlt. simpl in Hlt. lia.
Qed.

(** C9.  In every state the relay can reach the history holds at most 200
    messages, namely those with the most recent sequence numbers; a
    [send_message] appends the stamped message and keeps the last 200
    entries; [register_user] and [get_state] answer with that history; and a
    sequence number that lies more than 200 behind the counter is carried by
    no stored message in that state or in any later one, so a client whose
    cursor lags by more than 200 never receives the messages in between. *)
Theorem relay_history_capped events :
  let s := Relay.run events Relay.init in
  let h := Relay.messageHistory s in
  (length h ≤ 200)%nat ∧
  seq <$> h
    = Some <$> seqZ (Relay.messageSeq s - Z.of_nat (length h) + 1) (Z.of_nat (length h)) ∧
  (∀ now payload,
     let h' := h ++ [Relay.stamp now (Relay.messageSeq s + 1) payload] in
     Relay.messageHistory (Relay.POST now (Relay.send_message payload) s).2
       = drop (length h' - 200)%nat h') ∧
  (∀ now payload, ∃ users,
     (Relay.POST now (Relay.register_user payload) s).1 = Relay.ok (Relay.registered users h)) ∧
  (∀ now, ∃ users devices rs,
     (Relay.POST now Relay.get_state s).1
       = Relay.ok (Relay.state_body users h (Relay.messageSeq s) devices rs)) ∧
  (∀ lastSeq n later,
     200 < Relay.messageSeq s - lastSeq →
     lastSeq < n ≤ Relay.messageSeq s - 200 →
     ∀ m, m ∈ Relay.messageHistory (Relay.run later s) → seq m ≠ Some n).
Proof.
  intros s h.
  assert (Hinv : history_inv s) by apply history_inv_run, history_inv_init.
  split_and!.
  - destruct Hinv as (_ & Hlen & _). fold h in Hlen. lia.
  - destruct Hinv as (_ & _ & Hidx). fold h in Hidx.
    apply list_eq. intros i. rewrite !list_lookup_fmap.
    destruct (h !! i) as [m|] eqn:Hm; simpl.
    + rewrite (Hidx i m Hm). apply lookup_lt_Some in Hm.
      rewrite lookup_seqZ_lt by lia. done.
    + apply lookup_ge_None in Hm. rewrite lookup_seqZ_ge by lia. done.
  - intros now payload h'. simpl. by rewrite trim_spec.
  - intros now payload. eexists. simpl. reflexivity.
  - intros now. do 3 eexists. reflexivity.
  - intros lastSeq n later Hlag Hn m Hm Hseq.
    assert (Hinv' : history_inv (Relay.run later s)) by by apply history_inv_run.
    destruct (history_inv_seq _ m Hinv' Hm) as (n' & Hn' & Hrange & _).
    pose proof (messageSeq_run later s). simplify_eq. lia.
Qed.

(** ** Room membership *)

(** Each mutation keeps the owner among the participants, whoever asks. *)
Lemma owner_inv_addParticipant u r : owner_inv r → owner_inv (Relay.do_addParticipant u r).
Proof. unfold owner_inv; simpl. rewrite elem_of_array_from_set. set_solver. Qed.

Lemma owner_inv_removeParticipant u r : owner_inv (Relay.do_removeParticipant u r).
Proof. unfold owner_inv; simpl. rewrite elem_of_push_if_absent. by right. Qed.

Lemma owner_inv_addAdmin u r : owner_inv r → owner_inv (Relay.do_addAdmin u r).
Proof.
  unfold owner_inv, Relay.do_addAdmin. case_bool_decide; [|done]. simpl.
  rewrite elem_of_push_if_absent. by left.
Qed.

Lemma owner_inv_removeAdmin u r : owner_inv r → owner_inv (Relay.do_removeAdmin u r).
Proof. done. Qed.

Lemma owner_inv_transferOwnerTo actor u r :
  owner_inv r → owner_inv (Relay.do_transferOwnerTo actor u r).
Proof.
  unfold owner_inv, Relay.do_transferOwnerTo.
  destruct (includes (participants r) u) eqn:Hu; [|done].
  intros _. simpl. by apply includes_true.
Qed.

Lemma when_set_preserves (P : ChatRoom → Prop) o f r :
  P r → (∀ u r, P r → P (f u r)) → P (Relay.when_set o f r).
Proof.
  intros Hr Hf. unfold Relay.when_set. destruct o as [u|]; [|done].
  destruct (truthy (Some u)); auto.
Qed.

Lemma owner_inv_mutate payload r : owner_inv r → owner_inv (Relay.mutate payload r).
Proof.
  intros Hr. unfold Relay.mutate.
  repeat (apply when_set_preserves; [|intros]);
    eauto using owner_inv_addParticipant, owner_inv_removeParticipant,
      owner_inv_addAdmin, owner_inv_removeAdmin, owner_inv_transferOwnerTo.
Qed.

Lemma room_id_mutate payload r : room_id (Relay.mutate payload r) = room_id r.
Proof.
  unfold Relay.mutate.
  repeat (apply (when_set_preserves (λ r', room_id r' = room_id r)); [|intros u r' Hr']);
    try done.
  all: unfold Relay.do_addAdmin, Relay.do_transferOwnerTo;
    try case_bool_decide; try case_match; done.
Qed.

(** In every state the relay can reach, the room table is keyed by the room
    ids and every owner is a participant of their room. *)
Lemma rooms_ok_step s e : rooms_ok s → rooms_ok (Relay.step s e).
Proof.
  intros Hok. destruct e as [now req|now]; [|done].
  destruct req; simpl; try done.
  - unfold Relay.handle_create_room.
    destruct (Relay.cr_id payload) as [rid|]; [|done].
    destruct (Relay.cr_name payload) as [name|]; [|done].
    destruct (Relay.cr_createdBy payload) as [creator|]; [|done].
    destruct (_ || _); [done|]. case_bool_decide; [done|].
    intros rid' r'. simpl. rewrite lookup_insert.
    case_decide as Hrid; [|by apply Hok].
    intros [= <-]. split; [done|]. unfold owner_inv; simpl.
    rewrite elem_of_array_from_set. set_solver.
  - unfold Relay.handle_update_room.
    destruct (Relay.rooms s !! Relay.ur_roomId payload) as [r|] eqn:Hr; [|done].
    destruct (negb _); [done|].
    destruct (Hok _ _ Hr) as [Hid Hown].
    intros rid' r'. simpl. rewrite room_id_mutate, Hid, insert_insert_eq, lookup_insert.
    case_decide as Hrid; [|by apply Hok].
    intros [= <-]. split; [by rewrite room_id_mutate, Hid | by apply owner_inv_mutate].
  - unfold Relay.handle_delete_room.
    destruct (Relay.rooms s !! roomId) as [r|] eqn:Hr; [|done].
    destruct (negb _); [done|].
    intros rid' r'. simpl. rewrite lookup_delete.
    case_decide; [done | by apply Hok].
  - unfold Relay.handle_key_update. by repeat case_match.
  - unfold Relay.handle_upload_chunk. by repeat case_match.
  - unfold Relay.handle_download_file_chunk. by repeat case_match.
Qed.

Lemma rooms_ok_run events s : rooms_ok s → rooms_ok (Relay.run events s).
Proof.
  revert s. induction events as [|e events IH]; intros s Hok; [done|].
  by apply IH, rooms_ok_step.
Qed.

Lemma rooms_ok_init : rooms_ok Relay.init.
Proof. intros rid r Hr. simpl in Hr. by rewrite lookup_empty in Hr. Qed.

(** An authorised user who is a participant if an admin is a participant. *)
Lemma room_admin_participant actor r :
  owner_inv r → admin_inv actor r → Relay.is_room_admin actor r = true →
  actor ∈ participants r.
Proof.
  unfold owner_inv, admin_inv, Relay.is_room_admin.
  intros Ho Ha [Hown | Hadm]%orb_true_iff.
  - apply bool_decide_eq_true in Hown. by subst.
  - revert Ha Hadm. destruct (admins r) as [a|]; simpl; intros Ha Hadm; [|done].
    apply includes_true in Hadm. by apply Ha.
Qed.

(** The first four mutations keep a user who is a participant if an admin in
    that condition, whatever their arguments. *)
Lemma admin_inv_addParticipant x u r :
  admin_inv u r → admin_inv u (Relay.do_addParticipant x r).
Proof.
  unfold admin_inv. simpl. rewrite elem_of_array_from_set. set_solver.
Qed.

Lemma admin_inv_removeParticipant x u r :
  admin_inv u r → admin_inv u (Relay.do_removeParticipant x r).
Proof.
  unfold admin_inv. simpl. rewrite elem_of_push_if_absent, elem_of_without.
  destruct (admins r) as [a|]; simpl; [|set_solver].
  intros Ha [Hu Hne]%elem_of_without. left. auto.
Qed.

Lemma admin_inv_addAdmin x u r :
  admin_inv u r → admin_inv u (Relay.do_addAdmin x r).
Proof.
  unfold admin_inv, Relay.do_addAdmin. case_bool_decide; [|done]. simpl.
  rewrite elem_of_array_from_set, elem_of_push_if_absent. set_solver.
Qed.

Lemma admin_inv_removeAdmin x u r :
  admin_inv u r → admin_inv u (Relay.do_removeAdmin x r).
Proof.
  unfold admin_inv. simpl. intros Ha [Hu _]%elem_of_without. auto.
Qed.

(** A participant stays one through the first four mutations unless the
    second removes them. *)
Lemma participant_addParticipant x v r :
  v ∈ participants r → v ∈ participants (Relay.do_addParticipant x r).
Proof. simpl. rewrite elem_of_array_from_set. set_solver. Qed.

Lemma participant_removeParticipant x v r :
  v ≠ x → v ∈ participants r → v ∈ participants (Relay.do_removeParticipant x r).
Proof.
  intros Hne Hv. simpl. rewrite elem_of_push_if_absent, elem_of_without. by left.
Qed.

Lemma participant_addAdmin x v r :
  v ∈ participants r → v ∈ participants (Relay.do_addAdmin x r).
Proof.
  unfold Relay.do_addAdmin. case_bool_decide; [|done]. simpl.
  rewrite elem_of_push_if_absent. by left.
Qed.

(** The transfer of the ownership makes the acting user an admin, and nobody
    else. *)
Lemma admin_inv_transferOwnerTo actor target u r :
  (u = actor → actor ∈ participants r) →
  admin_inv u r → admin_inv u (Relay.do_transferOwnerTo actor target r).
Proof.
  intros Hactor Ha. unfold admin_inv, Relay.do_transferOwnerTo in *.
  destruct (includes (participants r) target); [|done]. simpl.
  rewrite elem_of_array_from_set.
  intros [Hu | Hu%list_elem_of_singleton]%elem_of_app; [by apply Ha|].
  rewrite Hu. by apply Hactor.
Qed.

(** The block of mutations of one request by the owner or an admin keeps a
    user who is a participant if an admin in that condition, unless the
    request removes the acting user and transfers the ownership. *)
Lemma admin_inv_mutate payload u r :
  owner_inv r → Relay.is_room_admin (Relay.byUserId payload) r = true →
  ¬ leaves_and_transfers payload →
  admin_inv u r → admin_inv u (Relay.mutate payload r).
Proof.
  intros Ho Hact Hsafe Ha. unfold Relay.mutate.
  set (actor := Relay.byUserId payload) in *.
  set (r4 := Relay.when_set (Relay.removeAdmin payload) Relay.do_removeAdmin _).
  assert (Ha4 : admin_inv u r4).
  { subst r4. repeat (apply when_set_preserves; [|intros]);
      eauto using admin_inv_addParticipant, admin_inv_removeParticipant,
        admin_inv_addAdmin, admin_inv_removeAdmin. }
  destruct (Relay.transferOwnerTo payload) as [target|] eqn:Htarget; [|done].
  unfold Relay.when_set at 1. destruct (truthy (Some target)) eqn:Htruthy; [|done].
  apply admin_inv_transferOwnerTo; [|done].
  intros ->. subst r4.
  assert (Hin : actor ∈ participants r) by by apply room_admin_participant.
  apply (when_set_preserves (λ r', actor ∈ participants r')); [|done].
  apply (when_set_preserves (λ r', actor ∈ participants r'));
    [|intros; by apply participant_addAdmin].
  assert (Hin1 : actor ∈ participants
                   (Relay.when_set (Relay.addParticipant payload) Relay.do_addParticipant r)).
  { apply (when_set_preserves (λ r', actor ∈ participants r')); [done|].
    intros; by apply participant_addParticipant. }
  unfold Relay.when_set at 1.
  destruct (Relay.removeParticipant payload) as [x|] eqn:Hx; [|done].
  destruct (truthy (Some x)); [|done].
  apply participant_removeParticipant; [|done].
  intros Heq. apply Hsafe. unfold leaves_and_transfers.
  split; [by rewrite Hx, <- Heq | by rewrite Htarget].
Qed.

(** One [update_room] request, whatever it carries, leaves every room in the
    table. *)
Lemma update_room_any now payload s rid r :
  rooms_ok s → Relay.rooms s !! rid = Some r →
  ∃ r', Relay.rooms (Relay.step s (Relay.request now (Relay.update_room payload))) !! rid
        = Some r' ∧
    (¬ leaves_and_transfers payload → ∀ u, admin_inv u r → admin_inv u r').
Proof.
  intros Hok Hr. cbn [Relay.step Relay.POST snd]. unfold Relay.handle_update_room.
  destruct (Relay.rooms s !! Relay.ur_roomId payload) as [r0|] eqn:Hr0; [|by exists r].
  destruct (Relay.is_room_admin (Relay.byUserId payload) r0) eqn:Hact; [|by exists r].
  cbn [negb snd Relay.rooms Relay.set_rooms].
  destruct (Hok _ _ Hr0) as [Hid Hown].
  rewrite room_id_mutate, Hid, insert_insert_eq.
  destruct (decide (Relay.ur_roomId payload = rid)) as [Heq|Hne].
  - rewrite Heq in *. simplify_eq. rewrite lookup_insert_eq. eexists. split; [done|].
    intros Hsafe u. by apply admin_inv_mutate.
  - rewrite lookup_insert_ne by done. by exists r.
Qed.

Lemma update_room_requests ps s rid r :
  rooms_ok s → Relay.rooms s !! rid = Some r →
  ∃ r', Relay.rooms (Relay.run (update_requests ps) s) !! rid = Some r' ∧
    owner_inv r' ∧
    (Forall (λ np, ¬ leaves_and_transfers np.2) ps → ∀ u, admin_inv u r → admin_inv u r').
Proof.
  revert s r. induction ps as [|[now payload] ps IH]; intros s r Hok Hr.
  - exists r. split; [done|]. split; [by destruct (Hok _ _ Hr)|]. done.
  - destruct (update_room_any now payload s rid r Hok Hr) as (r1 & Hr1 & Ha1).
    destruct (IH _ r1 (rooms_ok_step _ _ Hok) Hr1) as (r' & Hr' & Ho' & Ha').
    exists r'. split_and!; [done | done |].
    intros [Hsafe Hrest]%Forall_cons u Hu. apply Ha'; [done|]. by apply Ha1.
Qed.




(** ** Room creation *)

(** C10.  There is a [create_room] payload that the relay accepts and whose
    room has an admin who is not a participant: the payload's admins are
    stored as they come, while the participants are the listed ones and the
    creator. *)
Theorem create_room_admin_outside_participants :
  ∃ now payload s' r u,
    Relay.POST now (Relay.create_room payload) Relay.init
      = (Relay.ok (Relay.room_list [r]), s') ∧
    Relay.rooms s' !! "lobby"%string = Some r ∧
    admins r = Relay.cr_admins payload ∧
    u ∈ default [] (admins r) ∧ (u ∉ participants r) ∧ ¬ room_inv r.
Proof.
  exists 0.
  exists (Relay.mkCreateRoom (Some "lobby"%string) (Some "Lobby"%string)
            (Some "alice"%string) false None (Some ["bob"%string])).
  eexists _, _, "bob"%string.
  split; [vm_compute; reflexivity|].
  split; [vm_compute; reflexivity|].
  split; [reflexivity|].
  assert (Hnot : "bob"%string ∉ ["alice"%string]).
  { intros Hin. apply list_elem_of_singleton in Hin. discriminate. }
  split; [simpl; set_solver|]. split; [exact Hnot|].
  intros [_ Ha]. apply Hnot, Ha. simpl. set_solver.
Qed.

(** ** Merging message lists *)

Lemma compare_messages_le a b : Client.compare_messages a b ≤ 0 ↔ msg_le a b.
Proof.
  unfold Client.compare_messages, msg_le, seq_of. case_bool_decide; lia.
Qed.

#[local] Instance msg_le_trans : Transitive msg_le.
Proof. intros a b c. unfold msg_le. lia. Qed.

Lemma msg_le_total a b : msg_le a b ∨ msg_le b a.
Proof. unfold msg_le. lia. Qed.

Lemma sort_insert_perm cmp x l : Client.sort_insert cmp x l ≡ₚ x :: l.
Proof.
  induction l as [|y l IH]; simpl; [done|].
  case_bool_decide; [done|]. rewrite IH. apply Permutation_swap.
Qed.

Lemma array_sort_perm cmp l : Client.array_sort cmp l ≡ₚ l.
Proof.
  induction l as [|x l IH]; simpl; [done|].
  rewrite sort_insert_perm. by f_equiv.
Qed.

Lemma sort_insert_sorted x l :
  StronglySorted msg_le l →
  StronglySorted msg_le (Client.sort_insert Client.compare_messages x l).
Proof.
  induction 1 as [|y l Hl IH Hy]; simpl.
  - repeat constructor.
  - case_bool_decide as Hcmp.
    + apply compare_messages_le in Hcmp.
      constructor; [by constructor|].
      constructor; [done|]. eapply Forall_impl; [exact Hy|].
      intros z Hz. by etrans.
    + constructor; [done|].
      rewrite sort_insert_perm. constructor; [|done].
      destruct (msg_le_total x y) as [Hxy|]; [|done].
      by apply compare_messages_le in Hxy.
Qed.

Lemma array_sort_sorted l :
  StronglySorted msg_le (Client.array_sort Client.compare_messages l).
Proof.
  induction l as [|x l IH]; simpl; [constructor|]. by apply sort_insert_sorted.
Qed.

Lemma StronglySorted_lookup {A} (R : relation A) l (i j : nat) a b :
  StronglySorted R l → (i < j)%nat → l !! i = Some a → l !! j = Some b → R a b.
Proof.
  intros Hl. revert i j. induction Hl as [|x l Hl IH Hx]; intros i j Hij Hi Hj.
  - by rewrite lookup_nil in Hi.
  - destruct j as [|j]; [lia|]. simpl in Hj. destruct i as [|i]; simpl in Hi.
    + simplify_eq. rewrite Forall_forall in Hx. apply Hx.
      by eapply list_elem_of_lookup_2.
    + apply (IH i j); [lia|done..].
Qed.

Lemma map_set_keys m k v i : i ∈ (Client.map_set m k v).*1 ↔ i = k ∨ i ∈ m.*1.
Proof.
  induction m as [|[k' v'] m IH]; simpl.
  - set_solver.
  - case_bool_decide; simpl; set_solver.
Qed.

Lemma map_set_entries m k v k1 v1 :
  (k1, v1) ∈ Client.map_set m k v → (k1, v1) = (k, v) ∨ (k1, v1) ∈ m.
Proof.
  induction m as [|[k' v'] m IH]; simpl.
  - set_solver.
  - case_bool_decide; set_solver.
Qed.

Lemma map_set_keyed m k v : keyed m → msg_id v = k → keyed (Client.map_set m k v).
Proof.
  intros [Hnd Hk] Hv. split.
  - clear Hk. induction m as [|[k' v'] m IH]; simpl.
    + apply NoDup_singleton.
    + simpl in Hnd. apply NoDup_cons in Hnd as [Hk' Hnd].
      case_bool_decide; simpl.
      * subst. by apply NoDup_cons.
      * apply NoDup_cons. split; [|by apply IH].
        rewrite map_set_keys. set_solver.
  - intros k1 v1 [Heq | Hin]%map_set_entries; [by simplify_eq | by apply Hk].
Qed.

Lemma foldl_map_set l m :
  keyed m →
  let m' := foldl (λ map x, Client.map_set map (msg_id x) x) m l in
  keyed m' ∧
  (∀ i, i ∈ m'.*1 ↔ i ∈ m.*1 ∨ i ∈ msg_id <$> l) ∧
  (∀ x, x ∈ m'.*2 → x ∈ m.*2 ∨ x ∈ l).
Proof.
  revert m. induction l as [|y l IH]; intros m Hm; simpl.
  - split_and!; [done|set_solver|set_solver].
  - destruct (IH (Client.map_set m (msg_id y) y)) as (Hk & Hids & Hvals).
    { by apply map_set_keyed. }
    split_and!; [done| |].
    + intros i. rewrite Hids, map_set_keys. set_solver.
    + intros x [Hx | Hx]%Hvals; [|set_solver].
      apply list_elem_of_fmap in Hx as ([k1 v1] & -> & Hin).
      apply map_set_entries in Hin as [Heq | Hin]; [simplify_eq; set_solver|].
      left. apply list_elem_of_fmap. by exists (k1, v1).
Qed.

Lemma keyed_ids m : keyed m → msg_id <$> m.*2 = m.*1.
Proof.
  intros [_ Hk]. induction m as [|[k v] m IH]; simpl; [done|].
  f_equal; [apply Hk; set_solver | apply IH; intros; apply Hk; set_solver].
Qed.

(** C4.  Merging two message lists keeps every message id of either list
    exactly once (no duplicate ids, no id lost or invented, every message
    kept comes from one of the lists) and orders the result by sequence
    number ascending, a message without a sequence number counting as 0, with
    ties broken by ascending timestamp: no two positions of the result are
    inverted. *)
Theorem mergeMessages_dedups_and_orders prev incoming :
  let res := Client.mergeMessages prev incoming in
  NoDup (msg_id <$> res) ∧
  (∀ i, i ∈ msg_id <$> res ↔ i ∈ msg_id <$> prev ∨ i ∈ msg_id <$> incoming) ∧
  (∀ m, m ∈ res → m ∈ prev ∨ m ∈ incoming) ∧
  StronglySorted msg_le res ∧
  (∀ (i j : nat) a b, (i < j)%nat → res !! i = Some a → res !! j = Some b →
     seq_of a ≤ seq_of b ∧ (seq_of a = seq_of b → timestamp a ≤ timestamp b)).
Proof.
  intros res. unfold Client.mergeMessages in res.
  destruct (foldl_map_set prev []) as (Hk1 & Hids1 & Hvals1).
  { split; [constructor | intros k v Hin; by apply elem_of_nil in Hin]. }
  set (m1 := foldl (λ map x, Client.map_set map (msg_id x) x) [] prev) in *.
  destruct (foldl_map_set incoming m1 Hk1) as (Hk2 & Hids2 & Hvals2).
  set (m2 := foldl (λ map x, Client.map_set map (msg_id x) x) m1 incoming) in *.
  assert (Hperm : res ≡ₚ m2.*2) by apply array_sort_perm.
  assert (Hsorted : StronglySorted msg_le res) by apply array_sort_sorted.
  split_and!.
  - rewrite Hperm, keyed_ids by done. apply Hk2.
  - intros i. rewrite Hperm, keyed_ids by done. rewrite Hids2, Hids1. set_solver.
  - intros m Hm. rewrite Hperm in Hm. apply Hvals2 in Hm as [Hm|Hm]; [|by right].
    apply Hvals1 in Hm as [Hm|Hm]; [set_solver | by left].
  - done.
  - intros i j a b Hij Ha Hb.
    pose proof (StronglySorted_lookup msg_le res i j a b Hsorted Hij Ha Hb) as Hle.
    unfold msg_le in Hle. lia.
Qed.

(** ** Key envelopes *)

Section key_envelopes.
Context `{Crypto.SubtleCryptoLaws}.

(** C2.  With WebCrypto available, for every room key [K] (with raw material
    [raw]), every identity key pair [(pub, priv)] and every choice of
    ephemeral key pair, salt and nonce, wrapping [K] for [pub] succeeds, and
    unwrapping the envelope with [priv] yields a key with the same raw
    material [raw]. *)
Theorem unpack_pack_room_key (rnd : Crypto.Entropy) K raw pub priv :
  Crypto.hasSubtle = true →
  Crypto.ecdh_pair pub priv →
  Crypto.ecdh_pair (Crypto.publicJwk (Crypto.ephemeral rnd))
    (Crypto.privateJwk (Crypto.ephemeral rnd)) →
  Crypto.exportKey_raw K = Some raw →
  ∃ env, Crypto.packRoomKeyForRecipient rnd K pub = Some env ∧
    ∃ K', Crypto.unpackRoomKeyFromSender priv (Crypto.epk env) (Crypto.saltB64 env)
            (Crypto.nonceB64 env) (Crypto.ctB64 env) = Some K' ∧
          Crypto.exportAesRaw K' = Some raw.
Proof.
  intros Hsubtle Hpair Hephem Hraw.
  destruct (Crypto.ecdh_agreement _ _ _ _ Hpair Hephem) as (z & Hunpack & Hpack).
  destruct (Crypto.hkdf_total z (Crypto.salt16 rnd) (Crypto.utf8Encode Crypto.infoLabel))
    as [aes Haes].
  destruct (Crypto.aesgcm_inverse aes (Crypto.nonce12 rnd) raw) as (ct & Henc & Hdec).
  destruct (Crypto.raw_import raw K Hraw) as (K' & Himport & Hexport).
  unfold Crypto.packRoomKeyForRecipient, Crypto.unpackRoomKeyFromSender,
    Crypto.generateECDH, Crypto.deriveSharedBits, Crypto.deriveAesFromShared,
    Crypto.exportAesRaw, Crypto.aesEncryptBytes, Crypto.aesDecryptBytes,
    Crypto.importAesRaw, Crypto.base64ToBytes, Crypto.bytesToBase64,
    Crypto.require_subtle.
  rewrite Hsubtle. cbn [mbind option_bind].
  rewrite Hpack. cbn [mbind option_bind]. rewrite Haes. cbn [mbind option_bind].
  rewrite Hraw. cbn [mbind option_bind]. rewrite Henc. cbn [mbind option_bind].
  eexists. split; [reflexivity|]. cbn [Crypto.epk Crypto.saltB64 Crypto.nonceB64 Crypto.ctB64].
  rewrite Hunpack. cbn [mbind option_bind]. rewrite !Crypto.atob_btoa. cbn [mbind option_bind].
  rewrite Haes. cbn [mbind option_bind]. rewrite Hdec. cbn [mbind option_bind].
  exists K'. by rewrite Himport, Hexport.
Qed.

End key_envelopes.

Lemma toy_crypto_laws : @Crypto.SubtleCryptoLaws toy_crypto.
Proof.
  split.
  - intros pubA privA pubB privB [HA ->] [HB ->]. simpl.
    rewrite !bool_decide_eq_true_2 by done.
    exists (toy_bits (5 ^ (privA * privB) mod 23)). split; do 2 f_equal.
    + rewrite Z.mod_pow_l, <- Z.pow_mul_r by lia. do 2 f_equal. lia.
    + by rewrite Z.mod_pow_l, <- Z.pow_mul_r by lia.
  - intros shared salt info. by eexists.
  - intros k iv m. eexists. split; [reflexivity|]. simpl. unfold toy_decrypt.
    rewrite take_app_length, bool_decide_eq_true_2 by done.
    by rewrite drop_app_length.
  - intros raw k [= ->]. by exists raw.
  - intros b. simpl. by rewrite String.list_byte_of_string_of_list_byte.
Qed.

Lemma unpack_pack_room_key_witness :
  ∃ env, @Crypto.packRoomKeyForRecipient toy_crypto toy_entropy toy_room_key toy_pub
         = Some env ∧
    ∃ K', @Crypto.unpackRoomKeyFromSender toy_crypto toy_priv (Crypto.epk env)
            (Crypto.saltB64 env) (Crypto.nonceB64 env) (Crypto.ctB64 env) = Some K' ∧
          @Crypto.exportAesRaw toy_crypto K' = Some toy_room_key.
Proof.
  apply (@unpack_pack_room_key toy_crypto toy_crypto_laws
           toy_entropy toy_room_key toy_room_key toy_pub toy_priv).
  - reflexivity.
  - split; [unfold toy_priv; lia | reflexivity].
  - split; [simpl; lia | reflexivity].
  - reflexivity.
Defined.

(** ** The global channel's write gate *)

Section write_gate.
Context `{Crypto.SubtleCrypto}.

(** C5.  When the logged-in peer is not an administrator and no room id is
    given, [sendMessage] returns the state it was called in: no request is
    added to those sent to the relay, and the message list and the local
    storage are unchanged. *)
Theorem sendMessage_global_rejected_for_non_admin
    id now nonce content roomId (st : Client.State) user :
  Client.currentUser st = Some user →
  isAdmin user = false →
  truthy roomId = false →
  let st' := Client.sendMessage id now nonce content roomId st in
  Client.sent st' = Client.sent st ∧
  Client.messages st' = Client.messages st ∧
  Client.storage st' = Client.storage st ∧
  st' = st.
Proof.
  intros Huser Hadmin Hroom. unfold Client.sendMessage.
  rewrite Huser, Hadmin, Hroom. simpl. done.
Qed.

End write_gate.

Lemma sendMessage_global_rejected_for_non_admin_witness :
  let st' := @Client.sendMessage toy_crypto "m1" 7 [Byte.x0c] "hello" None bob_state in
  Client.sent st' = Client.sent bob_state ∧
  Client.messages st' = Client.messages bob_state ∧
  Client.storage st' = Client.storage bob_state ∧
  st' = bob_state.
Proof.
  apply (@sendMessage_global_rejected_for_non_admin toy_crypto
           "m1"%string 7 [Byte.x0c] "hello"%string None bob_state bob);
    reflexivity.
Defined.

(** ** The stored transfer list *)

Lemma findIndex_Some id ts i :
  Storage.findIndex id ts = Some i → ∃ t, ts !! i = Some t ∧ ft_id t = id.
Proof.
  revert i. induction ts as [|t ts IH]; intros i; simpl; [done|].
  case_bool_decide as Hid.
  - intros [= <-]. by exists t.
  - destruct (Storage.findIndex id ts) as [j|]; simpl; [|done].
    intros [= <-]. by apply IH.
Qed.

Lemma ids_alter (f : FileTransfer → FileTransfer) (i : nat) (ts : list FileTransfer) :
  (∀ t, ts !! i = Some t → ft_id (f t) = ft_id t) →
  ft_id <$> alter f i ts = ft_id <$> ts.
Proof.
  intros Hf. apply list_eq. intros j. rewrite !list_lookup_fmap.
  destruct (decide (i = j)) as [<-|Hne].
  - rewrite list_lookup_alter_eq. destruct (ts !! i) as [t|] eqn:Ht; simpl; [|done].
    by rewrite Hf.
  - by rewrite list_lookup_alter_ne.
Qed.

Lemma addFileTransfer_ids tr ls x :
  x ∈ ft_id <$> Storage.ls_fileTransfers (Storage.addFileTransfer tr ls) →
  x ∈ ft_id <$> Storage.ls_fileTransfers ls ∨ x = ft_id tr.
Proof.
  unfold Storage.addFileTransfer, Storage.getFileTransfers.
  destruct (Storage.findIndex _ _) as [i|] eqn:Hi; simpl.
  - apply findIndex_Some in Hi as (t & Ht & Hid).
    rewrite ids_alter; [by left|].
    intros t' Ht'. simplify_eq. done.
  - rewrite fmap_app. set_solver.
Qed.

(** An update that carries no id leaves the id of the entry alone. *)
Lemma patch_id t u : Storage.u_id u = None → ft_id (Storage.patch t u) = ft_id t.
Proof. intros Hu. simpl. by rewrite Hu. Qed.

Lemma updateFileTransfer_ids tid u ls :
  Storage.u_id u = None →
  ft_id <$> Storage.ls_fileTransfers (Storage.updateFileTransfer tid u ls)
  = ft_id <$> Storage.ls_fileTransfers ls.
Proof.
  intros Hu. unfold Storage.updateFileTransfer, Storage.getFileTransfers.
  destruct (Storage.findIndex _ _) as [i|]; simpl; [|done].
  apply ids_alter. intros t _. by apply patch_id.
Qed.

Lemma addFileTransfer_dismissed tr ls :
  Storage.ls_dismissed (Storage.addFileTransfer tr ls) = Storage.ls_dismissed ls.
Proof. unfold Storage.addFileTransfer. by destruct (Storage.findIndex _ _). Qed.

Lemma updateFileTransfer_dismissed tid u ls :
  Storage.ls_dismissed (Storage.updateFileTransfer tid u ls) = Storage.ls_dismissed ls.
Proof. unfold Storage.updateFileTransfer. by destruct (Storage.findIndex _ _). Qed.

Lemma find_alter_first tid (f : FileTransfer → FileTransfer) (ts : list FileTransfer) :
  (∀ t, ft_id (f t) = ft_id t) →
  List.find (λ t, bool_decide (ft_id t = tid))
    (match Storage.findIndex tid ts with Some i => alter f i ts | None => ts end)
  = f <$> List.find (λ t, bool_decide (ft_id t = tid)) ts.
Proof.
  intros Hf. induction ts as [|t ts IH]; simpl; [done|].
  case_bool_decide as Hid; simpl.
  - by rewrite Hf, bool_decide_eq_true_2.
  - destruct (Storage.findIndex tid ts) as [i|]; simpl in *.
    + by rewrite bool_decide_eq_false_2.
    + by rewrite bool_decide_eq_false_2.
Qed.

Lemma stored_update tid u ls :
  Storage.u_id u = None →
  stored_transfer tid (Storage.updateFileTransfer tid u ls)
  = (λ t, Storage.patch t u) <$> stored_transfer tid ls.
Proof.
  intros Hu. unfold stored_transfer, Storage.updateFileTransfer, Storage.getFileTransfers.
  rewrite <- (find_alter_first tid (λ t, Storage.patch t u))
    by (intros t; by apply patch_id).
  by destruct (Storage.findIndex _ _).
Qed.

(** ** Dismissed transfers *)

Section dismissal.
Context `{Crypto.SubtleCrypto}.
Variable percent : nat → Z → Z.

Lemma gone_update T tid u (st : Client.State) :
  Storage.u_id u = None →
  gone T st → gone T (Client.store_transfers (Storage.updateFileTransfer tid u) st).
Proof.
  intros Hu (Hd & Hl & Hs & Hr). unfold gone, Client.store_transfers; simpl.
  unfold Storage.getFileTransfers.
  rewrite updateFileTransfer_dismissed, updateFileTransfer_ids by done. done.
Qed.

Lemma gone_record_chunk T tid index b (st : Client.State) :
  tid ≠ T → gone T st → gone T (Client.record_chunk percent tid index b st).
Proof.
  intros Hne Hg. unfold Client.record_chunk.
  destruct (Client.receivers st !! tid) as [rec|]; [|done].
  match goal with |- context [Client.set_receivers st ?m] =>
    assert (Hg1 : gone T (Client.set_receivers st m)) end.
  { destruct Hg as (Hd & Hl & Hs & Hr). split_and!; simpl; try done.
    by rewrite lookup_insert_ne. }
  case_bool_decide; repeat apply gone_update; done.
Qed.

Lemma gone_fetch_chunk T net user tid (st : Client.State) index :
  tid ≠ T → gone T st → gone T (Client.fetch_chunk percent net user tid st index).
Proof.
  intros Hne Hg. unfold Client.fetch_chunk, Client.fetch.
  match goal with |- context [Client.set_sent st ?l] =>
    assert (Hg1 : gone T (Client.set_sent st l)) by done end.
  repeat case_match; simplify_eq; try done; by apply gone_record_chunk.
Qed.

Lemma gone_fetch_chunks T net user tid need (st : Client.State) :
  tid ≠ T → gone T st → gone T (foldl (Client.fetch_chunk percent net user tid) st need).
Proof.
  intros Hne. revert st. induction need as [|i need IH]; intros st Hg; simpl; [done|].
  by apply IH, gone_fetch_chunk.
Qed.

Lemma gone_process_transfer T now net user dismissed t (st st' : Client.State) :
  T ∈ dismissed → gone T st →
  Client.process_transfer percent now net user dismissed t st = Some st' → gone T st'.
Proof.
  intros HT Hg. unfold Client.process_transfer.
  destruct (includes dismissed (Relay.li_id t)) eqn:Hdis; [by intros [= <-]|].
  assert (Hne : Relay.li_id t ≠ T).
  { intros Heq. rewrite Heq in Hdis.
    apply not_true_iff_false in Hdis. by apply Hdis, includes_true. }
  case_bool_decide; [by intros [= <-]|].
  intros Hrun. apply bind_Some in Hrun as (st1 & Hst1 & Hrun).
  assert (Hg1 : gone T st1).
  { case_bool_decide; [by simplify_eq|].
    destruct (negb _); [done|]. simplify_eq.
    destruct Hg as (Hd & Hl & Hs & Hr).
    unfold gone, Client.store_transfers; simpl. unfold Storage.getFileTransfers.
    rewrite addFileTransfer_dismissed. split_and!; [done | | |].
    - intros [Hin | Heq]%addFileTransfer_ids; [done | by simpl in Heq].
    - intros [Hin | Heq]%addFileTransfer_ids; [done | by simpl in Heq].
    - by rewrite lookup_insert_ne. }
  apply bind_Some in Hrun as (rec & Hrec & [= <-]).
  by apply gone_fetch_chunks.
Qed.

Lemma gone_process_transfers T now net user dismissed ts (st : Client.State) :
  T ∈ dismissed → gone T st →
  gone T (Client.process_transfers percent now net user dismissed ts st).
Proof.
  intros HT. revert st. induction ts as [|t ts IH]; intros st Hg; simpl; [done|].
  destruct (Client.process_transfer _ _ _ _ _ _ _) as [st'|] eqn:Hst'; [|done].
  by eapply IH, gone_process_transfer.
Qed.

Lemma gone_tick T now net (st : Client.State) :
  gone T st → gone T (Client.tick percent now net st).
Proof.
  intros Hg. unfold Client.tick. destruct (Client.currentUser st) as [user|]; [|done].
  unfold Client.fetch.
  match goal with |- context [Client.set_sent st ?l] =>
    assert (Hg1 : gone T (Client.set_sent st l)) by done end.
  repeat case_match; simplify_eq; try done.
  apply gone_process_transfers; [|done]. apply Hg.
Qed.

Lemma gone_ticks T rounds (st : Client.State) :
  gone T st → gone T (Client.ticks percent rounds st).
Proof.
  revert st. induction rounds as [|[now net] rounds IH]; intros st Hg; simpl; [done|].
  by apply IH, gone_tick.
Qed.

Lemma gone_removeFileTransfer T t user (st : Client.State) :
  Client.currentUser st = Some user →
  List.find (λ x, bool_decide (ft_id x = T)) (Client.fileTransfers st) = Some t →
  receiverId t = Some (user_id user) →
  gone T (Client.removeFileTransfer T st).
Proof.
  intros Huser Hfind Hrecv. unfold Client.removeFileTransfer.
  rewrite Hfind. simpl. rewrite Huser, Hrecv. simpl.
  rewrite bool_decide_eq_true_2 by done.
  unfold gone, Client.store_transfers; simpl.
  unfold Storage.removeFileTransfer, Storage.getFileTransfers; simpl.
  assert (Hfilter : ∀ ts : list FileTransfer, T ∉ ft_id <$> filter (λ t, ft_id t ≠ T) ts).
  { intros ts (x & Hx & [Hne _]%list_elem_of_filter)%list_elem_of_fmap. done. }
  split_and!; [|done|done|by rewrite lookup_delete_eq].
  unfold includes. case_bool_decide; set_solver.
Qed.

(** C8.  Let [T] be a transfer of the local list whose receiver is the
    logged-in user.  After [removeFileTransfer T], whatever the relay lists or
    answers in the receive-poll ticks that follow, and however many of them
    run, [T] stays recorded as dismissed and is neither in the local transfer
    list, nor in its stored copy, nor among the receiver buffers. *)
Theorem dismissed_transfer_is_never_readded
    T t user (st : Client.State) (rounds : list (Z * Client.Network)) :
  Client.currentUser st = Some user →
  List.find (λ x, bool_decide (ft_id x = T)) (Client.fileTransfers st) = Some t →
  receiverId t = Some (user_id user) →
  let st' := Client.ticks percent rounds (Client.removeFileTransfer T st) in
  T ∈ Storage.getDismissedTransfers (Client.storage st') ∧
  (T ∉ ft_id <$> Client.fileTransfers st') ∧
  (T ∉ ft_id <$> Storage.getFileTransfers (Client.storage st')) ∧
  Client.receivers st' !! T = None.
Proof.
  intros Huser Hfind Hrecv st'.
  by apply gone_ticks, (gone_removeFileTransfer T t user).
Qed.

End dismissal.

Lemma dismissed_transfer_is_never_readded_witness :
  let st' :=
    @Client.ticks toy_crypto toy_percent
      [(2, relay_net relay_f1); (3, relay_net relay_f1)]
      (Client.removeFileTransfer "f1" bob_received) in
  "f1"%string ∈ Storage.getDismissedTransfers (Client.storage st') ∧
  ("f1"%string ∉ ft_id <$> Client.fileTransfers st') ∧
  ("f1"%string ∉ ft_id <$> Storage.getFileTransfers (Client.storage st')) ∧
  Client.receivers st' !! "f1"%string = None.
Proof.
  apply (@dismissed_transfer_is_never_readded toy_crypto toy_percent
           "f1"%string f1_received bob bob_received
           [(2, relay_net relay_f1); (3, relay_net relay_f1)]).
  - reflexivity.
  - vm_compute. reflexivity.
  - reflexivity.
Defined.

(** Without the dismissal the same tick does add the announced transfer. *)
Example tick_adds_announced_transfer :
  ft_id <$> Client.fileTransfers bob_received = ["f1"%string] ∧
  artifact "f1" (Client.storage bob_received) = Some [Byte.x68; Byte.x69].
Proof. split; vm_compute; reflexivity. Qed.

(** ** Chunks that were already downloaded *)

Lemma collect_parts_agree fuel i (rec rec' : Client.Receiver) :
  Client.total rec' = Client.total rec →
  (∀ j, i ≤ j < Client.total rec →
     Client.array_get (Client.buffers rec') j = Client.array_get (Client.buffers rec) j) →
  Client.collect_parts fuel i rec' = Client.collect_parts fuel i rec.
Proof.
  intros Htotal. revert i. induction fuel as [|fuel IH]; intros i Hslots; simpl; [done|].
  rewrite Htotal. case_bool_decide as Hi; [|done].
  rewrite Hslots by lia. destruct (Client.array_get _ i); [|done].
  f_equal. apply IH. intros j Hj. apply Hslots. lia.
Qed.

Lemma assemble_agree (rec rec' : Client.Receiver) :
  Client.total rec' = Client.total rec →
  (∀ j, 0 ≤ j < Client.total rec →
     Client.array_get (Client.buffers rec') j = Client.array_get (Client.buffers rec) j) →
  Client.assemble rec' = Client.assemble rec.
Proof.
  intros Htotal Hslots. unfold Client.assemble.
  rewrite Htotal. f_equal. by apply collect_parts_agree.
Qed.

Lemma find_alter_other tid (f : FileTransfer → FileTransfer) (i : nat)
    (ts : list FileTransfer) :
  (∀ t, ts !! i = Some t → ft_id t ≠ tid ∧ ft_id (f t) ≠ tid) →
  List.find (λ t, bool_decide (ft_id t = tid)) (alter f i ts)
  = List.find (λ t, bool_decide (ft_id t = tid)) ts.
Proof.
  revert i. induction ts as [|t ts IH]; intros i Hf; [done|].
  destruct i as [|i]; simpl.
  - destruct (Hf t eq_refl) as [Hne Hne'].
    by rewrite !bool_decide_eq_false_2.
  - case_bool_decide; [done|]. apply IH. intros t' Ht'. by apply Hf.
Qed.

Lemma find_snoc_other tid (tr : FileTransfer) (ts : list FileTransfer) :
  ft_id tr ≠ tid →
  List.find (λ t, bool_decide (ft_id t = tid)) (ts ++ [tr])
  = List.find (λ t, bool_decide (ft_id t = tid)) ts.
Proof.
  intros Hne. induction ts as [|t ts IH]; simpl.
  - by rewrite bool_decide_eq_false_2.
  - by case_bool_decide.
Qed.

Lemma stored_update_ne tid tid' u ls :
  Storage.u_id u = None →
  tid' ≠ tid →
  stored_transfer tid (Storage.updateFileTransfer tid' u ls) = stored_transfer tid ls.
Proof.
  intros Hu Hne. unfold stored_transfer, Storage.updateFileTransfer, Storage.getFileTransfers.
  destruct (Storage.findIndex _ _) as [i|] eqn:Hi; simpl; [|done].
  apply findIndex_Some in Hi as (t & Ht & Hid).
  apply find_alter_other. intros t' Ht'. simplify_eq.
  split; [|rewrite patch_id by done]; congruence.
Qed.

Lemma stored_add_ne tid tr ls :
  ft_id tr ≠ tid →
  stored_transfer tid (Storage.addFileTransfer tr ls) = stored_transfer tid ls.
Proof.
  intros Hne. unfold stored_transfer, Storage.addFileTransfer, Storage.getFileTransfers.
  destruct (Storage.findIndex _ _) as [i|] eqn:Hi; simpl.
  - apply findIndex_Some in Hi as (t & Ht & Hid).
    apply find_alter_other. intros t' Ht'. simplify_eq. split; simpl; congruence.
  - by apply find_snoc_other.
Qed.

Lemma artifact_update tid tid' u ls :
  Storage.u_id u = None →
  tid' ≠ tid ∨ Storage.u_downloadUrl u = None →
  artifact tid (Storage.updateFileTransfer tid' u ls) = artifact tid ls.
Proof.
  intros Hid. unfold artifact. destruct (decide (tid' = tid)) as [->|Hne].
  - intros [?|Hu]; [done|]. rewrite stored_update by done.
    destruct (stored_transfer tid ls) as [t|]; simpl; [|done]. by rewrite Hu.
  - intros _. by rewrite stored_update_ne.
Qed.

Section refetch.
Context `{Crypto.SubtleCrypto}.
Variable percent : nat → Z → Z.
Variables (tid : string) (rec0 : Client.Receiver).
Variables (log0 : list Relay.Request) (art0 : option bytes).

Lemma idle_update tid' u (st : Client.State) :
  Storage.u_id u = None →
  tid' ≠ tid ∨ Storage.u_downloadUrl u = None →
  idle tid rec0 log0 art0 st →
  idle tid rec0 log0 art0 (Client.store_transfers (Storage.updateFileTransfer tid' u) st).
Proof.
  intros Hid Hu (Hkept & Hlog & Hart). split_and!; [done | done |].
  intros Hfull. simpl. rewrite artifact_update by done. by apply Hart.
Qed.

Lemma idle_store_partial f (st : Client.State) :
  ¬ Client.total rec0 ≤ Z.of_nat (size (Client.downloaded rec0)) →
  idle tid rec0 log0 art0 st → idle tid rec0 log0 art0 (Client.store_transfers f st).
Proof. intros Hpart (Hkept & Hlog & Hart). split_and!; [done | done | done]. Qed.

Lemma idle_record_chunk tid' index b (st : Client.State) :
  tid' ≠ tid ∨ index ∉ Client.downloaded rec0 →
  idle tid rec0 log0 art0 st →
  idle tid rec0 log0 art0 (Client.record_chunk percent tid' index b st).
Proof.
  intros Hfresh Hidle. unfold Client.record_chunk.
  destruct (Client.receivers st !! tid') as [rec|] eqn:Hrec; [|done].
  match goal with |- context [Client.set_receivers st ?m] =>
    assert (Hidle1 : idle tid rec0 log0 art0 (Client.set_receivers st m)) end.
  { destruct Hidle as ((rec1 & Hrec1 & Htot & Hsub & Hslots) & Hlog & Hart).
    split_and!; [|done|done]. unfold kept; simpl.
    destruct (decide (tid' = tid)) as [->|Hne].
    - rewrite lookup_insert_eq. eexists. split; [done|]. simplify_eq.
      destruct Hfresh as [?|Hfresh]; [done|]. simpl.
      split_and!; [done | set_solver |].
      intros i Hi. unfold Client.array_set, Client.array_get in *.
      rewrite lookup_insert_ne by (intros ->; done). by apply Hslots.
    - rewrite lookup_insert_ne by done. by exists rec1. }
  cbn [Client.total Client.downloaded].
  case_bool_decide as Hsize; [|apply idle_update; [done | by right | done]].
  destruct (decide (tid' = tid)) as [->|Hne].
  - apply idle_store_partial; [|apply idle_update; [done | by right | done]].
    destruct Hidle as ((rec1 & Hrec1 & Htot & Hsub & _) & _).
    destruct Hfresh as [?|Hfresh]; [done|].
    assert (rec1 = rec) as -> by congruence.
    assert (size ({[index]} ∪ Client.downloaded rec0)
            ≤ size ({[index]} ∪ Client.downloaded rec))%nat as Hle.
    { apply subseteq_size. set_solver. }
    rewrite size_union, size_singleton in Hle by set_solver. lia.
  - apply idle_update; [done | by left|]. apply idle_update; [done | by left | done].
Qed.

Lemma idle_fetch_chunk net user tid' (st : Client.State) index :
  tid' ≠ tid ∨ index ∉ Client.downloaded rec0 →
  idle tid rec0 log0 art0 st →
  idle tid rec0 log0 art0 (Client.fetch_chunk percent net user tid' st index).
Proof.
  intros Hfresh Hidle. unfold Client.fetch_chunk, Client.fetch.
  match goal with |- context [Client.set_sent st ?l] =>
    assert (Hidle1 : idle tid rec0 log0 art0 (Client.set_sent st l)) end.
  { destruct Hidle as (Hkept & (extra & Hsent & Hno) & Hart).
    split_and!; [done | | done]. simpl.
    exists (extra ++ [Relay.download_file_chunk (user_id user) tid' index]).
    rewrite Hsent, (assoc_L (++)). split; [done|].
    intros uid i [Hin | Hin]%elem_of_app; [by eapply Hno|].
    apply list_elem_of_singleton in Hin. simplify_eq.
    by destruct Hfresh. }
  repeat case_match; simplify_eq; try done; by apply idle_record_chunk.
Qed.

Lemma idle_fetch_chunks net user tid' need (st : Client.State) :
  tid' ≠ tid ∨ Forall (λ index, index ∉ Client.downloaded rec0) need →
  idle tid rec0 log0 art0 st →
  idle tid rec0 log0 art0 (foldl (Client.fetch_chunk percent net user tid') st need).
Proof.
  revert st. induction need as [|i need IH]; intros st Hfresh Hidle; simpl; [done|].
  apply IH.
  - destruct Hfresh as [?|[_ ?]%Forall_cons]; [by left | by right].
  - apply idle_fetch_chunk; [|done].
    destruct Hfresh as [?|[? _]%Forall_cons]; [by left | by right].
Qed.

Lemma idle_process_transfer now net user dismissed t (st st' : Client.State) :
  idle tid rec0 log0 art0 st →
  Client.process_transfer percent now net user dismissed t st = Some st' →
  idle tid rec0 log0 art0 st'.
Proof.
  intros Hidle. unfold Client.process_transfer.
  destruct (includes dismissed (Relay.li_id t)); [by intros [= <-]|].
  case_bool_decide; [by intros [= <-]|].
  intros Hrun. apply bind_Some in Hrun as (st1 & Hst1 & Hrun).
  apply bind_Some in Hrun as (rec & Hrec & [= <-]).
  destruct (decide (Relay.li_id t = tid)) as [Htid|Hne].
  - assert (st1 = st) as ->.
    { destruct Hidle as ((rec1 & Hrec1 & _) & _).
      rewrite Htid, Hrec1 in Hst1.
      rewrite bool_decide_eq_true_2 in Hst1 by done. by simplify_eq. }
    apply idle_fetch_chunks; [|done]. right.
    destruct Hidle as ((rec1 & Hrec1 & _ & Hsub & _) & _).
    rewrite Htid in Hrec. simplify_eq.
    apply Forall_take, Forall_forall.
    intros i [Hi _]%list_elem_of_filter. set_solver.
  - apply idle_fetch_chunks; [by left|].
    case_bool_decide; [by simplify_eq|].
    destruct (negb _); [done|]. simplify_eq.
    destruct Hidle as ((rec1 & Hrec1 & Hrest) & Hlog & Hart).
    split_and!; [|done|].
    + exists rec1. simpl. by rewrite lookup_insert_ne.
    + intros Hfull. simpl. unfold artifact. rewrite stored_add_ne by done.
      by apply Hart.
Qed.

Lemma idle_process_transfers now net user dismissed ts (st : Client.State) :
  idle tid rec0 log0 art0 st →
  idle tid rec0 log0 art0 (Client.process_transfers percent now net user dismissed ts st).
Proof.
  revert st. induction ts as [|t ts IH]; intros st Hidle; simpl; [done|].
  destruct (Client.process_transfer _ _ _ _ _ _ _) as [st'|] eqn:Hst'; [|done].
  by eapply IH, idle_process_transfer.
Qed.

Lemma idle_tick now net (st : Client.State) :
  idle tid rec0 log0 art0 st → idle tid rec0 log0 art0 (Client.tick percent now net st).
Proof.
  intros Hidle. unfold Client.tick. destruct (Client.currentUser st) as [user|]; [|done].
  unfold Client.fetch.
  match goal with |- context [Client.set_sent st ?l] =>
    assert (Hidle1 : idle tid rec0 log0 art0 (Client.set_sent st l)) end.
  { destruct Hidle as (Hkept & (extra & Hsent & Hno) & Hart).
    split_and!; [done | | done]. simpl.
    exists (extra ++ [Relay.list_file_transfers (user_id user)]).
    rewrite Hsent, (assoc_L (++)). split; [done|].
    intros uid i [Hin | Hin]%elem_of_app; [by eapply Hno|].
    by apply list_elem_of_singleton in Hin. }
  repeat case_match; simplify_eq; try done.
  by apply idle_process_transfers.
Qed.

Lemma idle_ticks rounds (st : Client.State) :
  idle tid rec0 log0 art0 st → idle tid rec0 log0 art0 (Client.ticks percent rounds st).
Proof.
  revert st. induction rounds as [|[now net] rounds IH]; intros st Hidle; simpl; [done|].
  by apply IH, idle_tick.
Qed.

End refetch.

(** When every index below the chunk count is downloaded, at least that many
    indices are. *)
Lemma covered_size (N : Z) (D : gset Z) :
  (∀ i, 0 ≤ i < N → i ∈ D) → N ≤ Z.of_nat (size D).
Proof.
  intros Hall.
  assert (Hsub : (list_to_set (seqZ 0 N) : gset Z) ⊆ D).
  { intros i Hi%elem_of_list_to_set%elem_of_seqZ. apply Hall. lia. }
  apply subseteq_size in Hsub.
  rewrite size_list_to_set, length_seqZ in Hsub by apply NoDup_seqZ. lia.
Qed.

(** C7.  Take a transfer that has a receiver entry and a chunk index that the
    entry records as downloaded.  Over any number of receive-poll ticks,
    whatever the relay announces and answers, no download request is issued
    for that index again, the index stays recorded, and the buffer slot of
    the index holds what it held.  When moreover every index below the chunk
    count is recorded as downloaded, assembling the transfer after those
    ticks gives the same bytes as assembling it before, and the artifact
    offered for download is the one offered before. *)
Theorem downloaded_chunk_is_never_fetched_again `{Crypto.SubtleCrypto}
    (percent : nat → Z → Z) tid (rec : Client.Receiver) idx (st : Client.State)
    (rounds : list (Z * Client.Network)) :
  Client.receivers st !! tid = Some rec →
  idx ∈ Client.downloaded rec →
  let st' := Client.ticks percent rounds st in
  ∃ rec', Client.receivers st' !! tid = Some rec' ∧
    idx ∈ Client.downloaded rec' ∧
    Client.array_get (Client.buffers rec') idx = Client.array_get (Client.buffers rec) idx ∧
    (∀ uid, Relay.download_file_chunk uid tid idx
            ∉ drop (length (Client.sent st)) (Client.sent st')) ∧
    ((∀ i, 0 ≤ i < Client.total rec → i ∈ Client.downloaded rec) →
     Client.assemble rec' = Client.assemble rec ∧
     artifact tid (Client.storage st') = artifact tid (Client.storage st)).
Proof.
  intros Hrec Hidx st'.
  assert (Hidle : idle tid rec (Client.sent st) (artifact tid (Client.storage st)) st).
  { split_and!.
    - exists rec. split_and!; [done | done | done | done].
    - exists []. rewrite (right_id_L [] (++)). split; [done|].
      intros uid i Hin. by apply elem_of_nil in Hin.
    - done. }
  apply (idle_ticks percent tid rec (Client.sent st) _ rounds) in Hidle.
  fold st' in Hidle.
  destruct Hidle as ((rec' & Hrec' & Htot & Hsub & Hslots) & (extra & Hsent & Hno) & Hart).
  exists rec'. split_and!; [done | set_solver | by apply Hslots | |].
  - intros uid Hin. rewrite Hsent, drop_app_length in Hin. by apply (Hno uid idx).
  - intros Hall. split.
    + apply assemble_agree; [done|]. intros j Hj. by apply Hslots, Hall.
    + by apply Hart, covered_size.
Qed.

Lemma downloaded_chunk_is_never_fetched_again_witness :
  let st' :=
    @Client.ticks toy_crypto toy_percent
      [(2, relay_net relay_f1); (3, relay_net relay_f1)] bob_received in
  ∃ rec', Client.receivers st' !! "f1"%string = Some rec' ∧
    0 ∈ Client.downloaded rec' ∧
    Client.array_get (Client.buffers rec') 0
      = Client.array_get (Client.buffers f1_receiver) 0 ∧
    (∀ uid, Relay.download_file_chunk uid "f1" 0
            ∉ drop (length (Client.sent bob_received)) (Client.sent st')) ∧
    ((∀ i, 0 ≤ i < Client.total f1_receiver → i ∈ Client.downloaded f1_receiver) →
     Client.assemble rec' = Client.assemble f1_receiver ∧
     artifact "f1" (Client.storage st') = artifact "f1" (Client.storage bob_received)).
Proof.
  apply (@downloaded_chunk_is_never_fetched_again toy_crypto toy_percent
           "f1"%string f1_receiver 0 bob_received
           [(2, relay_net relay_f1); (3, relay_net relay_f1)]).
  - vm_compute. reflexivity.
  - apply elem_of_union_l, elem_of_singleton. reflexivity.
Defined.

(** ** Completion of a transfer *)

(** A set of indices of [[0, N)] has at least [N] elements exactly when it
    is all of [[0, N)]. *)
Lemma enough_in_range N idxs :
  0 ≤ N → in_range N idxs → (N ≤ Z.of_nat (size (distinct idxs)) ↔ covers N idxs).
Proof.
  intros HN Hrange. unfold distinct, covers.
  set (R := list_to_set (seqZ 0 N) : gset Z).
  assert (HR : size R = Z.to_nat N).
  { unfold R. rewrite size_list_to_set by apply NoDup_seqZ. apply length_seqZ. }
  assert (Hsub : list_to_set idxs ⊆ R).
  { intros i Hi%elem_of_list_to_set. apply elem_of_list_to_set, elem_of_seqZ.
    apply Hrange in Hi. lia. }
  split.
  - intros Hsize i Hi.
    assert (Heq : (list_to_set idxs : gset Z) = R).
    { apply set_subseteq_size_eq; [done|]. lia. }
    apply (elem_of_list_to_set (C := gset Z)). rewrite Heq.
    apply elem_of_list_to_set, elem_of_seqZ. lia.
  - intros Hall.
    assert (Hsup : R ⊆ list_to_set idxs).
    { intros i Hi%elem_of_list_to_set%elem_of_seqZ.
      apply elem_of_list_to_set, Hall. lia. }
    apply subseteq_size in Hsup. lia.
Qed.

(** The relay's view of one transfer while the sender uploads. *)
Lemma store_chunk_flag tid N i d n (t : Relay.Transfer) :
  1 ≤ N →
  Relay.totalChunks t = N →
  (Relay.completed t = true ↔ N ≤ Z.of_nat (size (dom (Relay.chunks t)))) →
  let t' := Relay.store_chunk (Relay.mkUploadChunk tid i (Some N) d n) t in
  Relay.totalChunks t' = N ∧
  dom (Relay.chunks t') = {[i]} ∪ dom (Relay.chunks t) ∧
  (Relay.completed t' = true ↔ N ≤ Z.of_nat (size (dom (Relay.chunks t')))).
Proof.
  intros HN Htot Hflag t'. unfold t', Relay.store_chunk.
  cbn [Relay.uc_totalChunks Relay.index Relay.uc_data Relay.uc_nonce
       Relay.totalChunks Relay.chunks Relay.completed].
  assert (Hnum : num_or (Some N) (Relay.totalChunks t) = N).
  { unfold num_or. rewrite bool_decide_eq_false_2 by lia. done. }
  rewrite Hnum. split_and!; [done | apply dom_insert_L |].
  rewrite size_dom. case_bool_decide as Hsize; [done|].
  split; [|done]. intros Hc%Hflag. rewrite size_dom in Hc.
  rewrite map_size_insert in Hsize.
  destruct (Relay.chunks t !! i); simpl in Hsize; lia.
Qed.

Lemma uploads_flag tid N cs s (t : Relay.Transfer) :
  1 ≤ N →
  Relay.fileTransfers s !! tid = Some t →
  Relay.totalChunks t = N →
  (Relay.completed t = true ↔ N ≤ Z.of_nat (size (dom (Relay.chunks t)))) →
  ∃ t', Relay.fileTransfers (Relay.run (uploads tid N cs) s) !! tid = Some t' ∧
    Relay.totalChunks t' = N ∧
    dom (Relay.chunks t') = distinct cs.*1.*1 ∪ dom (Relay.chunks t) ∧
    (Relay.completed t' = true ↔ N ≤ Z.of_nat (size (dom (Relay.chunks t')))).
Proof.
  intros HN. revert s t. induction cs as [|[[i d] n] cs IH]; intros s t Ht Htot Hflag.
  - exists t. split_and!; [done | done | unfold distinct; set_solver | done].
  - destruct (store_chunk_flag tid N i d n t HN Htot Hflag) as (Htot' & Hdom' & Hflag').
    set (t1 := Relay.store_chunk (Relay.mkUploadChunk tid i (Some N) d n) t) in *.
    set (s1 := Relay.set_fileTransfers s (<[tid := t1]> (Relay.fileTransfers s))).
    assert (Hstep : Relay.run (uploads tid N ((i, d, n) :: cs)) s
                    = Relay.run (uploads tid N cs) s1).
    { unfold Relay.run; simpl. unfold Relay.handle_upload_chunk; simpl. by rewrite Ht. }
    destruct (IH s1 t1) as (t' & Ht' & ? & Hdom & ?); [apply lookup_insert_eq | done..|].
    exists t'. rewrite Hstep. split_and!; [done | done | | done].
    rewrite Hdom, Hdom'. unfold distinct. set_solver.
Qed.

Lemma size_add_le (i : Z) (D : gset Z) :
  (size D ≤ size ({[i]} ∪ D) ≤ S (size D))%nat.
Proof.
  split.
  - apply subseteq_size. set_solver.
  - rewrite (comm_L (∪)), size_union_alt.
    assert (size (({[i]} : gset Z) ∖ D) ≤ size ({[i]} : gset Z))%nat as Hle.
    { apply subseteq_size. set_solver. }
    rewrite size_singleton in Hle. lia.
Qed.

Section receiving.
Context `{Crypto.SubtleCrypto}.
Variable percent : nat → Z → Z.

(** What recording one chunk does to the receiver entry and to the stored
    transfer. *)
Lemma record_chunk_artifact tid i b (st : Client.State) rec ft :
  Client.receivers st !! tid = Some rec →
  stored_transfer tid (Client.storage st) = Some ft →
  let st' := Client.record_chunk percent tid i b st in
  let D' := {[i]} ∪ Client.downloaded rec in
  ∃ rec' ft', Client.receivers st' !! tid = Some rec' ∧
    Client.total rec' = Client.total rec ∧
    Client.downloaded rec' = D' ∧
    stored_transfer tid (Client.storage st') = Some ft' ∧
    downloadUrl ft' = if bool_decide (Z.of_nat (size D') = Client.total rec)
                      then Some (Client.assemble rec') else downloadUrl ft.
Proof.
  intros Hrec Hft st' D'. unfold st', Client.record_chunk. rewrite Hrec.
  cbn [Client.total Client.downloaded]. fold D'.
  case_bool_decide as Hsize.
  - eexists _, _. split_and!; [apply lookup_insert_eq | done | done | |].
    + simpl. rewrite !stored_update, Hft by done. reflexivity.
    + done.
  - eexists _, _. split_and!; [apply lookup_insert_eq | done | done | |].
    + simpl. rewrite stored_update, Hft by done. reflexivity.
    + done.
Qed.

Lemma receipts_artifact tid N cs (st : Client.State) rec ft :
  Client.receivers st !! tid = Some rec →
  Client.total rec = N →
  stored_transfer tid (Client.storage st) = Some ft →
  (is_Some (downloadUrl ft) ↔ N ≤ Z.of_nat (size (Client.downloaded rec))) →
  ∃ rec' ft', Client.receivers (receipts percent tid cs st) !! tid = Some rec' ∧
    Client.downloaded rec' = distinct cs.*1 ∪ Client.downloaded rec ∧
    stored_transfer tid (Client.storage (receipts percent tid cs st)) = Some ft' ∧
    (is_Some (downloadUrl ft') ↔ N ≤ Z.of_nat (size (Client.downloaded rec'))).
Proof.
  revert st rec ft. induction cs as [|[i b] cs IH]; intros st rec ft Hrec Htot Hft Hurl.
  - exists rec, ft. split_and!; [done | unfold distinct; set_solver | done | done].
  - destruct (record_chunk_artifact tid i b st rec ft Hrec Hft)
      as (rec1 & ft1 & Hrec1 & Htot1 & Hd1 & Hft1 & Hurl1).
    destruct (IH (Client.record_chunk percent tid i b st) rec1 ft1)
      as (rec' & ft' & Hrec' & Hd' & Hft' & Hurl'); [done | congruence | done | |].
    + rewrite Hurl1, Hd1. pose proof (size_add_le i (Client.downloaded rec)).
      case_bool_decide as Hsize.
      * split; [lia | by eexists].
      * rewrite Hurl. lia.
    + exists rec', ft'. split_and!; [done | | done | done].
      rewrite Hd', Hd1. unfold distinct; simpl. set_solver.
Qed.

End receiving.

(** C1, as the code has it.  For a transfer of [N ≥ 1] chunks:

    - after [init_file_transfer] and any sequence of the sender's
      [upload_chunk] requests, the relay's completion flag is set exactly when
      at least [N] distinct chunk indices, of whatever value, were uploaded;
    - after the receive loop recorded any sequence of chunks in a fresh
      receiver entry, the file was assembled exactly when at least [N]
      distinct chunk indices, of whatever value, were recorded.

    In both places, when every index received lies in [[0, N)] this is
    exactly when all [N] indices of [[0, N)] were received; fewer than [N]
    distinct indices never complete the transfer. *)
Theorem transfer_complete_iff_enough_distinct_indices `{Crypto.SubtleCrypto}
    (percent : nat → Z → Z) (N : Z)
    (s : Relay.State) (now : Z) (p : Relay.InitTransferPayload)
    (ups : list (Z * string * string))
    (st : Client.State) (tid : string) (rec : Client.Receiver) (ft : FileTransfer)
    (cs : list (Z * bytes)) :
  1 ≤ N →
  Relay.it_totalChunks p = N →
  Client.receivers st !! tid = Some rec →
  Client.total rec = N →
  Client.downloaded rec = ∅ →
  stored_transfer tid (Client.storage st) = Some ft →
  downloadUrl ft = None →
  (∃ t, Relay.fileTransfers
          (Relay.run (Relay.request now (Relay.init_file_transfer p)
                        :: uploads (Relay.it_id p) N ups) s) !! Relay.it_id p = Some t ∧
     (Relay.completed t = true ↔ N ≤ Z.of_nat (size (distinct ups.*1.*1))) ∧
     (in_range N ups.*1.*1 → (Relay.completed t = true ↔ covers N ups.*1.*1))) ∧
  (let st' := receipts percent tid cs st in
   (is_Some (artifact tid (Client.storage st')) ↔ N ≤ Z.of_nat (size (distinct cs.*1))) ∧
   (in_range N cs.*1 → (is_Some (artifact tid (Client.storage st')) ↔ covers N cs.*1))).
Proof.
  intros HN Hp Hrec Htot Hfresh Hft Hurl. split.
  - set (t0 := Relay.mkTransfer (Relay.it_id p) (Relay.it_senderId p) (Relay.it_senderName p)
                 (Relay.it_fileName p) (Relay.it_fileSize p) (Relay.it_totalChunks p)
                 (Relay.it_recipients p) now false ∅).
    set (s0 := Relay.set_fileTransfers s (<[Relay.it_id p := t0]> (Relay.fileTransfers s))).
    destruct (uploads_flag (Relay.it_id p) N ups s0 t0) as (t & Ht & _ & Hdom & Hflag).
    { done. }
    { apply lookup_insert_eq. }
    { done. }
    { simpl. rewrite dom_empty_L, size_empty. split; [done | lia]. }
    exists t. split; [exact Ht|].
    simpl in Hdom. rewrite dom_empty_L, (right_id_L ∅ (∪)) in Hdom.
    rewrite Hdom in Hflag. split; [done|].
    intros Hrange. rewrite Hflag. apply enough_in_range; [lia | done].
  - intros st'.
    destruct (receipts_artifact percent tid N cs st rec ft) as (rec' & ft' & _ & Hd & Hft' & Hflag).
    { done. }
    { done. }
    { done. }
    { rewrite Hurl, Hfresh, size_empty. split; [by intros [? ?] | lia]. }
    fold st' in Hft'. unfold artifact. rewrite Hft'; simpl.
    rewrite Hfresh, (right_id_L ∅ (∪)) in Hd. rewrite Hd in Hflag.
    split; [done|].
    intros Hrange. rewrite Hflag. apply enough_in_range; [lia | done].
Qed.

Lemma transfer_complete_iff_enough_distinct_indices_witness :
  (∃ t, Relay.fileTransfers
          (Relay.run (Relay.request 0 (Relay.init_file_transfer f2_payload)
                        :: uploads (Relay.it_id f2_payload) 2
                             [(0, "hi"%string, EmptyString); (1, "ho"%string, EmptyString)])
             Relay.init) !! Relay.it_id f2_payload = Some t ∧
     (Relay.completed t = true ↔ 2 ≤ Z.of_nat (size (distinct [0; 1]))) ∧
     (in_range 2 [0; 1] → (Relay.completed t = true ↔ covers 2 [0; 1]))) ∧
  (let st' :=
     @receipts toy_crypto toy_percent "f2"
       [(1, [Byte.x68]); (0, [Byte.x69])] bob_announced in
   (is_Some (artifact "f2" (Client.storage st')) ↔ 2 ≤ Z.of_nat (size (distinct [1; 0]))) ∧
   (in_range 2 [1; 0] → (is_Some (artifact "f2" (Client.storage st')) ↔ covers 2 [1; 0]))).
Proof.
  apply (@transfer_complete_iff_enough_distinct_indices toy_crypto toy_percent 2
           Relay.init 0 f2_payload
           [(0, "hi"%string, EmptyString); (1, "ho"%string, EmptyString)]
           bob_announced "f2"%string f2_receiver f2_announced
           [(1, [Byte.x68]); (0, [Byte.x69])]).
  - lia.
  - reflexivity.
  - vm_compute. reflexivity.
  - reflexivity.
  - reflexivity.
  - vm_compute. reflexivity.
  - reflexivity.
Defined.

(** The claim as the specification words it fails: two chunks with the
    indices 5 and 7 complete a transfer of two chunks.  The relay sets the
    completion flag although no index of [[0, 2)] was uploaded, and a receiver
    that polls this relay marks the transfer completed and assembles an
    empty file. *)
Lemma stray_indices_complete_a_transfer :
  (∃ t, Relay.fileTransfers relay_f2_stray !! "f2"%string = Some t ∧
     Relay.totalChunks t = 2 ∧
     dom (Relay.chunks t) = {[5; 7]} ∧
     Relay.completed t = true ∧
     ¬ covers 2 [5; 7]) ∧
  (let st := @Client.tick toy_crypto toy_percent 1 (relay_net relay_f2_stray) bob_state in
   ∃ ft rec, stored_transfer "f2" (Client.storage st) = Some ft ∧
     Client.receivers st !! "f2"%string = Some rec ∧
     Client.total rec = 2 ∧
     Client.downloaded rec = {[5; 7]} ∧
     ft_status ft = st_completed ∧
     downloadUrl ft = Some [] ∧
     ¬ covers 2 [5; 7]).
Proof.
  assert (Hnot : ¬ covers 2 [5; 7]).
  { intros Hall. specialize (Hall 0 ltac:(lia)).
    apply elem_of_cons in Hall as [?|Hall]; [done|].
    apply elem_of_cons in Hall as [?|Hall]; [done|].
    by apply elem_of_nil in Hall. }
  split.
  - eexists. split; [vm_compute; reflexivity|].
    split_and!; [reflexivity | vm_compute; reflexivity | reflexivity | exact Hnot].
  - intros st. eexists _, _.
    split; [vm_compute; reflexivity|].
    split; [vm_compute; reflexivity|].
    split_and!; [reflexivity | vm_compute; reflexivity | reflexivity | reflexivity | exact Hnot].
Qed.

(** ** The definitions at work *)

(** A message known locally without a sequence number, one that the poll
    returns again in its stored form, and a new one. *)
Example mergeMessages_example :
  Client.mergeMessages
    [note "a" "first" 10 (Some 2); note "b" "draft" 5 None]
    [note "a" "first, stored" 11 (Some 2); note "c" "other" 20 (Some 1)]
  = [note "b" "draft" 5 None; note "c" "other" 20 (Some 1);
     note "a" "first, stored" 11 (Some 2)].
Proof. reflexivity. Qed.

(** After 201 messages the history holds the 200 with the numbers 2 to 201,
    and a heartbeat with cursor 0 no longer returns number 1. *)
Example history_after_201_messages :
  let s := relay_after 201 in
  length (Relay.messageHistory s) = 200%nat ∧
  seq <$> Relay.messageHistory s = Some <$> seqZ 2 200 ∧
  seq <$> Relay.messages_since 0 (Relay.messageHistory s) = Some <$> seqZ 2 200.
Proof. vm_compute. done. Qed.

(** An administrator's message to the global channel is stored and sent. *)
Example sendMessage_admin_example :
  let st := @Client.sendMessage toy_crypto "m1" 7 [Byte.x0c] "hello" None alice_state in
  Client.sent st = [Relay.send_message (mkMessage "m1" "alice" "Alice" "hello" 7 None m_text
                                          None None None None)] ∧
  msg_id <$> Client.messages st = ["m1"%string].
Proof. split; reflexivity. Qed.

(** * Further properties of the relay *)

(** ** Chunks stored by the relay *)

(** What one event does to the table entry of a transfer it does not
    re-announce. *)
Lemma step_transfer tid s e (t : Relay.Transfer) :
  ¬ reannounces tid e →
  Relay.fileTransfers s !! tid = Some t →
  ∃ t', Relay.fileTransfers (Relay.step s e) !! tid = Some t' ∧
    Relay.recipients t' = Relay.recipients t ∧
    Relay.t_senderId t' = Relay.t_senderId t ∧
    dom (Relay.chunks t) ⊆ dom (Relay.chunks t') ∧
    (Relay.completed t = true → Relay.completed t' = true) ∧
    (∀ idx, ¬ touches_chunk tid idx e →
            Relay.chunks t' !! idx = Relay.chunks t !! idx).
Proof.
  intros Hre Ht.
  assert (Hsame : Relay.fileTransfers (Relay.step s e) = Relay.fileTransfers s →
    ∃ t', Relay.fileTransfers (Relay.step s e) !! tid = Some t' ∧
      Relay.recipients t' = Relay.recipients t ∧
      Relay.t_senderId t' = Relay.t_senderId t ∧
      dom (Relay.chunks t) ⊆ dom (Relay.chunks t') ∧
      (Relay.completed t = true → Relay.completed t' = true) ∧
      (∀ idx, ¬ touches_chunk tid idx e →
              Relay.chunks t' !! idx = Relay.chunks t !! idx)).
  { intros ->. exists t. by rewrite Ht. }
  destruct e as [now req|now]; [|by apply Hsame].
  destruct req; simpl in Hre |- *; try (by apply Hsame).
  - apply Hsame. simpl. unfold Relay.handle_create_room. by repeat case_match.
  - apply Hsame. simpl. unfold Relay.handle_update_room. by repeat case_match.
  - apply Hsame. simpl. unfold Relay.handle_delete_room. by repeat case_match.
  - apply Hsame. simpl. unfold Relay.handle_key_update. by repeat case_match.
  - exists t. unfold Relay.handle_init_file_transfer; simpl.
    rewrite lookup_insert_ne by done. by split_and!.
  - unfold Relay.handle_upload_chunk.
    destruct (Relay.fileTransfers s !! Relay.transferId payload) as [t0|] eqn:Ht0;
      [|exists t; simpl; by split_and!].
    simpl. destruct (decide (Relay.transferId payload = tid)) as [Heq|Hne].
    + rewrite Heq in *. rewrite lookup_insert_eq. simplify_eq.
      eexists. split; [done|]. simpl. split_and!; [done | done | | |].
      * rewrite dom_insert_L. set_solver.
      * intros ->. by case_bool_decide.
      * intros idx Hidx. rewrite lookup_insert_ne; [done|]. naive_solver.
    + rewrite lookup_insert_ne by done. exists t. by split_and!.
  - apply Hsame. simpl. unfold Relay.handle_download_file_chunk. by repeat case_match.
Qed.

Lemma run_transfer tid later s (t : Relay.Transfer) :
  Forall (λ e, ¬ reannounces tid e) later →
  Relay.fileTransfers s !! tid = Some t →
  ∃ t', Relay.fileTransfers (Relay.run later s) !! tid = Some t' ∧
    Relay.recipients t' = Relay.recipients t ∧
    Relay.t_senderId t' = Relay.t_senderId t ∧
    dom (Relay.chunks t) ⊆ dom (Relay.chunks t') ∧
    (Relay.completed t = true → Relay.completed t' = true) ∧
    (∀ idx, Forall (λ e, ¬ touches_chunk tid idx e) later →
            Relay.chunks t' !! idx = Relay.chunks t !! idx).
Proof.
  intros Hlater. revert s t. induction Hlater as [|e later He _ IH]; intros s t Ht.
  - exists t. by split_and!.
  - destruct (step_transfer tid s e t He Ht) as (t1 & Ht1 & Hr1 & Hs1 & Hd1 & Hc1 & Hk1).
    destruct (IH _ _ Ht1) as (t' & Ht' & Hr' & Hs' & Hd' & Hc' & Hk').
    exists t'. split_and!; [done | congruence | congruence | set_solver | auto |].
    intros idx [Hidx Hrest]%Forall_cons. rewrite Hk' by done. by apply Hk1.
Qed.

Lemma touches_reannounces tid idx e : reannounces tid e → touches_chunk tid idx e.
Proof. destruct e as [now req|now]; [|done]. by destruct req. Qed.

(** X1.  A chunk uploaded to a known transfer is served back unchanged: after
    the upload, and after any further events that neither re-announce the
    transfer nor upload to the same index, a download of that index by a user
    who may receive the transfer returns the uploaded ciphertext and nonce,
    and leaves the relay as it is. *)
Theorem uploaded_chunk_is_served s now (p : Relay.UploadChunkPayload) t later uid now' :
  Relay.fileTransfers s !! Relay.transferId p = Some t →
  Relay.may_receive uid t = true →
  Forall (λ e, ¬ touches_chunk (Relay.transferId p) (Relay.index p) e) later →
  let s' := Relay.run (Relay.request now (Relay.upload_chunk p) :: later) s in
  Relay.POST now' (Relay.download_file_chunk uid (Relay.transferId p) (Relay.index p)) s'
  = (Relay.ok (Relay.chunk_body (Relay.index p) (Relay.uc_data p) (Relay.uc_nonce p)), s').
Proof.
  intros Ht Hmay Hlater s'.
  set (s1 := Relay.step s (Relay.request now (Relay.upload_chunk p))).
  assert (Ht1 : Relay.fileTransfers s1 !! Relay.transferId p
                = Some (Relay.store_chunk p t)).
  { unfold s1; simpl. unfold Relay.handle_upload_chunk. rewrite Ht. simpl.
    apply lookup_insert_eq. }
  assert (Hre : Forall (λ e, ¬ reannounces (Relay.transferId p) e) later).
  { eapply Forall_impl; [exact Hlater|]. intros e He Hre. by eapply He, touches_reannounces. }
  destruct (run_transfer (Relay.transferId p) later s1 _ Hre Ht1)
    as (t' & Ht' & Hrec & _ & _ & _ & Hchunks).
  change s' with (Relay.run later s1).
  simpl. unfold Relay.handle_download_file_chunk. rewrite Ht'.
  unfold Relay.may_receive in *. rewrite Hrec. simpl. rewrite Hmay. simpl.
  rewrite (Hchunks _ Hlater). simpl. by rewrite lookup_insert_eq.
Qed.

Lemma uploaded_chunk_is_served_witness :
  let s' :=
    Relay.run
      [ Relay.request 1 (Relay.upload_chunk f2_first_chunk);
        Relay.request 2 (Relay.heartbeat "bob" None);
        Relay.request 3
          (Relay.upload_chunk (Relay.mkUploadChunk "f2" 1 (Some 2) "ho" EmptyString)) ]
      relay_f2 in
  Relay.POST 4 (Relay.download_file_chunk "bob" "f2" 0) s'
  = (Relay.ok (Relay.chunk_body 0 "hi" EmptyString), s').
Proof.
  apply (uploaded_chunk_is_served relay_f2 1 f2_first_chunk f2_transfer
           [ Relay.request 2 (Relay.heartbeat "bob" None);
             Relay.request 3
               (Relay.upload_chunk (Relay.mkUploadChunk "f2" 1 (Some 2) "ho" EmptyString)) ]
           "bob"%string 4).
  - vm_compute. reflexivity.
  - reflexivity.
  - repeat constructor; simpl; [tauto | intros [_ [=]]].
Defined.

(** X2.  Until a transfer is announced again, the relay never drops one of
    its chunks, never clears its completion flag and never changes its sender
    or its recipients, whatever requests arrive and whenever the cleanup
    timer fires. *)
Theorem transfer_only_grows s tid (t : Relay.Transfer) later :
  Relay.fileTransfers s !! tid = Some t →
  Forall (λ e, ¬ reannounces tid e) later →
  ∃ t', Relay.fileTransfers (Relay.run later s) !! tid = Some t' ∧
    Relay.recipients t' = Relay.recipients t ∧
    Relay.t_senderId t' = Relay.t_senderId t ∧
    dom (Relay.chunks t) ⊆ dom (Relay.chunks t') ∧
    (Relay.completed t = true → Relay.completed t' = true).
Proof.
  intros Ht Hlater.
  destruct (run_transfer tid later s t Hlater Ht) as (t' & ? & ? & ? & ? & ? & _).
  by exists t'.
Qed.

Lemma transfer_only_grows_witness :
  ∃ t', Relay.fileTransfers
          (Relay.run
             [ Relay.request 1
                 (Relay.upload_chunk (Relay.mkUploadChunk "f1" 1 (Some 3) "ho" EmptyString));
               Relay.timer 100000 ]
             relay_f1) !! "f1"%string = Some t' ∧
    Relay.recipients t' = Relay.recipients f1_transfer ∧
    Relay.t_senderId t' = Relay.t_senderId f1_transfer ∧
    dom (Relay.chunks f1_transfer) ⊆ dom (Relay.chunks t') ∧
    (Relay.completed f1_transfer = true → Relay.completed t' = true).
Proof.
  apply (transfer_only_grows relay_f1 "f1"%string f1_transfer
           [ Relay.request 1
               (Relay.upload_chunk (Relay.mkUploadChunk "f1" 1 (Some 3) "ho" EmptyString));
             Relay.timer 100000 ]).
  - vm_compute. reflexivity.
  - repeat constructor; simpl; tauto.
Defined.

(** ** Key-update queues *)

Lemma step_queue target s e :
  ¬ touches_queue target e →
  Relay.keyUpdates (Relay.step s e) !! target = Relay.keyUpdates s !! target.
Proof.
  intros He. destruct e as [now req|now]; [|done].
  destruct req; simpl in He |- *; try done.
  - by rewrite lookup_insert_ne.
  - unfold Relay.handle_create_room. by repeat case_match.
  - unfold Relay.handle_update_room. by repeat case_match.
  - unfold Relay.handle_delete_room. by repeat case_match.
  - unfold Relay.handle_key_update.
    destruct (Relay.targetUserId payload) as [u|]; [|done].
    destruct (Relay.ku_envelope payload); [|done].
    destruct (negb _); [done|]. simpl. rewrite lookup_insert_ne; [done|]. congruence.
  - unfold Relay.handle_upload_chunk. by repeat case_match.
  - unfold Relay.handle_download_file_chunk. by repeat case_match.
Qed.

Lemma run_queue target between s :
  Forall (λ e, ¬ touches_queue target e) between →
  Relay.keyUpdates (Relay.run between s) !! target = Relay.keyUpdates s !! target.
Proof.
  intros Hb. revert s. induction Hb as [|e between He _ IH]; intros s; [done|].
  simpl. etrans; [apply IH|]. by apply step_queue.
Qed.

(** X3.  A key envelope sent to a user with a non-empty id is queued behind
    the envelopes already waiting for that user, survives every event that is
    neither a heartbeat of that user nor another envelope for them, is handed
    over in full by the user's next heartbeat, and is then gone: a second
    heartbeat of the user right after delivers nothing. *)
Theorem key_update_is_delivered_once
    s now target sender env between hbNow cursor hbNow' cursor' :
  target ≠ EmptyString →
  Forall (λ e, ¬ touches_queue target e) between →
  let entry := Relay.mkKeyUpdate sender env now in
  let s1 :=
    Relay.run
      (Relay.request now
         (Relay.key_update (Relay.mkKeyUpdatePayload (Some target) sender (Some env)))
         :: between) s in
  let first := Relay.POST hbNow (Relay.heartbeat target cursor) s1 in
  let second := Relay.POST hbNow' (Relay.heartbeat target cursor') first.2 in
  delivered first.1 = default [] (Relay.keyUpdates s !! target) ++ [entry] ∧
  delivered second.1 = [].
Proof.
  intros Htarget Hbetween entry s1 first second.
  assert (Hq : Relay.keyUpdates s1 !! target
               = Some (default [] (Relay.keyUpdates s !! target) ++ [entry])).
  { unfold s1. simpl. rewrite run_queue by done. simpl.
    unfold Relay.handle_key_update; simpl.
    rewrite bool_decide_eq_true_2 by done. simpl. apply lookup_insert_eq. }
  split.
  - unfold first; simpl. by rewrite Hq.
  - unfold second, first; simpl. by rewrite lookup_insert_eq.
Qed.

Lemma key_update_is_delivered_once_witness :
  let s1 :=
    Relay.run
      [ Relay.request 1
          (Relay.key_update
             (Relay.mkKeyUpdatePayload (Some "bob"%string) (Some "alice"%string)
                (Some sealed)));
        Relay.request 2 (Relay.heartbeat "alice" None) ]
      Relay.init in
  let first := Relay.POST 3 (Relay.heartbeat "bob" None) s1 in
  let second := Relay.POST 4 (Relay.heartbeat "bob" (Some 0)) first.2 in
  delivered first.1
  = default [] (Relay.keyUpdates Relay.init !! "bob"%string)
      ++ [Relay.mkKeyUpdate (Some "alice"%string) sealed 1] ∧
  delivered second.1 = [].
Proof.
  apply (key_update_is_delivered_once Relay.init 1 "bob"%string (Some "alice"%string) sealed
           [Relay.request 2 (Relay.heartbeat "alice" None)] 3 None 4 (Some 0)).
  - discriminate.
  - repeat constructor; simpl; discriminate.
Defined.

(** ** Rooms *)

Lemma step_room rid r s e :
  rooms_ok s → Relay.rooms s !! rid = Some r → ¬ privileged_on rid r e →
  Relay.rooms (Relay.step s e) !! rid = Some r.
Proof.
  intros Hok Hr He. destruct e as [now req|now]; [|exact Hr].
  destruct req; simpl in He |- *; try done.
  - unfold Relay.handle_create_room.
    destruct (Relay.cr_id payload) as [rid'|]; [|done].
    destruct (Relay.cr_name payload); [|done].
    destruct (Relay.cr_createdBy payload); [|done].
    destruct (_ || _); [done|]. case_bool_decide as Hex; [done|].
    simpl. rewrite lookup_insert_ne; [done|].
    intros ->. apply Hex. by rewrite Hr.
  - unfold Relay.handle_update_room.
    destruct (Relay.rooms s !! Relay.ur_roomId payload) as [r'|] eqn:Hr'; [|done].
    destruct (Relay.is_room_admin (Relay.byUserId payload) r') eqn:Hadm; [|done].
    simpl. destruct (Hok _ _ Hr') as [Hid _].
    assert (Hne : Relay.ur_roomId payload ≠ rid).
    { intros Heq. rewrite Heq, Hr in Hr'. simplify_eq. by apply He. }
    rewrite room_id_mutate, Hid. by rewrite !lookup_insert_ne.
  - unfold Relay.handle_delete_room.
    destruct (Relay.rooms s !! roomId) as [r'|] eqn:Hr'; [|done].
    case_bool_decide as Hown; [|done]. simpl.
    rewrite lookup_delete_ne; [done|].
    intros Heq. rewrite Heq, Hr in Hr'. simplify_eq. by apply He.
  - unfold Relay.handle_key_update. by repeat case_match.
  - unfold Relay.handle_upload_chunk. by repeat case_match.
  - unfold Relay.handle_download_file_chunk. by repeat case_match.
Qed.

(** X4.  In a state the relay can reach, a room stays exactly as it is
    through every sequence of events in which no [update_room] on it comes
    from its owner or one of its admins and no [delete_room] of it comes from
    its owner: requests of other users are refused, and [create_room] never
    replaces an existing room. *)
Theorem room_changes_need_privilege before rid r events :
  let s := Relay.run before Relay.init in
  Relay.rooms s !! rid = Some r →
  Forall (λ e, ¬ privileged_on rid r e) events →
  Relay.rooms (Relay.run events s) !! rid = Some r.
Proof.
  intros s Hr Hev.
  assert (Hok : rooms_ok s) by apply rooms_ok_run, rooms_ok_init.
  clearbody s. revert s Hr Hok.
  induction Hev as [|e events He _ IH]; intros s Hr Hok; [done|].
  simpl. apply IH; [by apply step_room | by apply rooms_ok_step].
Qed.

Lemma room_changes_need_privilege_witness :
  Relay.rooms
    (Relay.run mallory_tries
       (Relay.run [Relay.request 0 (Relay.create_room lobby_payload)] Relay.init))
    !! "lobby"%string = Some lobby_room.
Proof.
  apply (room_changes_need_privilege
           [Relay.request 0 (Relay.create_room lobby_payload)]
           "lobby"%string lobby_room mallory_tries).
  - vm_compute. reflexivity.
  - repeat constructor; simpl; try tauto; intros [_ [=]].
Defined.

Lemma NoDup_foldl_set_add acc l : NoDup acc → NoDup (foldl set_add acc l).
Proof.
  revert acc. induction l as [|x l IH]; intros acc Hacc; simpl; [done|].
  apply IH. unfold set_add. case_bool_decide; [done|].
  apply NoDup_app. split_and!; [done | | apply NoDup_singleton].
  intros y Hy Hx%list_elem_of_singleton. by subst.
Qed.

Lemma NoDup_array_from_set l : NoDup (array_from_set l).
Proof. apply NoDup_foldl_set_add. constructor. Qed.

Lemma NoDup_push_if_absent l x : NoDup l → NoDup (push_if_absent l x).
Proof.
  intros Hl. unfold push_if_absent, includes. case_bool_decide; [done|].
  apply NoDup_app. split_and!; [done | | apply NoDup_singleton].
  intros y Hy Hx%list_elem_of_singleton. by subst.
Qed.

Lemma NoDup_mutate payload r :
  NoDup (participants r) → NoDup (participants (Relay.mutate payload r)).
Proof.
  intros Hr. unfold Relay.mutate.
  repeat (apply (when_set_preserves (λ r', NoDup (participants r'))); [|intros u r' Hr']).
  - done.
  - apply NoDup_array_from_set.
  - simpl. by apply NoDup_push_if_absent, NoDup_filter.
  - unfold Relay.do_addAdmin. case_bool_decide; [|done]. simpl.
    by apply NoDup_push_if_absent.
  - done.
  - unfold Relay.do_transferOwnerTo. by case_match.
Qed.

(** X5.  In every state the relay can reach, whatever requests led there
    (also [update_room] requests that carry several mutations at once), every
    room is stored under its own id, its owner is among its participants, and
    no participant is listed twice. *)
Theorem reachable_rooms_are_well_formed events rid r :
  Relay.rooms (Relay.run events Relay.init) !! rid = Some r →
  room_id r = rid ∧ createdBy r ∈ participants r ∧ NoDup (participants r).
Proof.
  assert (Hinit : ∀ rid r, Relay.rooms Relay.init !! rid = Some r → room_wf rid r).
  { intros rid' r' Hr. simpl in Hr. by rewrite lookup_empty in Hr. }
  revert rid r. generalize dependent Relay.init.
  induction events as [|e events IH]; intros s Hs rid r; [by apply Hs|].
  simpl. apply IH. clear rid r. intros rid r.
  destruct e as [now req|now]; [|by apply Hs].
  destruct req; simpl; try (by apply Hs).
  - unfold Relay.handle_create_room.
    destruct (Relay.cr_id payload) as [rid'|]; [|by apply Hs].
    destruct (Relay.cr_name payload) as [name|]; [|by apply Hs].
    destruct (Relay.cr_createdBy payload) as [creator|]; [|by apply Hs].
    destruct (_ || _); [by apply Hs|]. case_bool_decide; [by apply Hs|].
    simpl. rewrite lookup_insert. case_decide; [|by apply Hs].
    intros [= <-]. split_and!; simpl; [done | | apply NoDup_array_from_set].
    rewrite elem_of_array_from_set. set_solver.
  - unfold Relay.handle_update_room.
    destruct (Relay.rooms s !! Relay.ur_roomId payload) as [r0|] eqn:Hr0; [|by apply Hs].
    destruct (negb _); [by apply Hs|].
    destruct (Hs _ _ Hr0) as (Hid & Hown & Hnd).
    simpl. rewrite room_id_mutate, Hid, insert_insert_eq, lookup_insert.
    case_decide; [|by apply Hs].
    intros [= <-]. split_and!.
    + by rewrite room_id_mutate, Hid.
    + by apply owner_inv_mutate.
    + by apply NoDup_mutate.
  - unfold Relay.handle_delete_room.
    destruct (Relay.rooms s !! roomId) as [r0|] eqn:Hr0; [|by apply Hs].
    destruct (negb _); [by apply Hs|].
    simpl. rewrite lookup_delete. case_decide; [done | by apply Hs].
  - unfold Relay.handle_key_update. repeat case_match; by apply Hs.
  - unfold Relay.handle_upload_chunk. repeat case_match; by apply Hs.
  - unfold Relay.handle_download_file_chunk. repeat case_match; by apply Hs.
Qed.

Lemma reachable_rooms_are_well_formed_witness :
  room_id lobby_room = "lobby"%string ∧
  createdBy lobby_room ∈ participants lobby_room ∧
  NoDup (participants lobby_room).
Proof.
  apply (reachable_rooms_are_well_formed
           (Relay.request 0 (Relay.create_room lobby_payload) :: mallory_tries)
           "lobby"%string lobby_room).
  vm_compute. reflexivity.
Defined.

(** ** Polling for messages *)

Lemma filter_all {A} (P : A → Prop) `{∀ x, Decision (P x)} (l : list A) :
  Forall P l → filter P l = l.
Proof.
  induction 1 as [|x l Hx _ IH]; [done|].
  by rewrite filter_cons_True, IH.
Qed.

Lemma filter_none {A} (P : A → Prop) `{∀ x, Decision (P x)} (l : list A) :
  Forall (λ x, ¬ P x) l → filter P l = [].
Proof.
  induction 1 as [|x l Hx _ IH]; [done|].
  by rewrite filter_cons_False.
Qed.

Lemma filter_fmap {A B} (f : A → B) (P : B → Prop) `{∀ y, Decision (P y)} (l : list A) :
  filter P (f <$> l) = f <$> filter (λ x, P (f x)) l.
Proof.
  induction l as [|x l IH]; [done|]. rewrite fmap_cons.
  destruct (decide (P (f x))).
  - by rewrite !filter_cons_True, fmap_cons, IH.
  - by rewrite !filter_cons_False.
Qed.

Lemma history_seqs s :
  history_inv s →
  let h := Relay.messageHistory s in
  seq <$> h
  = Some <$> seqZ (Relay.messageSeq s - Z.of_nat (length h) + 1) (Z.of_nat (length h)).
Proof.
  intros (_ & _ & Hidx) h. fold h in Hidx.
  apply list_eq. intros i. rewrite !list_lookup_fmap.
  destruct (h !! i) as [m|] eqn:Hm; simpl.
  - rewrite (Hidx i m Hm). apply lookup_lt_Some in Hm.
    rewrite lookup_seqZ_lt by lia. done.
  - apply lookup_ge_None in Hm. rewrite lookup_seqZ_ge by lia. done.
Qed.

(** The numbers above [n] among [k] consecutive numbers that reach beyond [n]
    and start at or below [n + 1]. *)
Lemma filter_seqZ_above (n a k : Z) :
  a ≤ n + 1 → n ≤ a + k - 1 →
  filter (λ z, n < z) (seqZ a k) = seqZ (n + 1) (a + k - 1 - n).
Proof.
  intros Ha Hk.
  replace k with ((n + 1 - a) + (a + k - 1 - n)) at 1 by lia.
  rewrite seqZ_app, filter_app by lia.
  rewrite filter_none, filter_all; simpl.
  - f_equal. lia.
  - apply Forall_seqZ. intros z Hz. lia.
  - apply Forall_seqZ. intros z Hz. lia.
Qed.

(** X6.  Polls chain without gaps or repeats.  When a client polls, takes
    the cursor [lastSeq] of the answer, and polls again with it after any
    further events during which at most 200 messages were sent, the second
    answer holds exactly the messages numbered from the first cursor plus one
    up to the second cursor, each once and in order. *)
Theorem consecutive_polls_leave_no_gap before between uid uid' t t' cursor :
  let s := Relay.run before Relay.init in
  let first := Relay.POST t (Relay.heartbeat uid cursor) s in
  let n := Relay.messageSeq s in
  let s' := Relay.run between first.2 in
  let n' := Relay.messageSeq s' in
  n' - n ≤ 200 →
  ∃ b b', first.1 = Relay.ok (Relay.heartbeat_body b) ∧
    (Relay.POST t' (Relay.heartbeat uid' (Some (Relay.hb_lastSeq b))) s').1
      = Relay.ok (Relay.heartbeat_body b') ∧
    Relay.hb_lastSeq b = n ∧ Relay.hb_lastSeq b' = n' ∧
    seq <$> Relay.newMessages b' = Some <$> seqZ (n + 1) (n' - n).
Proof.
  intros s first n s' n' Hfew.
  assert (Hinv : history_inv s) by apply history_inv_run, history_inv_init.
  assert (Hinv1 : history_inv first.2).
  { apply (history_inv_step s (Relay.request t (Relay.heartbeat uid cursor)) Hinv). }
  assert (Hinv' : history_inv s') by by apply history_inv_run.
  assert (Hn : Relay.messageSeq first.2 = n) by done.
  pose proof (messageSeq_run between first.2) as Hmono. fold s' in Hmono.
  rewrite Hn in Hmono. fold n' in Hmono.
  eexists _, _. split; [reflexivity|]. split; [reflexivity|].
  cbn [Relay.hb_lastSeq Relay.newMessages]. split; [done|]. split; [done|].
  unfold Relay.messages_since. fold n. rewrite num_or_zero.
  pose proof (history_seqs s' Hinv') as Hseqs. simpl in Hseqs.
  destruct Hinv as (Hn0 & _). destruct Hinv' as (_ & Hlen & _).
  fold n in Hn0. fold n' in Hlen, Hseqs.
  set (h := Relay.messageHistory s') in *.
  transitivity (filter (λ o : option Z, n < num_nullish o 0) (seq <$> h)).
  { by rewrite filter_fmap. }
  rewrite Hseqs, filter_fmap. simpl. f_equal.
  rewrite filter_seqZ_above by lia. f_equal. lia.
Qed.

Lemma consecutive_polls_leave_no_gap_witness :
  let s := Relay.run three_notes Relay.init in
  let first := Relay.POST 5 (Relay.heartbeat "bob" None) s in
  let s' :=
    Relay.run [Relay.request 9 (Relay.send_message (note "m4" "bye" 9 None))] first.2 in
  ∃ b b', first.1 = Relay.ok (Relay.heartbeat_body b) ∧
    (Relay.POST 10 (Relay.heartbeat "bob" (Some (Relay.hb_lastSeq b))) s').1
      = Relay.ok (Relay.heartbeat_body b') ∧
    Relay.hb_lastSeq b = Relay.messageSeq s ∧
    Relay.hb_lastSeq b' = Relay.messageSeq s' ∧
    seq <$> Relay.newMessages b'
    = Some <$> seqZ (Relay.messageSeq s + 1) (Relay.messageSeq s' - Relay.messageSeq s).
Proof.
  apply (consecutive_polls_leave_no_gap three_notes
           [Relay.request 9 (Relay.send_message (note "m4" "bye" 9 None))]
           "bob"%string "bob"%string 5 10 None).
  vm_compute. discriminate.
Defined.

(** ** Presence *)

(** X7.  A heartbeat never registers anybody: a user the relay does not list
    stays unlisted.  For a listed user it records the time, and the cleanup
    timer afterwards keeps the user when it fires up to 35 seconds after that
    heartbeat and removes the user when it fires later. *)
Theorem heartbeat_refreshes_presence s uid cursor t t' :
  let s1 := (Relay.POST t (Relay.heartbeat uid cursor) s).2 in
  (Relay.onlineUsers s !! uid = None → Relay.onlineUsers s1 !! uid = None) ∧
  (is_Some (Relay.onlineUsers s !! uid) →
   ∃ u, Relay.onlineUsers s1 !! uid = Some u ∧ lastSeen u = t ∧
     (t' - t ≤ 35000 → Relay.onlineUsers (Relay.cleanup t' s1) !! uid = Some u) ∧
     (35000 < t' - t → Relay.onlineUsers (Relay.cleanup t' s1) !! uid = None)).
Proof.
  intros s1. unfold s1; simpl. split.
  - intros Hnone. by rewrite Hnone.
  - intros [u Hu]. rewrite Hu. eexists. rewrite lookup_insert_eq.
    split; [done|]. split; [done|]. split.
    + intros Hfresh. apply map_lookup_filter_Some. rewrite lookup_insert_eq.
      split; [done|]. simpl. lia.
    + intros Hstale. apply map_lookup_filter_None. right.
      intros u' Hu'. rewrite lookup_insert_eq in Hu'. simplify_eq. simpl. lia.
Qed.

(** ** Listing transfers *)

Lemma StronglySorted_lt l :
  StronglySorted Z.le l → NoDup l → StronglySorted Z.lt l.
Proof.
  induction 1 as [|x l Hl IH Hx]; intros Hnd; [constructor|].
  apply NoDup_cons in Hnd as [Hx' Hnd]. constructor; [by apply IH|].
  rewrite Forall_forall in Hx |- *. intros y Hy.
  assert (x ≠ y) by (intros ->; done). specialize (Hx y Hy). lia.
Qed.

Lemma sorted_keys_spec (m : gmap Z Relay.Chunk) :
  StronglySorted Z.lt (Relay.sorted_keys m) ∧
  ∀ i, i ∈ Relay.sorted_keys m ↔ is_Some (m !! i).
Proof.
  unfold Relay.sorted_keys. split.
  - apply StronglySorted_lt.
    + apply StronglySorted_merge_sort; apply _.
    + rewrite merge_sort_Permutation. apply NoDup_elements.
  - intros i. rewrite merge_sort_Permutation, elem_of_elements. apply elem_of_dom.
Qed.

(** X8.  The answer to [list_file_transfers] leaves the relay unchanged and
    lists exactly the transfers that the caller did not send and may receive
    (broadcast transfers and those naming the caller among the recipients);
    each entry gives the indices of the chunks stored so far, in strictly
    ascending order. *)
Theorem list_file_transfers_is_scoped s now uid :
  ∃ ls, Relay.POST now (Relay.list_file_transfers uid) s
        = (Relay.ok (Relay.transfer_list ls), s) ∧
    (∀ l, l ∈ ls ↔
          ∃ k t, Relay.fileTransfers s !! k = Some t ∧ l = Relay.listing t ∧
                 Relay.t_senderId t ≠ uid ∧
                 (∀ rs, Relay.recipients t = Some rs → uid ∈ rs)) ∧
    (∀ k t, Relay.fileTransfers s !! k = Some t →
            StronglySorted Z.lt (Relay.availableChunks (Relay.listing t)) ∧
            ∀ i, i ∈ Relay.availableChunks (Relay.listing t)
                 ↔ is_Some (Relay.chunks t !! i)).
Proof.
  eexists. split; [reflexivity|]. split.
  - intros l. rewrite list_elem_of_fmap. split.
    + intros (t & -> & Ht). apply list_elem_of_filter in Ht as [Hmay Ht].
      apply list_elem_of_filter in Ht as [Hsender Ht].
      apply list_elem_of_fmap in Ht as ([k t'] & -> & Hkt).
      apply elem_of_map_to_list in Hkt. simpl in Hmay, Hsender.
      exists k, t'. split_and!; [done..|].
      intros rs Hrs. unfold Relay.may_receive in Hmay. rewrite Hrs in Hmay.
      by apply includes_true, Is_true_true.
    + intros (k & t & Hkt & -> & Hsender & Hrec). exists t. split; [done|].
      apply list_elem_of_filter. split.
      * unfold Relay.may_receive. destruct (Relay.recipients t) as [rs|]; [|done].
        by apply Is_true_true, includes_true, Hrec.
      * apply list_elem_of_filter. split; [done|].
        apply list_elem_of_fmap. exists (k, t). split; [done|].
        by apply elem_of_map_to_list.
  - intros k t _. apply sorted_keys_spec.
Qed.

(** ** Scoped transfers *)

Lemma transfers_keyed_step s e : transfers_keyed s → transfers_keyed (Relay.step s e).
Proof.
  intros Hk. destruct e as [now req|now]; [|exact Hk].
  destruct req; simpl; try exact Hk.
  - unfold Relay.handle_create_room. by repeat case_match.
  - unfold Relay.handle_update_room. by repeat case_match.
  - unfold Relay.handle_delete_room. by repeat case_match.
  - unfold Relay.handle_key_update. by repeat case_match.
  - intros k t. simpl. rewrite lookup_insert. case_decide; [|by apply Hk].
    by intros [= <-].
  - unfold Relay.handle_upload_chunk.
    destruct (Relay.fileTransfers s !! Relay.transferId payload) as [t0|] eqn:Ht0;
      [|exact Hk].
    intros k t. simpl. rewrite lookup_insert. case_decide as Heq; [|by apply Hk].
    intros [= <-]. simpl. rewrite <- Heq. by apply Hk.
  - unfold Relay.handle_download_file_chunk. by repeat case_match.
Qed.

Lemma transfers_keyed_run events s : transfers_keyed s → transfers_keyed (Relay.run events s).
Proof.
  revert s. induction events as [|e events IH]; intros s Hk; [done|].
  by apply IH, transfers_keyed_step.
Qed.

Lemma transfers_keyed_init : transfers_keyed Relay.init.
Proof. intros k t Ht. simpl in Ht. by rewrite lookup_empty in Ht. Qed.

(** X9.  A transfer scoped to a set of recipients is withheld from everybody
    else.  For a user outside the set, and until the transfer is announced
    again, every download of one of its chunks is refused with status 403
    whatever the index, no [list_file_transfers] answer lists the transfer,
    and no heartbeat announces it. *)
Theorem scoped_transfer_is_withheld before tid (t : Relay.Transfer) rs uid later now idx cursor :
  let s := Relay.run before Relay.init in
  Relay.fileTransfers s !! tid = Some t →
  Relay.recipients t = Some rs →
  uid ∉ rs →
  Forall (λ e, ¬ reannounces tid e) later →
  let s' := Relay.run later s in
  Relay.POST now (Relay.download_file_chunk uid tid idx) s'
    = (Relay.error 403 "Forbidden", s') ∧
  (∀ l, l ∈ listed (Relay.POST now (Relay.list_file_transfers uid) s').1 →
        Relay.li_id l ≠ tid) ∧
  (∀ a, a ∈ announced (Relay.POST now (Relay.heartbeat uid cursor) s').1 →
        Relay.an_id a ≠ tid).
Proof.
  intros s Ht Hrs Huid Hlater s'.
  destruct (run_transfer tid later s t Hlater Ht) as (t' & Ht' & Hrec & _).
  fold s' in Ht'. rewrite Hrs in Hrec.
  assert (Hkeyed : transfers_keyed s').
  { apply transfers_keyed_run, transfers_keyed_run, transfers_keyed_init. }
  assert (Hmay : Relay.may_receive uid t' = false).
  { unfold Relay.may_receive. rewrite Hrec. apply not_true_is_false.
    by rewrite includes_true. }
  assert (Hhidden : ∀ t1, t1 ∈ filter (Relay.may_receive uid) (Relay.values (Relay.fileTransfers s')) →
                          Relay.id t1 ≠ tid).
  { intros t1 [Hmay1 Hin]%list_elem_of_filter Hid.
    apply list_elem_of_fmap in Hin as ([k t2] & -> & Hkt).
    apply elem_of_map_to_list in Hkt. simpl in *.
    rewrite <- (Hkeyed _ _ Hkt) in Hkt. rewrite Hid, Ht' in Hkt. simplify_eq.
    by rewrite Hmay in Hmay1. }
  split_and!.
  - simpl. unfold Relay.handle_download_file_chunk. by rewrite Ht', Hmay.
  - intros l. simpl. intros (t1 & -> & Hin)%list_elem_of_fmap. simpl.
    apply Hhidden. apply list_elem_of_filter in Hin as [Hmay1 Hin].
    apply list_elem_of_filter in Hin as [_ Hin]. by apply list_elem_of_filter.
  - intros a. simpl. intros (t1 & -> & Hin)%list_elem_of_fmap. simpl.
    by apply Hhidden.
Qed.

Lemma scoped_transfer_is_withheld_witness :
  let s' :=
    Relay.run
      [ Relay.request 1
          (Relay.upload_chunk (Relay.mkUploadChunk "f3" 0 (Some 1) "hi" EmptyString)) ]
      (Relay.run f3_announcement Relay.init) in
  Relay.POST 2 (Relay.download_file_chunk "bob" "f3" 0) s'
    = (Relay.error 403 "Forbidden", s') ∧
  (∀ l, l ∈ listed (Relay.POST 2 (Relay.list_file_transfers "bob") s').1 →
        Relay.li_id l ≠ "f3"%string) ∧
  (∀ a, a ∈ announced (Relay.POST 2 (Relay.heartbeat "bob" None) s').1 →
        Relay.an_id a ≠ "f3"%string).
Proof.
  apply (scoped_transfer_is_withheld f3_announcement "f3"%string f3_transfer
           ["carol"%string] "bob"%string
           [ Relay.request 1
               (Relay.upload_chunk (Relay.mkUploadChunk "f3" 0 (Some 1) "hi" EmptyString)) ]
           2 0 None).
  - vm_compute. reflexivity.
  - reflexivity.
  - intros [=]%list_elem_of_singleton.
  - repeat constructor; simpl; tauto.
Defined.

(** * Further properties of the client *)

(** ** Which version of a message a merge keeps *)

Lemma latest_cons y l i :
  latest (y :: l) i
  = match latest l i with
    | Some v => Some v
    | None => if bool_decide (msg_id y = i) then Some y else None
    end.
Proof.
  unfold latest. case_bool_decide as Hy.
  - rewrite filter_cons_True by done. apply last_cons.
  - rewrite filter_cons_False by done. by destruct (last _).
Qed.

Lemma map_set_entries_iff m k v k1 v1 :
  NoDup m.*1 →
  (k1, v1) ∈ Client.map_set m k v ↔ (k1 = k ∧ v1 = v) ∨ (k1 ≠ k ∧ (k1, v1) ∈ m).
Proof.
  induction m as [|[k' v'] m IH]; simpl; intros Hnd.
  - rewrite list_elem_of_singleton. split.
    + intros [= -> ->]. by left.
    + intros [[-> ->]|[_ Hin]]; [done | by apply elem_of_nil in Hin].
  - apply NoDup_cons in Hnd as [Hk' Hnd]. case_bool_decide as Hk.
    + subst k'. rewrite !elem_of_cons. split.
      * intros [[= -> ->]|Hin]; [by left|]. right. split; [|by right].
        intros ->. apply Hk'. apply list_elem_of_fmap. by exists (k, v1).
      * intros [[-> ->]|[Hne [[= ? ?]|Hin]]]; [by left | done | by right].
    + rewrite !elem_of_cons, IH by done. split.
      * intros [[= -> ->]|[[-> ->]|[Hne Hin]]]; [right; split; [done | by left] | by left |].
        right. split; [done | by right].
      * intros [[-> ->]|[Hne [[= -> ->]|Hin]]]; [right; by left | by left |].
        right. right. by split.
Qed.

Lemma foldl_map_set_latest l m k v :
  keyed m →
  (k, v) ∈ foldl (λ map x, Client.map_set map (msg_id x) x) m l ↔
  latest l k = Some v ∨ (latest l k = None ∧ (k, v) ∈ m).
Proof.
  revert m. induction l as [|y l IH]; intros m Hm; simpl.
  - unfold latest; simpl. naive_solver.
  - rewrite IH by by apply map_set_keyed.
    rewrite latest_cons, map_set_entries_iff by apply Hm.
    destruct (latest l k) as [v'|]; [naive_solver|].
    case_bool_decide; naive_solver.
Qed.

Lemma mergeMessages_elem prev incoming m :
  m ∈ Client.mergeMessages prev incoming ↔
  latest incoming (msg_id m) = Some m ∨
  (latest incoming (msg_id m) = None ∧ latest prev (msg_id m) = Some m).
Proof.
  unfold Client.mergeMessages. rewrite array_sort_perm.
  destruct (foldl_map_set prev []) as (Hk1 & _ & _).
  { split; [constructor | intros k v Hin; by apply elem_of_nil in Hin]. }
  set (m1 := foldl (λ map x, Client.map_set map (msg_id x) x) [] prev) in *.
  destruct (foldl_map_set incoming m1 Hk1) as (Hk2 & _ & _).
  set (m2 := foldl (λ map x, Client.map_set map (msg_id x) x) m1 incoming) in *.
  assert (Hin : m ∈ m2.*2 ↔ (msg_id m, m) ∈ m2).
  { rewrite list_elem_of_fmap. split.
    - intros ([k v] & -> & Hkv). simpl. by rewrite (proj2 Hk2 _ _ Hkv).
    - intros Hkv. by exists (msg_id m, m). }
  rewrite Hin. unfold m2. rewrite foldl_map_set_latest by done.
  unfold m1. rewrite foldl_map_set_latest.
  - assert (Hnil : ∀ k v, (k, v) ∉ ([] : list (string * Message))).
    { intros k v Hkv. by apply elem_of_nil in Hkv. }
    naive_solver.
  - split; [constructor | intros k v Hkv; by apply elem_of_nil in Hkv].
Qed.

(** X10.  Of two versions of a message the merge keeps the incoming one: a
    message of the result whose id occurs in the incoming list is the last
    message of the incoming list with that id; a message whose id does not
    occur there is the last message of the held list with that id. *)
Theorem mergeMessages_keeps_latest_incoming prev incoming m :
  m ∈ Client.mergeMessages prev incoming ↔
  latest incoming (msg_id m) = Some m ∨
  (latest incoming (msg_id m) = None ∧ latest prev (msg_id m) = Some m).
Proof. apply mergeMessages_elem. Qed.

(** ** Merging a batch twice *)

Lemma map_set_present_keys m k v : k ∈ m.*1 → (Client.map_set m k v).*1 = m.*1.
Proof.
  induction m as [|[k' v'] m IH]; simpl; intros Hk; [by apply elem_of_nil in Hk|].
  case_bool_decide as Heq; simpl; [by subst|].
  f_equal. apply IH. apply elem_of_cons in Hk as [?|?]; [done|done].
Qed.

Lemma foldl_map_set_present_keys l m :
  (∀ x, x ∈ l → msg_id x ∈ m.*1) →
  (foldl (λ map x, Client.map_set map (msg_id x) x) m l).*1 = m.*1.
Proof.
  revert m. induction l as [|y l IH]; intros m Hl; simpl; [done|].
  rewrite IH.
  - apply map_set_present_keys, Hl. by left.
  - intros x Hx. rewrite map_set_present_keys by (apply Hl; by left).
    apply Hl. by right.
Qed.

Lemma foldl_map_set_fresh l :
  NoDup (msg_id <$> l) →
  ∀ m, (∀ x, x ∈ l → msg_id x ∉ m.*1) →
  foldl (λ map x, Client.map_set map (msg_id x) x) m l = m ++ ((λ x, (msg_id x, x)) <$> l).
Proof.
  induction l as [|y l IH]; intros Hnd m Hm; simpl.
  - by rewrite (right_id_L [] (++)).
  - apply NoDup_cons in Hnd as [Hy Hnd].
    assert (Hset : Client.map_set m (msg_id y) y = m ++ [(msg_id y, y)]).
    { assert (Hfresh : msg_id y ∉ m.*1) by (apply Hm; by left).
      clear -Hfresh. induction m as [|[k v] m IH]; simpl; [done|].
      simpl in Hfresh. rewrite bool_decide_eq_false_2 by set_solver.
      f_equal. apply IH. set_solver. }
    rewrite Hset, IH; [by rewrite <- (assoc_L (++))|done|].
    intros x Hx. rewrite fmap_app. simpl. intros [Hin|Hin]%elem_of_app.
    + by apply (Hm x); [right|].
    + apply list_elem_of_singleton in Hin. apply Hy. rewrite <- Hin.
      by apply list_elem_of_fmap_2.
Qed.

Lemma keyed_ext (m m' : list (string * Message)) :
  m.*1 = m'.*1 → NoDup m.*1 →
  (∀ k v, (k, v) ∈ m → (k, v) ∈ m') → m = m'.
Proof.
  revert m'. induction m as [|[k v] m IH]; intros [|[k' v'] m'] Hkeys Hnd Hsub;
    simplify_eq/=; [done|].
  apply NoDup_cons in Hnd as [Hk Hnd].
  assert (v = v') as <-.
  { specialize (Hsub k' v (list_elem_of_here _ _)).
    apply elem_of_cons in Hsub as [[= ->]|Hin]; [done|].
    exfalso. apply Hk. rewrite H0. apply list_elem_of_fmap. by exists (k', v). }
  f_equal. apply IH; [done | done |].
  intros k1 v1 Hin. specialize (Hsub k1 v1 (list_elem_of_further _ _ _ Hin)).
  apply elem_of_cons in Hsub as [[= -> ->]|?]; [|done].
  exfalso. apply Hk. apply list_elem_of_fmap. by exists (k', v).
Qed.

Lemma array_sort_sorted_id l :
  StronglySorted msg_le l → Client.array_sort Client.compare_messages l = l.
Proof.
  induction 1 as [|x l Hl IH Hx]; simpl; [done|].
  rewrite IH. destruct l as [|y l]; simpl; [done|].
  apply Forall_cons in Hx as [Hxy _].
  by rewrite bool_decide_eq_true_2 by by apply compare_messages_le.
Qed.

(** X11.  Merging the same batch a second time changes nothing. *)
Theorem mergeMessages_is_idempotent prev incoming :
  Client.mergeMessages (Client.mergeMessages prev incoming) incoming
  = Client.mergeMessages prev incoming.
Proof.
  set (res := Client.mergeMessages prev incoming).
  assert (Hnd : NoDup (msg_id <$> res)).
  { unfold res, Client.mergeMessages. rewrite array_sort_perm.
    destruct (foldl_map_set prev []) as (Hk1 & _).
    { split; [constructor | intros k v Hin; by apply elem_of_nil in Hin]. }
    destruct (foldl_map_set incoming _ Hk1) as (Hk2 & _).
    rewrite keyed_ids by done. apply Hk2. }
  assert (Hsorted : StronglySorted msg_le res) by apply array_sort_sorted.
  assert (Hids : ∀ x, x ∈ incoming → msg_id x ∈ msg_id <$> res).
  { intros x Hx. unfold res, Client.mergeMessages. rewrite array_sort_perm.
    destruct (foldl_map_set prev []) as (Hk1 & _).
    { split; [constructor | intros k v Hin; by apply elem_of_nil in Hin]. }
    destruct (foldl_map_set incoming _ Hk1) as (Hk2 & Hids2 & _).
    rewrite keyed_ids by done. apply Hids2. right. by apply list_elem_of_fmap_2. }
  unfold Client.mergeMessages at 1. fold res.
  set (base := (λ x, (msg_id x, x)) <$> res).
  assert (Hbase : foldl (λ map x, Client.map_set map (msg_id x) x) [] res = base).
  { rewrite foldl_map_set_fresh; [done | done |].
    intros x _ Hin. by apply elem_of_nil in Hin. }
  assert (Hkeys : base.*1 = msg_id <$> res).
  { unfold base. rewrite <- list_fmap_compose. done. }
  assert (Hvals : base.*2 = res).
  { unfold base. rewrite <- list_fmap_compose. apply list_fmap_id. }
  assert (Hkeyed : keyed base).
  { split; [by rewrite Hkeys|].
    intros k v (x & [= -> ->] & _)%list_elem_of_fmap. done. }
  rewrite Hbase.
  assert (Hsame : foldl (λ map x, Client.map_set map (msg_id x) x) base incoming = base).
  { apply keyed_ext.
    - apply foldl_map_set_present_keys. intros x Hx. rewrite Hkeys. by apply Hids.
    - rewrite foldl_map_set_present_keys; [apply Hkeyed|].
      intros x Hx. rewrite Hkeys. by apply Hids.
    - intros k v Hkv. apply foldl_map_set_latest in Hkv; [|done].
      assert (Hres : ∀ v, v ∈ res → (msg_id v, v) ∈ base).
      { intros v' Hv'. apply list_elem_of_fmap. by exists v'. }
      destruct Hkv as [Hl | [_ ?]]; [|done].
      assert (k = msg_id v) as ->.
      { unfold latest in Hl. apply last_Some_elem_of, list_elem_of_filter in Hl.
        by destruct Hl. }
      apply Hres, mergeMessages_elem. by left. }
  rewrite Hsame, Hvals. by apply array_sort_sorted_id.
Qed.

(** ** Encrypting and sending *)

Section sending.
Context `{Crypto.SubtleCryptoLaws}.

Lemma aes_round_trip nonce key data :
  Crypto.hasSubtle = true →
  ∃ ctB64,
    Crypto.aesEncryptBytes nonce key data = Some (Crypto.bytesToBase64 nonce, ctB64) ∧
    Crypto.aesDecryptBytes key ctB64 (Crypto.bytesToBase64 nonce) = Some data.
Proof.
  intros Hsubtle.
  destruct (Crypto.aesgcm_inverse key nonce data) as (ct & Henc & Hdec).
  unfold Crypto.aesEncryptBytes, Crypto.aesDecryptBytes, Crypto.require_subtle,
    Crypto.base64ToBytes, Crypto.bytesToBase64.
  rewrite Hsubtle. cbn [mbind option_bind]. rewrite Henc. cbn [mbind option_bind].
  eexists. split; [reflexivity|].
  rewrite !Crypto.atob_btoa. cbn [mbind option_bind]. exact Hdec.
Qed.

(** X12.  With WebCrypto available, decrypting what [aesEncryptBytes]
    produced, under the same key and with the nonce it returned, gives back
    the data, whatever nonce was drawn.  Without WebCrypto both functions
    throw, whatever their arguments. *)
Theorem aes_bytes_round_trip nonce key data :
  (Crypto.hasSubtle = true →
   ∃ nonceB64 ctB64,
     Crypto.aesEncryptBytes nonce key data = Some (nonceB64, ctB64) ∧
     Crypto.aesDecryptBytes key ctB64 nonceB64 = Some data) ∧
  (Crypto.hasSubtle = false →
   Crypto.aesEncryptBytes nonce key data = None ∧
   ∀ ctB64 nonceB64, Crypto.aesDecryptBytes key ctB64 nonceB64 = None).
Proof.
  split.
  - intros Hsubtle. destruct (aes_round_trip nonce key data Hsubtle) as (ct & ? & ?).
    by eexists _, _.
  - intros Hno. unfold Crypto.aesEncryptBytes, Crypto.aesDecryptBytes, Crypto.require_subtle.
    rewrite Hno. split; [done|]. intros ctB64 nonceB64. done.
Qed.

(** X13.  A user who may not write to a channel changes nothing by sending:
    for an unknown room, for a private room the user is no participant of,
    and for the global channel when the user is no administrator,
    [sendMessage] returns the state it was called in. *)
Theorem sendMessage_refused id now nonce text roomId (st : Client.State) user :
  Client.currentUser st = Some user →
  ¬ can_send user roomId (Client.chatRooms st) →
  Client.sendMessage id now nonce text roomId st = st.
Proof.
  intros Huser Hno. unfold Client.sendMessage. rewrite Huser.
  destruct (truthy roomId) eqn:Hroom; simpl.
  - destruct (List.find _ _) as [room|] eqn:Hfind; [|done].
    destruct (isPublic room || includes (participants room) (user_id user)) eqn:Hok;
      [|done].
    exfalso. apply Hno. right. split; [done|]. exists room. split; [done|].
    apply orb_true_iff in Hok as [?|?%includes_true]; auto.
  - destruct (isAdmin user) eqn:Hadmin; [|done].
    exfalso. apply Hno. by left.
Qed.

(** What [sendMessage] does for a user who may write: the record sent and
    the state left. *)
Lemma sendMessage_wire id now nonce text roomId (st : Client.State) user :
  Client.currentUser st = Some user →
  can_send user roomId (Client.chatRooms st) →
  ∃ wire,
    Client.sendMessage id now nonce text roomId st
    = Client.set_sent
        (Client.set_messages
           (Client.set_storage st
              (Storage.addMessage (local_copy wire text) (Client.storage st)))
           (Client.mergeMessages (Client.messages st) [local_copy wire text]))
        (Client.sent st ++ [Relay.send_message wire]) ∧
    msg_id wire = id ∧ senderId wire = user_id user ∧ msg_roomId wire = roomId ∧
    seq wire = None ∧
    (Client.roomKey st = None → content wire = text ∧ enc wire = None) ∧
    (∀ key, Client.roomKey st = Some key → Crypto.hasSubtle = true →
       enc wire = Some true ∧
       msg_nonce wire = Some (Crypto.bytesToBase64 nonce) ∧
       Crypto.aesDecryptBytes key (content wire) (Crypto.bytesToBase64 nonce)
       = Some (Crypto.utf8Encode text)).
Proof.
  intros Huser Hcan. unfold Client.sendMessage. rewrite Huser.
  assert (Hgate : negb (truthy roomId) && negb (isAdmin user) = false).
  { destruct Hcan as [[-> ->]|[-> _]]; done. }
  rewrite Hgate.
  assert (Hallowed :
    (if truthy roomId then
       match List.find (λ r, bool_decide (Some (room_id r) = roomId)) (Client.chatRooms st)
       with
       | None => false
       | Some room => isPublic room || includes (participants room) (user_id user)
       end
     else true) = true).
  { destruct Hcan as [[-> _]|[-> (room & -> & Hok)]]; [done|].
    apply orb_true_iff. destruct Hok as [?|?%includes_true]; auto. }
  rewrite Hallowed. cbn [negb].
  destruct (Client.roomKey st) as [key|] eqn:Hkey.
  - destruct (Client.aesEncryptString nonce key text) as [[n c]|] eqn:Henc.
    + eexists. split; [reflexivity|]. split_and!; try done.
      intros key' [= <-] Hsubtle. unfold Client.aesEncryptString in Henc.
      destruct (aes_round_trip nonce key (Crypto.utf8Encode text) Hsubtle)
        as (c' & Henc' & Hdec).
      rewrite Henc in Henc'. simplify_eq. by split_and!.
    + eexists. split; [reflexivity|]. split_and!; try done.
      intros key' [= <-] Hsubtle. exfalso.
      unfold Client.aesEncryptString in Henc.
      destruct (aes_round_trip nonce key (Crypto.utf8Encode text) Hsubtle)
        as (c' & Henc' & _).
      by rewrite Henc in Henc'.
  - eexists. split; [reflexivity|]. by split_and!.
Qed.

(** X14.  A user who may write sends exactly one [send_message] request and
    keeps a copy that differs from the sent record in the content only: the
    copy holds the text as typed.  The copy is in the message list (as the
    only message with its id) and a message with its id is in the local
    storage.  Without a room key the sent content is the text itself; with a
    room key and WebCrypto available it is a ciphertext, flagged as
    encrypted, that decrypts under the room key and the attached nonce to the
    bytes of the text. *)
Theorem sendMessage_delivers id now nonce text roomId (st : Client.State) user :
  Client.currentUser st = Some user →
  can_send user roomId (Client.chatRooms st) →
  let st' := Client.sendMessage id now nonce text roomId st in
  ∃ wire, Client.sent st' = Client.sent st ++ [Relay.send_message wire] ∧
    msg_id wire = id ∧ senderId wire = user_id user ∧ msg_roomId wire = roomId ∧
    seq wire = None ∧
    (∀ m, m ∈ Client.messages st' → msg_id m = id → m = local_copy wire text) ∧
    local_copy wire text ∈ Client.messages st' ∧
    (∃ m, m ∈ Storage.getMessages (Client.storage st') ∧ msg_id m = id) ∧
    (Client.roomKey st = None → content wire = text ∧ enc wire = None) ∧
    (∀ key, Client.roomKey st = Some key → Crypto.hasSubtle = true →
       enc wire = Some true ∧
       ∃ n, msg_nonce wire = Some n ∧
            Crypto.aesDecryptBytes key (content wire) n
            = Some (Crypto.utf8Encode text)).
Proof.
  intros Huser Hcan st'.
  destruct (sendMessage_wire id now nonce text roomId st user Huser Hcan)
    as (wire & Hst' & Hid & Hsender & Hroom & Hseq & Hplain & Hcipher).
  fold st' in Hst'.
  assert (Hcipher' : ∀ key, Client.roomKey st = Some key → Crypto.hasSubtle = true →
            enc wire = Some true ∧
            ∃ n, msg_nonce wire = Some n ∧
                 Crypto.aesDecryptBytes key (content wire) n
                 = Some (Crypto.utf8Encode text)).
  { intros key Hkey Hsubtle. destruct (Hcipher key Hkey Hsubtle) as (? & ? & ?).
    split; [done|]. by eexists. }
  clear Hcipher.
  exists wire. rewrite Hst'. cbn [Client.sent Client.messages Client.storage
    Client.set_sent Client.set_messages Client.set_storage].
  assert (Hlatest : latest [local_copy wire text] id = Some (local_copy wire text)).
  { unfold latest. rewrite filter_cons_True by done. done. }
  split_and!; try done.
  - intros m Hm Hmid. apply mergeMessages_elem in Hm. rewrite Hmid, Hlatest in Hm.
    destruct Hm as [[= <-]|[? _]]; done.
  - apply mergeMessages_elem. left. simpl. by rewrite Hid.
  - unfold Storage.addMessage, Storage.getMessages. case_bool_decide as Hex.
    + apply Exists_exists in Hex as (m & Hm & Hmid). exists m.
      split; [done|]. by rewrite Hmid.
    + exists (local_copy wire text). split; [|done].
      simpl. apply elem_of_app. right. by apply list_elem_of_singleton.
Qed.

End sending.

Lemma aes_bytes_round_trip_witness :
  (@Crypto.hasSubtle toy_crypto = true →
   ∃ nonceB64 ctB64,
     @Crypto.aesEncryptBytes toy_crypto [Byte.x0c] toy_room_key [Byte.x68; Byte.x69]
     = Some (nonceB64, ctB64) ∧
     @Crypto.aesDecryptBytes toy_crypto toy_room_key ctB64 nonceB64
     = Some [Byte.x68; Byte.x69]) ∧
  (@Crypto.hasSubtle toy_crypto = false →
   @Crypto.aesEncryptBytes toy_crypto [Byte.x0c] toy_room_key [Byte.x68; Byte.x69] = None ∧
   ∀ ctB64 nonceB64, @Crypto.aesDecryptBytes toy_crypto toy_room_key ctB64 nonceB64 = None).
Proof.
  apply (@aes_bytes_round_trip toy_crypto toy_crypto_laws
           [Byte.x0c] toy_room_key [Byte.x68; Byte.x69]).
Defined.

Lemma sendMessage_refused_witness :
  @Client.sendMessage toy_crypto "m1" 7 [Byte.x0c] "hello" (Some "vault"%string) bob_outside
  = bob_outside.
Proof.
  apply (@sendMessage_refused toy_crypto "m1"%string 7 [Byte.x0c] "hello"%string
           (Some "vault"%string) bob_outside bob).
  - reflexivity.
  - intros [[[=] _]|[_ (room & [= <-] & [[=]|Hin])]].
    apply list_elem_of_singleton in Hin. discriminate.
Defined.

Lemma sendMessage_delivers_witness :
  let st' := @Client.sendMessage toy_crypto "m1" 7 [Byte.x0c] "hello" None alice_keyed in
  ∃ wire, Client.sent st' = Client.sent alice_keyed ++ [Relay.send_message wire] ∧
    msg_id wire = "m1"%string ∧ senderId wire = "alice"%string ∧ msg_roomId wire = None ∧
    seq wire = None ∧
    (∀ m, m ∈ Client.messages st' → msg_id m = "m1"%string → m = local_copy wire "hello") ∧
    local_copy wire "hello" ∈ Client.messages st' ∧
    (∃ m, m ∈ Storage.getMessages (Client.storage st') ∧ msg_id m = "m1"%string) ∧
    (Client.roomKey alice_keyed = None → content wire = "hello"%string ∧ enc wire = None) ∧
    (∀ key, Client.roomKey alice_keyed = Some key → @Crypto.hasSubtle toy_crypto = true →
       enc wire = Some true ∧
       ∃ n, msg_nonce wire = Some n ∧
            @Crypto.aesDecryptBytes toy_crypto key (content wire) n
            = Some (@Crypto.utf8Encode toy_crypto "hello")).
Proof.
  apply (@sendMessage_delivers toy_crypto toy_crypto_laws "m1"%string 7 [Byte.x0c]
           "hello"%string None alice_keyed
           (mkUser "alice" "alice" "Alice" true online 0 None)).
  - reflexivity.
  - left. split; reflexivity.
Defined.
(** * Files in transit *)

(** ** Lists of indices *)

Lemma sorted_indices (l : list Z) (N : Z) :
  StronglySorted Z.lt l → (∀ i, i ∈ l ↔ 0 ≤ i < N) → l = seqZ 0 N.
Proof.
  intros Hsorted Hin.
  apply (StronglySorted_unique Z.le).
  - clear Hin. induction Hsorted as [|x l Hl IH Hx]; constructor; [done|].
    eapply Forall_impl; [done|]. intros; simpl in *; lia.
  - assert (Hgen : ∀ (n : nat) a, StronglySorted Z.le (seqZ a (Z.of_nat n))).
    { induction n as [|n IH]; intros a.
      - constructor.
      - rewrite Nat2Z.inj_succ, <- Z.add_1_l, seqZ_cons by lia.
        replace (Z.pred (1 + Z.of_nat n)) with (Z.of_nat n) by lia.
        constructor; [apply IH|].
        apply Forall_forall. intros x Hx%elem_of_seqZ. lia. }
    destruct (decide (0 ≤ N)) as [HN|HN].
    + rewrite <- (Z2Nat.id N) by done. apply Hgen.
    + rewrite seqZ_nil by lia. constructor.
  - apply NoDup_Permutation.
    + clear Hin. induction Hsorted as [|x l Hl IH Hx]; constructor; [|done].
      intros Hxl. rewrite Forall_forall in Hx. specialize (Hx x Hxl). lia.
    + apply NoDup_seqZ.
    + intros i. rewrite Hin, elem_of_seqZ. lia.
Qed.

(** Projections of a client state that was built by the setters. *)
Ltac state_simpl :=
  cbn [Client.receivers Client.storage Client.currentUser Client.roomKey Client.sent
       Client.messages Client.fileTransfers Client.chatRooms Client.store_transfers
       Client.set_storage Client.set_fileTransfers Client.set_receivers Client.set_sent
       Client.set_messages].

(** ** What a receiver leaves alone *)

Section frames.
Context `{Crypto.SubtleCrypto}.
Variable percent : nat → Z → Z.
Variable tid : string.

Lemma frame_refl (st : Client.State) : frame tid st st.
Proof. by split_and!. Qed.

Lemma frame_trans (st1 st2 st3 : Client.State) :
  frame tid st1 st2 → frame tid st2 st3 → frame tid st1 st3.
Proof.
  intros (? & ? & ? & ? & ?) (? & ? & ? & ? & ?). split_and!; congruence.
Qed.

Lemma frame_sent (st : Client.State) log : frame tid st (Client.set_sent st log).
Proof. by split_and!. Qed.

Lemma frame_update tid' u (st : Client.State) :
  Storage.u_id u = None →
  tid' ≠ tid →
  frame tid st (Client.store_transfers (Storage.updateFileTransfer tid' u) st).
Proof.
  intros Hu Hne. split_and!; simpl; try done.
  - by apply stored_update_ne.
  - apply updateFileTransfer_dismissed.
Qed.

Lemma frame_add tr (st : Client.State) :
  ft_id tr ≠ tid →
  frame tid st (Client.store_transfers (Storage.addFileTransfer tr) st).
Proof.
  intros Hne. split_and!; simpl; try done.
  - by apply stored_add_ne.
  - apply addFileTransfer_dismissed.
Qed.

Lemma frame_record_chunk tid' index b (st : Client.State) :
  tid' ≠ tid → frame tid st (Client.record_chunk percent tid' index b st).
Proof.
  intros Hne. unfold Client.record_chunk.
  destruct (Client.receivers st !! tid') as [rec|] eqn:Hrec; [|apply frame_refl].
  match goal with |- context [Client.set_receivers st ?m] =>
    assert (Hfr : frame tid st (Client.set_receivers st m)) end.
  { split_and!; simpl; try done. by rewrite lookup_insert_ne. }
  case_bool_decide.
  - eapply frame_trans; [|by apply frame_update].
    eapply frame_trans; [|by apply frame_update]. done.
  - eapply frame_trans; [|by apply frame_update]. done.
Qed.

Lemma frame_fetch_chunk net user tid' (st : Client.State) index :
  tid' ≠ tid → frame tid st (Client.fetch_chunk percent net user tid' st index).
Proof.
  intros Hne. unfold Client.fetch_chunk, Client.fetch.
  repeat case_match; simplify_eq; try apply frame_sent.
  all: eapply frame_trans; [apply frame_sent|]; by apply frame_record_chunk.
Qed.

Lemma frame_fetch_chunks net user tid' need (st : Client.State) :
  tid' ≠ tid → frame tid st (foldl (Client.fetch_chunk percent net user tid') st need).
Proof.
  intros Hne. revert st. induction need as [|i need IH]; intros st; simpl.
  - apply frame_refl.
  - eapply frame_trans; [|apply IH]. by apply frame_fetch_chunk.
Qed.

(** Processing the announcement of another transfer. *)
Lemma process_other now net user dismissed (l : Relay.Listing) (st : Client.State) :
  Relay.li_id l ≠ tid →
  Client.array_length_ok (Relay.li_totalChunks l) = true →
  ∃ st', Client.process_transfer percent now net user dismissed l st = Some st' ∧
         frame tid st st'.
Proof.
  intros Hne Hok. unfold Client.process_transfer.
  destruct (includes dismissed (Relay.li_id l)); [eexists; split; [done|apply frame_refl]|].
  case_bool_decide; [eexists; split; [done|apply frame_refl]|].
  rewrite Hok. cbn [negb].
  case_bool_decide as Hrec.
  - destruct Hrec as [rec Hrec]. cbn [mbind option_bind]. rewrite Hrec.
    cbn [mbind option_bind]. eexists. split; [done|]. by apply frame_fetch_chunks.
  - cbn [mbind option_bind]. simpl. rewrite lookup_insert_eq. cbn [mbind option_bind].
    eexists. split; [done|].
    eapply frame_trans; [|by apply frame_fetch_chunks].
    match goal with |- context [Client.set_receivers st ?m] =>
      assert (Hfr : frame tid st (Client.set_receivers st m)) end.
    { split_and!; simpl; try done. by rewrite lookup_insert_ne. }
    eapply frame_trans; [exact Hfr|]. by apply frame_add.
Qed.

End frames.

(** ** Index sets and slices of index lists *)

Lemma size_below (m : Z) : size (list_to_set (seqZ 0 m) : gset Z) = Z.to_nat m.
Proof. rewrite size_list_to_set by apply NoDup_seqZ. apply length_seqZ. Qed.

Lemma below_succ (m : Z) :
  0 ≤ m → ({[m]} ∪ list_to_set (seqZ 0 m) : gset Z) = list_to_set (seqZ 0 (m + 1)).
Proof.
  intros Hm. apply set_eq. intros x.
  rewrite elem_of_union, elem_of_singleton, !elem_of_list_to_set, !elem_of_seqZ. lia.
Qed.

Lemma filter_not_below (m N : Z) :
  0 ≤ m ≤ N →
  filter (λ idx, idx ∉ (list_to_set (seqZ 0 m) : gset Z)) (seqZ 0 N) = seqZ m (N - m).
Proof.
  intros Hm.
  replace N with (m + (N - m)) at 1 by lia.
  rewrite seqZ_app, filter_app by lia.
  rewrite filter_none, filter_all; [done| |].
  - apply Forall_forall. intros x Hx%elem_of_seqZ.
    rewrite elem_of_list_to_set, elem_of_seqZ. lia.
  - apply Forall_forall. intros x Hx%elem_of_seqZ Hno. apply Hno.
    rewrite elem_of_list_to_set, elem_of_seqZ. lia.
Qed.

Lemma take_seqZ (n : nat) (m k : Z) :
  take n (seqZ m k) = seqZ m (Z.min (Z.of_nat n) k).
Proof.
  destruct (decide (Z.of_nat n ≤ k)) as [Hle|Hgt].
  - rewrite Z.min_l by done.
    replace k with (Z.of_nat n + (k - Z.of_nat n)) at 1 by lia.
    rewrite seqZ_app by lia. apply take_app_length'.
    by rewrite length_seqZ, Nat2Z.id.
  - rewrite Z.min_r by lia. apply take_ge. rewrite length_seqZ. lia.
Qed.

(** With every slot below the chunk count filled, the loop that collects the
    parts runs through all of them. *)
Lemma collect_parts_full (parts : Z → bytes) (rec : Client.Receiver) (fuel : nat) (i : Z) :
  (∀ j, i ≤ j < Client.total rec →
        Client.array_get (Client.buffers rec) j = Some (parts j)) →
  fuel = Z.to_nat (Client.total rec - i) →
  Client.collect_parts fuel i rec = parts <$> seqZ i (Client.total rec - i).
Proof.
  revert i. induction fuel as [|fuel IH]; intros i Hslots Hfuel; simpl.
  - rewrite seqZ_nil by lia. done.
  - rewrite bool_decide_eq_true_2 by lia.
    rewrite Hslots by lia. rewrite seqZ_cons by lia. rewrite fmap_cons. f_equal.
    rewrite IH.
    + f_equal. f_equal; lia.
    + intros j Hj. apply Hslots. lia.
    + lia.
Qed.

Lemma assemble_full (parts : Z → bytes) (rec : Client.Receiver) :
  (∀ j, 0 ≤ j < Client.total rec →
        Client.array_get (Client.buffers rec) j = Some (parts j)) →
  Client.assemble rec = concat (parts <$> seqZ 0 (Client.total rec)).
Proof.
  intros Hslots. unfold Client.assemble.
  rewrite (collect_parts_full parts) by (done || lia).
  by rewrite Z.sub_0_r.
Qed.

Lemma stored_add tr ls :
  is_Some (stored_transfer (ft_id tr) (Storage.addFileTransfer tr ls)).
Proof.
  unfold stored_transfer, Storage.addFileTransfer, Storage.getFileTransfers.
  induction (Storage.ls_fileTransfers ls) as [|t ts IH]; simpl.
  - rewrite bool_decide_eq_true_2 by done. by eexists.
  - case_bool_decide as Hid; simpl.
    + rewrite bool_decide_eq_true_2 by done. by eexists.
    + destruct (Storage.findIndex (ft_id tr) ts) as [i|]; simpl in *;
        by rewrite bool_decide_eq_false_2.
Qed.

(** ** A receiver polling a relay that holds the whole transfer *)

Section receiving.
Context `{Crypto.SubtleCrypto}.
Variable percent : nat → Z → Z.
Variables (R : Relay.State) (tid : string) (t : Relay.Transfer) (bob : User).
Variable parts : Z → bytes.
Variable key : option Crypto.CryptoKey.

Hypothesis Hkeyed : transfers_keyed R.
Hypothesis Hlen : ∀ k t', Relay.fileTransfers R !! k = Some t' →
  Client.array_length_ok (Relay.totalChunks t') = true.
Hypothesis Ht : Relay.fileTransfers R !! tid = Some t.
Hypothesis Hsender : Relay.t_senderId t ≠ user_id bob.
Hypothesis Hmay : Relay.may_receive (user_id bob) t = true.
Hypothesis Hparts : holds_parts key t parts.
Hypothesis Hpos : 0 < Relay.totalChunks t.

Local Abbreviation N := (Relay.totalChunks t).

Lemma ready_frame (st st' : Client.State) :
  frame tid st st' → ready bob key tid st → ready bob key tid st'.
Proof.
  intros (_ & _ & Hu & Hk & Hd) (? & ? & ?). split_and!; congruence.
Qed.

Lemma buffered_frame m (st st' : Client.State) :
  frame tid st st' → buffered tid N parts m st → buffered tid N parts m st'.
Proof.
  intros (Hr & Hs & _) (rec & Hrec & Htot & Hdl & Hbuf & Hst & Hdone).
  exists rec. unfold received in *. rewrite Hr, Hs. by split_and!.
Qed.

Lemma arrived_frame m (st st' : Client.State) :
  frame tid st st' → arrived tid N parts m st → arrived tid N parts m st'.
Proof.
  intros Hfr [[-> Hnone]|Hbuf].
  - left. split; [done|]. destruct Hfr as (Hr & _). by rewrite Hr.
  - right. by eapply buffered_frame.
Qed.

Lemma available_indices : Relay.availableChunks (Relay.listing t) = seqZ 0 N.
Proof.
  simpl. destruct (sorted_keys_spec (Relay.chunks t)) as [Hsorted Hin].
  apply sorted_indices; [done|]. intros i. rewrite Hin.
  specialize (Hparts i). case_bool_decide as Hi.
  - destruct Hparts as (c & -> & _). split; [done | by eexists].
  - rewrite Hparts. split; [by intros [? ?] | done].
Qed.

(** Recording the next chunk. *)
Lemma record_next m (st : Client.State) :
  0 ≤ m < N →
  ready bob key tid st → buffered tid N parts m st →
  let st' := Client.record_chunk percent tid m (parts m) st in
  ready bob key tid st' ∧ buffered tid N parts (m + 1) st'.
Proof.
  intros Hm (Hu & Hk & Hd) (rec & Hrec & Htot & Hdl & Hbuf & Hst & _).
  cbv zeta. unfold Client.record_chunk. rewrite Hrec.
  cbn [Client.total Client.downloaded].
  set (rec' := Client.mkReceiver (Client.total rec)
                 (Client.array_set (Client.buffers rec) m (parts m))
                 ({[m]} ∪ Client.downloaded rec) (Client.meta rec)) in *.
  assert (Hdl' : Client.downloaded rec' = list_to_set (seqZ 0 (m + 1))).
  { simpl. rewrite Hdl. apply below_succ. lia. }
  assert (Hbuf' : ∀ j, 0 ≤ j < m + 1 →
            Client.array_get (Client.buffers rec') j = Some (parts j)).
  { intros j Hj. simpl. unfold Client.array_get, Client.array_set.
    destruct (decide (j = m)) as [->|Hne].
    - by rewrite lookup_insert_eq.
    - rewrite lookup_insert_ne by done. apply Hbuf. lia. }
  assert (Hsize : Z.of_nat (size ({[m]} ∪ Client.downloaded rec)) = m + 1).
  { change ({[m]} ∪ Client.downloaded rec) with (Client.downloaded rec').
    rewrite Hdl', size_below. lia. }
  rewrite Hsize. case_bool_decide as Hfull.
  - split.
    + split_and!; state_simpl; [done | done |].
      by rewrite !updateFileTransfer_dismissed.
    + exists rec'. split_and!; try done.
      * state_simpl. by rewrite lookup_insert_eq.
      * state_simpl. rewrite !stored_update by done. simpl.
        destruct Hst as [ft ->]. by eexists.
      * intros _. unfold received. state_simpl. rewrite !stored_update by done. simpl.
        destruct Hst as [ft ->]. simpl. eexists. split; [done|].
        split_and!; try done. simpl. f_equal.
        rewrite (assemble_full parts rec') by (simpl; intros; apply Hbuf'; lia).
        simpl. by rewrite Htot.
  - split.
    + split_and!; state_simpl; [done | done |].
      by rewrite !updateFileTransfer_dismissed.
    + exists rec'. split_and!; try done.
      * state_simpl. by rewrite lookup_insert_eq.
      * state_simpl. rewrite !stored_update by done. simpl.
        destruct Hst as [ft ->]. by eexists.
      * intros Heq. lia.
Qed.

(** What the relay answers to a download of chunk [j]. *)
Lemma relay_serves log j :
  0 ≤ j < N →
  ∃ c, opens_to key c (parts j) ∧
    relay_net R (log ++ [Relay.download_file_chunk (user_id bob) tid j])
    = Some (Relay.ok (Relay.chunk_body j (Relay.data c) (Relay.chunk_nonce c))).
Proof.
  intros Hj. specialize (Hparts j). rewrite bool_decide_eq_true_2 in Hparts by done.
  destruct Hparts as (c & Hc & Hopen). exists c. split; [done|].
  unfold relay_net. rewrite last_snoc. simpl.
  unfold Relay.handle_download_file_chunk. by rewrite Ht, Hmay, Hc.
Qed.

(** Fetching the next chunk. *)
Lemma fetch_next m (st : Client.State) :
  0 ≤ m < N →
  ready bob key tid st → buffered tid N parts m st →
  let st' := Client.fetch_chunk percent (relay_net R) bob tid st m in
  ready bob key tid st' ∧ buffered tid N parts (m + 1) st'.
Proof.
  intros Hm Hready Hbuf. cbv zeta. unfold Client.fetch_chunk, Client.fetch.
  destruct (relay_serves (Client.sent st) m Hm) as (c & Hopen & Hnet).
  rewrite Hnet.
  set (st1 := Client.set_sent st
                (Client.sent st ++ [Relay.download_file_chunk (user_id bob) tid m])) in *.
  assert (Hfr : frame tid st st1) by apply frame_sent.
  assert (Hdec :
    (if bool_decide (Relay.chunk_nonce c ≠ EmptyString)
     then k ← Client.roomKey st1; Crypto.aesDecryptBytes k (Relay.data c) (Relay.chunk_nonce c)
     else Crypto.base64ToBytes (Relay.data c)) = Some (parts m)).
  { destruct Hready as (_ & Hk & _).
    destruct Hopen as [[Hn Hplain]|[Hn (k & Hkey & Hdec)]].
    - by rewrite bool_decide_eq_false_2 by (by intros ?).
    - rewrite bool_decide_eq_true_2 by done. simpl. rewrite Hk, Hkey. done. }
  rewrite Hdec.
  apply record_next; [done | by eapply ready_frame | by eapply buffered_frame].
Qed.

Lemma fetch_loop (k : nat) m (st : Client.State) :
  0 ≤ m → m + Z.of_nat k ≤ N →
  ready bob key tid st → buffered tid N parts m st →
  let st' := foldl (Client.fetch_chunk percent (relay_net R) bob tid) st
               (seqZ m (Z.of_nat k)) in
  ready bob key tid st' ∧ buffered tid N parts (m + Z.of_nat k) st'.
Proof.
  revert m st. induction k as [|k IH]; intros m st Hm Hk Hready Hbuf; cbv zeta.
  - simpl. by rewrite Z.add_0_r.
  - rewrite Nat2Z.inj_succ, seqZ_cons, Z.pred_succ by lia. cbn [foldl].
    destruct (fetch_next m st) as [Hready' Hbuf']; [lia | done | done |].
    replace (m + Z.succ (Z.of_nat k)) with (Z.succ m + Z.of_nat k) by lia.
    apply IH; [lia | lia | done |]. by replace (Z.succ m) with (m + 1) by lia.
Qed.

(** The part of an iteration that fetches the chunks still needed. *)
Lemma fetch_needed m (st : Client.State) :
  0 ≤ m ≤ N →
  ready bob key tid st → buffered tid N parts m st →
  ∃ st',
    (rec ← Client.receivers st !! tid;
     Some (foldl (Client.fetch_chunk percent (relay_net R) bob tid) st
             (take 5 (filter (λ idx, idx ∉ Client.downloaded rec)
                        (Relay.availableChunks (Relay.listing t)))))) = Some st' ∧
    ready bob key tid st' ∧ buffered tid N parts (Z.min (m + 5) N) st'.
Proof.
  intros Hm Hready Hbuf.
  destruct Hbuf as (rec & Hrec & Htot & Hdl & Hrest).
  rewrite Hrec. cbn [mbind option_bind]. eexists. split; [done|].
  rewrite available_indices, Hdl, filter_not_below by done.
  rewrite (take_seqZ 5).
  replace (Z.min (m + 5) N) with (m + Z.of_nat (Z.to_nat (Z.min 5 (N - m)))) by lia.
  replace (Z.min (Z.of_nat 5) (N - m)) with (Z.of_nat (Z.to_nat (Z.min 5 (N - m)))) by lia.
  apply fetch_loop; [lia | lia | done |]. by exists rec.
Qed.

(** Processing the announcement of the transfer itself. *)
Lemma process_target now dismissed m (st : Client.State) :
  0 ≤ m ≤ N → tid ∉ dismissed →
  ready bob key tid st → arrived tid N parts m st →
  ∃ st', Client.process_transfer percent now (relay_net R) bob dismissed (Relay.listing t) st
         = Some st' ∧
    ready bob key tid st' ∧ buffered tid N parts (Z.min (m + 5) N) st'.
Proof.
  intros Hm Hdis Hready Harr.
  assert (Hid : Relay.id t = tid) by by apply Hkeyed.
  unfold Client.process_transfer.
  replace (Relay.li_id (Relay.listing t)) with tid by done.
  replace (Relay.li_senderId (Relay.listing t)) with (Relay.t_senderId t) by done.
  replace (Relay.li_totalChunks (Relay.listing t)) with N by done.
  destruct (includes dismissed tid) eqn:Hinc; [by apply includes_true in Hinc|].
  rewrite bool_decide_eq_false_2 by done.
  destruct Harr as [[-> Hnone]|Hbuf].
  - rewrite Hnone. rewrite bool_decide_eq_false_2 by (by intros [? ?]).
    rewrite (Hlen _ _ Ht). cbn [negb]. cbn [mbind option_bind].
    apply (fetch_needed 0); [lia | |].
    + destruct Hready as (Hu & Hk & Hd).
      split_and!; state_simpl; [done | done |]. by rewrite addFileTransfer_dismissed.
    + eexists. split_and!.
      * state_simpl. by rewrite lookup_insert_eq.
      * done.
      * done.
      * intros j Hj. lia.
      * state_simpl. apply (stored_add (mkFileTransfer tid _ _ _ _ _ _ _ _ _ _ _)).
      * intros Heq. lia.
  - destruct Hbuf as (rec & Hrec & Hrest).
    rewrite bool_decide_eq_true_2 by (rewrite Hrec; by eexists).
    cbn [mbind option_bind]. apply fetch_needed; [done | done |]. by exists rec.
Qed.

Lemma process_others now dismissed (ls : list Relay.Listing) (st : Client.State) :
  tid ∉ Relay.li_id <$> ls →
  Forall (λ l, Client.array_length_ok (Relay.li_totalChunks l) = true) ls →
  frame tid st (Client.process_transfers percent now (relay_net R) bob dismissed ls st).
Proof.
  revert st. induction ls as [|l ls IH]; intros st Hnot Hok; simpl.
  - apply frame_refl.
  - rewrite fmap_cons, not_elem_of_cons in Hnot. destruct Hnot as [Hne Hnot].
    apply Forall_cons in Hok as [Hl Hok].
    destruct (process_other percent tid now (relay_net R) bob dismissed l st)
      as (st' & -> & Hfr); [done | done |].
    eapply frame_trans; [done|]. by apply IH.
Qed.

Lemma process_all now dismissed (ls : list Relay.Listing) m (st : Client.State) :
  NoDup (Relay.li_id <$> ls) →
  Relay.listing t ∈ ls →
  (∀ l, l ∈ ls → Relay.li_id l = tid → l = Relay.listing t) →
  Forall (λ l, Client.array_length_ok (Relay.li_totalChunks l) = true) ls →
  0 ≤ m ≤ N → tid ∉ dismissed →
  ready bob key tid st → arrived tid N parts m st →
  let st' := Client.process_transfers percent now (relay_net R) bob dismissed ls st in
  ready bob key tid st' ∧ buffered tid N parts (Z.min (m + 5) N) st'.
Proof.
  revert st. induction ls as [|l ls IH];
    intros st Hnd Hin Huniq Hok Hm Hdis Hready Harr; cbv zeta.
  - by apply elem_of_nil in Hin.
  - rewrite fmap_cons in Hnd. apply NoDup_cons in Hnd as [Hfresh Hnd].
    apply Forall_cons in Hok as [Hl Hok]. cbn [Client.process_transfers].
    destruct (decide (Relay.li_id l = tid)) as [Hid|Hne].
    + assert (l = Relay.listing t) as -> by (apply Huniq; [left | done]).
      destruct (process_target now dismissed m st) as (st' & -> & Hready' & Hbuf');
        [done | done | done | done |].
      assert (Hfr : frame tid st'
                (Client.process_transfers percent now (relay_net R) bob dismissed ls st')).
      { apply process_others; [|done]. by rewrite <- Hid. }
      split; [by eapply ready_frame | by eapply buffered_frame].
    + destruct (process_other percent tid now (relay_net R) bob dismissed l st)
        as (st' & -> & Hfr); [done | done |].
      apply IH; try done.
      * apply elem_of_cons in Hin as [Heq|Hin]; [|done].
        subst l. exfalso. apply Hne. by apply Hkeyed.
      * intros l' Hl' Hid'. apply Huniq; [by right | done].
      * by eapply ready_frame.
      * by eapply arrived_frame.
Qed.

(** What the relay answers to [list_file_transfers]. *)
Lemma relay_lists log :
  ∃ ls, relay_net R (log ++ [Relay.list_file_transfers (user_id bob)])
        = Some (Relay.ok (Relay.transfer_list ls)) ∧
    NoDup (Relay.li_id <$> ls) ∧
    Relay.listing t ∈ ls ∧
    (∀ l, l ∈ ls → Relay.li_id l = tid → l = Relay.listing t) ∧
    Forall (λ l, Client.array_length_ok (Relay.li_totalChunks l) = true) ls.
Proof.
  unfold relay_net. rewrite last_snoc. simpl. eexists. split; [done|].
  set (shown := filter (Relay.may_receive (user_id bob))
                  (filter (λ t', Relay.t_senderId t' ≠ user_id bob)
                     (Relay.values (Relay.fileTransfers R)))).
  assert (Hshown : ∀ t', t' ∈ shown → Relay.fileTransfers R !! Relay.id t' = Some t').
  { intros t' Hin. unfold shown in Hin.
    apply list_elem_of_filter in Hin as [_ Hin].
    apply list_elem_of_filter in Hin as [_ Hin].
    unfold Relay.values in Hin. apply list_elem_of_fmap in Hin as ([k t''] & -> & Hin).
    apply elem_of_map_to_list in Hin. simpl. by rewrite (Hkeyed _ _ Hin). }
  split_and!.
  - rewrite <- list_fmap_compose.
    assert (Hsub : shown `sublist_of` Relay.values (Relay.fileTransfers R)).
    { unfold shown. etrans; apply sublist_filter. }
    eapply sublist_NoDup; [|apply fmap_sublist, Hsub].
    unfold Relay.values. rewrite <- list_fmap_compose.
    rewrite (list_fmap_ext _ fst (map_to_list (Relay.fileTransfers R))).
    + apply NoDup_fst_map_to_list.
    + intros i [k t'] Hi. simpl. apply list_elem_of_lookup_2 in Hi.
      apply elem_of_map_to_list in Hi. by apply Hkeyed.
  - apply list_elem_of_fmap. exists t. split; [done|]. unfold shown.
    apply list_elem_of_filter. split; [by apply Is_true_true|].
    apply list_elem_of_filter. split; [done|].
    unfold Relay.values. apply list_elem_of_fmap. exists (tid, t). split; [done|].
    by apply elem_of_map_to_list.
  - intros l Hl Hid. apply list_elem_of_fmap in Hl as (t' & -> & Ht').
    apply Hshown in Ht'. simpl in Hid. rewrite Hid in Ht'. congruence.
  - apply Forall_fmap, Forall_forall. intros t' Ht'. simpl.
    eapply Hlen. by apply Hshown.
Qed.

Lemma tick_progress now m (st : Client.State) :
  0 ≤ m ≤ N →
  ready bob key tid st → arrived tid N parts m st →
  let st' := Client.tick percent now (relay_net R) st in
  ready bob key tid st' ∧ buffered tid N parts (Z.min (m + 5) N) st'.
Proof.
  intros Hm Hready Harr. cbv zeta. unfold Client.tick, Client.fetch.
  destruct Hready as (Hu & Hk & Hd). rewrite Hu.
  destruct (relay_lists (Client.sent st)) as (ls & -> & Hnd & Hin & Huniq & Hok).
  by apply process_all.
Qed.

Lemma ticks_progress (clock : list Z) m (st : Client.State) :
  0 ≤ m ≤ N →
  ready bob key tid st → arrived tid N parts m st →
  let st' := Client.ticks percent (polls R clock) st in
  ready bob key tid st' ∧
  arrived tid N parts (Z.min (m + 5 * Z.of_nat (length clock)) N) st'.
Proof.
  revert m st. induction clock as [|now clock IH]; intros m st Hm Hready Harr; cbv zeta.
  - simpl. rewrite Z.add_0_r, Z.min_l by lia. done.
  - cbn [polls fmap list_fmap Client.ticks].
    destruct (tick_progress now m st) as [Hready' Hbuf']; [done | done | done |].
    specialize (IH (Z.min (m + 5) N) _ ltac:(lia) Hready' (or_intror Hbuf')).
    cbv zeta in IH. unfold polls in IH.
    replace (Z.min (m + 5 * Z.of_nat (length (now :: clock))) N)
      with (Z.min (Z.min (m + 5) N + 5 * Z.of_nat (length clock)) N)
      by (rewrite length_cons; lia).
    exact IH.
Qed.

End receiving.

(** ** Chunks of a file *)

Lemma totalChunks_bounds (file : Sender.File) :
  1 ≤ Sender.totalChunks file ∧
  Sender.file_size file ≤ Sender.totalChunks file * Sender.chunkSize.
Proof.
  unfold Sender.totalChunks, Sender.ceil_div, Sender.chunkSize.
  pose proof (Z.mul_div_le (- Sender.file_size file) (64 * 1024) ltac:(lia)). lia.
Qed.

(** Cutting a list into pieces of [c] elements and concatenating the first
    [k] pieces gives its first [k * c] elements. *)
Lemma pieces_prefix {A} (l : list A) (c : Z) (k : nat) :
  0 < c →
  concat ((λ j, take (Z.to_nat (Z.min (Z.of_nat (length l)) (j * c + c) - j * c))
                  (drop (Z.to_nat (j * c)) l)) <$> seqZ 0 (Z.of_nat k))
  = take (Z.to_nat (Z.of_nat k * c)) l.
Proof.
  intros Hc. induction k as [|k IH].
  - done.
  - rewrite seqZ_S, fmap_app, concat_app, IH. cbn [fmap list_fmap concat].
    rewrite app_nil_r, Z.add_0_l, take_take_drop.
    destruct (decide (Z.of_nat (length l) ≤ Z.of_nat k * c)) as [Hshort|Hlong].
    + rewrite !take_ge by lia. done.
    + destruct (decide (Z.of_nat (length l) ≤ Z.of_nat k * c + c)) as [Hlast|Hmore].
      * rewrite !take_ge by lia. done.
      * f_equal. lia.
Qed.

Lemma chunks_concat (file : Sender.File) :
  concat (chunk_of file <$> seqZ 0 (Sender.totalChunks file)) = Sender.file_bytes file.
Proof.
  destruct (totalChunks_bounds file) as [Hpos Hsize].
  assert (Hc : 0 < Sender.chunkSize) by (unfold Sender.chunkSize; lia).
  rewrite <- (Z2Nat.id (Sender.totalChunks file)) at 1 by lia.
  unfold chunk_of, Sender.slice, Sender.file_size.
  rewrite (pieces_prefix (Sender.file_bytes file) Sender.chunkSize) by done.
  apply take_ge. unfold Sender.file_size in Hsize. lia.
Qed.

(** ** A sender uploading to a live relay *)

Lemma size_chunks (m : gmap Z Relay.Chunk) (n : Z) :
  0 ≤ n → (∀ j, is_Some (m !! j) ↔ 0 ≤ j < n) → Z.of_nat (size m) = n.
Proof.
  intros Hn Hm. rewrite <- size_dom.
  assert (dom m = list_to_set (seqZ 0 n)) as ->.
  { apply set_eq. intros j. rewrite elem_of_dom, Hm, elem_of_list_to_set, elem_of_seqZ. lia. }
  rewrite size_below. lia.
Qed.

Lemma run_snoc events e s : Relay.run (events ++ [e]) s = Relay.step (Relay.run events s) e.
Proof. by rewrite run_app. Qed.

Section sending_files.
Context `{Crypto.SubtleCryptoLaws}.
Variable percent : nat → Z → Z.
Variable stringify : string → string → string → string.
Variables (now : Z) (s : Relay.State) (skip : nat).

Local Abbreviation net := (live_net now s skip).

(** A request to the live relay is answered by the relay as it is after the
    requests logged so far, and moves it on. *)
Lemma live_fetch req (st : Client.State) :
  (skip ≤ length (Client.sent st))%nat →
  let s_cur := served now s skip (Client.sent st) in
  Client.fetch net req st
  = (Some (Relay.POST now req s_cur).1, Client.set_sent st (Client.sent st ++ [req])) ∧
  served now s skip (Client.sent st ++ [req]) = (Relay.POST now req s_cur).2.
Proof.
  intros Hskip. cbv zeta. unfold Client.fetch, live_net, served.
  rewrite drop_app_le by done. rewrite reverse_snoc, reverse_involutive.
  split; [done|]. rewrite fmap_app.
  change (Relay.request now <$> [req]) with [Relay.request now req].
  by rewrite run_snoc.
Qed.

Lemma seal_total key nonce data :
  (is_Some key → Crypto.hasSubtle = true) → is_Some (Sender.seal key nonce data).
Proof.
  intros Hsubtle. destruct key as [k|]; simpl; [|by eexists].
  unfold Crypto.aesEncryptBytes, Crypto.require_subtle.
  rewrite Hsubtle by by eexists. cbn [mbind option_bind].
  destruct (Crypto.aesgcm_inverse k nonce data) as (ct & -> & _). by eexists.
Qed.

(** What was sealed by the sender opens at a receiver with the same key. *)
Lemma seal_opens key nonce data e :
  (is_Some key → Crypto.hasSubtle = true ∧ Crypto.bytesToBase64 nonce ≠ EmptyString) →
  Sender.seal key nonce data = Some e →
  opens_to key (Relay.mkChunk e.1 e.2) data.
Proof.
  intros Hkey Hseal. destruct key as [k|]; simpl in Hseal.
  - destruct Hkey as [Hsubtle Hnonce]; [by eexists|].
    unfold Crypto.aesEncryptBytes, Crypto.require_subtle in Hseal.
    rewrite Hsubtle in Hseal. cbn [mbind option_bind] in Hseal.
    destruct (Crypto.aesgcm_inverse k nonce data) as (ct & Henc & Hdec).
    rewrite Henc in Hseal. cbn [mbind option_bind] in Hseal.
    injection Hseal as <-. right. simpl. split; [done|]. exists k. split; [done|].
    unfold Crypto.aesDecryptBytes, Crypto.require_subtle, Crypto.base64ToBytes,
      Crypto.bytesToBase64.
    rewrite Hsubtle. cbn [mbind option_bind]. rewrite !Crypto.atob_btoa.
    cbn [mbind option_bind]. done.
  - injection Hseal as <-. left. simpl. split; [done|].
    unfold Crypto.base64ToBytes, Crypto.bytesToBase64. apply Crypto.atob_btoa.
Qed.

Variables (key : option Crypto.CryptoKey) (file : Sender.File) (d : Sender.Draw).
Variables (user : User) (recipients : option (list string)).

Hypothesis Hsubtle : is_Some key → Crypto.hasSubtle = true.

Local Abbreviation N := (Sender.totalChunks file).
Local Abbreviation tid := (Sender.d_id d).

(** The client side of an upload in progress: the log reaches back to the
    start of the relay's service and the local transfer list has an entry
    for the transfer. *)
Lemma upload_chunks_ok (fuel : nat) (i : Z) (st : Client.State) :
  fuel = Z.to_nat (N - i) → 0 ≤ i ≤ N →
  (skip ≤ length (Client.sent st))%nat →
  is_Some (stored_transfer tid (Client.storage st)) →
  uploaded key file d user recipients i s (served now s skip (Client.sent st)) →
  ∃ st', Sender.upload_chunks percent net key file d fuel i st = (Some false, st') ∧
    (skip ≤ length (Client.sent st'))%nat ∧
    is_Some (stored_transfer tid (Client.storage st')) ∧
    uploaded key file d user recipients N s (served now s skip (Client.sent st')) ∧
    Client.currentUser st' = Client.currentUser st ∧
    Client.roomKey st' = Client.roomKey st ∧
    Client.chatRooms st' = Client.chatRooms st.
Proof.
  revert i st. induction fuel as [|fuel IH]; intros i st Hfuel Hi Hskip Hstored Hup.
  - simpl. assert (i = N) as -> by lia. eexists. by split_and!.
  - cbn [Sender.upload_chunks]. rewrite bool_decide_eq_true_2 by lia.
    unfold mbind, Sender.M_bind, Sender.lift.
    destruct (seal_total key (Sender.d_nonce d i) (chunk_of file i) Hsubtle)
      as [e He].
    fold (chunk_of file i). rewrite He.
    unfold Sender.request.
    destruct (live_fetch
                (Relay.upload_chunk (Relay.mkUploadChunk tid i (Some N) e.1 e.2)) st Hskip)
      as [-> Hserved].
    destruct Hup as (t & Hmap & Hid & Hsender & Hrcp & Htot & _ & Hchunks).
    assert (Hpost :
      Relay.POST now (Relay.upload_chunk (Relay.mkUploadChunk tid i (Some N) e.1 e.2))
        (served now s skip (Client.sent st))
      = (Relay.ok (Relay.chunk_received i),
         Relay.set_fileTransfers (served now s skip (Client.sent st))
           (<[tid := Relay.store_chunk (Relay.mkUploadChunk tid i (Some N) e.1 e.2) t]>
              (Relay.fileTransfers (served now s skip (Client.sent st)))))).
    { simpl. unfold Relay.handle_upload_chunk. simpl.
      by rewrite Hmap, lookup_insert_eq. }
    rewrite Hpost in Hserved |- *. cbn [fst snd Sender.response_ok negb].
    unfold Sender.update, Sender.modify.
    match goal with |- context [Sender.upload_chunks _ _ _ _ _ _ _ ?st1] =>
      destruct (IH (i + 1) st1) as (st' & Hrun & Hrest) end.
    + lia.
    + lia.
    + state_simpl. rewrite length_app. simpl. lia.
    + state_simpl. rewrite stored_update by done. destruct Hstored as [ft ->]. by eexists.
    + state_simpl. rewrite Hserved.
      exists (Relay.store_chunk (Relay.mkUploadChunk tid i (Some N) e.1 e.2) t).
      split_and!; try done.
      * simpl. by rewrite Hmap, insert_insert_eq.
      * simpl. unfold num_or. destruct (totalChunks_bounds file).
        rewrite bool_decide_eq_false_2 by lia. done.
      * intros Hlast. simpl. unfold num_or. destruct (totalChunks_bounds file).
        rewrite (bool_decide_eq_false_2 (N = 0)) by lia.
        rewrite bool_decide_eq_true_2; [done|].
        rewrite (size_chunks _ (i + 1)); [lia | lia |].
        intros j. rewrite lookup_insert. case_decide as Hj.
        -- subst j. split; [lia | by eexists].
        -- rewrite Hchunks. case_bool_decide as Hlt.
           ++ destruct (seal_total key (Sender.d_nonce d j) (chunk_of file j) Hsubtle)
                as [e' ->]. split; [lia | by eexists].
           ++ split; [by intros [? ?] | lia].
      * intros j. simpl. rewrite lookup_insert. case_decide as Hj.
        -- subst j. rewrite bool_decide_eq_true_2 by lia. by rewrite He.
        -- rewrite Hchunks. repeat case_bool_decide; try done; lia.
    + exists st'. split; [exact Hrun|]. exact Hrest.
Qed.

(** [sendMessage] logs at most a [send_message] request and leaves the
    transfer list alone. *)
Lemma sendMessage_log id0 now0 nonce text roomId (st : Client.State) :
  let st' := Client.sendMessage id0 now0 nonce text roomId st in
  (Client.sent st' = Client.sent st ∨
   ∃ wire, Client.sent st' = Client.sent st ++ [Relay.send_message wire]) ∧
  Storage.ls_fileTransfers (Client.storage st') = Storage.ls_fileTransfers (Client.storage st).
Proof.
  cbv zeta. unfold Client.sendMessage.
  repeat case_match; state_simpl; try (split; [by left|done]).
  all: split; [right; by eexists|].
  all: unfold Storage.addMessage; by case_bool_decide.
Qed.

Variable roomId : option string.

Lemma send_file_ok (st : Client.State) :
  skip = length (Client.sent st) →
  ∃ st', Sender.send_file percent stringify net user key roomId recipients file d st
         = (Some (), st') ∧
    shown_completed tid (Client.storage st') ∧
    uploaded key file d user recipients N s (served now s skip (Client.sent st')).
Proof.
  intros Hskip. unfold Sender.send_file.
  unfold mbind, Sender.M_bind, Sender.modify, Sender.request.
  match goal with |- context [Client.fetch net ?req ?st0] =>
    destruct (live_fetch req st0) as [-> Hserved] end.
  { state_simpl. lia. }
  revert Hserved. state_simpl.
  assert (Hstart : served now s skip (Client.sent st) = s).
  { unfold served. rewrite Hskip, drop_all. done. }
  rewrite Hstart. cbn [Relay.POST]. unfold Relay.handle_init_file_transfer.
  cbn [fst snd Sender.response_ok negb]. intros Hserved.
  match goal with |- context [Sender.upload_chunks _ _ _ _ _ _ _ ?st1] =>
    destruct (upload_chunks_ok (Z.to_nat N) 0 st1)
      as (st' & -> & Hskip' & Hstored & Hup & _) end.
  - f_equal. lia.
  - destruct (totalChunks_bounds file). lia.
  - state_simpl. rewrite length_app. lia.
  - state_simpl. apply (stored_add (mkFileTransfer tid _ _ _ _ _ _ _ _ _ _ _)).
  - state_simpl. rewrite Hserved. eexists. split_and!; try done.
    + simpl. destruct (totalChunks_bounds file). lia.
    + intros j. simpl. rewrite lookup_empty. by rewrite bool_decide_eq_false_2 by lia.
  - unfold Sender.update, Sender.modify.
    eexists. split; [done|].
    match goal with |- context [Client.sendMessage ?a ?b ?c ?e ?f ?st2] =>
      destruct (sendMessage_log a b c e f st2) as [Hsent Hkeep];
      set (st3 := Client.sendMessage a b c e f st2) in * end.
    split.
    + unfold shown_completed, stored_transfer. rewrite Hkeep.
      fold (stored_transfer tid
              (Client.storage
                 (Client.store_transfers
                    (Storage.updateFileTransfer tid
                       (Storage.mkUpdates None None None None None None None (Some 100)
                          (Some st_completed) None None None)) st'))).
      state_simpl. rewrite stored_update by done. destruct Hstored as [ft ->].
      eexists. by split_and!.
    + revert Hsent. state_simpl. intros [->|[wire ->]]; [done|].
      unfold served. rewrite drop_app_le by done. rewrite fmap_app.
      change (Relay.request now <$> [Relay.send_message wire])
        with [Relay.request now (Relay.send_message wire)].
      rewrite run_snoc. fold (served now s skip (Client.sent st')).
      destruct Hup as (t & Hmap & Hrest). exists t. split; [|done].
      rewrite <- Hmap. done.
Qed.

Lemma sendFiles_ok storedRooms (st : Client.State) :
  skip = length (Client.sent st) →
  Client.currentUser st = Some user →
  Client.roomKey st = key →
  Sender.recipients_of roomId storedRooms = recipients →
  ∃ st', Sender.sendFiles percent stringify net [(file, d)] roomId storedRooms st
         = (Some None, st') ∧
    shown_completed tid (Client.storage st') ∧
    uploaded key file d user recipients N s (served now s skip (Client.sent st')).
Proof.
  intros Hskip Hu Hk Hr. unfold Sender.sendFiles. rewrite Hu, Hk, Hr.
  cbn [Sender.send_each]. unfold mbind at 1 2. unfold Sender.M_bind at 1 2.
  destruct (send_file_ok st Hskip) as (st' & -> & Hshown & Hup).
  exists st'. done.
Qed.

End sending_files.

(** ** From sender to receiver *)

(** Enough polls bring the whole transfer to the receiver. *)
Lemma ticks_receive `{Crypto.SubtleCrypto} (percent : nat → Z → Z) (R : Relay.State)
    tid (t : Relay.Transfer) (bob : User) (parts : Z → bytes) (st : Client.State)
    (clock : list Z) :
  transfers_keyed R →
  chunk_counts_ok R →
  Relay.fileTransfers R !! tid = Some t →
  Relay.t_senderId t ≠ user_id bob →
  Relay.may_receive (user_id bob) t = true →
  0 < Relay.totalChunks t →
  holds_parts (Client.roomKey st) t parts →
  Client.currentUser st = Some bob →
  Client.receivers st !! tid = None →
  tid ∉ Storage.getDismissedTransfers (Client.storage st) →
  Relay.totalChunks t ≤ 5 * Z.of_nat (length clock) →
  received tid (concat (parts <$> seqZ 0 (Relay.totalChunks t)))
    (Client.storage (Client.ticks percent (polls R clock) st)).
Proof.
  intros Hkeyed Hlen Ht Hsender Hmay Hpos Hparts Hu Hfresh Hdis Hclock.
  destruct (ticks_progress percent R tid t bob parts (Client.roomKey st)
              Hkeyed Hlen Ht Hsender Hmay Hparts Hpos clock 0 st)
    as [_ Harr].
  - lia.
  - by split_and!.
  - by left.
  - rewrite Z.min_r in Harr by lia.
    destruct Harr as [[Hzero _]|(rec & _ & _ & _ & _ & _ & Hdone)]; [lia|].
    by apply Hdone.
Qed.

(** The chunks a finished upload left on the relay open, under the sender's
    key, to the chunks of the file. *)
Lemma uploaded_holds `{Crypto.SubtleCryptoLaws} key file d user recipients s s' :
  (is_Some key →
   Crypto.hasSubtle = true ∧
   ∀ j, Crypto.bytesToBase64 (Sender.d_nonce d j) ≠ EmptyString) →
  uploaded key file d user recipients (Sender.totalChunks file) s s' →
  ∃ t, Relay.fileTransfers s' = <[Sender.d_id d := t]> (Relay.fileTransfers s) ∧
    Relay.id t = Sender.d_id d ∧
    Relay.t_senderId t = user_id user ∧
    Relay.recipients t = recipients ∧
    Relay.totalChunks t = Sender.totalChunks file ∧
    Relay.completed t = true ∧
    holds_parts key t (chunk_of file).
Proof.
  intros Hkey (t & Hmap & Hid & Hsender & Hrcp & Htot & Hdone & Hchunks).
  exists t. split_and!; try done; [by apply Hdone|].
  intros j. rewrite Htot, Hchunks. case_bool_decide as Hj; [|done].
  destruct (seal_total key (Sender.d_nonce d j) (chunk_of file j)) as [e He].
  { intros Hk. by apply Hkey. }
  rewrite He. eexists. split; [done|].
  eapply seal_opens; [|done]. intros Hk. destruct (Hkey Hk) as [? Hn]. by split.
Qed.

(** X15.  [sendFiles] brings a file to the relay in full.  A logged-in user
    sends one file with the relay in reach (if there is a room key,
    WebCrypto is available and the nonces drawn have non-empty encodings).
    Then the call ends without an exception, returning [undefined]; the
    sender's transfer list shows the transfer as completed at 100 percent;
    and the relay, otherwise unchanged in its transfers, holds the transfer
    under the drawn id, from that user, for the participants of the room if
    the room is stored as private and for everybody otherwise, marked as
    completed, with exactly the chunks [0 .. N-1], [N] being
    [max(1, ceil(size / 65536))]: chunk [j] opens under the sender's key to
    the 64 KiB slice [j] of the file, and the slices together are the
    file. *)
Theorem sendFiles_uploads_the_file `{Crypto.SubtleCryptoLaws}
    (percent : nat → Z → Z) (stringify : string → string → string → string)
    now (s : Relay.State) (user : User) file d roomId storedRooms (st : Client.State) :
  Client.currentUser st = Some user →
  (is_Some (Client.roomKey st) →
   Crypto.hasSubtle = true ∧
   ∀ j, Crypto.bytesToBase64 (Sender.d_nonce d j) ≠ EmptyString) →
  let skip := length (Client.sent st) in
  let out :=
    Sender.sendFiles percent stringify (live_net now s skip) [(file, d)] roomId
      storedRooms st in
  let s' := served now s skip (Client.sent out.2) in
  out.1 = Some None ∧
  shown_completed (Sender.d_id d) (Client.storage out.2) ∧
  ∃ t, Relay.fileTransfers s' = <[Sender.d_id d := t]> (Relay.fileTransfers s) ∧
    Relay.t_senderId t = user_id user ∧
    Relay.recipients t = Sender.recipients_of roomId storedRooms ∧
    Relay.totalChunks t = Sender.totalChunks file ∧
    Relay.completed t = true ∧
    holds_parts (Client.roomKey st) t (chunk_of file) ∧
    concat (chunk_of file <$> seqZ 0 (Relay.totalChunks t)) = Sender.file_bytes file.
Proof.
  intros Hu Hkey skip out s'.
  destruct (sendFiles_ok percent stringify now s skip (Client.roomKey st) file d user
              (Sender.recipients_of roomId storedRooms)
              ltac:(intros Hk; by apply Hkey) roomId storedRooms st)
    as (st' & Hout & Hshown & Hup); [done | done | done | done |].
  subst out s'. rewrite Hout. cbn [fst snd].
  split; [done|]. split; [done|].
  destruct (uploaded_holds _ _ _ _ _ _ _ Hkey Hup)
    as (t & Hmap & Hid & Hsender & Hrcp & Htot & Hdone & Hparts).
  exists t. split_and!; try done. rewrite Htot. apply chunks_concat.
Qed.

(** X16.  A receiver obtains a transfer that the relay holds in full.  Let a
    reachable relay hold a transfer with [N > 0] chunks, all of [0 .. N-1]
    and no others, each of which opens under the receiver's key (or is
    plain), and let every transfer of the relay have a chunk count that is
    an array length.  A logged-in user other than the sender who may receive
    the transfer, has no receiver entry for it and has not dismissed it,
    polls the relay [n] times with [N ≤ 5 n].  Then the user's transfer list
    shows the transfer as completed at 100 percent and offers for download
    the opened chunks concatenated in index order. *)
Theorem complete_transfer_is_received `{Crypto.SubtleCrypto} (percent : nat → Z → Z)
    before tid (t : Relay.Transfer) (bob : User) (parts : Z → bytes)
    (st : Client.State) (clock : list Z) :
  let R := Relay.run before Relay.init in
  chunk_counts_ok R →
  Relay.fileTransfers R !! tid = Some t →
  Relay.t_senderId t ≠ user_id bob →
  Relay.may_receive (user_id bob) t = true →
  0 < Relay.totalChunks t →
  holds_parts (Client.roomKey st) t parts →
  Client.currentUser st = Some bob →
  Client.receivers st !! tid = None →
  tid ∉ Storage.getDismissedTransfers (Client.storage st) →
  Relay.totalChunks t ≤ 5 * Z.of_nat (length clock) →
  received tid (concat (parts <$> seqZ 0 (Relay.totalChunks t)))
    (Client.storage (Client.ticks percent (polls R clock) st)).
Proof.
  intros R Hlen Ht Hsender Hmay Hpos Hparts Hu Hfresh Hdis Hclock.
  apply (ticks_receive percent R tid t bob); try done.
  apply transfers_keyed_run, transfers_keyed_init.
Qed.

(** X17.  A file that is sent arrives.  Alice, logged in, sends one file
    through a reachable relay whose transfers all have chunk counts that are
    array lengths; Bob, another logged-in user who holds the same room key
    as Alice (or none, as she), is among the recipients if the room is
    stored as private, has no receiver entry for the drawn id and has not
    dismissed it.  After [n] polls of Bob's receive loop against the relay
    as Alice's requests left it, with [max(1, ceil(size / 65536)) ≤ 5 n],
    Bob's transfer list shows the transfer as completed and the bytes it
    offers for download are exactly the bytes of the file. *)
Theorem sent_file_is_received `{Crypto.SubtleCryptoLaws}
    (percent : nat → Z → Z) (stringify : string → string → string → string)
    before now (alice bob : User) file d roomId storedRooms
    (sa sb : Client.State) (clock : list Z) :
  let s := Relay.run before Relay.init in
  chunk_counts_ok s →
  Client.currentUser sa = Some alice →
  Client.currentUser sb = Some bob →
  user_id bob ≠ user_id alice →
  Client.roomKey sb = Client.roomKey sa →
  (is_Some (Client.roomKey sa) →
   Crypto.hasSubtle = true ∧
   ∀ j, Crypto.bytesToBase64 (Sender.d_nonce d j) ≠ EmptyString) →
  (∀ rs, Sender.recipients_of roomId storedRooms = Some rs → user_id bob ∈ rs) →
  Sender.totalChunks file < 2 ^ 32 →
  Client.receivers sb !! Sender.d_id d = None →
  Sender.d_id d ∉ Storage.getDismissedTransfers (Client.storage sb) →
  Sender.totalChunks file ≤ 5 * Z.of_nat (length clock) →
  let skip := length (Client.sent sa) in
  let out :=
    Sender.sendFiles percent stringify (live_net now s skip) [(file, d)] roomId
      storedRooms sa in
  let s' := served now s skip (Client.sent out.2) in
  let sb' := Client.ticks percent (polls s' clock) sb in
  received (Sender.d_id d) (Sender.file_bytes file) (Client.storage sb').
Proof.
  intros s Hlen Hua Hub Hne Hsame Hkey Hrcp Hbound Hfresh Hdis Hclock skip out s' sb'.
  destruct (sendFiles_ok percent stringify now s skip (Client.roomKey sa) file d alice
              (Sender.recipients_of roomId storedRooms)
              ltac:(intros Hk; by apply Hkey) roomId storedRooms sa)
    as (sa' & Hout & _ & Hup); [done | done | done | done |].
  subst sb' s' out. rewrite Hout. cbn [fst snd].
  destruct (uploaded_holds _ _ _ _ _ _ _ Hkey Hup)
    as (t & Hmap & Hid & Hsender & Hrcpt & Htot & _ & Hparts).
  destruct (totalChunks_bounds file) as [Hpos _].
  rewrite <- (chunks_concat file), <- Htot.
  apply (ticks_receive percent _ (Sender.d_id d) t bob).
  - unfold served. apply transfers_keyed_run, transfers_keyed_run, transfers_keyed_init.
  - unfold chunk_counts_ok. rewrite Hmap. apply map_Forall_insert_2; [|done].
    rewrite Htot. unfold Client.array_length_ok. apply bool_decide_eq_true_2. lia.
  - by rewrite Hmap, lookup_insert_eq.
  - rewrite Hsender. congruence.
  - unfold Relay.may_receive. rewrite Hrcpt.
    destruct (Sender.recipients_of roomId storedRooms) as [rs|] eqn:Hrs; [|done].
    apply includes_true. by apply Hrcp.
  - lia.
  - by rewrite Hsame.
  - done.
  - done.
  - done.
  - lia.
Qed.

Lemma sendFiles_uploads_the_file_witness :
  let out :=
    @Sender.sendFiles toy_crypto toy_percent toy_stringify (live_net 5 Relay.init 0)
      [(notes_file, notes_draw)] None [] alice_sending in
  let s' := served 5 Relay.init 0 (Client.sent out.2) in
  out.1 = Some None ∧
  shown_completed "f9" (Client.storage out.2) ∧
  ∃ t, Relay.fileTransfers s' = <["f9"%string := t]> (Relay.fileTransfers Relay.init) ∧
    Relay.t_senderId t = "alice"%string ∧
    Relay.recipients t = None ∧
    Relay.totalChunks t = 1 ∧
    Relay.completed t = true ∧
    @holds_parts toy_crypto (Some toy_room_key) t (chunk_of notes_file) ∧
    concat (chunk_of notes_file <$> seqZ 0 (Relay.totalChunks t)) = [Byte.x68; Byte.x69].
Proof.
  apply (@sendFiles_uploads_the_file toy_crypto toy_crypto_laws toy_percent toy_stringify
           5 Relay.init alice notes_file notes_draw None [] alice_sending).
  - reflexivity.
  - intros _. split; [reflexivity|]. intros j. discriminate.
Defined.

Lemma complete_transfer_is_received_witness :
  received "f1" (concat ((λ _, [Byte.x68; Byte.x69]) <$> seqZ 0 1))
    (Client.storage (@Client.ticks toy_crypto toy_percent (polls relay_f1 [1]) bob_state)).
Proof.
  apply (@complete_transfer_is_received toy_crypto toy_percent f1_events "f1"%string
           f1_transfer bob (λ _, [Byte.x68; Byte.x69]) bob_state [1]).
  - intros k t Hk.
    assert (Relay.fileTransfers (Relay.run f1_events Relay.init)
            = {[ "f1"%string := f1_transfer ]}) as Hmap by (vm_compute; reflexivity).
    rewrite Hmap in Hk. apply lookup_singleton_Some in Hk as [_ <-]. reflexivity.
  - vm_compute. reflexivity.
  - discriminate.
  - reflexivity.
  - reflexivity.
  - intros j. case_bool_decide as Hj.
    + assert (j = 0) as -> by (simpl in Hj; lia).
      eexists. split; [vm_compute; reflexivity|]. left. split; reflexivity.
    + apply lookup_singleton_ne. simpl in Hj. lia.
  - reflexivity.
  - reflexivity.
  - apply not_elem_of_nil.
  - simpl. lia.
Defined.

Lemma sent_file_is_received_witness :
  let out :=
    @Sender.sendFiles toy_crypto toy_percent toy_stringify (live_net 5 Relay.init 0)
      [(notes_file, notes_draw)] None [] alice_sending in
  let s' := served 5 Relay.init 0 (Client.sent out.2) in
  received "f9" [Byte.x68; Byte.x69]
    (Client.storage (@Client.ticks toy_crypto toy_percent (polls s' [7]) bob_keyed)).
Proof.
  apply (@sent_file_is_received toy_crypto toy_crypto_laws toy_percent toy_stringify
           [] 5 alice bob notes_file notes_draw None [] alice_sending bob_keyed [7]).
  - apply map_Forall_empty.
  - reflexivity.
  - reflexivity.
  - discriminate.
  - reflexivity.
  - intros _. split; [reflexivity|]. intros j. discriminate.
  - intros rs. discriminate.
  - vm_compute. reflexivity.
  - reflexivity.
  - apply not_elem_of_nil.
  - vm_compute. discriminate.
Defined.

(** ** Polls that make no progress *)

Section stalls.
Context `{Crypto.SubtleCrypto}.
Variable percent : nat → Z → Z.

(** Processing an announcement leaves every other transfer alone, whether
    the iteration ends or throws. *)
Lemma process_frame tid now net user dismissed (l : Relay.Listing) (st st' : Client.State) :
  Relay.li_id l ≠ tid →
  Client.process_transfer percent now net user dismissed l st = Some st' →
  frame tid st st'.
Proof.
  intros Hne. unfold Client.process_transfer.
  destruct (includes dismissed (Relay.li_id l)); [intros [= <-]; apply frame_refl|].
  case_bool_decide; [intros [= <-]; apply frame_refl|].
  intros Hrun. apply bind_Some in Hrun as (st1 & Hst1 & Hrun).
  apply bind_Some in Hrun as (rec & Hrec & [= <-]).
  eapply frame_trans; [|by apply frame_fetch_chunks].
  case_bool_decide; [simplify_eq; apply frame_refl|].
  destruct (negb _); [done|]. simplify_eq.
  match goal with |- context [Client.set_receivers st ?m] =>
    assert (Hfr : frame tid st (Client.set_receivers st m)) end.
  { split_and!; simpl; try done. by rewrite lookup_insert_ne. }
  eapply frame_trans; [exact Hfr|]. by apply frame_add.
Qed.

Lemma process_transfers_frame tid now net user dismissed (ls : list Relay.Listing)
    (st : Client.State) :
  tid ∉ Relay.li_id <$> ls →
  frame tid st (Client.process_transfers percent now net user dismissed ls st).
Proof.
  revert st. induction ls as [|l ls IH]; intros st Hnot; simpl.
  - apply frame_refl.
  - rewrite fmap_cons, not_elem_of_cons in Hnot. destruct Hnot as [Hne Hnot].
    destruct (Client.process_transfer _ _ _ _ _ _ _) as [st'|] eqn:Hst';
      [|apply frame_refl].
    eapply frame_trans; [by eapply process_frame|]. by apply IH.
Qed.

(** X18.  An announcement with a chunk count that is no array length ends
    the poll.  When the answer to [list_file_transfers] holds, after the
    entries [pre], an entry [bad] of another sender that is not dismissed,
    has no receiver entry yet and has a chunk count outside [0 .. 2^32 - 1],
    the poll does what it would do had the list ended before [bad]: no
    receiver entry and no list entry is made for [bad], and the entries
    after it are not looked at. *)
Theorem bad_chunk_count_ends_the_poll now net user (st : Client.State) pre bad rest :
  Client.currentUser st = Some user →
  net (Client.sent st ++ [Relay.list_file_transfers (user_id user)])
    = Some (Relay.ok (Relay.transfer_list (pre ++ bad :: rest))) →
  Relay.li_id bad ∉ Relay.li_id <$> pre →
  Relay.li_id bad ∉ Storage.getDismissedTransfers (Client.storage st) →
  Relay.li_senderId bad ≠ user_id user →
  Client.receivers st !! Relay.li_id bad = None →
  Client.array_length_ok (Relay.li_totalChunks bad) = false →
  Client.tick percent now net st
  = Client.process_transfers percent now net user
      (Storage.getDismissedTransfers (Client.storage st)) pre
      (Client.set_sent st (Client.sent st ++ [Relay.list_file_transfers (user_id user)])).
Proof.
  intros Hu Hnet Hpre Hdis Hsender Hfresh Hbad.
  unfold Client.tick, Client.fetch. rewrite Hu, Hnet. state_simpl.
  set (st0 := Client.set_sent st _).
  set (dismissed := Storage.getDismissedTransfers (Client.storage st)).
  assert (Hfr0 : frame (Relay.li_id bad) st st0) by apply frame_sent.
  assert (Hgen : ∀ st1, frame (Relay.li_id bad) st st1 →
    Client.process_transfers percent now net user dismissed (pre ++ bad :: rest) st1
    = Client.process_transfers percent now net user dismissed pre st1).
  { clear Hfr0 Hnet. induction pre as [|l pre' IH]; intros st1 Hfr.
    - simpl. unfold Client.process_transfer.
      destruct (includes dismissed (Relay.li_id bad)) eqn:Hinc;
        [by apply includes_true in Hinc|].
      rewrite bool_decide_eq_false_2 by done.
      destruct Hfr as (Hrec & _). rewrite Hrec, Hfresh.
      rewrite bool_decide_eq_false_2 by (by intros [? ?]).
      by rewrite Hbad.
    - rewrite fmap_cons, not_elem_of_cons in Hpre. destruct Hpre as [Hne Hpre].
      simpl. destruct (Client.process_transfer _ _ _ _ _ l st1) as [st2|] eqn:Hst2; [|done].
      apply IH; [done|]. eapply frame_trans; [done|]. by eapply process_frame. }
  by apply Hgen.
Qed.

(** Without the room key nothing is recorded of an encrypted chunk. *)
Lemma stalled_fetch_chunk net user tid (st : Client.State) index :
  serves_encrypted net → Client.roomKey st = None →
  ∃ log, Client.fetch_chunk percent net user tid st index = Client.set_sent st log.
Proof.
  intros Hnet Hkey. unfold Client.fetch_chunk, Client.fetch.
  destruct (net _) as [[[]|]|] eqn:Hres; try by eexists.
  apply Hnet in Hres. rewrite bool_decide_eq_true_2 by done.
  state_simpl. rewrite Hkey. cbn [mbind option_bind]. by eexists.
Qed.

Lemma stalled_fetch_chunks net user tid need (st : Client.State) :
  serves_encrypted net → Client.roomKey st = None →
  ∃ log, foldl (Client.fetch_chunk percent net user tid) st need = Client.set_sent st log.
Proof.
  intros Hnet. revert st. induction need as [|i need IH]; intros st Hkey; simpl.
  - exists (Client.sent st). by destruct st.
  - destruct (stalled_fetch_chunk net user tid st i Hnet Hkey) as [log ->].
    destruct (IH (Client.set_sent st log) Hkey) as [log' ->]. by exists log'.
Qed.

Lemma stalled_process_transfer tid now net user dismissed l (st st' : Client.State) :
  serves_encrypted net → Client.roomKey st = None →
  Client.process_transfer percent now net user dismissed l st = Some st' →
  Client.roomKey st' = None ∧
  recorded tid st' = recorded tid st ∧
  artifact tid (Client.storage st') = artifact tid (Client.storage st).
Proof.
  intros Hnet Hkey. unfold Client.process_transfer.
  destruct (includes dismissed (Relay.li_id l)); [by intros [= <-]|].
  case_bool_decide; [by intros [= <-]|].
  intros Hrun. apply bind_Some in Hrun as (st1 & Hst1 & Hrun).
  apply bind_Some in Hrun as (rec & Hrec & [= <-]).
  assert (Hst1' : Client.roomKey st1 = None ∧ recorded tid st1 = recorded tid st ∧
            artifact tid (Client.storage st1) = artifact tid (Client.storage st)).
  { case_bool_decide as Hknown; [by simplify_eq|].
    destruct (negb _); [done|]. simplify_eq. split_and!; [done| |].
    - unfold recorded. state_simpl.
      destruct (decide (Relay.li_id l = tid)) as [<-|Hne].
      + rewrite lookup_insert_eq. simpl.
        destruct (Client.receivers st !! Relay.li_id l) as [rec0|] eqn:Hrec0; [|done].
        exfalso. apply Hknown. by eexists.
      + by rewrite lookup_insert_ne.
    - state_simpl. unfold artifact.
      destruct (decide (Relay.li_id l = tid)) as [<-|Hne]; [|by rewrite stored_add_ne].
      unfold stored_transfer, Storage.addFileTransfer, Storage.getFileTransfers.
      generalize (Storage.ls_fileTransfers (Client.storage st)).
      intros ts. induction ts as [|t ts IH]; simpl.
      + by rewrite bool_decide_eq_true_2.
      + case_bool_decide as Hid; simpl.
        * rewrite bool_decide_eq_true_2 by done. simpl. by destruct (downloadUrl t).
        * destruct (Storage.findIndex _ ts) as [i|]; simpl in *;
            by rewrite bool_decide_eq_false_2. }
  destruct Hst1' as (Hkey1 & Hrec1 & Hart1).
  destruct (stalled_fetch_chunks net user (Relay.li_id l)
              (take 5 (filter (λ idx, idx ∉ Client.downloaded rec) (Relay.availableChunks l)))
              st1 Hnet Hkey1) as [log ->].
  by split_and!.
Qed.

Lemma stalled_process_transfers tid now net user dismissed ls (st : Client.State) :
  serves_encrypted net → Client.roomKey st = None →
  let st' := Client.process_transfers percent now net user dismissed ls st in
  Client.roomKey st' = None ∧
  recorded tid st' = recorded tid st ∧
  artifact tid (Client.storage st') = artifact tid (Client.storage st).
Proof.
  intros Hnet. revert st. induction ls as [|l ls IH]; intros st Hkey; cbv zeta; simpl.
  - done.
  - destruct (Client.process_transfer _ _ _ _ _ _ _) as [st1|] eqn:Hst1; [|done].
    destruct (stalled_process_transfer tid _ _ _ _ _ _ _ Hnet Hkey Hst1)
      as (Hkey1 & Hrec1 & Hart1).
    destruct (IH st1 Hkey1) as (Hkey' & Hrec' & Hart'). split_and!; congruence.
Qed.

Lemma stalled_tick tid now net (st : Client.State) :
  serves_encrypted net → Client.roomKey st = None →
  let st' := Client.tick percent now net st in
  Client.roomKey st' = None ∧
  recorded tid st' = recorded tid st ∧
  artifact tid (Client.storage st') = artifact tid (Client.storage st).
Proof.
  intros Hnet Hkey. cbv zeta. unfold Client.tick, Client.fetch.
  destruct (Client.currentUser st) as [user|]; [|done].
  destruct (net _) as [[[]|]|]; try done.
  match goal with |- context [Client.process_transfers _ _ _ _ ?dis ?ls ?st0] =>
    destruct (stalled_process_transfers tid now net user dis ls st0 Hnet)
      as (? & ? & ?); [done|] end.
  by split_and!.
Qed.

(** X19.  Without the room key a receiver does not get on with an encrypted
    transfer.  When every chunk that the relay serves carries a nonce and
    the client holds no room key, then over any number of polls the client
    records no chunk as downloaded, for any transfer, and no transfer-list
    entry changes what it offers for download. *)
Theorem no_key_no_progress (rounds : list (Z * Client.Network)) (st : Client.State) tid :
  Forall (λ round, serves_encrypted round.2) rounds →
  Client.roomKey st = None →
  let st' := Client.ticks percent rounds st in
  recorded tid st' = recorded tid st ∧
  artifact tid (Client.storage st') = artifact tid (Client.storage st).
Proof.
  intros Hnets. revert st. induction Hnets as [|[now net] rounds Hnet _ IH];
    intros st Hkey; cbv zeta; simpl.
  - done.
  - destruct (stalled_tick tid now net st Hnet Hkey) as (Hkey1 & Hrec1 & Hart1).
    destruct (IH _ Hkey1) as [Hrec' Hart']. split; congruence.
Qed.

End stalls.

Lemma bad_chunk_count_ends_the_poll_witness :
  @Client.tick toy_crypto toy_percent 1 (listing_net [broken_listing; sound_listing]) bob_state
  = @Client.process_transfers toy_crypto toy_percent 1
      (listing_net [broken_listing; sound_listing]) bob
      (Storage.getDismissedTransfers (Client.storage bob_state)) []
      (Client.set_sent bob_state
         (Client.sent bob_state ++ [Relay.list_file_transfers (user_id bob)])).
Proof.
  apply (@bad_chunk_count_ends_the_poll toy_crypto toy_percent 1
           (listing_net [broken_listing; sound_listing]) bob bob_state
           [] broken_listing [sound_listing]).
  - reflexivity.
  - reflexivity.
  - apply not_elem_of_nil.
  - apply not_elem_of_nil.
  - discriminate.
  - reflexivity.
  - reflexivity.
Defined.

Lemma no_key_no_progress_witness :
  let st' := @Client.ticks toy_crypto toy_percent [(1, sealed_net); (2, sealed_net)] bob_state in
  recorded "f8" st' = recorded "f8" bob_state ∧
  artifact "f8" (Client.storage st') = artifact "f8" (Client.storage bob_state).
Proof.
  apply (@no_key_no_progress toy_crypto toy_percent
           [(1, sealed_net); (2, sealed_net)] bob_state "f8"%string).
  - repeat constructor; intros log idx data nonce; simpl; unfold sealed_net;
      repeat case_match; intros [=]; subst; discriminate.
  - reflexivity.
Defined.
(** * What the local storage keeps *)

(** ** The activity log *)

Lemma addActivityLog_last log (e : Store.Entries) :
  (length (Store.getActivityLogs e) ≤ 100)%nat →
  let logs := Store.getActivityLogs e ++ [log] in
  Store.getActivityLogs (Store.addActivityLog log e) = drop (length logs - 100) logs ∧
  (length (Store.getActivityLogs (Store.addActivityLog log e)) ≤ 100)%nat.
Proof.
  intros Hlen. cbv zeta. unfold Store.addActivityLog. cbn [Store.getActivityLogs Store.ACTIVITY_LOGS].
  unfold Store.getActivityLogs in *. rewrite length_app. cbn [length].
  case_bool_decide as Hfull.
  - assert (length (Store.ACTIVITY_LOGS e) = 100%nat) as Heq by lia.
    rewrite Heq. replace (100 + 1 - 100)%nat with 1%nat by lia.
    split; [by destruct (Store.ACTIVITY_LOGS e ++ [log])|].
    destruct (Store.ACTIVITY_LOGS e) as [|x l]; simpl in *; [lia|].
    rewrite length_app. simpl. lia.
  - replace (length (Store.ACTIVITY_LOGS e) + 1 - 100)%nat with 0%nat by lia.
    split; [done|]. rewrite length_app. simpl. lia.
Qed.

(** X20.  The activity log keeps the last 100 entries.  Starting from a
    stored log of at most 100 entries, after any number of further entries
    were added one by one, the stored log consists of the last 100 entries
    of the old log followed by the new ones (of all of them if they are
    fewer), in order. *)
Theorem activity_log_keeps_last_100 (new : list Store.ActivityLog) (e : Store.Entries) :
  (length (Store.getActivityLogs e) ≤ 100)%nat →
  let all := Store.getActivityLogs e ++ new in
  Store.getActivityLogs (logged new e) = drop (length all - 100) all.
Proof.
  revert e. induction new as [|log new IH] using rev_ind; intros e Hlen; cbv zeta.
  - simpl. rewrite app_nil_r.
    replace (length (Store.getActivityLogs e) - 100)%nat with 0%nat by lia. done.
  - unfold logged in *. rewrite foldl_app. cbn [foldl].
    specialize (IH e Hlen). cbv zeta in IH.
    set (e1 := foldl (λ e log, Store.addActivityLog log e) e new) in *.
    assert (Hlen1 : (length (Store.getActivityLogs e1) ≤ 100)%nat).
    { rewrite IH, length_drop. lia. }
    destruct (addActivityLog_last log e1 Hlen1) as [-> _].
    rewrite IH, (assoc_L (++)).
    set (old := Store.getActivityLogs e ++ new).
    set (k := (length old - 100)%nat).
    rewrite <- (drop_app_le old [log] k) by (unfold k; lia).
    rewrite drop_drop. f_equal.
    rewrite length_drop, !length_app. cbn [length]. unfold k. lia.
Qed.

Lemma activity_log_keeps_last_100_witness :
  Store.getActivityLogs (logged (log_entry <$> seqZ 0 150) Store.empty)
  = drop (length (Store.getActivityLogs Store.empty ++ (log_entry <$> seqZ 0 150)) - 100)
      (Store.getActivityLogs Store.empty ++ (log_entry <$> seqZ 0 150)).
Proof.
  apply (activity_log_keeps_last_100 (log_entry <$> seqZ 0 150) Store.empty).
  simpl. lia.
Defined.

(** ** Stored messages *)

Lemma earliest_app l1 l2 i :
  earliest (l1 ++ l2) i = match earliest l1 i with Some m => Some m | None => earliest l2 i end.
Proof.
  unfold earliest. rewrite filter_app.
  by destruct (filter (λ x, msg_id x = i) l1).
Qed.

Lemma earliest_None l i : earliest l i = None ↔ i ∉ msg_id <$> l.
Proof.
  unfold earliest. induction l as [|x l IH]; simpl.
  - split; [intros _; apply not_elem_of_nil | done].
  - rewrite filter_cons. case_decide as Hx; simpl.
    + split; [done|]. intros Hno. exfalso. apply Hno. rewrite Hx. left.
    + rewrite IH, not_elem_of_cons. naive_solver.
Qed.

Lemma earliest_Some l i m : earliest l i = Some m → m ∈ l ∧ msg_id m = i.
Proof.
  unfold earliest. intros Hm.
  assert (m ∈ filter (λ x, msg_id x = i) l) as Hin.
  { destruct (filter _ l) as [|y l']; simpl in Hm; simplify_eq. left. }
  by apply list_elem_of_filter in Hin as [? ?].
Qed.

Lemma earliest_unique l m :
  NoDup (msg_id <$> l) → m ∈ l → earliest l (msg_id m) = Some m.
Proof.
  unfold earliest. induction l as [|x l IH]; intros Hnd Hin.
  - by apply elem_of_nil in Hin.
  - rewrite fmap_cons in Hnd. apply NoDup_cons in Hnd as [Hx Hnd].
    rewrite filter_cons. apply elem_of_cons in Hin as [->|Hin].
    + by rewrite decide_True.
    + rewrite decide_False; [by apply IH|].
      intros Heq. apply Hx. rewrite Heq. by apply list_elem_of_fmap_2.
Qed.

Lemma addMessage_spec m ls :
  NoDup (msg_id <$> Storage.getMessages ls) →
  NoDup (msg_id <$> Storage.getMessages (Storage.addMessage m ls)) ∧
  (∀ i tail, earliest (Storage.getMessages (Storage.addMessage m ls) ++ tail) i
             = earliest (Storage.getMessages ls ++ m :: tail) i) ∧
  Storage.ls_fileTransfers (Storage.addMessage m ls) = Storage.ls_fileTransfers ls ∧
  Storage.ls_dismissed (Storage.addMessage m ls) = Storage.ls_dismissed ls.
Proof.
  intros Hnd. unfold Storage.addMessage. case_bool_decide as Hex.
  - split_and!; try done. intros i tail.
    rewrite !earliest_app.
    destruct (earliest (Storage.getMessages ls) i) as [m'|] eqn:Hold; [done|].
    change (m :: tail) with ([m] ++ tail). rewrite earliest_app.
    assert (earliest [m] i = None) as ->; [|done].
    apply earliest_None. rewrite fmap_cons. apply not_elem_of_cons. split; [|apply not_elem_of_nil].
    intros ->. apply earliest_None in Hold. apply Hold.
    apply Exists_exists in Hex as (m' & Hm' & Hid). rewrite <- Hid.
    by apply list_elem_of_fmap_2.
  - split_and!; try done.
    + unfold Storage.getMessages in *. simpl. rewrite fmap_app. simpl.
      apply NoDup_app. split_and!; [done | | apply NoDup_singleton].
      intros i Hi Hi'. apply list_elem_of_singleton in Hi'. subst i.
      apply Hex. apply list_elem_of_fmap in Hi as (m' & Hid & Hm').
      apply Exists_exists. by exists m'.
    + intros i tail. unfold Storage.getMessages. simpl. by rewrite <- (assoc_L (++)).
Qed.

(** X21.  The stored messages keep the first version of every message.
    Starting from stored messages with pairwise distinct ids, after the
    messages [ms] were handed to [addMessage] one by one, the stored ids are
    pairwise distinct, and a message is stored exactly when it is the first
    with its id among the old stored messages followed by [ms]; the stored
    transfers and the dismissed ids are as before. *)
Theorem stored_messages_keep_the_first_version (ms : list Message) ls :
  NoDup (msg_id <$> Storage.getMessages ls) →
  let ls' := saved ms ls in
  NoDup (msg_id <$> Storage.getMessages ls') ∧
  (∀ m, m ∈ Storage.getMessages ls'
        ↔ earliest (Storage.getMessages ls ++ ms) (msg_id m) = Some m) ∧
  Storage.ls_fileTransfers ls' = Storage.ls_fileTransfers ls ∧
  Storage.ls_dismissed ls' = Storage.ls_dismissed ls.
Proof.
  revert ls. induction ms as [|m ms IH]; intros ls Hnd; cbv zeta.
  - simpl. rewrite app_nil_r. split_and!; try done.
    intros m. split; [by apply earliest_unique|]. by intros [? _]%earliest_Some.
  - unfold saved in *. cbn [foldl].
    destruct (addMessage_spec m ls Hnd) as (Hnd1 & Hear & Hft & Hdis).
    destruct (IH _ Hnd1) as (Hnd' & Hin' & Hft' & Hdis').
    split_and!; [done | | congruence | congruence].
    intros m'. rewrite Hin'. by rewrite Hear.
Qed.

Lemma stored_messages_keep_the_first_version_witness :
  let ls' := saved two_versions Storage.empty in
  NoDup (msg_id <$> Storage.getMessages ls') ∧
  (∀ m, m ∈ Storage.getMessages ls'
        ↔ earliest (Storage.getMessages Storage.empty ++ two_versions) (msg_id m) = Some m) ∧
  Storage.ls_fileTransfers ls' = Storage.ls_fileTransfers Storage.empty ∧
  Storage.ls_dismissed ls' = Storage.ls_dismissed Storage.empty.
Proof.
  apply (stored_messages_keep_the_first_version two_versions Storage.empty).
  apply NoDup_nil_2.
Defined.

(** ** The stored transfer list *)

Lemma findIndex_None id ts : Storage.findIndex id ts = None → id ∉ ft_id <$> ts.
Proof.
  induction ts as [|t ts IH]; simpl; [intros _; apply not_elem_of_nil|].
  case_bool_decide as Hid; [done|].
  destruct (Storage.findIndex id ts); [done|]. intros _.
  apply not_elem_of_cons. split; [done | by apply IH].
Qed.

Lemma apply_op_ids op ls :
  keeps_id op →
  let ids := ft_id <$> Storage.getFileTransfers ls in
  ft_id <$> Storage.getFileTransfers (apply_op ls op)
  = match op with
    | op_add t => if bool_decide (ft_id t ∈ ids) then ids else ids ++ [ft_id t]
    | op_update _ _ => ids
    | op_remove id => filter (λ i, i ≠ id) ids
    end.
Proof.
  intros Hkeeps. cbv zeta. destruct op as [t|id u|id]; simpl.
  - unfold Storage.addFileTransfer, Storage.getFileTransfers.
    destruct (Storage.findIndex _ _) as [i|] eqn:Hi; simpl.
    + pose proof (findIndex_Some _ _ _ Hi) as (t0 & Ht0 & Hid).
      rewrite bool_decide_eq_true_2.
      * apply ids_alter. intros t' Ht'. by simplify_eq.
      * rewrite <- Hid. apply list_elem_of_fmap_2. by eapply list_elem_of_lookup_2.
    + rewrite bool_decide_eq_false_2 by by apply findIndex_None.
      by rewrite fmap_app.
  - unfold Storage.updateFileTransfer, Storage.getFileTransfers.
    destruct (Storage.findIndex _ _) as [i|] eqn:Hi; simpl; [|done].
    pose proof (findIndex_Some _ _ _ Hi) as (t0 & Ht0 & Hid).
    apply ids_alter. intros t' Ht'. simplify_eq. simpl.
    by destruct Hkeeps as [-> | ->].
  - unfold Storage.removeFileTransfer, Storage.getFileTransfers. simpl.
    by rewrite filter_fmap.
Qed.

(** X22.  The stored transfer list holds no id twice as long as no update
    renames an entry.  Starting from a list with pairwise distinct ids,
    after any sequence of calls of [addFileTransfer], [updateFileTransfer]
    and [removeFileTransfer] in which every update carries no id or the id
    of the entry it is for, the ids are pairwise distinct, and an id is
    listed exactly when the last [add] or [remove] that named it was an
    [add], or, if none named it, when it was listed before. *)
Theorem transfer_list_has_unique_ids (ops : list TransferOp) ls :
  NoDup (ft_id <$> Storage.getFileTransfers ls) →
  Forall keeps_id ops →
  let ls' := foldl apply_op ls ops in
  NoDup (ft_id <$> Storage.getFileTransfers ls') ∧
  ∀ i, i ∈ ft_id <$> Storage.getFileTransfers ls'
       ↔ listed_after ops i (bool_decide (i ∈ ft_id <$> Storage.getFileTransfers ls)) = true.
Proof.
  revert ls. induction ops as [|op ops IH]; intros ls Hnd Hkeep; cbv zeta.
  - simpl. split; [done|]. intros i. by rewrite bool_decide_eq_true.
  - apply Forall_cons in Hkeep as [Hop Hkeep].
    cbn [foldl]. pose proof (apply_op_ids op ls Hop) as Hids. cbv zeta in Hids.
    assert (Hnd1 : NoDup (ft_id <$> Storage.getFileTransfers (apply_op ls op))).
    { rewrite Hids. destruct op as [t|id u|id]; [|done|by apply NoDup_filter].
      case_bool_decide as Hin; [done|].
      apply NoDup_app. split_and!; [done | | apply NoDup_singleton].
      intros i Hi Hi'. apply list_elem_of_singleton in Hi'. by subst i. }
    destruct (IH _ Hnd1 Hkeep) as [Hnd' Hin']. split; [done|].
    intros i. rewrite Hin'. unfold listed_after. cbn [foldl].
    match goal with |- foldl ?f ?b1 ops = true ↔ foldl ?f ?b2 ops = true =>
      assert (b1 = b2) as ->; [|done] end.
    rewrite Hids. destruct op as [t|id u|id]; [| done |].
    + destruct (decide (ft_id t = i)) as [<-|Hne].
      * rewrite (bool_decide_eq_true_2 (ft_id t = ft_id t)) by done.
        apply bool_decide_eq_true_2.
        case_bool_decide; [done|]. apply elem_of_app. right. left.
      * rewrite (bool_decide_eq_false_2 (ft_id t = i)) by done.
        apply bool_decide_ext. case_bool_decide; [done|].
        rewrite elem_of_app, list_elem_of_singleton. naive_solver.
    + destruct (decide (id = i)) as [<-|Hne].
      * rewrite (bool_decide_eq_true_2 (id = id)) by done.
        apply bool_decide_eq_false_2. by intros [? _]%list_elem_of_filter.
      * rewrite (bool_decide_eq_false_2 (id = i)) by done.
        apply bool_decide_ext. rewrite list_elem_of_filter. naive_solver.
Qed.

Lemma transfer_list_has_unique_ids_witness :
  let ls' := foldl apply_op Storage.empty list_edits in
  NoDup (ft_id <$> Storage.getFileTransfers ls') ∧
  ∀ i, i ∈ ft_id <$> Storage.getFileTransfers ls'
       ↔ listed_after list_edits i
           (bool_decide (i ∈ ft_id <$> Storage.getFileTransfers Storage.empty)) = true.
Proof.
  apply (transfer_list_has_unique_ids list_edits Storage.empty).
  - apply NoDup_nil_2.
  - repeat constructor.
Defined.

(** An update that carries the id of another entry leaves two entries with
    one id: [updateFileTransfer] spreads the id like any other field. *)
Lemma renaming_update_duplicates_an_id :
  let ls := foldl apply_op Storage.empty [op_add f1_received; op_add f2_announced] in
  let ls' := Storage.updateFileTransfer "f1" renaming ls in
  NoDup (ft_id <$> Storage.getFileTransfers ls) ∧
  ft_id <$> Storage.getFileTransfers ls' = ["f2"; "f2"]%string ∧
  ¬ NoDup (ft_id <$> Storage.getFileTransfers ls').
Proof.
  cbv zeta.
  assert (Hids : ft_id <$> Storage.getFileTransfers
                   (Storage.updateFileTransfer "f1" renaming
                      (foldl apply_op Storage.empty [op_add f1_received; op_add f2_announced]))
                 = ["f2"; "f2"]%string) by (vm_compute; reflexivity).
  split_and!.
  - assert (Hbefore : ft_id <$> Storage.getFileTransfers
                        (foldl apply_op Storage.empty [op_add f1_received; op_add f2_announced])
                      = ["f1"; "f2"]%string) by (vm_compute; reflexivity).
    rewrite Hbefore. apply NoDup_cons. split; [|apply NoDup_singleton].
    intros Hin. apply list_elem_of_singleton in Hin. discriminate.
  - exact Hids.
  - rewrite Hids. intros Hnd. apply NoDup_cons in Hnd as [Hnot _]. apply Hnot. left.
Qed.

(** * Messages and keys on their way *)

Lemma latest_snoc l (x : Message) : latest (l ++ [x]) (msg_id x) = Some x.
Proof.
  unfold latest. rewrite filter_app, filter_cons_True, filter_nil by done.
  apply last_snoc.
Qed.

(** The relay after a [send_message] request: the stamped message ends the
    history. *)
Lemma relay_after_send now (wire : Message) (s : Relay.State) :
  let s' := (Relay.POST now (Relay.send_message wire) s).2 in
  ∃ kept, Relay.messageHistory s'
          = kept ++ [Relay.stamp now (Relay.messageSeq s + 1) wire].
Proof.
  cbv zeta. simpl. rewrite trim_spec.
  exists (drop (length (Relay.messageHistory s ++ [Relay.stamp now (Relay.messageSeq s + 1) wire])
                - 200) (Relay.messageHistory s)).
  rewrite drop_app_le; [done|]. rewrite length_app. simpl. lia.
Qed.

Section reading.
Context `{Crypto.SubtleCryptoLaws}.
Variable json_jwk : string → option Crypto.JWK.
Variable exportKey_jwk : Crypto.CryptoKey → option Crypto.JWK.
Variable utf8Decode : bytes → string.

Lemma readable_id key m : msg_id (App.readable utf8Decode key m) = msg_id m.
Proof. unfold App.readable. by repeat case_match. Qed.

(** The key updates of a poll leave the messages, the stored messages and
    the request log alone. *)
Lemma receive_keys_client kp upds (st : App.State) :
  let st' := foldl (App.receive_key json_jwk exportKey_jwk kp) st upds in
  Client.messages (App.client st') = Client.messages (App.client st) ∧
  Client.storage (App.client st') = Client.storage (App.client st) ∧
  Client.sent (App.client st') = Client.sent (App.client st).
Proof.
  revert st. induction upds as [|upd upds IH]; intros st; cbv zeta; [done|].
  cbn [foldl]. destruct (IH (App.receive_key json_jwk exportKey_jwk kp st upd))
    as (-> & -> & ->).
  unfold App.receive_key. by repeat case_match.
Qed.

(** The messages after a poll that brought new messages. *)
Lemma syncWithServer_messages (r : App.Render) net (st : App.State) user hb msg more :
  App.r_currentUser r = Some user →
  net (Client.sent (App.client st) ++ [Relay.heartbeat (user_id user) (Some (App.r_lastSeq r))])
    = Some (Relay.ok (Relay.heartbeat_body hb)) →
  Relay.newMessages hb = msg :: more →
  Client.messages
    (App.client (App.syncWithServer json_jwk exportKey_jwk utf8Decode r net st))
  = Client.mergeMessages (Client.messages (App.client st))
      (App.readable utf8Decode (App.r_roomKey r)
         <$> filter (λ m, msg_id m ∉ msg_id <$> App.r_messages r) (msg :: more)).
Proof.
  intros Hu Hnet Hnew. unfold App.syncWithServer, App.fetch, Client.fetch.
  rewrite Hu, Hnet. cbn [App.onlineUsers_of App.lastSeq_of App.keyUpdates_of App.devices_of
    App.rooms_of App.newMessages_of]. rewrite Hnew.
  unfold App.ingest. cbn [App.client App.set_client Client.messages Client.set_messages
    Client.set_storage].
  f_equal.
  destruct (App.r_userKeyPair r) as [kp|]; [|done].
  match goal with |- context [foldl (App.receive_key _ _ kp) ?st0 ?upds] =>
    destruct (receive_keys_client kp upds st0) as (Hm & _ & _) end.
  unfold App.adopt_rooms. cbn [App.client App.set_client App.set_devices App.set_entries
    App.set_chatRooms Client.messages]. exact Hm.
Qed.

(** The message of a [send_message] request as a reader with the sender's
    key obtains it from the relay. *)
Lemma readable_stamped key nonce text now n (wire : Message) :
  (key = None → content wire = text ∧ enc wire = None) →
  (∀ k, key = Some k →
     enc wire = Some true ∧
     msg_nonce wire = Some (Crypto.bytesToBase64 nonce) ∧
     Crypto.aesDecryptBytes k (content wire) (Crypto.bytesToBase64 nonce)
     = Some (Crypto.utf8Encode text)) →
  (is_Some key →
   Crypto.bytesToBase64 nonce ≠ EmptyString ∧ utf8Decode (Crypto.utf8Encode text) = text) →
  content (App.readable utf8Decode key (Relay.stamp now n wire)) = text.
Proof.
  intros Hplain Hcipher Hkey. unfold App.readable. destruct key as [k|].
  - destruct (Hcipher k eq_refl) as (Henc & Hnonce & Hdec).
    destruct Hkey as [Hne Hutf]; [by eexists|].
    cbn [Relay.stamp enc msg_nonce content]. rewrite Henc, Hnonce.
    rewrite bool_decide_eq_true_2 by done.
    unfold App.aesDecryptString. rewrite Hdec. cbn [mbind option_bind]. simpl.
    exact Hutf.
  - destruct Hplain as [Hc He]; [done|]. cbn [Relay.stamp enc]. rewrite He. simpl. exact Hc.
Qed.

End reading.

(** X23.  A message that is sent is read.  A logged-in user who may write to
    a channel sends a text through a reachable relay; any logged-in user
    whose poll runs with the sender's room key (or without one, if the
    sender has none), with a cursor that is not ahead of the relay and
    without a message of that id at hand, then holds exactly one message
    with the id: it carries the text as typed, the sender, the channel and
    the sequence number that the relay assigned.  The reader need not be a
    participant of the room. *)
Theorem sent_message_is_read `{Crypto.SubtleCryptoLaws}
    (json_jwk : string → option Crypto.JWK)
    (exportKey_jwk : Crypto.CryptoKey → option Crypto.JWK) (utf8Decode : bytes → string)
    before now now' (alice : User) id t nonce text roomId (ca : Client.State)
    (r : App.Render) (sb : App.State) :
  let s := Relay.run before Relay.init in
  Client.currentUser ca = Some alice →
  can_send alice roomId (Client.chatRooms ca) →
  (is_Some (Client.roomKey ca) →
   Crypto.hasSubtle = true ∧ Crypto.bytesToBase64 nonce ≠ EmptyString ∧
   utf8Decode (Crypto.utf8Encode text) = text) →
  is_Some (App.r_currentUser r) →
  App.r_roomKey r = Client.roomKey ca →
  App.r_lastSeq r ≤ Relay.messageSeq s →
  id ∉ msg_id <$> App.r_messages r →
  let ca' := Client.sendMessage id t nonce text roomId ca in
  let s' := served now s (length (Client.sent ca)) (Client.sent ca') in
  let sb' :=
    App.syncWithServer json_jwk exportKey_jwk utf8Decode r
      (live_net now' s' (length (Client.sent (App.client sb)))) sb in
  ∃ m, m ∈ Client.messages (App.client sb') ∧
    msg_id m = id ∧ content m = text ∧ senderId m = user_id alice ∧
    msg_roomId m = roomId ∧ seq m = Some (Relay.messageSeq s + 1) ∧
    ∀ m', m' ∈ Client.messages (App.client sb') → msg_id m' = id → m' = m.
Proof.
  intros s Hua Hcan Hkey [bob Hub] Hsame Hcursor Hfresh ca' s' sb'.
  destruct (sendMessage_wire id t nonce text roomId ca alice Hua Hcan)
    as (wire & Hca' & Hid & Hsender & Hroom & Hseq & Hplain & Hcipher).
  (* the relay after the request *)
  assert (Hs' : s' = (Relay.POST now (Relay.send_message wire) s).2).
  { subst s' ca'. rewrite Hca'. unfold served.
    cbn [Client.sent Client.set_sent]. by rewrite drop_app_length. }
  destruct (relay_after_send now wire s) as [kept Hhist]. cbv zeta in Hhist.
  rewrite <- Hs' in Hhist.
  set (stamped := Relay.stamp now (Relay.messageSeq s + 1) wire) in *.
  assert (Hn : 0 ≤ Relay.messageSeq s).
  { pose proof (history_inv_run before Relay.init history_inv_init) as (Hn & _). exact Hn. }
  (* the answer to the reader's poll *)
  destruct (live_fetch now' s' (length (Client.sent (App.client sb)))
              (Relay.heartbeat (user_id bob) (Some (App.r_lastSeq r))) (App.client sb))
    as [Hfetch _]; [done|].
  unfold Client.fetch in Hfetch. injection Hfetch as Hnet.
  assert (Hserved : served now' s' (length (Client.sent (App.client sb)))
                      (Client.sent (App.client sb)) = s').
  { unfold served. by rewrite drop_all. }
  rewrite Hserved in Hnet.
  unfold Relay.POST, Relay.handle_heartbeat in Hnet. cbn [fst] in Hnet.
  set (news := filter (λ m, num_or (Some (App.r_lastSeq r)) 0 < num_nullish (seq m) 0)
                 kept).
  assert (Hnew : Relay.messages_since (num_or (Some (App.r_lastSeq r)) 0)
                   (Relay.messageHistory s') = news ++ [stamped]).
  { unfold Relay.messages_since. rewrite Hhist, filter_app.
    rewrite filter_cons_True, filter_nil; [done|].
    simpl. unfold num_or. case_bool_decide; lia. }
  assert (Hmsgs :
    Client.messages (App.client sb')
    = Client.mergeMessages (Client.messages (App.client sb))
        (App.readable utf8Decode (App.r_roomKey r)
           <$> filter (λ m, msg_id m ∉ msg_id <$> App.r_messages r) (news ++ [stamped]))).
  { destruct (news ++ [stamped]) as [|msg more] eqn:Hlist.
    { by destruct news. }
    subst sb'. eapply syncWithServer_messages; [exact Hub | exact Hnet |].
    cbn [Relay.newMessages]. exact Hnew. }
  rewrite filter_app, filter_cons_True, filter_nil, fmap_app in Hmsgs
    by (simpl; by rewrite Hid).
  cbn [fmap list_fmap] in Hmsgs.
  set (m := App.readable utf8Decode (App.r_roomKey r) stamped) in *.
  assert (Hmid : msg_id m = id) by (unfold m; by rewrite readable_id).
  assert (Hlatest : ∀ l, latest (l ++ [m]) id = Some m).
  { intros l. rewrite <- Hmid. apply latest_snoc. }
  exists m. split_and!.
  - rewrite Hmsgs. apply mergeMessages_elem. left. rewrite Hmid. apply Hlatest.
  - done.
  - unfold m. rewrite Hsame. eapply (readable_stamped utf8Decode _ nonce).
    + done.
    + intros k Hk. destruct (Hkey ltac:(by rewrite Hk)) as (Hsubtle & _).
      by apply Hcipher.
    + intros Hk. destruct (Hkey Hk) as (_ & ? & ?). done.
  - unfold m, App.readable. repeat case_match; done.
  - unfold m, App.readable. repeat case_match; done.
  - unfold m, App.readable. repeat case_match; done.
  - intros m' Hm' Hid'. rewrite Hmsgs in Hm'. apply mergeMessages_elem in Hm'.
    rewrite Hid', Hlatest in Hm'. destruct Hm' as [[= <-]|[? _]]; done.
Qed.

Lemma sent_message_is_read_witness :
  let ca' := @Client.sendMessage toy_crypto "m1" 7 [Byte.x0c] "hello" None alice_sending in
  let s' := served 8 Relay.init 0 (Client.sent ca') in
  let sb' :=
    @App.syncWithServer toy_crypto toy_json_jwk toy_exportKey_jwk toy_utf8Decode
      (App.render bob_app) (live_net 9 s' 0) bob_app in
  ∃ m, m ∈ Client.messages (App.client sb') ∧
    msg_id m = "m1"%string ∧ content m = "hello"%string ∧ senderId m = "alice"%string ∧
    msg_roomId m = None ∧ seq m = Some (0 + 1) ∧
    ∀ m', m' ∈ Client.messages (App.client sb') → msg_id m' = "m1"%string → m' = m.
Proof.
  apply (@sent_message_is_read toy_crypto toy_crypto_laws toy_json_jwk
           toy_exportKey_jwk toy_utf8Decode [] 8 9 alice "m1"%string 7 [Byte.x0c]
           "hello"%string None alice_sending (App.render bob_app) bob_app).
  - reflexivity.
  - left. split; reflexivity.
  - intros _. split_and!; [reflexivity | discriminate | reflexivity].
  - by eexists.
  - reflexivity.
  - simpl. lia.
  - apply not_elem_of_nil.
Defined.

(** ** The room key on its way *)

Section keys.
Context `{Crypto.SubtleCryptoLaws}.
Variable jwk_json : Crypto.JWK → string.
Variable json_jwk : string → option Crypto.JWK.
Variable exportKey_jwk : Crypto.CryptoKey → option Crypto.JWK.
Variable utf8Decode : bytes → string.

Hypothesis Hsubtle : Crypto.hasSubtle = true.

(** Wrapping a room key and unwrapping the envelope, with the texts of the
    envelope in view. *)
Lemma pack_unpack (rnd : Crypto.Entropy) K raw pub priv :
  Crypto.ecdh_pair pub priv →
  Crypto.ecdh_pair (Crypto.publicJwk (Crypto.ephemeral rnd))
    (Crypto.privateJwk (Crypto.ephemeral rnd)) →
  Crypto.exportKey_raw K = Some raw →
  ∃ aes ct K',
    Crypto.aesgcm_encrypt aes (Crypto.nonce12 rnd) raw = Some ct ∧
    Crypto.packRoomKeyForRecipient rnd K pub
    = Some (Crypto.mkEnvelope (Crypto.publicJwk (Crypto.ephemeral rnd))
              (Crypto.bytesToBase64 (Crypto.salt16 rnd))
              (Crypto.bytesToBase64 (Crypto.nonce12 rnd)) (Crypto.bytesToBase64 ct)) ∧
    Crypto.unpackRoomKeyFromSender priv (Crypto.publicJwk (Crypto.ephemeral rnd))
      (Crypto.bytesToBase64 (Crypto.salt16 rnd))
      (Crypto.bytesToBase64 (Crypto.nonce12 rnd)) (Crypto.bytesToBase64 ct) = Some K' ∧
    Crypto.exportAesRaw K' = Some raw.
Proof.
  intros Hpair Hephem Hraw.
  destruct (Crypto.ecdh_agreement _ _ _ _ Hpair Hephem) as (z & Hunpack & Hpack).
  destruct (Crypto.hkdf_total z (Crypto.salt16 rnd) (Crypto.utf8Encode Crypto.infoLabel))
    as [aes Haes].
  destruct (Crypto.aesgcm_inverse aes (Crypto.nonce12 rnd) raw) as (ct & Henc & Hdec).
  destruct (Crypto.raw_import raw K Hraw) as (K' & Himport & Hexport).
  exists aes, ct, K'. split; [done|].
  unfold Crypto.packRoomKeyForRecipient, Crypto.unpackRoomKeyFromSender,
    Crypto.generateECDH, Crypto.deriveSharedBits, Crypto.deriveAesFromShared,
    Crypto.exportAesRaw, Crypto.aesEncryptBytes, Crypto.aesDecryptBytes,
    Crypto.importAesRaw, Crypto.base64ToBytes, Crypto.bytesToBase64,
    Crypto.require_subtle.
  rewrite Hsubtle. cbn [mbind option_bind].
  rewrite Hpack. cbn [mbind option_bind]. rewrite Haes. cbn [mbind option_bind].
  rewrite Hraw. cbn [mbind option_bind]. rewrite Henc. cbn [mbind option_bind].
  split; [reflexivity|].
  rewrite Hunpack. cbn [mbind option_bind]. rewrite !Crypto.atob_btoa. cbn [mbind option_bind].
  rewrite Haes. cbn [mbind option_bind]. rewrite Hdec. cbn [mbind option_bind].
  by rewrite Himport, Hexport.
Qed.

Variables (now : Z) (s : Relay.State) (skip : nat).
Variables (alice : User) (K : Crypto.CryptoKey) (rnd : string → Crypto.Entropy).
Variable target : string.

Local Abbreviation net := (live_net now s skip).
Local Abbreviation queue st :=
  (Relay.keyUpdates (served now s skip (Client.sent (App.client st))) !! target).

(** A request through the application state. *)
Lemma app_fetch req (st : App.State) :
  (skip ≤ length (Client.sent (App.client st)))%nat →
  let s_cur := served now s skip (Client.sent (App.client st)) in
  ∃ st', App.fetch net req st = (Some (Relay.POST now req s_cur).1, st') ∧
    App.distributedTo st' = App.distributedTo st ∧
    Client.sent (App.client st') = Client.sent (App.client st) ++ [req] ∧
    served now s skip (Client.sent (App.client st')) = (Relay.POST now req s_cur).2.
Proof.
  intros Hskip. cbv zeta. unfold App.fetch.
  destruct (live_fetch now s skip req (App.client st) Hskip) as [-> Hserved].
  eexists. split; [done|]. by split_and!.
Qed.

(** Sending the key to somebody else leaves the queue of [target] alone. *)
Lemma send_key_other (st : App.State) (u : User) :
  user_id u ≠ target →
  (skip ≤ length (Client.sent (App.client st)))%nat →
  let st' := App.send_key jwk_json json_jwk net alice K rnd st u in
  (skip ≤ length (Client.sent (App.client st')))%nat ∧
  queue st' = queue st ∧
  (target ∈ App.distributedTo st' ↔ target ∈ App.distributedTo st).
Proof.
  intros Hne Hskip. cbv zeta. unfold App.send_key.
  case_bool_decide; [done|]. case_bool_decide; [done|].
  destruct (publicKeyJwk u) as [text|]; [|done].
  destruct (json_jwk text ≫= _) as [env|]; [|done].
  match goal with |- context [App.fetch net ?req st] =>
    destruct (app_fetch req st Hskip) as (st1 & -> & Hd & Hsent & Hserved) end.
  cbn [App.client App.set_distributedTo App.distributedTo].
  rewrite Hserved, Hsent, Hd, length_app. split_and!.
  - lia.
  - simpl. unfold Relay.handle_key_update. simpl.
    case_bool_decide; simpl; [|done]. by rewrite lookup_insert_ne.
  - set_solver.
Qed.

Lemma send_keys_others (us : list User) (st : App.State) :
  target ∉ user_id <$> us →
  (skip ≤ length (Client.sent (App.client st)))%nat →
  let st' := foldl (App.send_key jwk_json json_jwk net alice K rnd) st us in
  (skip ≤ length (Client.sent (App.client st')))%nat ∧
  queue st' = queue st ∧
  (target ∈ App.distributedTo st' ↔ target ∈ App.distributedTo st).
Proof.
  revert st. induction us as [|u us IH]; intros st Hnot Hskip; cbv zeta; [done|].
  rewrite fmap_cons, not_elem_of_cons in Hnot. destruct Hnot as [Hne Hnot].
  cbn [foldl].
  destruct (send_key_other st u) as (Hskip1 & Hq1 & Hd1); [done | done |].
  destruct (IH _ Hnot Hskip1) as (Hskip' & Hq' & Hd').
  split_and!; [done | congruence | tauto].
Qed.

(** Sending the key to [target]. *)
Lemma send_key_target (st : App.State) (u : User) pub priv raw :
  user_id u = target → target ≠ user_id alice → target ≠ EmptyString →
  target ∉ App.distributedTo st →
  publicKeyJwk u = Some (jwk_json pub) →
  encodings_ok jwk_json json_jwk →
  Crypto.ecdh_pair pub priv →
  Crypto.ecdh_pair (Crypto.publicJwk (Crypto.ephemeral (rnd target)))
    (Crypto.privateJwk (Crypto.ephemeral (rnd target))) →
  Crypto.nonce12 (rnd target) ≠ [] → Crypto.salt16 (rnd target) ≠ [] →
  Crypto.exportKey_raw K = Some raw →
  (skip ≤ length (Client.sent (App.client st)))%nat →
  let st' := App.send_key jwk_json json_jwk net alice K rnd st u in
  (skip ≤ length (Client.sent (App.client st')))%nat ∧
  ∃ env K',
    queue st' = Some (default [] (queue st) ++ [Relay.mkKeyUpdate (Some (user_id alice)) env now]) ∧
    json_jwk (Relay.epk env) = Some (Crypto.publicJwk (Crypto.ephemeral (rnd target))) ∧
    Relay.saltB64 env ≠ EmptyString ∧ Relay.nonceB64 env ≠ EmptyString ∧
    Relay.ctB64 env ≠ EmptyString ∧
    Crypto.unpackRoomKeyFromSender priv (Crypto.publicJwk (Crypto.ephemeral (rnd target)))
      (Relay.saltB64 env) (Relay.nonceB64 env) (Relay.ctB64 env) = Some K' ∧
    Crypto.exportAesRaw K' = Some raw.
Proof.
  intros Hu Hne Hnonempty Hfresh Hpub (Hjson & Hb64 & Hct) Hpair Hephem Hnonce Hsalt Hraw Hskip.
  cbv zeta. unfold App.send_key. rewrite Hu.
  rewrite bool_decide_eq_false_2 by done. rewrite bool_decide_eq_false_2 by done.
  rewrite Hpub, Hjson. cbn [mbind option_bind].
  destruct (pack_unpack (rnd target) K raw pub priv Hpair Hephem Hraw)
    as (aes & ct & K' & Henc & -> & Hunpack & Hexport).
  cbn [Crypto.epk Crypto.saltB64 Crypto.nonceB64 Crypto.ctB64].
  match goal with |- context [App.fetch net ?req st] =>
    destruct (app_fetch req st Hskip) as (st1 & -> & Hd & Hsent & Hserved) end.
  cbn [App.client App.set_distributedTo App.distributedTo].
  rewrite Hserved, Hsent, length_app. split; [lia|].
  eexists (Relay.mkEnvelope _ _ _ _), K'. split_and!.
  - simpl. unfold Relay.handle_key_update. simpl.
    rewrite bool_decide_eq_true_2 by done. simpl. by rewrite lookup_insert_eq.
  - simpl. apply Hjson.
  - simpl. intros Hempty. by apply Hb64 in Hempty.
  - simpl. intros Hempty. by apply Hb64 in Hempty.
  - simpl. intros Hempty. apply Hb64 in Hempty. exact (Hct _ _ _ _ Hnonce Henc Hempty).
  - exact Hunpack.
  - exact Hexport.
Qed.

(** Taking the key updates of a poll: the last envelope that unwraps
    decides. *)
Lemma receive_keys_last kp upds upd K' (st : App.State) :
  let env := Relay.envelope upd in
  (∃ epk, json_jwk (Relay.epk env) = Some epk ∧
     Crypto.unpackRoomKeyFromSender (Crypto.privateJwk kp) epk (Relay.saltB64 env)
       (Relay.nonceB64 env) (Relay.ctB64 env) = Some K') →
  Relay.saltB64 env ≠ EmptyString → Relay.nonceB64 env ≠ EmptyString →
  Relay.ctB64 env ≠ EmptyString →
  Client.roomKey
    (App.client (foldl (App.receive_key json_jwk exportKey_jwk kp) st (upds ++ [upd])))
  = Some K'.
Proof.
  intros env (epk & Hepk & Hunpack) Hs Hn Hc. rewrite foldl_app. cbn [foldl].
  unfold App.receive_key. fold env. rewrite Hepk.
  unfold truthy. rewrite !bool_decide_eq_true_2 by done. cbn [andb].
  rewrite Hunpack. by destruct (App.exportAesJwk _ _).
Qed.

End keys.

(** X24.  A room key that is distributed arrives.  An administrator who
    holds an exportable room key distributes it, through a reachable relay,
    to the online users known to the client, among them (once) a user with
    a non-empty id other than the administrator's, to whom the key was not
    yet sent in this session and whose record carries the public half of an
    ECDH key pair.  When that user's next poll runs with that key pair, the
    user holds a room key with the same key material as the
    administrator's, whatever else was queued for the user before. *)
Theorem distributed_key_is_received `{Crypto.SubtleCryptoLaws}
    (jwk_json : Crypto.JWK → string) (json_jwk : string → option Crypto.JWK)
    (exportKey_jwk : Crypto.CryptoKey → option Crypto.JWK) (utf8Decode : bytes → string)
    before now now' (alice bob ub : User) K raw rnd pub priv
    (ra rb : App.Render) (sa sb : App.State) :
  let s := Relay.run before Relay.init in
  Crypto.hasSubtle = true →
  encodings_ok jwk_json json_jwk →
  App.r_currentUser ra = Some alice → isAdmin alice = true →
  App.r_roomKey ra = Some K →
  Crypto.exportKey_raw K = Some raw → is_Some (exportKey_jwk K) →
  NoDup (user_id <$> App.r_users ra) → ub ∈ App.r_users ra →
  user_id ub ≠ user_id alice → user_id ub ≠ EmptyString →
  user_id ub ∉ App.distributedTo sa →
  publicKeyJwk ub = Some (jwk_json pub) → Crypto.ecdh_pair pub priv →
  Crypto.ecdh_pair (Crypto.publicJwk (Crypto.ephemeral (rnd (user_id ub))))
    (Crypto.privateJwk (Crypto.ephemeral (rnd (user_id ub)))) →
  Crypto.nonce12 (rnd (user_id ub)) ≠ [] → Crypto.salt16 (rnd (user_id ub)) ≠ [] →
  App.r_currentUser rb = Some bob → user_id bob = user_id ub →
  App.r_userKeyPair rb = Some (Crypto.mkKeyPair pub priv) →
  let sa' :=
    App.distributeRoomKeyIfAdmin jwk_json json_jwk exportKey_jwk ra
      (live_net now s (length (Client.sent (App.client sa)))) rnd sa in
  let s' := served now s (length (Client.sent (App.client sa))) (Client.sent (App.client sa')) in
  let sb' :=
    App.syncWithServer json_jwk exportKey_jwk utf8Decode rb
      (live_net now' s' (length (Client.sent (App.client sb)))) sb in
  ∃ K', Client.roomKey (App.client sb') = Some K' ∧ Crypto.exportAesRaw K' = Some raw.
Proof.
  intros s Hsubtle Henc Hua Hadmin Hkey Hraw [jwk Hjwk] Hnd Hin Hne Hnonempty Hfresh
    Hpub Hpair Hephem Hnonce Hsalt Hub Hbid Hkp sa' s' sb'.
  set (skip := length (Client.sent (App.client sa))) in *.
  set (target := user_id ub) in *.
  (* the distribution *)
  apply list_elem_of_split in Hin as (pre & post & Hus).
  rewrite Hus, fmap_app, fmap_cons in Hnd.
  apply NoDup_app in Hnd as (_ & Hpre & Hnd). apply NoDup_cons in Hnd as [Hpost _].
  assert (Hpre' : target ∉ user_id <$> pre).
  { intros Hp. apply (Hpre _ Hp). left. }
  assert (Hsa' : sa' = foldl (App.send_key jwk_json json_jwk (live_net now s skip) alice K rnd)
                         sa (pre ++ ub :: post)).
  { subst sa'. unfold App.distributeRoomKeyIfAdmin. rewrite Hua, Hkey, Hadmin. cbn [negb].
    unfold App.exportAesJwk, Crypto.require_subtle. rewrite Hsubtle. cbn [mbind option_bind].
    by rewrite Hjwk, Hus. }
  rewrite foldl_app in Hsa'. cbn [foldl] in Hsa'.
  destruct (send_keys_others jwk_json json_jwk exportKey_jwk Hsubtle now s skip alice K rnd
              target pre sa)
    as (Hskip1 & Hq1 & Hd1); [done | done |].
  set (sa1 := foldl _ sa pre) in *.
  destruct (send_key_target jwk_json json_jwk Hsubtle now s skip alice K rnd target
              sa1 ub pub priv raw)
    as (Hskip2 & env & K' & Hq2 & Hepk & Hs & Hn & Hc & Hunpack & Hexport);
    try done.
  { by rewrite Hd1. }
  set (sa2 := App.send_key _ _ _ _ _ _ sa1 ub) in *.
  destruct (send_keys_others jwk_json json_jwk exportKey_jwk Hsubtle now s skip alice K rnd
              target post sa2)
    as (_ & Hq3 & _); [done | done |].
  rewrite <- Hsa' in Hq3. fold s' in Hq3. rewrite Hq2 in Hq3.
  (* the poll *)
  destruct (live_fetch now' s' (length (Client.sent (App.client sb)))
              (Relay.heartbeat (user_id bob) (Some (App.r_lastSeq rb))) (App.client sb))
    as [Hfetch _]; [done|].
  assert (Hserved : served now' s' (length (Client.sent (App.client sb)))
                      (Client.sent (App.client sb)) = s').
  { unfold served. by rewrite drop_all. }
  rewrite Hserved in Hfetch.
  exists K'. split; [|done].
  subst sb'. unfold App.syncWithServer, App.fetch. rewrite Hub, Hfetch.
  unfold Relay.POST, Relay.handle_heartbeat. cbn [fst].
  cbn [App.onlineUsers_of App.lastSeq_of App.keyUpdates_of App.devices_of
    App.rooms_of App.newMessages_of Relay.hb_onlineUsers Relay.hb_lastSeq
    Relay.hb_keyUpdates Relay.hb_devices Relay.hb_rooms Relay.newMessages].
  rewrite Hkp, Hbid. fold target. rewrite Hq3. cbn [from_option]. unfold id.
  match goal with |- context [foldl (App.receive_key _ _ ?kp) ?st0 (?q ++ [?upd])] =>
    pose proof (receive_keys_last json_jwk exportKey_jwk kp q upd K' st0) as Hlast end.
  cbv zeta in Hlast. cbn [Relay.envelope Crypto.privateJwk] in Hlast.
  specialize (Hlast ltac:(eexists; split; [exact Hepk | exact Hunpack]) Hs Hn Hc).
  destruct (Relay.messages_since _ _) as [|msg more];
    unfold App.ingest, App.adopt_rooms;
    cbn [App.client App.set_client App.set_devices App.set_entries App.set_chatRooms
         Client.roomKey Client.set_messages Client.set_storage];
    exact Hlast.
Qed.

Lemma strokes_length n : String.length (strokes n) = n.
Proof.
  induction n as [|n IH]; [done|].
  change (String.length (strokes (S n))) with (S (String.length (strokes n))).
  by rewrite IH.
Qed.

Lemma toy_encodings_ok : @encodings_ok toy_crypto toy_jwk_json toy_json_jwk.
Proof.
  split_and!.
  - intros k. unfold toy_jwk_json, toy_json_jwk. case_bool_decide.
    + change (Some (- Z.of_nat (String.length (strokes (Z.to_nat (- k))))) = Some k).
      rewrite strokes_length. f_equal. lia.
    + change (Some (Z.of_nat (String.length (strokes (Z.to_nat k)))) = Some k).
      rewrite strokes_length. f_equal. lia.
  - intros b Hb. destruct b; [done | discriminate].
  - intros k iv m c Hiv [= <-] Hnil.
    apply app_eq_nil in Hnil as [Hnil _]. by apply app_eq_nil in Hnil as [_ ?].
Qed.

Lemma distributed_key_is_received_witness :
  let sa' :=
    @App.distributeRoomKeyIfAdmin toy_crypto toy_jwk_json toy_json_jwk toy_exportKey_jwk
      (App.render alice_app) (live_net 5 Relay.init 0) (λ _, toy_entropy) alice_app in
  let s' := served 5 Relay.init 0 (Client.sent (App.client sa')) in
  let sb' :=
    @App.syncWithServer toy_crypto toy_json_jwk toy_exportKey_jwk toy_utf8Decode
      (App.render bob_waiting) (live_net 6 s' 0) bob_waiting in
  ∃ K', Client.roomKey (App.client sb') = Some K' ∧
        @Crypto.exportAesRaw toy_crypto K' = Some toy_room_key.
Proof.
  apply (@distributed_key_is_received toy_crypto toy_crypto_laws toy_jwk_json toy_json_jwk
           toy_exportKey_jwk toy_utf8Decode [] 5 6 alice bob bob_online
           toy_room_key toy_room_key (λ _, toy_entropy) toy_pub toy_priv
           (App.render alice_app) (App.render bob_waiting) alice_app bob_waiting).
  - reflexivity.
  - apply toy_encodings_ok.
  - reflexivity.
  - reflexivity.
  - reflexivity.
  - reflexivity.
  - by eexists.
  - apply NoDup_cons. split; [intros [=]%list_elem_of_singleton | apply NoDup_singleton].
  - right. left.
  - discriminate.
  - discriminate.
  - apply not_elem_of_empty.
  - reflexivity.
  - split; [unfold toy_priv; lia | reflexivity].
  - split; [simpl; lia | reflexivity].
  - discriminate.
  - discriminate.
  - reflexivity.
  - reflexivity.
  - reflexivity.
Defined.

(** ** Accounts *)

Section accounts.
Context `{Crypto.SubtleCrypto}.
Variable jwk_json : Crypto.JWK → string.
Variable toString : Z → string.

(** What the account functions do beside the storage of users leaves the
    three places of [no_admin] alone. *)
Lemma registerUserOnServer_keeps r net user (st : App.State) :
  let st' := App.registerUserOnServer jwk_json r net user st in
  App.entries st' = App.entries st ∧
  Client.currentUser (App.client st') = Client.currentUser (App.client st).
Proof.
  cbv zeta. unfold App.registerUserOnServer, App.fetch, Client.fetch.
  by repeat case_match.
Qed.

Lemma updateUser_no_admin userId updates (e : Store.Entries) :
  Store.uu_isAdmin updates = None ∨ Store.uu_isAdmin updates = Some false →
  Forall (λ u, isAdmin u = false) (Store.getUsers e) →
  (∀ u, Store.getCurrentUser e = Some u → isAdmin u = false) →
  Forall (λ u, isAdmin u = false) (Store.getUsers (Store.updateUser userId updates e)) ∧
  (∀ u, Store.getCurrentUser (Store.updateUser userId updates e) = Some u →
        isAdmin u = false).
Proof.
  intros Hup Hall Hcur. unfold Store.updateUser.
  assert (Hpatch : ∀ u, isAdmin u = false → isAdmin (Store.patch_user u updates) = false).
  { intros u Hu. simpl. by destruct Hup as [-> | ->]. }
  destruct (Store.findUser userId (Store.getUsers e)) as [i|]; [|done].
  assert (Hall' : Forall (λ u, isAdmin u = false)
                    (alter (λ u, Store.patch_user u updates) i (Store.getUsers e))).
  { apply Forall_alter; [done|]. intros u Hu Hadm. by apply Hpatch. }
  unfold Store.getCurrentUser, Store.setUsers, Store.setCurrentUser, Store.getUsers in *.
  cbn [Store.CURRENT_USER Store.USERS].
  destruct (Store.CURRENT_USER e) as [cur|]; [|done].
  case_bool_decide; cbn [Store.CURRENT_USER Store.USERS].
  - split; [done|]. intros u [= <-]. by apply Hpatch, Hcur.
  - done.
Qed.

Lemma account_step_no_admin (st : App.State) (c : AccountCall) :
  no_admin st → no_admin (account_step jwk_json toString st c).
Proof.
  intros (Hall & Hcur & Hlog). destruct c; simpl.
  - (* login *)
    unfold App.login.
    destruct (List.find _ _) as [user|] eqn:Hfind; [|done].
    apply find_some in Hfind as [Hin _]. apply list_elem_of_In in Hin.
    assert (Huser : isAdmin user = false).
    { rewrite Forall_forall in Hall. by apply Hall. }
    cbn [snd]. unfold App.record_activity.
    match goal with |- context [App.registerUserOnServer _ ?r ?net ?u ?st0] =>
      destruct (registerUserOnServer_keeps r net u st0) as [He Hc];
      set (st1 := App.registerUserOnServer jwk_json r net u st0) in * end.
    unfold no_admin.
    cbn [App.entries App.set_entries App.set_activityLogs App.client] in *.
    rewrite He, Hc. cbn [App.entries App.set_entries App.set_currentUser App.client
      App.set_client Client.currentUser].
    unfold Store.addActivityLog, Store.setCurrentUser, Store.getUsers, Store.getCurrentUser.
    cbn [Store.USERS Store.CURRENT_USER].
    destruct (updateUser_no_admin (user_id user)
                (Store.all_of (mkUser (user_id user) (username user) (displayName user)
                                 (isAdmin user) online seen (publicKeyJwk user)))
                (App.entries st)) as [Hall' _]; [right; simpl; by rewrite Huser | done | done |].
    split_and!; [done | by intros u [= <-] | by intros u [= <-]].
  - (* register *)
    unfold App.register.
    destruct (List.find _ _) as [user|] eqn:Hfind; [done|].
    cbn [snd]. unfold App.record_activity.
    match goal with |- context [App.registerUserOnServer _ ?r ?net ?u ?st0] =>
      destruct (registerUserOnServer_keeps r net u st0) as [He Hc];
      set (st1 := App.registerUserOnServer jwk_json r net u st0) in * end.
    unfold no_admin.
    cbn [App.entries App.set_entries App.set_activityLogs App.client] in *.
    rewrite He, Hc. cbn [App.entries App.set_entries App.set_currentUser App.client
      App.set_client Client.currentUser].
    unfold Store.addActivityLog, Store.setCurrentUser, Store.addUser, Store.setUsers,
      Store.getUsers, Store.getCurrentUser.
    cbn [Store.USERS Store.CURRENT_USER].
    split_and!; [|by intros u [= <-] | by intros u [= <-]].
    apply Forall_app. split; [done|]. by apply Forall_singleton.
  - (* logout *)
    unfold App.logout, no_admin.
    cbn [App.entries App.set_entries App.set_currentUser App.client App.set_client
      Client.currentUser].
    unfold Store.setCurrentUser, Store.getUsers, Store.getCurrentUser.
    cbn [Store.USERS Store.CURRENT_USER].
    split_and!; [|done|done].
    destruct (App.r_currentUser r) as [cur|]; [|done].
    unfold App.record_activity, App.unregisterUserFromServer, App.fetch, Client.fetch.
    cbn [snd App.entries App.set_entries App.set_activityLogs App.set_client].
    unfold Store.addActivityLog. cbn [Store.USERS].
    by destruct (updateUser_no_admin (user_id cur)
                   (Store.mkUserUpdates None None None None (Some offline) (Some seen) None)
                   (App.entries st)) as [Hall' _]; [by left | done | done |].
Qed.

(** X25.  No account function makes an administrator.  If no stored user,
    nor the user the storage has as current, nor the user logged in is an
    administrator, then this is still so after any sequence of calls of
    [login], [register] and [logout], whatever renders the calls were
    created in and whatever the relay answers; and a [sendMessage] on the
    global channel then changes nothing. *)
Theorem accounts_never_make_an_administrator (calls : list AccountCall) (st : App.State)
    id now nonce text :
  no_admin st →
  let st' := foldl (account_step jwk_json toString) st calls in
  no_admin st' ∧
  Client.sendMessage id now nonce text None (App.client st') = App.client st'.
Proof.
  intros Hno. cbv zeta.
  assert (Hinv : no_admin (foldl (account_step jwk_json toString) st calls)).
  { revert st Hno. induction calls as [|c calls IH]; intros st Hno; [done|].
    cbn [foldl]. by apply IH, account_step_no_admin. }
  split; [done|]. destruct Hinv as (_ & _ & Hlog).
  unfold Client.sendMessage.
  destruct (Client.currentUser _) as [user|] eqn:Hu; [|done].
  by rewrite (Hlog user eq_refl).
Qed.

End accounts.

Lemma accounts_never_make_an_administrator_witness :
  let st' := foldl (@account_step toy_crypto toy_jwk_json toy_toString) fresh_app carol_calls in
  no_admin st' ∧
  @Client.sendMessage toy_crypto "m1" 10 [Byte.x0c] "hello" None (App.client st')
  = App.client st'.
Proof.
  apply (@accounts_never_make_an_administrator toy_crypto toy_jwk_json toy_toString
           carol_calls fresh_app "m1"%string 10 [Byte.x0c] "hello"%string).
  split_and!; [apply Forall_nil_2 | discriminate | discriminate].
Defined.

(** * Rooms, from one client to the others *)

Lemma find_unique {A} (p : A → bool) (l : list A) (x : A) :
  x ∈ l → p x = true → (∀ y, y ∈ l → p y = true → y = x) → List.find p l = Some x.
Proof.
  induction l as [|a l IH]; intros Hin Hp Huniq; [by apply elem_of_nil in Hin|].
  simpl. destruct (p a) eqn:Ha.
  - f_equal. apply Huniq; [left | done].
  - apply IH; [|done|].
    + apply elem_of_cons in Hin as [->|Hin]; [congruence | done].
    + intros y Hy. apply Huniq. by right.
Qed.

Lemma find_absent {A} (p : A → bool) (l : list A) :
  (∀ y, y ∈ l → p y = false) → List.find p l = None.
Proof.
  induction l as [|a l IH]; intros Hno; [done|].
  simpl. rewrite (Hno a) by left. apply IH. intros y Hy. apply Hno. by right.
Qed.

(** The relay stores every room under its id, so the room a client takes
    for an id, in a list of the relay's rooms, is the relay's room. *)
Lemma room_known_values (s : Relay.State) rid :
  rooms_ok s → room_known rid (Relay.values (Relay.rooms s)) = Relay.rooms s !! rid.
Proof.
  intros Hok. unfold room_known, Relay.values.
  destruct (Relay.rooms s !! rid) as [r|] eqn:Hr.
  - apply find_unique.
    + apply list_elem_of_fmap. exists (rid, r). split; [done|].
      by apply elem_of_map_to_list.
    + destruct (Hok _ _ Hr) as [-> _]. by apply bool_decide_eq_true_2.
    + intros y [[k y'] [-> Hy]]%list_elem_of_fmap Hp.
      apply elem_of_map_to_list in Hy. simpl in Hp.
      apply bool_decide_eq_true_1 in Hp. injection Hp as Hp.
      destruct (Hok _ _ Hy) as [Hk _]. simpl. rewrite Hk in Hp. subst k. congruence.
  - apply find_absent.
    intros y [[k y'] [-> Hy]]%list_elem_of_fmap.
    apply elem_of_map_to_list in Hy. simpl.
    apply bool_decide_eq_false_2. intros [= Hp].
    destruct (Hok _ _ Hy) as [Hk _]. rewrite Hk in Hp. subst k. congruence.
Qed.

(** Who may write to a room, by the room the client takes for the id. *)
Lemma can_send_room (user : User) rid rooms :
  rid ≠ EmptyString →
  can_send user (Some rid) rooms ↔
  ∃ room, room_known rid rooms = Some room ∧
          (isPublic room = true ∨ user_id user ∈ participants room).
Proof.
  intros Hrid. unfold can_send, room_known.
  assert (Ht : truthy (Some rid) = true) by by apply bool_decide_eq_true_2.
  rewrite Ht. split; [|by right].
  by intros [[? _]|[_ ?]].
Qed.

(** One request to a live relay that has seen none of the client's
    requests. *)
Lemma single_request `{Crypto.SubtleCrypto} now (s : Relay.State) (c : Client.State) req :
  live_net now s (length (Client.sent c)) (Client.sent c ++ [req])
  = Some (Relay.POST now req s).1 ∧
  served now s (length (Client.sent c)) (Client.sent c ++ [req]) = (Relay.POST now req s).2.
Proof.
  unfold live_net, served. by rewrite drop_app_length.
Qed.

Section rooms.
Context `{Crypto.SubtleCrypto}.
Variable json_jwk : string → option Crypto.JWK.
Variable exportKey_jwk : Crypto.CryptoKey → option Crypto.JWK.
Variable utf8Decode : bytes → string.

Lemma receive_keys_rooms kp upds (st : App.State) :
  let st' := foldl (App.receive_key json_jwk exportKey_jwk kp) st upds in
  Client.chatRooms (App.client st') = Client.chatRooms (App.client st) ∧
  App.entries st' = App.entries st ∧
  Client.currentUser (App.client st') = Client.currentUser (App.client st).
Proof.
  revert st. induction upds as [|upd upds IH]; intros st; cbv zeta; [done|].
  cbn [foldl]. destruct (IH (App.receive_key json_jwk exportKey_jwk kp st upd))
    as (-> & -> & ->).
  unfold App.receive_key. by repeat case_match.
Qed.

(** A poll adopts the rooms of the relay. *)
Lemma sync_rooms (r : App.Render) now (s : Relay.State) (st : App.State) user :
  App.r_currentUser r = Some user →
  let st' :=
    App.syncWithServer json_jwk exportKey_jwk utf8Decode r
      (live_net now s (length (Client.sent (App.client st)))) st in
  Client.chatRooms (App.client st') = Relay.values (Relay.rooms s) ∧
  Store.getChatRooms (App.entries st') = Relay.values (Relay.rooms s) ∧
  Client.currentUser (App.client st') = Client.currentUser (App.client st).
Proof.
  intros Hu. cbv zeta. unfold App.syncWithServer, App.fetch, Client.fetch.
  rewrite Hu.
  destruct (single_request now s (App.client st)
              (Relay.heartbeat (user_id user) (Some (App.r_lastSeq r)))) as [-> _].
  unfold Relay.POST, Relay.handle_heartbeat. cbn [fst].
  cbn [App.onlineUsers_of App.lastSeq_of App.keyUpdates_of App.devices_of
    App.rooms_of App.newMessages_of Relay.hb_onlineUsers Relay.hb_lastSeq
    Relay.hb_keyUpdates Relay.hb_devices Relay.hb_rooms Relay.newMessages].
  match goal with |- context [App.adopt_rooms ?rs ?st0] =>
    set (st1 := App.adopt_rooms rs st0);
    assert (Hst1 : Client.chatRooms (App.client st1) = Relay.values (Relay.rooms s) ∧
                   Store.getChatRooms (App.entries st1) = Relay.values (Relay.rooms s) ∧
                   Client.currentUser (App.client st1) = Client.currentUser (App.client st))
  end.
  { subst st1. unfold App.adopt_rooms. split_and!; [done|done|].
    cbn [App.client App.set_entries App.set_chatRooms App.set_client App.set_devices
      Client.currentUser].
    destruct (App.r_userKeyPair r) as [kp|]; [|done].
    match goal with |- context [foldl (App.receive_key _ _ kp) ?st0 ?upds] =>
      destruct (receive_keys_rooms kp upds st0) as (_ & _ & ->) end.
    done. }
  destruct (Relay.messages_since _ _); [done|].
  unfold App.ingest. exact Hst1.
Qed.

End rooms.

(** X26.  A room that is created is there for everybody.  A logged-in user
    with a non-empty id creates a room with a non-empty name through a
    reachable relay that has no room of the generated id.  The creator then
    knows the room as the relay made it: with the creator as owner and only
    participant, without admins, created at the relay's time.  Any logged-in
    user knows the same room after the next poll, has it in the local
    storage, and may write to it exactly if the room is public or the user
    is the creator. *)
Theorem created_room_is_shared `{Crypto.SubtleCrypto}
    (json_jwk : string → option Crypto.JWK)
    (exportKey_jwk : Crypto.CryptoKey → option Crypto.JWK) (utf8Decode : bytes → string)
    (toString : Z → string)
    before now now' idNow created (alice bob : User) name public
    (ra rb : App.Render) (sa sb : App.State) :
  let s := Relay.run before Relay.init in
  let rid := toString idNow in
  App.r_currentUser ra = Some alice → user_id alice ≠ EmptyString →
  name ≠ EmptyString → rid ≠ EmptyString →
  Relay.rooms s !! rid = None →
  App.r_currentUser rb = Some bob →
  let sa' :=
    App.createChatRoom toString ra (live_net now s (length (Client.sent (App.client sa))))
      idNow created name public sa in
  let s' := served now s (length (Client.sent (App.client sa))) (Client.sent (App.client sa')) in
  let sb' :=
    App.syncWithServer json_jwk exportKey_jwk utf8Decode rb
      (live_net now' s' (length (Client.sent (App.client sb)))) sb in
  let room := mkRoom rid name [user_id alice] (user_id alice) now public (Some []) in
  room_known rid (Client.chatRooms (App.client sa')) = Some room ∧
  room_known rid (Client.chatRooms (App.client sb')) = Some room ∧
  Store.getChatRooms (App.entries sb') = Client.chatRooms (App.client sb') ∧
  (can_send bob (Some rid) (Client.chatRooms (App.client sb')) ↔
   public = true ∨ user_id bob = user_id alice).
Proof.
  intros s rid Hua Hid Hname Hrid Hfree Hub sa' s' sb' room.
  assert (Hok : rooms_ok s) by apply rooms_ok_run, rooms_ok_init.
  set (req := Relay.create_room
                (Relay.mkCreateRoom (Some rid) (Some name) (Some (user_id alice)) public
                   (Some [user_id alice]) (Some []))).
  (* the relay's answer *)
  assert (Hpost : Relay.POST now req s
                  = (Relay.ok (Relay.room_list (Relay.values (<[rid := room]> (Relay.rooms s)))),
                     Relay.set_rooms s (<[rid := room]> (Relay.rooms s)))).
  { unfold req, Relay.POST, Relay.handle_create_room.
    cbn [Relay.cr_id Relay.cr_name Relay.cr_createdBy Relay.cr_isPublic
      Relay.cr_participants Relay.cr_admins].
    unfold truthy. rewrite !bool_decide_eq_true_2 by done. cbn [negb orb].
    rewrite Hfree. rewrite bool_decide_eq_false_2 by by intros [? ?].
    assert (Hset : array_from_set (default [] (Some [user_id alice]) ++ [user_id alice])
                   = [user_id alice]).
    { unfold array_from_set, set_add. cbn [from_option]. unfold id. cbn [app foldl].
      rewrite (bool_decide_eq_false_2 (user_id alice ∈ [])) by apply not_elem_of_nil.
      cbn [app]. rewrite bool_decide_eq_true_2; [done|]. left. }
    by rewrite Hset. }
  (* the creator *)
  assert (Hsa' : Client.chatRooms (App.client sa') = Relay.values (<[rid := room]> (Relay.rooms s)) ∧
                 Client.sent (App.client sa') = Client.sent (App.client sa) ++ [req]).
  { subst sa'. unfold App.createChatRoom. rewrite Hua.
    cbn [room_id room_name createdBy isPublic participants admins].
    fold rid. fold req. unfold App.fetch, Client.fetch.
    cbn [App.client App.set_chatRooms App.set_entries App.set_client Client.sent].
    destruct (single_request now s (App.client sa) req) as [-> _].
    rewrite Hpost. cbn [fst]. unfold App.adopt_listed. cbn [App.rooms_of].
    by unfold App.adopt_rooms. }
  destruct Hsa' as [Hrooms Hsent].
  assert (Hs' : s' = Relay.set_rooms s (<[rid := room]> (Relay.rooms s))).
  { subst s'. rewrite Hsent.
    destruct (single_request now s (App.client sa) req) as [_ ->]. by rewrite Hpost. }
  assert (Hok' : rooms_ok s').
  { rewrite Hs'. intros k r. cbn [Relay.rooms Relay.set_rooms].
    intros [[<- <-]|[_ Hr]]%lookup_insert_Some; [|by apply Hok].
    split; [done|]. unfold owner_inv. simpl. left. }
  assert (Hat : Relay.rooms s' !! rid = Some room).
  { rewrite Hs'. cbn [Relay.rooms Relay.set_rooms]. by rewrite lookup_insert_eq. }
  destruct (sync_rooms json_jwk exportKey_jwk utf8Decode rb now' s' sb bob Hub)
    as (Hb & Hstore & _).
  fold sb' in Hb, Hstore.
  assert (Hknown : room_known rid (Client.chatRooms (App.client sb')) = Some room).
  { by rewrite Hb, room_known_values. }
  split_and!.
  - rewrite Hrooms. rewrite <- Hat. rewrite <- (room_known_values s' rid Hok').
    by rewrite Hs'.
  - done.
  - by rewrite Hb.
  - rewrite can_send_room by done. rewrite Hknown. split.
    + intros (r & [= <-] & [Hp|Hin]); [by left|right].
      simpl in Hin. by apply list_elem_of_singleton in Hin.
    + intros Hcase. exists room. split; [done|].
      destruct Hcase as [Hp|Heq]; [by left|right]. simpl. rewrite Heq. left.
Qed.

Lemma created_room_is_shared_witness :
  let sa' :=
    @App.createChatRoom toy_crypto toy_toString (App.render alice_app)
      (live_net 6 Relay.init 0) 5 5 "Lounge" false alice_app in
  let s' := served 6 Relay.init 0 (Client.sent (App.client sa')) in
  let sb' :=
    @App.syncWithServer toy_crypto toy_json_jwk toy_exportKey_jwk toy_utf8Decode
      (App.render bob_app) (live_net 7 s' 0) bob_app in
  let room := mkRoom (toy_toString 5) "Lounge" ["alice"%string] "alice" 6 false (Some []) in
  room_known (toy_toString 5) (Client.chatRooms (App.client sa')) = Some room ∧
  room_known (toy_toString 5) (Client.chatRooms (App.client sb')) = Some room ∧
  Store.getChatRooms (App.entries sb') = Client.chatRooms (App.client sb') ∧
  (can_send bob (Some (toy_toString 5)) (Client.chatRooms (App.client sb')) ↔
   false = true ∨ user_id bob = user_id alice).
Proof.
  apply (@created_room_is_shared toy_crypto toy_json_jwk toy_exportKey_jwk toy_utf8Decode
           toy_toString [] 6 7 5 5 alice bob "Lounge"%string false
           (App.render alice_app) (App.render bob_app) alice_app bob_app).
  - reflexivity.
  - discriminate.
  - discriminate.
  - discriminate.
  - reflexivity.
  - reflexivity.
Defined.

(** ** Changes to a room *)

(** The relay's answer to an [update_room] with one mutation. *)
Lemma update_room_answer now (s : Relay.State) rid room actor op :
  rooms_ok s → Relay.rooms s !! rid = Some room →
  let r' := Relay.mutate (Relay.single rid actor op) room in
  let rooms' := <[rid := r']> (Relay.rooms s) in
  Relay.POST now (Relay.update_room (Relay.single rid actor op)) s
  = if Relay.is_room_admin actor room
    then (Relay.ok (Relay.room_updated r' (Relay.values rooms')), Relay.set_rooms s rooms')
    else (Relay.error 403 "Forbidden", s).
Proof.
  intros Hok Hr. cbv zeta. unfold Relay.POST, Relay.handle_update_room.
  replace (Relay.ur_roomId (Relay.single rid actor op)) with rid by by destruct op.
  replace (Relay.byUserId (Relay.single rid actor op)) with actor by by destruct op.
  rewrite Hr. destruct (Relay.is_room_admin actor room); [|done].
  cbn [negb]. destruct (Hok _ _ Hr) as [Hid _].
  by rewrite room_id_mutate, Hid, insert_insert_eq.
Qed.

(** The relay's answer to a [delete_room]. *)
Lemma delete_room_answer now (s : Relay.State) rid actor :
  Relay.POST now (Relay.delete_room rid actor) s
  = match Relay.rooms s !! rid with
    | None => (Relay.ok Relay.success, s)
    | Some r =>
        if bool_decide (createdBy r = actor)
        then (Relay.ok (Relay.room_list (Relay.values (delete rid (Relay.rooms s)))),
              Relay.set_rooms s (delete rid (Relay.rooms s)))
        else (Relay.error 403 "Forbidden", s)
    end.
Proof.
  unfold Relay.POST, Relay.handle_delete_room.
  destruct (Relay.rooms s !! rid); [|done]. by case_bool_decide.
Qed.

Section calls.
Context `{Crypto.SubtleCrypto}.

(** What the room operations of the client share: one request, and the
    rooms of the answer adopted if it has any. *)
Lemma room_call now (s : Relay.State) req (sa : App.State) :
  let res :=
    let '(res, st) :=
      App.fetch (live_net now s (length (Client.sent (App.client sa)))) req sa in
    App.adopt_listed res st in
  let post := Relay.POST now req s in
  served now s (length (Client.sent (App.client sa))) (Client.sent (App.client res.2)) = post.2 ∧
  Client.currentUser (App.client res.2) = Client.currentUser (App.client sa) ∧
  match post.1 with
  | Relay.ok data =>
      match App.rooms_of data with
      | Some rs =>
          res.1 = true ∧ Client.chatRooms (App.client res.2) = rs ∧
          Store.getChatRooms (App.entries res.2) = rs
      | None =>
          res.1 = false ∧
          Client.chatRooms (App.client res.2) = Client.chatRooms (App.client sa)
      end
  | Relay.error _ _ =>
      res.1 = false ∧ Client.chatRooms (App.client res.2) = Client.chatRooms (App.client sa)
  end.
Proof.
  cbv zeta. unfold App.fetch, Client.fetch.
  destruct (single_request now s (App.client sa) req) as [-> Hserved].
  unfold App.adopt_listed.
  destruct (Relay.POST now req s).1 as [data|code msg] eqn:Hpost.
  - destruct (App.rooms_of data) as [rs|]; by split_and!.
  - by split_and!.
Qed.

End calls.

Lemma mutate_removeParticipant rid actor target room :
  target ≠ EmptyString →
  Relay.mutate (Relay.single rid actor (Relay.op_removeParticipant target)) room
  = Relay.do_removeParticipant target room.
Proof.
  intros Ht. unfold Relay.mutate, Relay.single, Relay.when_set, truthy. simpl.
  by rewrite bool_decide_eq_true_2.
Qed.

Lemma mutate_addAdmin rid actor target room :
  target ≠ EmptyString →
  Relay.mutate (Relay.single rid actor (Relay.op_addAdmin target)) room
  = Relay.do_addAdmin target room.
Proof.
  intros Ht. unfold Relay.mutate, Relay.single, Relay.when_set, truthy. simpl.
  by rewrite bool_decide_eq_true_2.
Qed.

Lemma mutate_removeAdmin rid actor target room :
  target ≠ EmptyString →
  Relay.mutate (Relay.single rid actor (Relay.op_removeAdmin target)) room
  = Relay.do_removeAdmin target room.
Proof.
  intros Ht. unfold Relay.mutate, Relay.single, Relay.when_set, truthy. simpl.
  by rewrite bool_decide_eq_true_2.
Qed.

Lemma mutate_transferOwnerTo rid actor target room :
  target ≠ EmptyString →
  Relay.mutate (Relay.single rid actor (Relay.op_transferOwnerTo target)) room
  = Relay.do_transferOwnerTo actor target room.
Proof.
  intros Ht. unfold Relay.mutate, Relay.single, Relay.when_set, truthy. simpl.
  by rewrite bool_decide_eq_true_2.
Qed.

(** The relay after a request is a state the relay can be in. *)
Lemma rooms_ok_POST now req (s : Relay.State) :
  rooms_ok s → rooms_ok (Relay.POST now req s).2.
Proof. intros Hok. exact (rooms_ok_step s (Relay.request now req) Hok). Qed.

(** X27.  Who may write to a room after a kick.  The owner or an admin of a
    room kicks a user through a reachable relay: [kickMember] returns
    [true], and after the next poll of any logged-in user that user may
    write to the room exactly if the room is public, or the user was a
    participant and is not the one kicked, or is the owner: a kick takes the
    right to write in a private room only, and never from the owner. *)
Theorem kick_takes_the_right_to_write `{Crypto.SubtleCrypto}
    (json_jwk : string → option Crypto.JWK)
    (exportKey_jwk : Crypto.CryptoKey → option Crypto.JWK) (utf8Decode : bytes → string)
    before now now' (alice bob : User) rid target room
    (ra rb : App.Render) (sa sb : App.State) :
  let s := Relay.run before Relay.init in
  App.r_currentUser ra = Some alice →
  Relay.rooms s !! rid = Some room →
  Relay.is_room_admin (user_id alice) room = true →
  rid ≠ EmptyString → target ≠ EmptyString →
  App.r_currentUser rb = Some bob →
  let res :=
    App.kickMember ra (live_net now s (length (Client.sent (App.client sa)))) rid target sa in
  let s' :=
    served now s (length (Client.sent (App.client sa))) (Client.sent (App.client res.2)) in
  let sb' :=
    App.syncWithServer json_jwk exportKey_jwk utf8Decode rb
      (live_net now' s' (length (Client.sent (App.client sb)))) sb in
  res.1 = true ∧
  (can_send bob (Some rid) (Client.chatRooms (App.client sb')) ↔
   isPublic room = true ∨
   (user_id bob ∈ participants room ∧ (user_id bob ≠ target ∨ user_id bob = createdBy room))).
Proof.
  intros s Hua Hr Hadm Hrid Htarget Hub res s' sb'.
  assert (Hok : rooms_ok s) by apply rooms_ok_run, rooms_ok_init.
  set (req := Relay.update_room
                (Relay.single rid (user_id alice) (Relay.op_removeParticipant target))).
  pose proof (update_room_answer now s rid room (user_id alice)
                (Relay.op_removeParticipant target) Hok Hr) as Hpost.
  cbv zeta in Hpost. rewrite Hadm, mutate_removeParticipant in Hpost by done.
  fold req in Hpost.
  assert (Hres : res.1 = true ∧ s' = (Relay.POST now req s).2).
  { subst res s'. unfold App.kickMember. rewrite Hua. fold req.
    destruct (room_call now s req sa) as (Hserved & _ & Hcase). cbv zeta in Hserved, Hcase.
    rewrite Hpost in Hcase. cbn [fst App.rooms_of] in Hcase.
    destruct Hcase as (Hdone & _). by split. }
  destruct Hres as [Hdone Hs']. split; [done|].
  assert (Hok' : rooms_ok s') by (rewrite Hs'; by apply rooms_ok_POST).
  destruct (sync_rooms json_jwk exportKey_jwk utf8Decode rb now' s' sb bob Hub) as (Hb & _ & _).
  fold sb' in Hb.
  rewrite can_send_room, Hb, room_known_values by done.
  rewrite Hs', Hpost. cbn [snd Relay.rooms Relay.set_rooms]. rewrite lookup_insert_eq.
  destruct (Hok _ _ Hr) as [_ Hown]. unfold owner_inv in Hown.
  split.
  - intros (r & [= <-] & [Hp|Hin]); [by left|right].
    simpl in Hin. apply elem_of_push_if_absent in Hin as [Hin | ->].
    + apply elem_of_without in Hin as [Hin Hne]. split; [done | by left].
    + split; [done | by right].
  - intros Hcase. eexists. split; [done|].
    destruct Hcase as [Hp|[Hin Hwho]]; [by left|right].
    simpl. apply elem_of_push_if_absent.
    destruct Hwho as [Hne | ->]; [left | by right].
    by apply elem_of_without.
Qed.

Lemma kick_takes_the_right_to_write_witness :
  let s := Relay.run vault_created Relay.init in
  let res :=
    @App.kickMember toy_crypto (App.render alice_app) (live_net 2 s 0) "vault" "bob"
      alice_app in
  let s' := served 2 s 0 (Client.sent (App.client res.2)) in
  let sb' :=
    @App.syncWithServer toy_crypto toy_json_jwk toy_exportKey_jwk toy_utf8Decode
      (App.render bob_app) (live_net 3 s' 0) bob_app in
  res.1 = true ∧
  (can_send bob (Some "vault"%string) (Client.chatRooms (App.client sb')) ↔
   isPublic vault = true ∨
   (user_id bob ∈ participants vault ∧
    (user_id bob ≠ "bob"%string ∨ user_id bob = createdBy vault))).
Proof.
  apply (@kick_takes_the_right_to_write toy_crypto toy_json_jwk toy_exportKey_jwk
           toy_utf8Decode vault_created 2 3 alice bob "vault"%string "bob"%string vault
           (App.render alice_app) (App.render bob_app) alice_app bob_app).
  - reflexivity.
  - vm_compute. reflexivity.
  - reflexivity.
  - discriminate.
  - discriminate.
  - reflexivity.
Defined.

(** Whether a room operation of the client succeeds is whether the relay
    takes the acting user for an admin of the room. *)
Lemma update_room_call `{Crypto.SubtleCrypto} now (s : Relay.State) rid room actor op
    (sa : App.State) :
  rooms_ok s → Relay.rooms s !! rid = Some room →
  let req := Relay.update_room (Relay.single rid actor op) in
  let res :=
    let '(res, st) :=
      App.fetch (live_net now s (length (Client.sent (App.client sa)))) req sa in
    App.adopt_listed res st in
  let r' := Relay.mutate (Relay.single rid actor op) room in
  let s' := served now s (length (Client.sent (App.client sa))) (Client.sent (App.client res.2)) in
  res.1 = Relay.is_room_admin actor room ∧
  rooms_ok s' ∧
  Relay.rooms s' !! rid = Some (if Relay.is_room_admin actor room then r' else room).
Proof.
  intros Hok Hr req res r' s'.
  destruct (room_call now s req sa) as (Hserved & _ & Hcase). cbv zeta in Hserved, Hcase.
  fold res in Hserved, Hcase. fold s' in Hserved.
  pose proof (update_room_answer now s rid room actor op Hok Hr) as Hpost.
  cbv zeta in Hpost. fold req r' in Hpost.
  assert (Hok' : rooms_ok s') by (rewrite Hserved; by apply rooms_ok_POST).
  rewrite Hserved. rewrite Hpost in Hcase |- *.
  destruct (Relay.is_room_admin actor room); cbn [fst snd App.rooms_of] in Hcase |- *.
  - destruct Hcase as (-> & _). split_and!; [done | | ].
    + rewrite Hserved, Hpost in Hok'. exact Hok'.
    + cbn [Relay.rooms Relay.set_rooms]. by rewrite lookup_insert_eq.
  - destruct Hcase as (-> & _). split_and!; [done | | done].
    rewrite Hserved, Hpost in Hok'. exact Hok'.
Qed.

(** X28.  Room admins are made and unmade.  The owner or an admin of a room
    calls [setRoomAdmin] for a user through a reachable relay: the call
    returns [true], and a [kickMember] on that room by that user afterwards
    succeeds exactly if the user was made an admin or owns the room;
    whoever is to be kicked. *)
Theorem room_admins_are_made_and_unmade `{Crypto.SubtleCrypto}
    before now now' (alice bob : User) rid target room (make : bool)
    (ra rb : App.Render) (sa sb : App.State) :
  let s := Relay.run before Relay.init in
  App.r_currentUser ra = Some alice →
  Relay.rooms s !! rid = Some room →
  Relay.is_room_admin (user_id alice) room = true →
  user_id bob ≠ EmptyString →
  App.r_currentUser rb = Some bob →
  let res :=
    App.setRoomAdmin ra (live_net now s (length (Client.sent (App.client sa)))) rid
      (user_id bob) make sa in
  let s' :=
    served now s (length (Client.sent (App.client sa))) (Client.sent (App.client res.2)) in
  let res' :=
    App.kickMember rb (live_net now' s' (length (Client.sent (App.client sb)))) rid target sb in
  res.1 = true ∧
  (res'.1 = true ↔ make = true ∨ createdBy room = user_id bob).
Proof.
  intros s Hua Hr Hadm Hbob Hub res s' res'.
  assert (Hok : rooms_ok s) by apply rooms_ok_run, rooms_ok_init.
  set (op := if make then Relay.op_addAdmin (user_id bob)
             else Relay.op_removeAdmin (user_id bob)).
  destruct (update_room_call now s rid room (user_id alice) op sa Hok Hr)
    as (Hdone & Hok' & Hr').
  cbv zeta in Hdone, Hok', Hr'. rewrite Hadm in Hdone, Hr'.
  assert (Hres : res = (let '(res, st) :=
                          App.fetch (live_net now s (length (Client.sent (App.client sa))))
                            (Relay.update_room (Relay.single rid (user_id alice) op)) sa in
                        App.adopt_listed res st)).
  { subst res. unfold App.setRoomAdmin. by rewrite Hua. }
  rewrite <- Hres in Hdone, Hok', Hr'. fold s' in Hok', Hr'.
  split; [done|].
  destruct (update_room_call now' s' rid _ (user_id bob) (Relay.op_removeParticipant target)
              sb Hok' Hr') as (Hdone' & _).
  cbv zeta in Hdone'.
  assert (Hres' : res' = (let '(res, st) :=
                            App.fetch (live_net now' s' (length (Client.sent (App.client sb))))
                              (Relay.update_room
                                 (Relay.single rid (user_id bob)
                                    (Relay.op_removeParticipant target))) sb in
                          App.adopt_listed res st)).
  { subst res'. unfold App.kickMember. by rewrite Hub. }
  rewrite <- Hres' in Hdone'. rewrite Hdone'. clear Hdone' Hres' Hres.
  unfold Relay.is_room_admin. subst op. destruct make.
  - rewrite mutate_addAdmin by done. unfold Relay.do_addAdmin.
    split; [by left|]. intros _. apply orb_true_iff.
    destruct (decide (user_id bob = createdBy room)) as [Heq|Hne].
    + rewrite (bool_decide_eq_false_2 (user_id bob ≠ createdBy room)) by by intros ?.
      left. by apply bool_decide_eq_true_2.
    + rewrite (bool_decide_eq_true_2 (user_id bob ≠ createdBy room)) by done.
      cbn [createdBy admins Relay.set_participants Relay.set_admins]. right.
      apply includes_true, elem_of_array_from_set, elem_of_app. right. left.
  - rewrite mutate_removeAdmin by done. unfold Relay.do_removeAdmin.
    cbn [createdBy admins Relay.set_admins]. rewrite orb_true_iff. split.
    + intros [Hown%bool_decide_eq_true_1 | Hin%includes_true]; [by right|].
      apply elem_of_without in Hin as [_ Hne]. done.
    + intros [?|Hown]; [done|]. left. by apply bool_decide_eq_true_2.
Qed.

Lemma room_admins_are_made_and_unmade_witness :
  let s := Relay.run vault_created Relay.init in
  let res :=
    @App.setRoomAdmin toy_crypto (App.render alice_app) (live_net 2 s 0) "vault"
      (user_id bob) true alice_app in
  let s' := served 2 s 0 (Client.sent (App.client res.2)) in
  let res' :=
    @App.kickMember toy_crypto (App.render bob_app) (live_net 3 s' 0) "vault" "alice"
      bob_app in
  res.1 = true ∧
  (res'.1 = true ↔ true = true ∨ createdBy vault = user_id bob).
Proof.
  apply (@room_admins_are_made_and_unmade toy_crypto vault_created 2 3 alice bob
           "vault"%string "alice"%string vault true
           (App.render alice_app) (App.render bob_app) alice_app bob_app).
  - reflexivity.
  - vm_compute. reflexivity.
  - reflexivity.
  - discriminate.
  - reflexivity.
Defined.

(** X29.  Ownership is handed over, and with it the right to delete.  The
    owner or an admin of a room calls [transferRoomOwner] for a user
    through a reachable relay: the call returns [true].  A
    [deleteChatRoom] by that user afterwards succeeds exactly if the user
    was a participant of the room.  If it succeeds, no user may write to
    the room after their next poll; if it fails, the room is, after the next
    poll of any user, known to them as it was before the two calls. *)
Theorem ownership_is_handed_over `{Crypto.SubtleCrypto}
    (json_jwk : string → option Crypto.JWK)
    (exportKey_jwk : Crypto.CryptoKey → option Crypto.JWK) (utf8Decode : bytes → string)
    before now now' now'' (alice bob carol : User) rid room
    (ra rb rc : App.Render) (sa sb sc : App.State) :
  let s := Relay.run before Relay.init in
  App.r_currentUser ra = Some alice →
  Relay.rooms s !! rid = Some room →
  Relay.is_room_admin (user_id alice) room = true →
  rid ≠ EmptyString → user_id bob ≠ EmptyString →
  App.r_currentUser rb = Some bob →
  App.r_currentUser rc = Some carol →
  let res :=
    App.transferRoomOwner ra (live_net now s (length (Client.sent (App.client sa)))) rid
      (user_id bob) sa in
  let s' :=
    served now s (length (Client.sent (App.client sa))) (Client.sent (App.client res.2)) in
  let res' :=
    App.deleteChatRoom rb (live_net now' s' (length (Client.sent (App.client sb)))) rid sb in
  let s'' :=
    served now' s' (length (Client.sent (App.client sb))) (Client.sent (App.client res'.2)) in
  let sc' :=
    App.syncWithServer json_jwk exportKey_jwk utf8Decode rc
      (live_net now'' s'' (length (Client.sent (App.client sc)))) sc in
  res.1 = true ∧
  (res'.1 = true ↔ user_id bob ∈ participants room) ∧
  (res'.1 = true → ¬ can_send carol (Some rid) (Client.chatRooms (App.client sc'))) ∧
  (res'.1 = false → room_known rid (Client.chatRooms (App.client sc')) = Some room).
Proof.
  intros s Hua Hr Hadm Hrid Hbob Hub Huc res s' res' s'' sc'.
  assert (Hok : rooms_ok s) by apply rooms_ok_run, rooms_ok_init.
  (* the transfer *)
  destruct (update_room_call now s rid room (user_id alice)
              (Relay.op_transferOwnerTo (user_id bob)) sa Hok Hr) as (Hdone & Hok' & Hr').
  cbv zeta in Hdone, Hok', Hr'. rewrite Hadm in Hdone, Hr'.
  assert (Hres : res = (let '(res, st) :=
                          App.fetch (live_net now s (length (Client.sent (App.client sa))))
                            (Relay.update_room
                               (Relay.single rid (user_id alice)
                                  (Relay.op_transferOwnerTo (user_id bob)))) sa in
                        App.adopt_listed res st)).
  { subst res. unfold App.transferRoomOwner. by rewrite Hua. }
  rewrite <- Hres in Hdone, Hok', Hr'. fold s' in Hok', Hr'.
  rewrite mutate_transferOwnerTo in Hr' by done.
  split; [done|]. clear Hdone Hres.
  (* the deletion *)
  set (req := Relay.delete_room rid (user_id bob)).
  assert (Hres' : res' = (let '(res, st) :=
                            App.fetch (live_net now' s' (length (Client.sent (App.client sb))))
                              req sb in
                          App.adopt_listed res st)).
  { subst res'. unfold App.deleteChatRoom. by rewrite Hub. }
  destruct (room_call now' s' req sb) as (Hserved & _ & Hcase). cbv zeta in Hserved, Hcase.
  rewrite <- Hres' in Hserved, Hcase. fold s'' in Hserved. clear Hres'.
  assert (Hok'' : rooms_ok s'') by (rewrite Hserved; by apply rooms_ok_POST).
  destruct (sync_rooms json_jwk exportKey_jwk utf8Decode rc now'' s'' sc carol Huc)
    as (Hc & _ & _).
  fold sc' in Hc.
  rewrite can_send_room, Hc, room_known_values by done.
  unfold req in Hserved, Hcase. rewrite delete_room_answer, Hr' in Hserved, Hcase.
  destruct (Hok _ _ Hr) as [_ Hown]. unfold owner_inv in Hown.
  unfold Relay.do_transferOwnerTo in Hserved, Hcase, Hr'.
  destruct (includes (participants room) (user_id bob)) eqn:Hin.
  - apply includes_true in Hin.
    cbn [createdBy Relay.set_admins Relay.set_createdBy] in Hserved, Hcase.
    rewrite bool_decide_eq_true_2 in Hserved, Hcase by done.
    cbn [fst snd App.rooms_of] in Hserved, Hcase. destruct Hcase as (Hdone' & _).
    rewrite Hdone', Hserved. cbn [Relay.rooms Relay.set_rooms]. rewrite lookup_delete_eq.
    split_and!; [done | | done].
    intros _ (r & Hnone & _). done.
  - assert (Hout : user_id bob ∉ participants room).
    { intros Hin'%includes_true. congruence. }
    rewrite bool_decide_eq_false_2 in Hserved, Hcase by (intros Heq; by rewrite Heq in Hown).
    cbn [fst snd] in Hserved, Hcase. destruct Hcase as (Hdone' & _).
    rewrite Hdone', Hserved, Hr'. by split_and!.
Qed.

Lemma ownership_is_handed_over_witness :
  let s := Relay.run vault_created Relay.init in
  let res :=
    @App.transferRoomOwner toy_crypto (App.render alice_app) (live_net 2 s 0) "vault"
      (user_id bob) alice_app in
  let s' := served 2 s 0 (Client.sent (App.client res.2)) in
  let res' :=
    @App.deleteChatRoom toy_crypto (App.render bob_app) (live_net 3 s' 0) "vault" bob_app in
  let s'' := served 3 s' 0 (Client.sent (App.client res'.2)) in
  let sc' :=
    @App.syncWithServer toy_crypto toy_json_jwk toy_exportKey_jwk toy_utf8Decode
      (App.render alice_app) (live_net 4 s'' (length (Client.sent (App.client alice_app))))
      alice_app in
  res.1 = true ∧
  (res'.1 = true ↔ user_id bob ∈ participants vault) ∧
  (res'.1 = true → ¬ can_send alice (Some "vault"%string) (Client.chatRooms (App.client sc'))) ∧
  (res'.1 = false → room_known "vault" (Client.chatRooms (App.client sc')) = Some vault).
Proof.
  apply (@ownership_is_handed_over toy_crypto toy_json_jwk toy_exportKey_jwk toy_utf8Decode
           vault_created 2 3 4 alice bob alice "vault"%string vault
           (App.render alice_app) (App.render bob_app) (App.render alice_app)
           alice_app bob_app alice_app).
  - reflexivity.
  - vm_compute. reflexivity.
  - reflexivity.
  - discriminate.
  - discriminate.
  - reflexivity.
  - reflexivity.
Defined.

(** ** Invitations *)

Lemma room_known_updated rid existing members (e : Store.Entries) :
  List.find (λ r, bool_decide (room_id r = rid)) (Store.getChatRooms e) = Some existing →
  room_known rid (Store.getChatRooms (Store.updateChatRoom (room_id existing) members e))
  = Some (Relay.set_participants existing members).
Proof.
  intros Hfind. unfold Store.updateChatRoom.
  assert (Hid : room_id existing = rid).
  { apply find_some in Hfind as [_ Hp]. by apply bool_decide_eq_true_1 in Hp. }
  rewrite Hid. clear Hid.
  assert (Hgen : ∀ l,
    List.find (λ r, bool_decide (room_id r = rid)) l = Some existing →
    ∃ idx, Store.findRoom rid l = Some idx ∧
      room_known rid (alter (λ r, Relay.set_participants r members) idx l)
      = Some (Relay.set_participants existing members)).
  { induction l as [|r l IH]; [done|]. simpl. unfold room_known.
    destruct (decide (room_id r = rid)) as [Heq|Hne].
    - rewrite (bool_decide_eq_true_2 _ Heq). intros [= ->]. exists 0%nat.
      split; [done|]. simpl. by rewrite bool_decide_eq_true_2 by by rewrite Heq.
    - rewrite (bool_decide_eq_false_2 _ Hne). intros Hf.
      destruct (IH Hf) as (idx & -> & Hknown). exists (S idx). split; [done|].
      simpl. rewrite bool_decide_eq_false_2 by by intros [= ?]. exact Hknown. }
  destruct (Hgen _ Hfind) as (idx & -> & Hknown).
  unfold Store.getChatRooms, Store.setChatRooms in *. exact Hknown.
Qed.

Lemma room_known_added rid room (l : list ChatRoom) :
  List.find (λ r, bool_decide (room_id r = rid)) l = None → room_id room = rid →
  room_known rid (l ++ [room]) = Some room.
Proof.
  intros Hfind Hid. unfold room_known.
  induction l as [|r l IH]; simpl in *.
  - by rewrite bool_decide_eq_true_2 by by rewrite Hid.
  - destruct (decide (room_id r = rid)) as [Heq|Hne].
    + by rewrite (bool_decide_eq_true_2 _ Heq) in Hfind.
    + rewrite (bool_decide_eq_false_2 _ Hne) in Hfind.
      rewrite bool_decide_eq_false_2 by by intros [= ?]. by apply IH.
Qed.

Lemma elem_of_filter_Boolean (l : list (option string)) u :
  u ∈ App.filter_Boolean l ↔ u ≠ EmptyString ∧ Some u ∈ l.
Proof.
  unfold App.filter_Boolean. rewrite list_elem_of_omap. split.
  - intros (o & Hin & Ho). destruct o as [v|]; [|done]. simpl in Ho.
    case_bool_decide; [|done]. by simplify_eq.
  - intros [Hne Hin]. exists (Some u). split; [done|]. simpl.
    by rewrite bool_decide_eq_true_2.
Qed.


